(** * signals-http-tracking: the Global Activity Tracker and the Action
      Lifecycle Controller, embedded and verified.

    The development follows the TypeScript sources:
    - [global-signals-http-tracking.ts] (class [GlobalHttpTracker]);
    - the two revisions of the controller file found in the repository,
      referred to below as [Part000] and [Part001]. *)

From Stdlib Require Import ZArith Lia.
From stdpp Require Import base gmap sets list strings pretty sorting.

#[local] Set Warnings "-clear-no-such-hyp".
Local Open Scope string_scope.
Local Open Scope list_scope.
Local Open Scope Z_scope.

(** ** JavaScript values

    Producers, callbacks and failures carry untyped run-time values
    (the TypeScript generics are erased); an object is an association list
    in property order. *)

#[warnings="-register-all"]
Inductive JsVal : Type :=
| JUndefined
| JNull
| JBool (b : bool)
| JNum (n : Z)
| JStr (s : string)
| JObj (props : list (string * JsVal)).

(** ** Global Activity Tracker  (global-signals-http-tracking.ts) *)

Module Tracker.
Section WithMessage.
(** [msg: string] in the declaration.  The controller of [Part000] hands
  the producer's failure value over unchanged (it is typed [any]), so the
  embedding is parametric in what an error message is. *)
Context {Msg : Type}.

Record GlobalHttpTracker : Type := mk {
_pending : gset string;
_lastError : option Msg;
}.

(** Field initialisers: [signal(new Set<string>())], [signal(null)]. *)
Definition init : GlobalHttpTracker :=
{| _pending := ∅; _lastError := None |}.

Definition pendingCount (t : GlobalHttpTracker) : nat := size (_pending t).
Definition isAnyLoading (t : GlobalHttpTracker) : bool :=
bool_decide (0 < pendingCount t)%nat.
Definition lastError (t : GlobalHttpTracker) : option Msg := _lastError t.

(** [const s = new Set(this._pending()); s.add(id); this._pending.set(s)] *)
Definition begin (id : string) (t : GlobalHttpTracker) : GlobalHttpTracker :=
{| _pending := {[ id ]} ∪ _pending t; _lastError := _lastError t |}.

(** [s.delete(id)] *)
Definition success (id : string) (t : GlobalHttpTracker) : GlobalHttpTracker :=
{| _pending := _pending t ∖ {[ id ]}; _lastError := _lastError t |}.

Definition error (id : string) (msg : Msg) (t : GlobalHttpTracker)
: GlobalHttpTracker :=
{| _pending := _pending t ∖ {[ id ]}; _lastError := Some msg |}.

Definition clearError (t : GlobalHttpTracker) : GlobalHttpTracker :=
{| _pending := _pending t; _lastError := None |}.
End WithMessage.
Arguments GlobalHttpTracker : clear implicits.
End Tracker.

(** ** Shared vocabulary of the controller  (both revisions, lines 6-33) *)

(** [type AsyncStatus = 'idle' | 'loading' | 'success' | 'error'] *)
Inductive AsyncStatus : Type := Idle | Loading | Success | Error.

#[global] Instance AsyncStatus_eq_dec : EqDecision AsyncStatus.
Proof. solve_decision. Defined.

(** A user callback is opaque code: it is known by a name, and calling it is
    recorded in the trace.  The one callback the library builds itself is the
    closure installed by [continueWith]:
    [(data, ...originalArgs) => { originalSuccess?.(data, ...originalArgs);
                                  nextActionFn(data, ...originalArgs); }] *)
#[warnings="-register-all"]
Inductive Callback : Type :=
| CbUser (f : string)
| CbContinue (originalSuccess : option Callback) (nextActionFn : string).

(** The calls made by invoking a callback, in order. *)
Fixpoint call_cb (cb : Callback) (actuals : list JsVal)
  : list (string * list JsVal) :=
  match cb with
  | CbUser f => [(f, actuals)]
  | CbContinue originalSuccess nextActionFn =>
      match originalSuccess with
      | Some o => call_cb o actuals
      | None => []
      end ++ [(nextActionFn, actuals)]
  end.

(** [cb?.(actuals)] *)
Definition call_opt (cb : option Callback) (actuals : list JsVal)
  : list (string * list JsVal) :=
  match cb with
  | Some c => call_cb c actuals
  | None => []
  end.

(** The record of per-invocation callback slots
    [{ loading?, success?, error?, finally? }]. *)
Record Handlers : Type := mkHandlers {
  h_loading : option Callback;
  h_success : option Callback;
  h_error : option Callback;
  h_finally : option Callback;
}.

Definition no_handlers : Handlers := mkHandlers None None None None.

(** [interface ActionOptions]; an absent field is [None]. *)
Record ActionOptions : Type := mkOptions {
  track : option bool;
  debounceMs : option Z;
  onLoading : option string;
  onSuccess : option string;
  onError : option string;
}.

(** [options.track !== false] *)
Definition tracked (o : ActionOptions) : bool :=
  match track o with
  | Some false => false
  | _ => true
  end.

(** [if (options.debounceMs)]: truthiness of [number | undefined]. *)
Definition debounced (o : ActionOptions) : bool :=
  match debounceMs o with
  | Some n => negb (n =? 0)
  | None => false
  end.

(** ** Asynchronous producers

    A producer is a cold observable that notifies its subscriber from later
    tasks only (spec section 6: the outcome arrives asynchronously and an
    outstanding call can be cancelled).  Its behaviour is a script: bursts of
    notifications, each burst delivered in one task, [delay] milliseconds
    after the previous one (after the subscription for the first). *)

Inductive Notif : Type :=
| NNext (v : JsVal)
| NError (e : JsVal)
| NComplete.

Definition Script : Type := list (Z * list Notif).

(** What [getObservable(...args)] returns: one producer, or (for
    [createSignalForkJoinAction]) rxjs's [forkJoin] of a dictionary. *)
Inductive ObservableExpr : Type :=
| Source (s : Script)
| ForkJoin (sources : list (string * Script)).

(** An HTTP-like producer: one value then completion, or one failure. *)
Definition responds (delay : Z) (v : JsVal) : Script :=
  [(delay, [NNext v; NComplete])].
Definition fails (delay : Z) (e : JsVal) : Script :=
  [(delay, [NError e])].

(** ** The run-time state

    One controller instance (the closure of [createBaseAction]), the tracker
    it injects, and the host's task queues.  Handler records live in a heap
    and are held by reference: [executeObservable] captures a record that
    the handler chain mutates later. *)

(** A subscription to one producer. *)
Record SourceSub : Type := mkSourceSub {
  src_script : Script;          (* what the producer has yet to send *)
  src_stopped : bool;           (* its subscriber saw error/complete *)
}.

(** The variables of one [forkJoin] subscription. *)
Record JoinState : Type := mkJoin {
  j_keys : list string;
  j_hasValue : list bool;
  j_values : list JsVal;
  j_remainingCompletions : nat;
  j_remainingEmissions : nat;
}.

(** Who subscribed to the Observable returned by [executeObservable]. *)
Inductive Downstream : Type :=
| Direct          (* [executeObservable(...args).subscribe()] in [run] *)
| SwitchMapInner. (* the inner subscriber of [switchMap] *)

(** One call of [executeObservable] together with the subscription to the
    Observable it returned. *)
Record Invocation : Type := mkInvocation {
  inv_args : list JsVal;
  inv_handlers : nat;           (* [handlers], a heap reference *)
  inv_id : string;              (* [id] *)
  inv_downstream : Downstream;
  inv_closed : bool;            (* [subscriber] is closed *)
  inv_sub_closed : bool;        (* [sub] is closed *)
  inv_sources : list SourceSub;
  inv_join : option JoinState;  (* [Some] when [getObservable] is a forkJoin *)
}.

(** What the caller's code does inside one task.  [chain] is the index of
    the [run] call (0 for the first) whose return value is used. *)
Inductive UserOp : Type :=
| URun (args : list JsVal)
| UOnLoading (chain : nat) (cb : string)
| UOnSuccess (chain : nat) (cb : string)
| UOnError (chain : nat) (cb : string)
| UFinally (chain : nat) (cb : string)
| UContinueWith (chain : nat) (nextActionFn : string).

Inductive Task : Type :=
| TUser (ops : list UserOp)       (* a block of caller code *)
| TRunTimeout (args : list JsVal) (* Part000: the [setTimeout(..., 0)] of [run] *)
| TDebounce                       (* [debounceTime]'s scheduled action *)
| TSource (k i : nat).            (* producer [i] of invocation [k] sends a burst *)

(** [queueMicrotask(() => { options.onLoading?.(...args);
                            handlers.loading?.(...args); })] *)
Inductive Microtask : Type :=
| MLoading (k : nat) (args : list JsVal) (handlers : nat).

Inductive Subscription : Type :=
| SubPipeline          (* [runSubject.pipe(...).subscribe()] *)
| SubExec (k : nat).   (* [executeObservable(...).subscribe()] *)

(** State of [runSubject.pipe(debounceTime(ms), switchMap(...))]. *)
Record Pipeline : Type := mkPipeline {
  activeTask : bool;
  lastValue : option (list JsVal);
  lastTime : Z;
  innerSubscriber : option nat;
}.

Inductive Level : Type :=
| Store     (* a callback of [options] *)
| Handle.   (* a callback of the invocation's handler record *)

Inductive Kind : Type := KLoading | KSuccess | KError | KFinally.

Inductive Event : Type :=
| EvRun (args : list JsVal)                    (* [run(...args)] was called *)
| EvDispatch (k : nat) (args : list JsVal)     (* [executeObservable(...args)] *)
| EvProducer (k : nat) (args : list JsVal)     (* [getObservable(...args).subscribe] *)
| EvStatus (k : nat) (s : AsyncStatus)         (* [status.set(s)] *)
| EvError (k : nat) (e : option JsVal)         (* [error.set(e)] *)
| EvConsoleError (msg : string)                (* [console.error(msg)] *)
| EvCall (k : nat) (lvl : Level) (kind : Kind) (f : string)
    (actuals : list JsVal).           (* the user function [f] is called *)

Record World : Type := mkWorld {
  now : Z;
  timers : list (Z * Task);         (* sorted by due time, first in first out *)
  microtasks : list Microtask;
  heap : list Handlers;
  invocations : list Invocation;
  tracker : Tracker.GlobalHttpTracker JsVal;
  status : AsyncStatus;
  error : option JsVal;
  currentSub : option Subscription;
  currentHandlers : nat;            (* Part000 only *)
  chains : list nat;                (* handler record of each [run] call *)
  pipeline : Pipeline;
  trace : list (Z * Event);
}.

(** Derived signals: [computed(() => status() === ...)]. *)
Definition isLoading (w : World) : bool := bool_decide (status w = Loading).
Definition isSuccess (w : World) : bool := bool_decide (status w = Success).
Definition isError (w : World) : bool := bool_decide (status w = Error).

(** Field updates. *)
Definition set_now (x : Z) (w : World) : World :=
  mkWorld x (timers w) (microtasks w) (heap w) (invocations w) (tracker w) (status w) (error w) (currentSub w) (currentHandlers w) (chains w) (pipeline w) (trace w).
Definition set_timers (x : list (Z * Task)) (w : World) : World :=
  mkWorld (now w) x (microtasks w) (heap w) (invocations w) (tracker w) (status w) (error w) (currentSub w) (currentHandlers w) (chains w) (pipeline w) (trace w).
Definition set_microtasks (x : list Microtask) (w : World) : World :=
  mkWorld (now w) (timers w) x (heap w) (invocations w) (tracker w) (status w) (error w) (currentSub w) (currentHandlers w) (chains w) (pipeline w) (trace w).
Definition set_heap (x : list Handlers) (w : World) : World :=
  mkWorld (now w) (timers w) (microtasks w) x (invocations w) (tracker w) (status w) (error w) (currentSub w) (currentHandlers w) (chains w) (pipeline w) (trace w).
Definition set_invocations (x : list Invocation) (w : World) : World :=
  mkWorld (now w) (timers w) (microtasks w) (heap w) x (tracker w) (status w) (error w) (currentSub w) (currentHandlers w) (chains w) (pipeline w) (trace w).
Definition set_tracker (x : Tracker.GlobalHttpTracker JsVal) (w : World) : World :=
  mkWorld (now w) (timers w) (microtasks w) (heap w) (invocations w) x (status w) (error w) (currentSub w) (currentHandlers w) (chains w) (pipeline w) (trace w).
Definition set_status (x : AsyncStatus) (w : World) : World :=
  mkWorld (now w) (timers w) (microtasks w) (heap w) (invocations w) (tracker w) x (error w) (currentSub w) (currentHandlers w) (chains w) (pipeline w) (trace w).
Definition set_error (x : option JsVal) (w : World) : World :=
  mkWorld (now w) (timers w) (microtasks w) (heap w) (invocations w) (tracker w) (status w) x (currentSub w) (currentHandlers w) (chains w) (pipeline w) (trace w).
Definition set_currentSub (x : option Subscription) (w : World) : World :=
  mkWorld (now w) (timers w) (microtasks w) (heap w) (invocations w) (tracker w) (status w) (error w) x (currentHandlers w) (chains w) (pipeline w) (trace w).
Definition set_currentHandlers (x : nat) (w : World) : World :=
  mkWorld (now w) (timers w) (microtasks w) (heap w) (invocations w) (tracker w) (status w) (error w) (currentSub w) x (chains w) (pipeline w) (trace w).
Definition set_chains (x : list nat) (w : World) : World :=
  mkWorld (now w) (timers w) (microtasks w) (heap w) (invocations w) (tracker w) (status w) (error w) (currentSub w) (currentHandlers w) x (pipeline w) (trace w).
Definition set_pipeline (x : Pipeline) (w : World) : World :=
  mkWorld (now w) (timers w) (microtasks w) (heap w) (invocations w) (tracker w) (status w) (error w) (currentSub w) (currentHandlers w) (chains w) x (trace w).
Definition set_trace (x : list (Z * Event)) (w : World) : World :=
  mkWorld (now w) (timers w) (microtasks w) (heap w) (invocations w) (tracker w) (status w) (error w) (currentSub w) (currentHandlers w) (chains w) (pipeline w) x.

(** ** Host primitives *)

(** The two revisions of the controller source. *)
Inductive Revision : Type := Part000 | Part001.

(** [crypto.randomUUID()]: the [k]-th identifier drawn. *)
Definition uuid (k : nat) : string := "uuid-" +:+ pretty k.

(** Timers fire by due time, and in the order they were set when due
    together. *)
Fixpoint insert_timer (due : Z) (t : Task) (q : list (Z * Task))
  : list (Z * Task) :=
  match q with
  | [] => [(due, t)]
  | (d', t') :: q' =>
      if due <? d' then (due, t) :: q else (d', t') :: insert_timer due t q'
  end.

(** [setTimeout(t, delay)]; a negative delay counts as zero. *)
Definition schedule (delay : Z) (t : Task) (w : World) : World :=
  set_timers (insert_timer (now w + Z.max 0 delay) t (timers w)) w.

Definition log (e : Event) (w : World) : World :=
  set_trace (trace w ++ [(now w, e)]) w.

Definition log_calls (k : nat) (lvl : Level) (kind : Kind)
    (calls : list (string * list JsVal)) (w : World) : World :=
  set_trace
    (trace w ++ map (fun c => (now w, EvCall k lvl kind c.1 c.2)) calls) w.

(** Handler records: [{}] allocates, a field assignment alters in place. *)
Definition alloc_handlers (w : World) : nat * World :=
  (length (heap w), set_heap (heap w ++ [no_handlers]) w).

Definition read_handlers (r : nat) (w : World) : Handlers :=
  default no_handlers (heap w !! r).

Definition write_handlers (r : nat) (f : Handlers -> Handlers) (w : World)
  : World :=
  set_heap (alter f r (heap w)) w.

Definition upd_inv (k : nat) (f : Invocation -> Invocation) (w : World)
  : World :=
  set_invocations (alter f k (invocations w)) w.

(** ** Failure normalisation  (Part001, lines 178-187) *)

Fixpoint lookup_prop (key : string) (props : list (string * JsVal)) : JsVal :=
  match props with
  | [] => JUndefined
  | (k, v) :: ps => if String.eqb k key then v else lookup_prop key ps
  end.

(** [v?.key] for the keys ["name"] and ["error"]: defined on objects only
    (primitives have neither property). *)
Definition get_prop (v : JsVal) (key : string) : JsVal :=
  match v with
  | JObj props => lookup_prop key props
  | _ => JUndefined
  end.

(** [typeof v === 'string'] *)
Definition typeof_string (v : JsVal) : bool :=
  match v with JStr _ => true | _ => false end.

Definition as_string (v : JsVal) : string :=
  match v with JStr s => s | _ => "" end.

(** [v === 'HttpErrorResponse'] *)
Definition is_HttpErrorResponse (v : JsVal) : bool :=
  match v with JStr s => String.eqb s "HttpErrorResponse" | _ => false end.

Definition extractErrorMessage (err : JsVal) : string :=
  let errorMsg := "" in
  if is_HttpErrorResponse (get_prop err "name")
     && typeof_string (get_prop err "error")
  then as_string (get_prop err "error")
  else if is_HttpErrorResponse (get_prop err "name")
          && typeof_string (get_prop (get_prop err "error") "error")
  then as_string (get_prop (get_prop err "error") "error")
  else errorMsg.

(** ** The controller: [createBaseAction]

    [rev] selects the revision of the source, [options] and [getObservable]
    are the arguments of [createBaseAction]. *)

Section Controller.
Variable rev : Revision.
Variable options : ActionOptions.
Variable getObservable : list JsVal -> ObservableExpr.

(** *** Subscriptions *)

Definition close_inv (inv : Invocation) : Invocation :=
  mkInvocation (inv_args inv) (inv_handlers inv) (inv_id inv)
    (inv_downstream inv) true true (inv_sources inv) (inv_join inv).

Definition close_sub_of (inv : Invocation) : Invocation :=
  mkInvocation (inv_args inv) (inv_handlers inv) (inv_id inv)
    (inv_downstream inv) (inv_closed inv) true (inv_sources inv)
    (inv_join inv).

Definition with_sources (f : list SourceSub -> list SourceSub)
    (inv : Invocation) : Invocation :=
  mkInvocation (inv_args inv) (inv_handlers inv) (inv_id inv)
    (inv_downstream inv) (inv_closed inv) (inv_sub_closed inv)
    (f (inv_sources inv)) (inv_join inv).

Definition with_join (j : JoinState) (inv : Invocation) : Invocation :=
  mkInvocation (inv_args inv) (inv_handlers inv) (inv_id inv)
    (inv_downstream inv) (inv_closed inv) (inv_sub_closed inv)
    (inv_sources inv) (Some j).

Definition set_innerSubscriber (s : option nat) (w : World) : World :=
  let p := pipeline w in
  set_pipeline (mkPipeline (activeTask p) (lastValue p) (lastTime p) s) w.

(** [subscription.unsubscribe()] on the subscription of invocation [k]:
    closes [subscriber] and runs the teardown [() => sub.unsubscribe()]. *)
Definition unsubscribe_exec (k : nat) (w : World) : World :=
  upd_inv k close_inv w.

(** [currentSub.unsubscribe()].  The pipeline subscription is held in
    [currentSub] only when [options.debounceMs] is truthy, and then [run]
    never unsubscribes it. *)
Definition unsubscribe (s : Subscription) (w : World) : World :=
  match s with
  | SubExec k => unsubscribe_exec k w
  | SubPipeline => w
  end.

(** [subscriber.complete()] inside [executeObservable]: tells the
    downstream subscriber, then closes and tears down. *)
Definition complete_exec (k : nat) (w : World) : World :=
  match invocations w !! k with
  | Some inv =>
      if inv_closed inv then w
      else
        let w := match inv_downstream inv with
                 | SwitchMapInner => set_innerSubscriber None w
                 | Direct => w
                 end in
        upd_inv k close_inv w
  | None => w
  end.

(** *** The observer passed to [getObservable(...args).subscribe]
    (Part000 lines 84-100, Part001 lines 83-100) *)

Definition on_next (k : nat) (data : JsVal) (w : World) : World :=
  match invocations w !! k with
  | Some inv =>
      let args := inv_args inv in
      let w := log (EvStatus k Success) (set_status Success w) in
      let w := if tracked options
               then set_tracker (Tracker.success (inv_id inv) (tracker w)) w
               else w in
      let w := log_calls k Store KSuccess
                 (call_opt (CbUser <$> onSuccess options) (data :: args)) w in
      let handlers := read_handlers (inv_handlers inv) w in
      let w := log_calls k Handle KSuccess
                 (call_opt (h_success handlers) (data :: args)) w in
      let w := log_calls k Handle KFinally (call_opt (h_finally handlers) []) w in
      complete_exec k w
  | None => w
  end.

(** Part000 passes [err] on as it is; Part001 first computes
    [msg = extractErrorMessage(err)], which also writes to the console. *)
Definition normalise (err : JsVal) (w : World) : JsVal * World :=
  match rev with
  | Part000 => (err, w)
  | Part001 =>
      let msg := extractErrorMessage err in
      (JStr msg, log (EvConsoleError msg) w)
  end.

Definition on_error (k : nat) (err : JsVal) (w : World) : World :=
  match invocations w !! k with
  | Some inv =>
      let args := inv_args inv in
      let '(msg, w) := normalise err w in
      let w := log (EvError k (Some msg)) (set_error (Some msg) w) in
      let w := log (EvStatus k Error) (set_status Error w) in
      let w := if tracked options
               then set_tracker (Tracker.error (inv_id inv) msg (tracker w)) w
               else w in
      let w := log_calls k Store KError
                 (call_opt (CbUser <$> onError options) (msg :: args)) w in
      let handlers := read_handlers (inv_handlers inv) w in
      let w := log_calls k Handle KError
                 (call_opt (h_error handlers) (msg :: args)) w in
      let w := log_calls k Handle KFinally (call_opt (h_finally handlers) []) w in
      complete_exec k w
  | None => w
  end.

(** [sub], the subscriber built from that observer: a closed subscriber
    drops what it is sent; error and complete close it. *)
Definition sub_closed (k : nat) (w : World) : bool :=
  match invocations w !! k with
  | Some inv => inv_sub_closed inv
  | None => true
  end.

Definition sub_next (k : nat) (v : JsVal) (w : World) : World :=
  if sub_closed k w then w else on_next k v w.

Definition sub_error (k : nat) (e : JsVal) (w : World) : World :=
  if sub_closed k w then w else upd_inv k close_sub_of (on_error k e w).

Definition sub_complete (k : nat) (w : World) : World :=
  if sub_closed k w then w else upd_inv k close_sub_of w.

(** *** rxjs [forkJoin] over a dictionary of producers

    Per source [i]: on next, [if (!hasValue) { hasValue = true;
    remainingEmissions--; } values[i] = value]; on complete,
    [remainingCompletions--] and then the finalizer
    [if (!remainingCompletions || !hasValue) { if (!remainingEmissions)
    subscriber.next(createObject(keys, values)); subscriber.complete(); }];
    an error goes straight to the subscriber. *)

Definition createObject (keys : list string) (values : list JsVal) : JsVal :=
  JObj (zip keys values).

Definition stop_source (k i : nat) (w : World) : World :=
  upd_inv k (with_sources (alter (fun s => mkSourceSub (src_script s) true) i)) w.

Definition join_next (i : nat) (v : JsVal) (j : JoinState) : JoinState :=
  mkJoin (j_keys j) (<[i:=true]> (j_hasValue j)) (<[i:=v]> (j_values j))
    (j_remainingCompletions j)
    (if default false (j_hasValue j !! i) then j_remainingEmissions j
     else pred (j_remainingEmissions j)).

Definition join_complete (j : JoinState) : JoinState :=
  mkJoin (j_keys j) (j_hasValue j) (j_values j)
    (pred (j_remainingCompletions j)) (j_remainingEmissions j).

Definition join_notify (k i : nat) (n : Notif) (j : JoinState) (w : World)
  : World :=
  match n with
  | NNext v => upd_inv k (with_join (join_next i v j)) w
  | NComplete =>
      let j := join_complete j in
      let w := stop_source k i (upd_inv k (with_join j) w) in
      if Nat.eqb (j_remainingCompletions j) 0
         || negb (default false (j_hasValue j !! i))
      then
        let w := if Nat.eqb (j_remainingEmissions j) 0
                 then sub_next k (createObject (j_keys j) (j_values j)) w
                 else w in
        sub_complete k w
      else w
  | NError e => sub_error k e (stop_source k i w)
  end.

(** A single producer notifies [sub] directly. *)
Definition source_notify (k i : nat) (n : Notif) (w : World) : World :=
  match n with
  | NNext v => sub_next k v w
  | NError e => sub_error k e (stop_source k i w)
  | NComplete => sub_complete k (stop_source k i w)
  end.

(** Producer [i] of invocation [k] still has a subscriber. *)
Definition source_live (k i : nat) (w : World) : bool :=
  match invocations w !! k with
  | Some inv =>
      negb (inv_sub_closed inv)
      && match inv_sources inv !! i with
         | Some src => negb (src_stopped src)
         | None => false
         end
  | None => false
  end.

Definition deliver (k i : nat) (w : World) (n : Notif) : World :=
  if source_live k i w then
    match invocations w !! k ≫= inv_join with
    | Some j => join_notify k i n j w
    | None => source_notify k i n w
    end
  else w.

Definition remaining_script (k i : nat) (w : World) : Script :=
  default [] (src_script <$> (invocations w !! k ≫= fun inv => inv_sources inv !! i)).

Definition start_source (k i : nat) (s : Script) (w : World) : World :=
  match s with
  | (delay, _) :: _ => schedule delay (TSource k i) w
  | [] => w
  end.

(** The task of a producer: send the next burst, and set the timer of the
    one after it.  A producer that was unsubscribed sends nothing. *)
Definition fire_source (k i : nat) (w : World) : World :=
  if source_live k i w then
    match remaining_script k i w with
    | (_, burst) :: rest =>
        let w := upd_inv k (with_sources
                   (alter (fun s => mkSourceSub rest (src_stopped s)) i)) w in
        let w := foldl (deliver k i) w burst in
        if source_live k i w then start_source k i rest w else w
    | [] => w
    end
  else w.

Fixpoint start_sources (k i : nat) (scripts : list Script) (w : World)
  : World :=
  match scripts with
  | [] => w
  | s :: rest => start_sources k (S i) rest (start_source k i s w)
  end.

(** *** [executeObservable]  (Part000 lines 69-105, Part001 lines 62-105) *)

(** The variables closed over by the Observable it returns. *)
Record ExecObservable : Type := mkExec {
  eo_args : list JsVal;
  eo_handlers : nat;
  eo_id : string;
}.

Definition executeObservable (args : list JsVal) (w : World)
  : ExecObservable * World :=
  let k := length (invocations w) in
  let '(handlers, w) :=
    match rev with
    | Part000 => (currentHandlers w, w)   (* [const handlers = currentHandlers] *)
    | Part001 => alloc_handlers w         (* [const handlers = {}] *)
    end in
  let w := log (EvDispatch k args) w in
  let w := log (EvStatus k Loading) (set_status Loading w) in
  let w := log (EvError k None) (set_error None w) in
  let id := uuid k in
  let w := if tracked options
           then set_tracker (Tracker.begin id (tracker w)) w
           else w in
  let w := set_microtasks (microtasks w ++ [MLoading k args handlers]) w in
  (mkExec args handlers id, w).

Definition sources_of (obs : ObservableExpr) : list SourceSub :=
  match obs with
  | Source s => [mkSourceSub s false]
  | ForkJoin srcs => map (fun p => mkSourceSub p.2 false) srcs
  end.

Definition join_of (obs : ObservableExpr) : option JoinState :=
  match obs with
  | Source _ => None
  | ForkJoin srcs =>
      let n := length srcs in
      Some (mkJoin (map fst srcs) (replicate n false) (replicate n JUndefined) n n)
  end.

(** Subscribing to the Observable returned by [executeObservable]: the
    function given to [new Observable] runs and subscribes to
    [getObservable(...args)].  An empty [forkJoin] completes at once. *)
Definition subscribe_exec (ds : Downstream) (eo : ExecObservable) (w : World)
  : nat * World :=
  let k := length (invocations w) in
  let obs := getObservable (eo_args eo) in
  let inv := mkInvocation (eo_args eo) (eo_handlers eo) (eo_id eo) ds
               false false (sources_of obs) (join_of obs) in
  let w := set_invocations (invocations w ++ [inv]) w in
  let w := log (EvProducer k (eo_args eo)) w in
  let w := match obs with
           | Source s => start_source k 0 s w
           | ForkJoin [] => sub_complete k w
           | ForkJoin srcs => start_sources k 0 (map snd srcs) w
           end in
  (k, w).

(** *** The debounced stream  (Part000 lines 57-67, Part001 lines 50-60)

    [runSubject.pipe(debounceTime(options.debounceMs),
                     switchMap(args => executeObservable(...args)))] *)

Definition dueTime : Z := default 0 (debounceMs options).

(** [switchMap]: [innerSubscriber?.unsubscribe()], then project and
    subscribe to the result. *)
Definition switchMap_next (args : list JsVal) (w : World) : World :=
  let w := match innerSubscriber (pipeline w) with
           | Some k => unsubscribe_exec k w
           | None => w
           end in
  let '(eo, w) := executeObservable args w in
  let '(k, w) := subscribe_exec SwitchMapInner eo w in
  set_innerSubscriber (Some k) w.

(** [debounceTime] on a value: [lastValue = value; lastTime = now();
    if (!activeTask) activeTask = schedule(emitWhenIdle, dueTime)]. *)
Definition runSubject_next (args : list JsVal) (w : World) : World :=
  let p := pipeline w in
  let w := set_pipeline
             (mkPipeline (activeTask p) (Some args) (now w) (innerSubscriber p)) w in
  if activeTask p then w
  else
    let p := pipeline w in
    schedule dueTime TDebounce
      (set_pipeline
         (mkPipeline true (lastValue p) (lastTime p) (innerSubscriber p)) w).

(** [emit]: [if (activeTask) { activeTask = null; const value = lastValue;
    lastValue = null; subscriber.next(value); }] *)
Definition emit (w : World) : World :=
  let p := pipeline w in
  if activeTask p then
    let w := set_pipeline
               (mkPipeline false None (lastTime p) (innerSubscriber p)) w in
    match lastValue p with
    | Some args => switchMap_next args w
    | None => w
    end
  else w.

(** [emitWhenIdle]: a value that came during the window moves the target;
    the action is set again for the rest of the time. *)
Definition emitWhenIdle (w : World) : World :=
  let targetTime := lastTime (pipeline w) + dueTime in
  if now w <? targetTime
  then schedule (targetTime - now w) TDebounce w
  else emit w.

(** *** [run] and the handler chain *)

(** The else-branch: [if (currentSub) currentSub.unsubscribe();
    currentSub = executeObservable(...args).subscribe();] *)
Definition execute_now (args : list JsVal) (w : World) : World :=
  let w := match currentSub w with
           | Some s => unsubscribe s w
           | None => w
           end in
  let '(eo, w) := executeObservable args w in
  let '(k, w) := subscribe_exec Direct eo w in
  set_currentSub (Some (SubExec k)) w.

(** [if (options.debounceMs) runSubject.next(args); else { ... }]:
    the body of the timeout callback in Part000 (lines 138-145), run
    directly by [run] in Part001 (lines 115-122). *)
Definition trigger (args : list JsVal) (w : World) : World :=
  if debounced options then runSubject_next args w else execute_now args w.

(** Part000 (lines 107-148): [currentHandlers = {}], build the chain,
    [setTimeout(..., 0)].  Part001 (lines 107-157): a local
    [handlers = {}], trigger at once, build the chain. *)
Definition run (args : list JsVal) (w : World) : World :=
  let w := log (EvRun args) w in
  let '(r, w) := alloc_handlers w in
  let w := set_chains (chains w ++ [r]) w in
  match rev with
  | Part000 => schedule 0 (TRunTimeout args) (set_currentHandlers r w)
  | Part001 => trigger args w
  end.

(** The record a chain method writes to: in Part000 the one
    [currentHandlers] refers to when the method is called, in Part001 the
    [handlers] of the [run] call that returned the chain. *)
Definition chain_target (chain : nat) (w : World) : option nat :=
  match chains w !! chain with
  | Some r =>
      match rev with
      | Part000 => Some (currentHandlers w)
      | Part001 => Some r
      end
  | None => None
  end.

Definition register (chain : nat) (f : Handlers -> Handlers) (w : World)
  : World :=
  match chain_target chain w with
  | Some r => write_handlers r f w
  | None => w
  end.

Definition chain_onLoading (cb : string) (h : Handlers) : Handlers :=
  mkHandlers (Some (CbUser cb)) (h_success h) (h_error h) (h_finally h).
Definition chain_onSuccess (cb : string) (h : Handlers) : Handlers :=
  mkHandlers (h_loading h) (Some (CbUser cb)) (h_error h) (h_finally h).
Definition chain_onError (cb : string) (h : Handlers) : Handlers :=
  mkHandlers (h_loading h) (h_success h) (Some (CbUser cb)) (h_finally h).
Definition chain_finally (cb : string) (h : Handlers) : Handlers :=
  mkHandlers (h_loading h) (h_success h) (h_error h) (Some (CbUser cb)).
(** [const originalSuccess = handlers.success; handlers.success = ...] *)
Definition chain_continueWith (nextActionFn : string) (h : Handlers)
  : Handlers :=
  mkHandlers (h_loading h) (Some (CbContinue (h_success h) nextActionFn))
    (h_error h) (h_finally h).

Definition user_op (w : World) (op : UserOp) : World :=
  match op with
  | URun args => run args w
  | UOnLoading c cb => register c (chain_onLoading cb) w
  | UOnSuccess c cb => register c (chain_onSuccess cb) w
  | UOnError c cb => register c (chain_onError cb) w
  | UFinally c cb => register c (chain_finally cb) w
  | UContinueWith c next => register c (chain_continueWith next) w
  end.

(** *** The event loop *)

Definition run_task (t : Task) (w : World) : World :=
  match t with
  | TUser ops => foldl user_op w ops
  | TRunTimeout args => trigger args w
  | TDebounce => emitWhenIdle w
  | TSource k i => fire_source k i w
  end.

Definition run_microtask (w : World) (m : Microtask) : World :=
  match m with
  | MLoading k args handlers =>
      let w := log_calls k Store KLoading
                 (call_opt (CbUser <$> onLoading options) args) w in
      log_calls k Handle KLoading
        (call_opt (h_loading (read_handlers handlers w)) args) w
  end.

(** Microtasks run once the current task has returned. *)
Definition drain (w : World) : World :=
  foldl run_microtask (set_microtasks [] w) (microtasks w).

(** One turn: the earliest timer, then the microtasks it queued. *)
Definition step (w : World) : option World :=
  match timers w with
  | [] => None
  | (due, t) :: q => Some (drain (run_task t (set_now due (set_timers q w))))
  end.

Fixpoint turns (fuel : nat) (w : World) : World :=
  match fuel with
  | O => w
  | S fuel' =>
      match step w with
      | Some w' => turns fuel' w'
      | None => w
      end
  end.

(** The state [createBaseAction] sets up, with the injected tracker. *)
Definition createBaseAction (tr : Tracker.GlobalHttpTracker JsVal) : World :=
  {| now := 0; timers := []; microtasks := [];
     heap := match rev with Part000 => [no_handlers] | Part001 => [] end;
     invocations := []; tracker := tr;
     status := Idle; error := None;
     currentSub := if debounced options then Some SubPipeline else None;
     currentHandlers := 0; chains := [];
     pipeline := mkPipeline false None 0 None;
     trace := [] |}.

(** The caller's code: blocks of operations at given times. *)
Definition Scenario : Type := list (Z * list UserOp).

Definition boot (tr : Tracker.GlobalHttpTracker JsVal) (sc : Scenario)
  : World :=
  foldl (fun w b => set_timers (insert_timer b.1 (TUser b.2) (timers w)) w)
    (createBaseAction tr) sc.
End Controller.

(** The two constructors.  A controller is known by its revision and the
    two arguments of [createBaseAction]. *)
Record Action : Type := mkAction {
  a_rev : Revision;
  a_options : ActionOptions;
  a_getObservable : list JsVal -> ObservableExpr;
}.

(** [options] left out is [{}]. *)
Definition no_options : ActionOptions := mkOptions None None None None None.

(** [createSignalAction(observableFn, options)] *)
Definition createSignalAction (rev : Revision)
    (observableFn : list JsVal -> ObservableExpr) (options : ActionOptions)
  : Action :=
  mkAction rev options observableFn.

(** [createSignalForkJoinAction(observablesFn, options)]:
    [createBaseAction(request => forkJoin(observablesFn(request)), options)];
    [request] is the first argument, [undefined] when there is none. *)
Definition createSignalForkJoinAction (rev : Revision)
    (observablesFn : JsVal -> list (string * Script)) (options : ActionOptions)
  : Action :=
  mkAction rev options
    (fun args => ForkJoin (observablesFn (default JUndefined (head args)))).

(** Run a scenario on a controller for at most [fuel] turns. *)
Definition play (a : Action) (tr : Tracker.GlobalHttpTracker JsVal)
    (sc : Scenario) (fuel : nat) : World :=
  turns (a_rev a) (a_options a) (a_getObservable a) fuel
    (boot (a_rev a) (a_options a) tr sc).

(** The scenario is over: no timer is left. *)
Definition quiescent (w : World) : bool :=
  match timers w with [] => true | _ => false end.

(** * Properties *)

(** ** The tracker *)

Section TrackerFacts.
Context {Msg : Type}.
Implicit Types (t : Tracker.GlobalHttpTracker Msg) (id : string).

Lemma begin_idempotent t id :
  Tracker.begin id (Tracker.begin id t) = Tracker.begin id t.
Proof.
  destruct t as [p e]. unfold Tracker.begin; simpl. f_equal. set_solver.
Qed.

Lemma success_absent t id :
  id ∉ Tracker._pending t -> Tracker.success id t = t.
Proof.
  destruct t as [p e]. unfold Tracker.success; simpl. intros H.
  f_equal. set_solver.
Qed.

Lemma error_absent_pending t id m :
  id ∉ Tracker._pending t ->
  Tracker._pending (Tracker.error id m t) = Tracker._pending t.
Proof. destruct t as [p e]. simpl. set_solver. Qed.

Lemma pendingCount_begin_fresh t id :
  id ∉ Tracker._pending t ->
  Tracker.pendingCount (Tracker.begin id t) = S (Tracker.pendingCount t).
Proof.
  destruct t as [p e]. unfold Tracker.pendingCount; simpl. intros H.
  rewrite size_union by set_solver. by rewrite size_singleton.
Qed.

Lemma success_begin_fresh t id :
  id ∉ Tracker._pending t ->
  Tracker._pending (Tracker.success id (Tracker.begin id t))
  = Tracker._pending t.
Proof. destruct t as [p e]. simpl. set_solver. Qed.
End TrackerFacts.

(** C8.  On a fresh tracker, [begin("x"); begin("x"); success("x")] leaves
    [pendingCount() == 0]; [begin("a"); begin("b"); error("a","boom")]
    leaves [pendingCount() == 1] and [lastError() == "boom"]; and on any
    tracker, [success] or [error] for an id that is not pending leaves the
    pending set as it was. *)
Theorem C8_tracker_bookkeeping :
  Tracker.pendingCount
    (Tracker.success "x"
       (Tracker.begin "x" (Tracker.begin "x" (@Tracker.init string)))) = 0%nat
  /\ (let t := Tracker.error "a" "boom"
                 (Tracker.begin "b" (Tracker.begin "a" (@Tracker.init string))) in
      Tracker.pendingCount t = 1%nat /\ Tracker.lastError t = Some "boom")
  /\ (forall (t : Tracker.GlobalHttpTracker string) (id msg : string),
        id ∉ Tracker._pending t ->
        Tracker._pending (Tracker.success id t) = Tracker._pending t
        /\ Tracker._pending (Tracker.error id msg t) = Tracker._pending t).
Proof.
  split; [|split].
  - rewrite begin_idempotent. unfold Tracker.pendingCount.
    rewrite success_begin_fresh by set_solver. reflexivity.
  - split; vm_compute; reflexivity.
  - intros t id msg H. split.
    + by rewrite success_absent.
    + by apply error_absent_pending.
Qed.

Lemma C8_tracker_bookkeeping_witness :
  let t := Tracker.begin "a" (@Tracker.init string) in
  ("z" ∉ Tracker._pending t)
  /\ Tracker._pending (Tracker.success "z" t) = Tracker._pending t
  /\ Tracker._pending (Tracker.error "z" "boom" t) = Tracker._pending t.
Proof.
  assert (H : "z" ∉ Tracker._pending (Tracker.begin "a" (@Tracker.init string))).
  { simpl. set_solver. }
  split; [exact H|].
  exact (proj2 (proj2 C8_tracker_bookkeeping) _ "z" "boom" H).
Defined.

(** ** Reading a trace *)

Definition events (w : World) : list Event := (trace w).*2.

(** The invocation an event belongs to.  Loading notifications are left
    out: they run from a microtask, possibly after a later dispatch. *)
Definition mark (e : Event) : option nat :=
  match e with
  | EvDispatch k _ | EvProducer k _ | EvStatus k _ | EvError k _ => Some k
  | EvCall k _ kind _ _ =>
      match kind with KLoading => None | _ => Some k end
  | EvRun _ | EvConsoleError _ => None
  end.

(** What an invocation does when its producer settles: the writes of
    [status] and [error], and the success, error and finally callbacks. *)
Definition is_settle (e : Event) : bool :=
  match e with
  | EvStatus _ Success | EvStatus _ Error => true
  | EvError _ (Some _) => true
  | EvCall _ _ KSuccess _ _ | EvCall _ _ KError _ _
  | EvCall _ _ KFinally _ _ => true
  | _ => false
  end.

(** The writes of the shared signals by invocation [k], with the moment its
    producer was subscribed. *)
Definition lifecycle_ev (k : nat) (e : Event) : bool :=
  match e with
  | EvProducer j _ | EvStatus j _ | EvError j _ => Nat.eqb j k
  | _ => false
  end.

Definition lifecycle (k : nat) (evs : list Event) : list Event :=
  filter (fun e => lifecycle_ev k e = true) evs.

Definition outstanding_shape (k : nat) (args : list JsVal) : list Event :=
  [EvStatus k Loading; EvError k None; EvProducer k args].

(** The three histories an invocation can have. *)
Inductive Lifecycle (k : nat) : list Event -> Prop :=
| lc_outstanding args :
    Lifecycle k (outstanding_shape k args)
| lc_success args :
    Lifecycle k (outstanding_shape k args ++ [EvStatus k Success])
| lc_error args msg :
    Lifecycle k (outstanding_shape k args
                 ++ [EvError k (Some msg); EvStatus k Error]).

Lemma lifecycle_app k l1 l2 :
  lifecycle k (l1 ++ l2) = lifecycle k l1 ++ lifecycle k l2.
Proof. apply filter_app. Qed.

Lemma lifecycle_cons k e l :
  lifecycle k (e :: l)
  = (if lifecycle_ev k e then [e] else []) ++ lifecycle k l.
Proof.
  unfold lifecycle. rewrite filter_cons.
  destruct (lifecycle_ev k e); by case_decide.
Qed.

Lemma lifecycle_ev_mark k e : lifecycle_ev k e = true -> mark e = Some k.
Proof.
  destruct e; simpl; try discriminate; intros H; apply Nat.eqb_eq in H;
    by subst.
Qed.

Lemma lifecycle_other k es :
  Forall (fun e => mark e <> Some k) es -> lifecycle k es = [].
Proof.
  induction 1 as [|e es He _ IH]; [done|].
  unfold lifecycle in *. rewrite filter_cons, IH.
  destruct (decide (lifecycle_ev k e = true)) as [Hl|]; [|done].
  by apply lifecycle_ev_mark in Hl.
Qed.

Lemma lifecycle_unbound n k evs :
  Forall (fun j => (j < n)%nat) (omap mark evs) -> (n <= k)%nat ->
  lifecycle k evs = [].
Proof.
  intros Hb Hk. apply lifecycle_other.
  apply Forall_forall. intros e He Hm.
  rewrite Forall_forall in Hb.
  assert (k < n)%nat; [|lia].
  apply Hb. apply list_elem_of_omap. eauto.
Qed.

Lemma sorted_snoc (l : list nat) (k : nat) :
  StronglySorted le l -> Forall (fun j => (j <= k)%nat) l ->
  StronglySorted le (l ++ [k]).
Proof.
  induction 1 as [|x l Hs IH Hx]; intros Hk; simpl.
  - repeat constructor.
  - inversion Hk; subst. constructor; [by apply IH|].
    apply Forall_app. split; [done|]. by constructor.
Qed.

Lemma sorted_app_same (l : list nat) (k : nat) (l' : list nat) :
  StronglySorted le l -> Forall (fun j => (j <= k)%nat) l ->
  Forall (fun j => j = k) l' ->
  StronglySorted le (l ++ l').
Proof.
  intros Hs Hk Hl'. revert l Hs Hk.
  induction Hl' as [|x l' -> _ IH]; intros l Hs Hk.
  - by rewrite app_nil_r.
  - rewrite (cons_middle k), app_assoc. apply IH.
    + by apply sorted_snoc.
    + apply Forall_app. split; [done|]. by constructor.
Qed.

(** ** The single-slot invariant

    At most one invocation has a live subscription to its producer: the
    most recent one, which [currentSub] (or [switchMap]'s inner subscriber)
    refers to.  Settling events are written by a live invocation only. *)

Section Invariants.
Variable rev : Revision.
Variable options : ActionOptions.
Variable getObservable : list JsVal -> ObservableExpr.

(** The producer of invocation [k] can still reach the controller. *)
Definition live (k : nat) (w : World) : Prop := sub_closed k w = false.

(** The invocation the next dispatch will unsubscribe. *)
Definition holder (w : World) : option nat :=
  if debounced options then innerSubscriber (pipeline w)
  else match currentSub w with
       | Some (SubExec k) => Some k
       | _ => None
       end.

Record Good (w : World) : Prop := mkGood {
  g_last : forall k, live k w -> S k = length (invocations w);
  g_holder : forall k, live k w -> holder w = Some k;
  g_closed : forall k inv, invocations w !! k = Some inv ->
    inv_closed inv = true -> inv_sub_closed inv = true;
  g_act : debounced options = false -> activeTask (pipeline w) = false;
  g_bound :
    Forall (fun j => (j < length (invocations w))%nat) (omap mark (events w));
  g_sorted : StronglySorted le (omap mark (events w));
  g_life : forall k, (k < length (invocations w))%nat ->
    Lifecycle k (lifecycle k (events w));
  g_live : forall k, live k w ->
    exists args, lifecycle k (events w) = outstanding_shape k args;
}.

Lemma live_lookup k w :
  live k w <->
  exists inv, invocations w !! k = Some inv /\ inv_sub_closed inv = false.
Proof.
  unfold live, sub_closed. destruct (invocations w !! k) as [inv|].
  - split; [eauto|]. by intros (? & [= <-] & ?).
  - split; [done|]. by intros (? & ? & ?).
Qed.

(** A change of an invocation that can only close subscriptions. *)
Definition Closing (f : Invocation -> Invocation) : Prop :=
  forall inv,
    (inv_sub_closed inv = true -> inv_sub_closed (f inv) = true)
    /\ (inv_closed (f inv) = true ->
        inv_sub_closed (f inv) = true \/ inv_closed inv = true).

Lemma Closing_close_inv : Closing close_inv.
Proof. intros inv. simpl. auto. Qed.
Lemma Closing_close_sub_of : Closing close_sub_of.
Proof. intros inv. simpl. auto. Qed.
Lemma Closing_with_sources f : Closing (with_sources f).
Proof. intros inv. simpl. auto. Qed.
Lemma Closing_with_join j : Closing (with_join j).
Proof. intros inv. simpl. auto. Qed.
Lemma Closing_id : Closing id.
Proof. intros inv. simpl. auto. Qed.

Lemma live_alter f k j w w' :
  Closing f -> invocations w' = alter f k (invocations w) ->
  live j w' -> live j w.
Proof.
  intros Hf Hi. rewrite !live_lookup, Hi. intros (inv' & Hl & Hc).
  destruct (decide (k = j)) as [->|Hne].
  - rewrite list_lookup_alter_eq in Hl.
    destruct (invocations w !! j) as [inv|]; [|done].
    injection Hl as <-. exists inv. split; [done|].
    destruct (inv_sub_closed inv) eqn:E; [|done].
    apply (Hf inv) in E. congruence.
  - rewrite list_lookup_alter_ne in Hl by done. eauto.
Qed.

(** Nothing is dispatched and nothing settles: subscriptions may close,
    and only unmarked events are written. *)
Lemma Good_quiet f k es w w' :
  Good w -> Closing f ->
  invocations w' = alter f k (invocations w) ->
  (forall j, live j w' -> holder w' = holder w) ->
  (debounced options = false -> activeTask (pipeline w') = false) ->
  events w' = events w ++ es ->
  Forall (fun e => mark e = None) es ->
  Good w'.
Proof.
  intros [G1 G2 G3 G4 G5 G6 G7 G8] Hf Hi Hh Ha He Hes.
  assert (Hm : omap mark (events w') = omap mark (events w)).
  { rewrite He, omap_app.
    replace (omap mark es) with (@nil nat); [by rewrite app_nil_r|].
    clear -Hes. induction Hes as [|e es Hm _ IH]; [done|].
    simpl. by rewrite Hm. }
  assert (Hl : forall j, lifecycle j (events w') = lifecycle j (events w)).
  { intros j. rewrite He, lifecycle_app, (lifecycle_other j es).
    - by rewrite app_nil_r.
    - eapply Forall_impl; [exact Hes|]. simpl. intros e ->. done. }
  assert (Hlen : length (invocations w') = length (invocations w)).
  { by rewrite Hi, length_alter. }
  split.
  - intros j Hj. rewrite Hlen. eauto using live_alter.
  - intros j Hj. rewrite (Hh j Hj). eauto using live_alter.
  - intros j inv'. rewrite Hi. intros Hl' Hc.
    destruct (decide (k = j)) as [->|Hne].
    + rewrite list_lookup_alter_eq in Hl'.
      destruct (invocations w !! j) as [inv|] eqn:E; [|done].
      injection Hl' as <-. destruct (Hf inv) as [Hf1 Hf2].
      destruct (Hf2 Hc) as [|Hc']; [done|]. eauto.
    + rewrite list_lookup_alter_ne in Hl' by done. eauto.
  - done.
  - by rewrite Hm, Hlen.
  - by rewrite Hm.
  - intros j. rewrite Hlen, Hl. apply G7.
  - intros j Hj. rewrite Hl. eauto using live_alter.
Qed.

Lemma Good_frame es w w' :
  Good w ->
  invocations w' = invocations w ->
  holder w' = holder w ->
  (debounced options = false -> activeTask (pipeline w') = false) ->
  events w' = events w ++ es ->
  Forall (fun e => mark e = None) es ->
  Good w'.
Proof.
  intros G Hi Hh Ha He Hes.
  apply (Good_quiet id 0%nat es w w'); auto using Closing_id.
  rewrite Hi. symmetry. by apply list_alter_id.
Qed.

Lemma omap_mark_same k es :
  Forall (fun e => mark e = None \/ mark e = Some k) es ->
  Forall (fun j => j = k) (omap mark es).
Proof.
  induction 1 as [|e es [He|He] _ IH]; simpl; rewrite ?He; simpl; auto.
Qed.

Lemma lifecycle_same_other k j es :
  Forall (fun e => mark e = None \/ mark e = Some k) es -> j <> k ->
  lifecycle j es = [].
Proof.
  intros H Hne. apply lifecycle_other.
  eapply Forall_impl; [exact H|]. simpl. intros e [->| ->]; congruence.
Qed.

(** Invocation [k] settles: it writes its marked events and closes. *)
Lemma Good_settle k es w w' :
  Good w -> live k w ->
  invocations w' = alter close_inv k (invocations w) ->
  (debounced options = false -> activeTask (pipeline w') = false) ->
  events w' = events w ++ es ->
  Forall (fun e => mark e = None \/ mark e = Some k) es ->
  (lifecycle k es = [EvStatus k Success]
   \/ exists msg, lifecycle k es = [EvError k (Some msg); EvStatus k Error]) ->
  Good w' /\ forall j, ~ live j w'.
Proof.
  intros G Hk Hi Ha He Hes Hlc.
  pose proof (g_last _ G k Hk) as Hn.
  assert (Hlen : length (invocations w') = length (invocations w)).
  { by rewrite Hi, length_alter. }
  assert (Hdead : forall j, ~ live j w').
  { intros j Hj.
    pose proof (live_alter close_inv k j w w' Closing_close_inv Hi Hj) as Hj'.
    pose proof (g_last _ G j Hj') as Hn'.
    assert (j = k) as -> by lia.
    apply live_lookup in Hj as (inv' & Hl & Hc).
    rewrite Hi, list_lookup_alter_eq in Hl.
    destruct (invocations w !! k); [|done]. injection Hl as <-. done. }
  split; [|done].
  destruct G as [G1 G2 G3 G4 G5 G6 G7 G8]. split.
  - intros j Hj. by destruct (Hdead j).
  - intros j Hj. by destruct (Hdead j).
  - intros j inv'. rewrite Hi. intros Hl' Hc.
    destruct (decide (k = j)) as [->|Hne].
    + rewrite list_lookup_alter_eq in Hl'.
      destruct (invocations w !! j) as [inv|] eqn:E; [|done].
      by injection Hl' as <-.
    + rewrite list_lookup_alter_ne in Hl' by done. eauto.
  - done.
  - rewrite He, omap_app, Hlen. apply Forall_app. split; [done|].
    eapply Forall_impl; [apply (omap_mark_same k), Hes|].
    simpl. intros j ->. lia.
  - rewrite He, omap_app. apply (sorted_app_same _ k); [done| |].
    + eapply Forall_impl; [exact G5|]. simpl. intros j Hj. lia.
    + by apply omap_mark_same.
  - intros j Hj. rewrite He, lifecycle_app.
    destruct (decide (j = k)) as [->|Hne].
    + destruct (G8 k Hk) as [args ->].
      destruct Hlc as [->|[msg ->]]; constructor.
    + rewrite (lifecycle_same_other k j es) by done.
      rewrite app_nil_r. apply G7. lia.
  - intros j Hj. by destruct (Hdead j).
Qed.

(** A dispatch while no invocation is live: a new invocation is added. *)
Lemma Good_dispatch inv args es w w' :
  Good w -> (forall j, ~ live j w) ->
  invocations w' = invocations w ++ [inv] ->
  inv_closed inv = false ->
  (inv_sub_closed inv = false -> holder w' = Some (length (invocations w))) ->
  (debounced options = false -> activeTask (pipeline w') = false) ->
  events w' = events w ++ es ->
  Forall (fun e => mark e = None \/ mark e = Some (length (invocations w))) es ->
  lifecycle (length (invocations w)) es
  = outstanding_shape (length (invocations w)) args ->
  Good w'.
Proof.
  intros G Hdead Hi Hc Hh Ha He Hes Hlc.
  set (n := length (invocations w)) in *.
  assert (Hlen : length (invocations w') = S n).
  { rewrite Hi, length_app. simpl. lia. }
  assert (Hlive : forall j, live j w' -> j = n /\ inv_sub_closed inv = false).
  { intros j Hj. apply live_lookup in Hj as (inv' & Hl & Hsc).
    rewrite Hi in Hl. apply lookup_app_Some in Hl as [Hl|[Hge Hl]].
    - destruct (Hdead j). apply live_lookup. eauto.
    - apply list_lookup_singleton_Some in Hl as [Hj ->].
      split; [|done]. fold n in Hge, Hj. lia. }
  destruct G as [G1 G2 G3 G4 G5 G6 G7 G8]. split.
  - intros j Hj. destruct (Hlive j Hj) as [-> _]. lia.
  - intros j Hj. destruct (Hlive j Hj) as [-> Hs]. auto.
  - intros j inv'. rewrite Hi. intros Hl Hc'.
    apply lookup_app_Some in Hl as [Hl|[Hge Hl]]; [eauto|].
    apply list_lookup_singleton_Some in Hl as [_ ->]. congruence.
  - done.
  - rewrite He, omap_app, Hlen. apply Forall_app. split.
    + eapply Forall_impl; [exact G5|]. simpl. intros j Hj. fold n in Hj. lia.
    + eapply Forall_impl; [apply (omap_mark_same n), Hes|].
      simpl. intros j ->. lia.
  - rewrite He, omap_app. apply (sorted_app_same _ n); [done| |].
    + eapply Forall_impl; [exact G5|]. simpl. intros j Hj. fold n in Hj. lia.
    + by apply omap_mark_same.
  - intros j Hj. rewrite He, lifecycle_app.
    destruct (decide (j = n)) as [->|Hne].
    + rewrite (lifecycle_unbound n n (events w)) by (done || lia).
      simpl. rewrite Hlc. constructor.
    + rewrite (lifecycle_same_other n j es) by done.
      rewrite app_nil_r. apply G7. fold n. lia.
  - intros j Hj. destruct (Hlive j Hj) as [-> _].
    exists args. rewrite He, lifecycle_app.
    rewrite (lifecycle_unbound n n (events w)) by (done || lia).
    done.
Qed.

(** *** What the observer's callbacks do to the state *)

Lemma events_log e w : events (log e w) = events w ++ [e].
Proof. unfold events, log. simpl. by rewrite fmap_app. Qed.

Lemma events_log_calls k lvl kind calls w :
  events (log_calls k lvl kind calls w)
  = events w ++ map (fun c => EvCall k lvl kind c.1 c.2) calls.
Proof.
  unfold events, log_calls. simpl. rewrite fmap_app. f_equal.
  induction calls as [|c calls IH]; [done|]. simpl. by f_equal.
Qed.

(** The events of [on_next] and [on_error], given the invocation. *)
Definition success_events (k : nat) (inv : Invocation) (data : JsVal)
    (w : World) : list Event :=
  EvStatus k Success
  :: map (fun c => EvCall k Store KSuccess c.1 c.2)
       (call_opt (CbUser <$> onSuccess options) (data :: inv_args inv))
  ++ map (fun c => EvCall k Handle KSuccess c.1 c.2)
       (call_opt (h_success (read_handlers (inv_handlers inv) w))
          (data :: inv_args inv))
  ++ map (fun c => EvCall k Handle KFinally c.1 c.2)
       (call_opt (h_finally (read_handlers (inv_handlers inv) w)) []).

Definition normalised (err : JsVal) : JsVal :=
  match rev with
  | Part000 => err
  | Part001 => JStr (extractErrorMessage err)
  end.

Definition error_events (k : nat) (inv : Invocation) (err : JsVal)
    (w : World) : list Event :=
  match rev with
  | Part000 => []
  | Part001 => [EvConsoleError (extractErrorMessage err)]
  end
  ++ EvError k (Some (normalised err))
  :: EvStatus k Error
  :: map (fun c => EvCall k Store KError c.1 c.2)
       (call_opt (CbUser <$> onError options)
          (normalised err :: inv_args inv))
  ++ map (fun c => EvCall k Handle KError c.1 c.2)
       (call_opt (h_error (read_handlers (inv_handlers inv) w))
          (normalised err :: inv_args inv))
  ++ map (fun c => EvCall k Handle KFinally c.1 c.2)
       (call_opt (h_finally (read_handlers (inv_handlers inv) w)) []).

Lemma on_next_trace k data w inv :
  invocations w !! k = Some inv ->
  trace (on_next options k data w)
  = trace w ++ (pair (now w) <$> success_events k inv data w).
Proof.
  intros Hl. unfold on_next, complete_exec, success_events. rewrite Hl.
  destruct (tracked options); cbn; rewrite Hl;
    destruct (inv_closed inv), (inv_downstream inv); cbn;
    rewrite ?fmap_app, <- ?app_assoc;
    rewrite <- ?list_fmap_compose; reflexivity.
Qed.

Lemma events_of_trace w w' es :
  trace w' = trace w ++ (pair (now w) <$> es) -> events w' = events w ++ es.
Proof.
  intros H. unfold events. rewrite H, fmap_app. f_equal.
  rewrite <- list_fmap_compose. apply list_fmap_id.
Qed.

Lemma on_next_events k data w inv :
  invocations w !! k = Some inv ->
  events (on_next options k data w)
  = events w ++ success_events k inv data w.
Proof. intros Hl. by apply events_of_trace, on_next_trace. Qed.

Lemma on_next_invocations k data w inv :
  invocations w !! k = Some inv -> inv_closed inv = false ->
  invocations (on_next options k data w) = alter close_inv k (invocations w).
Proof.
  intros Hl Hc. unfold on_next, complete_exec. rewrite Hl.
  destruct (tracked options); cbn; rewrite Hl, Hc;
    destruct (inv_downstream inv); reflexivity.
Qed.

Lemma on_next_activeTask k data w :
  activeTask (pipeline (on_next options k data w)) = activeTask (pipeline w).
Proof.
  unfold on_next, complete_exec.
  destruct (invocations w !! k) as [inv|] eqn:Hl; [|done].
  destruct (tracked options); cbn; rewrite Hl;
    destruct (inv_closed inv), (inv_downstream inv); reflexivity.
Qed.

Lemma on_error_trace k err w inv :
  invocations w !! k = Some inv ->
  trace (on_error rev options k err w)
  = trace w ++ (pair (now w) <$> error_events k inv err w).
Proof.
  intros Hl. unfold on_error, normalise, complete_exec, error_events, normalised.
  rewrite Hl.
  destruct rev, (tracked options); cbn; rewrite Hl;
    destruct (inv_closed inv), (inv_downstream inv); cbn;
    rewrite ?fmap_app, <- ?app_assoc;
    rewrite <- ?list_fmap_compose; reflexivity.
Qed.

Lemma on_error_events k err w inv :
  invocations w !! k = Some inv ->
  events (on_error rev options k err w)
  = events w ++ error_events k inv err w.
Proof. intros Hl. by apply events_of_trace, on_error_trace. Qed.

Lemma on_error_invocations k err w inv :
  invocations w !! k = Some inv -> inv_closed inv = false ->
  invocations (on_error rev options k err w)
  = alter close_inv k (invocations w).
Proof.
  intros Hl Hc. unfold on_error, normalise, complete_exec. rewrite Hl.
  destruct rev, (tracked options); cbn; rewrite Hl, Hc;
    destruct (inv_downstream inv); reflexivity.
Qed.

Lemma on_error_activeTask k err w :
  activeTask (pipeline (on_error rev options k err w))
  = activeTask (pipeline w).
Proof.
  unfold on_error, normalise, complete_exec.
  destruct (invocations w !! k) as [inv|] eqn:Hl; [|done].
  destruct rev, (tracked options); cbn; rewrite Hl;
    destruct (inv_closed inv), (inv_downstream inv); reflexivity.
Qed.

Lemma calls_marked k lvl kind calls :
  kind <> KLoading ->
  Forall (fun e => mark e = None \/ mark e = Some k)
    (map (fun c => EvCall k lvl kind c.1 c.2) calls).
Proof.
  intros Hk. apply Forall_forall. intros e He.
  apply list_elem_of_fmap in He as (c & -> & _). right.
  destruct kind; done.
Qed.

Lemma calls_no_lifecycle j k lvl kind calls :
  lifecycle j (map (fun c => EvCall k lvl kind c.1 c.2) calls) = [].
Proof. induction calls as [|c calls IH]; [done|]. exact IH. Qed.

Lemma success_events_marked k inv data w :
  Forall (fun e => mark e = None \/ mark e = Some k)
    (success_events k inv data w).
Proof.
  unfold success_events. constructor; [by right|].
  rewrite !Forall_app. repeat split; by apply calls_marked.
Qed.

Lemma success_events_lifecycle k inv data w :
  lifecycle k (success_events k inv data w) = [EvStatus k Success].
Proof.
  unfold success_events. rewrite lifecycle_cons, !lifecycle_app.
  rewrite !calls_no_lifecycle. simpl. by rewrite Nat.eqb_refl.
Qed.

Lemma error_events_marked k inv err w :
  Forall (fun e => mark e = None \/ mark e = Some k)
    (error_events k inv err w).
Proof.
  unfold error_events. apply Forall_app. split.
  - destruct rev; repeat constructor.
  - constructor; [by right|]. constructor; [by right|].
    rewrite !Forall_app. repeat split; by apply calls_marked.
Qed.

Lemma error_events_lifecycle k inv err w :
  lifecycle k (error_events k inv err w)
  = [EvError k (Some (normalised err)); EvStatus k Error].
Proof.
  unfold error_events. rewrite lifecycle_app.
  replace (lifecycle k match rev with
                       | Part000 => []
                       | Part001 => [EvConsoleError (extractErrorMessage err)]
                       end) with (@nil Event) by (by destruct rev).
  rewrite !lifecycle_cons, !lifecycle_app.
  rewrite !calls_no_lifecycle. simpl. by rewrite Nat.eqb_refl.
Qed.

Lemma live_open k w inv :
  Good w -> live k w -> invocations w !! k = Some inv ->
  inv_closed inv = false /\ inv_sub_closed inv = false.
Proof.
  intros G Hk Hl. apply live_lookup in Hk as (inv' & Hl' & Hs).
  assert (inv' = inv) as -> by congruence. split; [|done].
  destruct (inv_closed inv) eqn:E; [|done].
  pose proof (g_closed _ G k inv Hl E). congruence.
Qed.

Lemma on_next_good k data w :
  Good w -> live k w ->
  Good (on_next options k data w)
  /\ forall j, ~ live j (on_next options k data w).
Proof.
  intros G Hk. pose proof Hk as Hk'.
  apply live_lookup in Hk' as (inv & Hl & _).
  destruct (live_open k w inv G Hk Hl) as [Hc _].
  apply (Good_settle k (success_events k inv data w) w); [done|done|..].
  - by apply (on_next_invocations k data w inv).
  - rewrite on_next_activeTask. by apply g_act.
  - by apply (on_next_events k data w inv).
  - apply success_events_marked.
  - left. apply success_events_lifecycle.
Qed.

Lemma on_error_good k err w :
  Good w -> live k w ->
  Good (on_error rev options k err w)
  /\ forall j, ~ live j (on_error rev options k err w).
Proof.
  intros G Hk. pose proof Hk as Hk'.
  apply live_lookup in Hk' as (inv & Hl & _).
  destruct (live_open k w inv G Hk Hl) as [Hc _].
  apply (Good_settle k (error_events k inv err w) w); [done|done|..].
  - by apply (on_error_invocations k err w inv).
  - rewrite on_error_activeTask. by apply g_act.
  - by apply (on_error_events k err w inv).
  - apply error_events_marked.
  - right. eexists. apply error_events_lifecycle.
Qed.

(** *** The invariant is kept by every piece of the controller *)

Lemma Good_same w w' :
  Good w ->
  invocations w' = invocations w -> currentSub w' = currentSub w ->
  pipeline w' = pipeline w -> trace w' = trace w ->
  Good w'.
Proof.
  intros G Hi Hc Hp Ht. apply (Good_frame [] w w'); auto.
  - unfold holder. by rewrite Hc, Hp.
  - rewrite Hp. by apply g_act.
  - unfold events. by rewrite Ht, app_nil_r.
Qed.

Lemma upd_inv_good k f w : Good w -> Closing f -> Good (upd_inv k f w).
Proof.
  intros G Hf. apply (Good_quiet f k [] w); try done.
  - exact (g_act w G).
  - unfold events. simpl. by rewrite app_nil_r.
Qed.

Lemma schedule_good d t w : Good w -> Good (schedule d t w).
Proof. intros G. by apply (Good_same w). Qed.

Lemma log_good e w : Good w -> mark e = None -> Good (log e w).
Proof.
  intros G He. apply (Good_frame [e] w); auto.
  - exact (g_act w G).
  - apply events_log.
Qed.

Lemma log_calls_loading_good k lvl calls w :
  Good w -> Good (log_calls k lvl KLoading calls w).
Proof.
  intros G.
  apply (Good_frame (map (fun c => EvCall k lvl KLoading c.1 c.2) calls) w);
    auto.
  - exact (g_act w G).
  - apply events_log_calls.
  - apply Forall_forall. intros e He.
    by apply list_elem_of_fmap in He as (c & -> & _).
Qed.

Lemma sub_next_good k v w : Good w -> Good (sub_next options k v w).
Proof.
  intros G. unfold sub_next. destruct (sub_closed k w) eqn:E; [done|].
  by apply on_next_good.
Qed.

Lemma sub_error_good k e w : Good w -> Good (sub_error rev options k e w).
Proof.
  intros G. unfold sub_error. destruct (sub_closed k w) eqn:E; [done|].
  apply upd_inv_good; [|apply Closing_close_sub_of].
  by apply on_error_good.
Qed.

Lemma sub_complete_good k w : Good w -> Good (sub_complete k w).
Proof.
  intros G. unfold sub_complete. destruct (sub_closed k w); [done|].
  by apply upd_inv_good, Closing_close_sub_of.
Qed.

Lemma stop_source_good k i w : Good w -> Good (stop_source k i w).
Proof. intros G. by apply upd_inv_good, Closing_with_sources. Qed.

Lemma deliver_good k i w n : Good w -> Good (deliver rev options k i w n).
Proof.
  intros G. unfold deliver. destruct (source_live k i w); [|done].
  destruct (invocations w !! k ≫= inv_join) as [j|].
  - unfold join_notify. destruct n as [v|e|].
    + by apply upd_inv_good, Closing_with_join.
    + by apply sub_error_good, stop_source_good.
    + match goal with
      | |- Good (if ?c then _ else _) => destruct c
      end.
      * apply sub_complete_good.
        match goal with
        | |- Good (if ?c then _ else _) => destruct c
        end.
        -- apply sub_next_good, stop_source_good.
           by apply upd_inv_good, Closing_with_join.
        -- apply stop_source_good.
           by apply upd_inv_good, Closing_with_join.
      * apply stop_source_good. by apply upd_inv_good, Closing_with_join.
  - unfold source_notify. destruct n as [v|e|].
    + by apply sub_next_good.
    + by apply sub_error_good, stop_source_good.
    + by apply sub_complete_good, stop_source_good.
Qed.

Lemma foldl_deliver_good k i burst w :
  Good w -> Good (foldl (deliver rev options k i) w burst).
Proof.
  revert w. induction burst as [|n burst IH]; intros w G; [done|].
  simpl. by apply IH, deliver_good.
Qed.

Lemma start_source_good k i s w : Good w -> Good (start_source k i s w).
Proof.
  intros G. destruct s as [|[d b] s]; [done|]. by apply schedule_good.
Qed.

Lemma fire_source_good k i w : Good w -> Good (fire_source rev options k i w).
Proof.
  intros G. unfold fire_source. destruct (source_live k i w); [|done].
  destruct (remaining_script k i w) as [|[d burst] rest]; [done|].
  match goal with
  | |- Good (if ?c then _ else _) => destruct c
  end.
  - apply start_source_good, foldl_deliver_good.
    by apply upd_inv_good, Closing_with_sources.
  - apply foldl_deliver_good. by apply upd_inv_good, Closing_with_sources.
Qed.

(** *** Dispatch *)

(** Only the task queues and the like differ. *)
Definition same_view (w w' : World) : Prop :=
  invocations w' = invocations w /\ currentSub w' = currentSub w
  /\ pipeline w' = pipeline w /\ trace w' = trace w /\ now w' = now w.

Lemma start_source_view k i s w : same_view w (start_source k i s w).
Proof. destruct s as [|[d b] s]; repeat split. Qed.

Lemma start_sources_view k i ss w : same_view w (start_sources k i ss w).
Proof.
  revert i w. induction ss as [|s ss IH]; intros i w; [repeat split|].
  simpl. destruct (IH (S i) (start_source k i s w)) as (H1 & H2 & H3 & H4 & H5).
  destruct (start_source_view k i s w) as (H1' & H2' & H3' & H4' & H5').
  repeat split; congruence.
Qed.

Lemma executeObservable_obs args w :
  let n := length (invocations w) in
  let w' := (executeObservable rev options args w).2 in
  invocations w' = invocations w /\ currentSub w' = currentSub w
  /\ pipeline w' = pipeline w
  /\ events w'
     = events w ++ [EvDispatch n args; EvStatus n Loading; EvError n None]
  /\ eo_args (executeObservable rev options args w).1 = args.
Proof.
  unfold executeObservable.
  destruct rev, (tracked options); cbn; unfold events; cbn;
    rewrite ?fmap_app, <- ?app_assoc; repeat split; reflexivity.
Qed.

Lemma subscribe_exec_obs ds eo w :
  let n := length (invocations w) in
  let r := subscribe_exec getObservable ds eo w in
  r.1 = n
  /\ (exists inv, invocations r.2 = invocations w ++ [inv]
                  /\ inv_closed inv = false)
  /\ currentSub r.2 = currentSub w
  /\ pipeline r.2 = pipeline w
  /\ events r.2 = events w ++ [EvProducer n (eo_args eo)].
Proof.
  unfold subscribe_exec. simpl.
  set (inv := mkInvocation _ _ _ _ _ _ _ _).
  set (w1 := log _ _).
  assert (H1 : invocations w1 = invocations w ++ [inv]) by reflexivity.
  assert (H2 : currentSub w1 = currentSub w) by reflexivity.
  assert (H3 : pipeline w1 = pipeline w) by reflexivity.
  assert (H4 : events w1 = events w ++ [EvProducer (length (invocations w)) (eo_args eo)]).
  { unfold w1. by rewrite events_log. }
  split; [done|].
  destruct (getObservable (eo_args eo)) as [s|[|src srcs]].
  - destruct (start_source_view (length (invocations w)) 0 s w1)
      as (E1 & E2 & E3 & E4 & _).
    unfold events in *. rewrite E1, E2, E3, E4. eauto 10.
  - unfold sub_complete, sub_closed, upd_inv. rewrite H1.
    rewrite list_lookup_middle by done. simpl.
    rewrite alter_app_r_alt by lia. rewrite Nat.sub_diag. simpl.
    split; [eexists; split; [reflexivity|done]|]. done.
  - destruct (start_sources_view (length (invocations w)) 0
                (map snd (src :: srcs)) w1) as (E1 & E2 & E3 & E4 & _).
    unfold events in *. rewrite E1, E2, E3, E4. eauto 10.
Qed.

(** The holder is unsubscribed: nothing is live any more. *)
Lemma unsubscribe_exec_good k w : Good w -> Good (unsubscribe_exec k w).
Proof. intros G. by apply upd_inv_good, Closing_close_inv. Qed.

Lemma unsubscribe_holder_dead k w :
  Good w -> holder w = Some k -> forall j, ~ live j (unsubscribe_exec k w).
Proof.
  intros G Hh j Hj.
  assert (Hj' : live j w).
  { eapply (live_alter close_inv k); [apply Closing_close_inv| |exact Hj].
    reflexivity. }
  pose proof (g_holder w G j Hj') as Hh'.
  assert (j = k) as -> by congruence.
  apply live_lookup in Hj as (inv & Hl & Hc).
  unfold unsubscribe_exec, upd_inv in Hl. simpl in Hl.
  rewrite list_lookup_alter_eq in Hl.
  destruct (invocations w !! k); [|done]. by injection Hl as <-.
Qed.

Lemma no_holder_dead w : Good w -> holder w = None -> forall j, ~ live j w.
Proof. intros G Hh j Hj. pose proof (g_holder w G j Hj). congruence. Qed.

(** [executeObservable] then [subscribe], on a state where nothing is
    live, with the new subscription stored by [store]. *)
Lemma dispatch_good ds args (store : nat -> World -> World) w :
  Good w -> (forall j, ~ live j w) ->
  (forall k w', invocations (store k w') = invocations w'
                /\ events (store k w') = events w'
                /\ holder (store k w') = Some k
                /\ activeTask (pipeline (store k w')) = activeTask (pipeline w')) ->
  Good (let '(eo, w1) := executeObservable rev options args w in
        let '(k, w2) := subscribe_exec getObservable ds eo w1 in
        store k w2).
Proof.
  intros G Hdead Hstore.
  pose proof (executeObservable_obs args w) as (E1 & E2 & E3 & E4 & E5).
  destruct (executeObservable rev options args w) as [eo w1].
  cbn [fst snd] in *.
  pose proof (subscribe_exec_obs ds eo w1) as (S0 & (inv & S1 & Sc) & S2 & S3 & S4).
  destruct (subscribe_exec getObservable ds eo w1) as [k w2].
  cbn [fst snd] in *.
  destruct (Hstore k w2) as (T1 & T2 & T3 & T4).
  eapply (Good_dispatch inv args
            [EvDispatch (length (invocations w)) args;
             EvStatus (length (invocations w)) Loading;
             EvError (length (invocations w)) None;
             EvProducer (length (invocations w)) args] w); [done|done|..].
  - rewrite T1, S1. by rewrite E1.
  - done.
  - intros _. rewrite T3, S0. by rewrite E1.
  - intros Hd. rewrite T4, S3, E3. exact (g_act w G Hd).
  - rewrite T2, S4, E4, E1, E5. by rewrite <- app_assoc.
  - repeat constructor; by right.
  - unfold lifecycle, outstanding_shape. simpl.
    rewrite !filter_cons, filter_nil. simpl.
    rewrite Nat.eqb_refl. repeat case_decide; done.
Qed.

Lemma execute_now_good args w :
  debounced options = false -> Good w ->
  Good (execute_now rev options getObservable args w).
Proof.
  intros Hd G. unfold execute_now.
  set (w0 := match currentSub w with
             | Some s => unsubscribe s w
             | None => w
             end).
  assert (G0 : Good w0 /\ forall j, ~ live j w0).
  { unfold w0. destruct (currentSub w) as [[|k]|] eqn:E; simpl.
    - split; [done|]. apply no_holder_dead; [done|].
      unfold holder. by rewrite Hd, E.
    - split; [by apply unsubscribe_exec_good|].
      apply unsubscribe_holder_dead; [done|].
      unfold holder. by rewrite Hd, E.
    - split; [done|]. apply no_holder_dead; [done|].
      unfold holder. by rewrite Hd, E. }
  destruct G0 as [G0 Hdead].
  apply (dispatch_good Direct args
           (fun k w' => set_currentSub (Some (SubExec k)) w') w0 G0 Hdead).
  intros k w'. repeat split. unfold holder. by rewrite Hd.
Qed.

Lemma switchMap_next_good args w :
  debounced options = true -> Good w ->
  Good (switchMap_next rev options getObservable args w).
Proof.
  intros Hd G. unfold switchMap_next.
  set (w0 := match innerSubscriber (pipeline w) with
             | Some k => unsubscribe_exec k w
             | None => w
             end).
  assert (G0 : Good w0 /\ forall j, ~ live j w0).
  { unfold w0. destruct (innerSubscriber (pipeline w)) as [k|] eqn:E.
    - split; [by apply unsubscribe_exec_good|].
      apply unsubscribe_holder_dead; [done|].
      unfold holder. by rewrite Hd.
    - split; [done|]. apply no_holder_dead; [done|].
      unfold holder. by rewrite Hd. }
  destruct G0 as [G0 Hdead].
  apply (dispatch_good SwitchMapInner args
           (fun k w' => set_innerSubscriber (Some k) w') w0 G0 Hdead).
  intros k w'. repeat split. unfold holder. by rewrite Hd.
Qed.

Lemma pipeline_good p w :
  Good w -> innerSubscriber p = innerSubscriber (pipeline w) ->
  (debounced options = false -> activeTask p = false) ->
  Good (set_pipeline p w).
Proof.
  intros G Hi Ha. apply (Good_frame [] w); try done.
  - unfold holder. simpl. by rewrite Hi.
  - unfold events. simpl. by rewrite app_nil_r.
Qed.

Lemma runSubject_next_good args w :
  debounced options = true -> Good w ->
  Good (runSubject_next options args w).
Proof.
  intros Hd G. unfold runSubject_next.
  assert (G1 : Good (set_pipeline
                       (mkPipeline (activeTask (pipeline w)) (Some args)
                          (now w) (innerSubscriber (pipeline w))) w)).
  { apply pipeline_good; [done|done|]. exact (g_act w G). }
  destruct (activeTask (pipeline w)); [done|].
  apply schedule_good, pipeline_good; [done|done|]. congruence.
Qed.

Lemma emit_good w : Good w -> Good (emit rev options getObservable w).
Proof.
  intros G. unfold emit.
  destruct (activeTask (pipeline w)) eqn:Ha; [|done].
  assert (Hd : debounced options = true).
  { destruct (debounced options) eqn:E; [done|].
    pose proof (g_act w G E). congruence. }
  assert (G1 : Good (set_pipeline
                       (mkPipeline false None (lastTime (pipeline w))
                          (innerSubscriber (pipeline w))) w)).
  { by apply pipeline_good. }
  destruct (lastValue (pipeline w)); [|done].
  by apply switchMap_next_good.
Qed.

Lemma emitWhenIdle_good w :
  Good w -> Good (emitWhenIdle rev options getObservable w).
Proof.
  intros G. unfold emitWhenIdle.
  destruct (now w <? _); [by apply schedule_good|by apply emit_good].
Qed.

Lemma trigger_good args w :
  Good w -> Good (trigger rev options getObservable args w).
Proof.
  intros G. unfold trigger. destruct (debounced options) eqn:Hd.
  - by apply runSubject_next_good.
  - by apply execute_now_good.
Qed.

Lemma run_good args w : Good w -> Good (run rev options getObservable args w).
Proof.
  intros G. unfold run. simpl.
  assert (G1 : Good (set_chains (chains w ++ [length (heap w)])
                       (set_heap (heap w ++ [no_handlers])
                          (log (EvRun args) w)))).
  { apply (Good_same (log (EvRun args) w)); [|done..]. by apply log_good. }
  pose proof (trigger_good args _ G1) as Gt.
  assert (Gs : Good (schedule 0 (TRunTimeout args)
                       (set_currentHandlers (length (heap w))
                          (set_chains (chains w ++ [length (heap w)])
                             (set_heap (heap w ++ [no_handlers])
                                (log (EvRun args) w)))))).
  { apply schedule_good. by apply (Good_same _ _ G1). }
  revert Gt Gs. by destruct rev.
Qed.

Lemma user_op_good w op :
  Good w -> Good (user_op rev options getObservable w op).
Proof.
  intros G.
  destruct op; simpl; try by apply run_good.
  all: unfold register; destruct (chain_target rev _ w); [|done].
  all: by apply (Good_same w).
Qed.

Lemma run_task_good t w :
  Good w -> Good (run_task rev options getObservable t w).
Proof.
  intros G. destruct t as [ops|args| |k i]; simpl.
  - revert w G. induction ops as [|op ops IH]; intros w G; [done|].
    simpl. by apply IH, user_op_good.
  - by apply trigger_good.
  - by apply emitWhenIdle_good.
  - by apply fire_source_good.
Qed.

Lemma run_microtask_good w m : Good w -> Good (run_microtask options w m).
Proof.
  intros G. destruct m as [k args h]. simpl.
  by apply log_calls_loading_good, log_calls_loading_good.
Qed.

Lemma drain_good w : Good w -> Good (drain options w).
Proof.
  intros G. unfold drain.
  assert (G1 : Good (set_microtasks [] w)) by (by apply (Good_same w)).
  revert G1. generalize (set_microtasks [] w).
  induction (microtasks w) as [|m ms IH]; intros w' G'; [done|].
  simpl. by apply IH, run_microtask_good.
Qed.

Lemma step_good w w' :
  Good w -> step rev options getObservable w = Some w' -> Good w'.
Proof.
  intros G. unfold step. destruct (timers w) as [|[due t] q]; [done|].
  intros [= <-]. apply drain_good, run_task_good.
  by apply (Good_same w).
Qed.

Lemma turns_good fuel w :
  Good w -> Good (turns rev options getObservable fuel w).
Proof.
  revert w. induction fuel as [|fuel IH]; intros w G; [done|].
  simpl. destruct (step rev options getObservable w) as [w'|] eqn:E; [|done].
  eapply IH, step_good; eauto.
Qed.

Lemma createBaseAction_good tr : Good (createBaseAction rev options tr).
Proof.
  assert (Hdead : forall k, ~ live k (createBaseAction rev options tr)).
  { intros k Hk. apply live_lookup in Hk as (inv & Hl & _). done. }
  split; simpl.
  - intros k Hk. by destruct (Hdead k).
  - intros k Hk. by destruct (Hdead k).
  - intros k inv Hl. done.
  - done.
  - constructor.
  - constructor.
  - intros k Hk. lia.
  - intros k Hk. by destruct (Hdead k).
Qed.

Lemma boot_good tr sc : Good (boot rev options tr sc).
Proof.
  unfold boot. generalize (createBaseAction_good tr).
  generalize (createBaseAction rev options tr).
  induction sc as [|b sc IH]; intros w G; [done|].
  simpl. apply IH. by apply (Good_same w).
Qed.
End Invariants.

Lemma play_good a tr sc fuel :
  Good (a_options a) (play a tr sc fuel).
Proof. apply turns_good, boot_good. Qed.

(** ** What a producer's notification does *)

Section Settle.
Variable rev : Revision.
Variable options : ActionOptions.

(** Invocation [k] waits for its one producer. *)
Definition awaiting (k : nat) (inv : Invocation) (w : World) : Prop :=
  invocations w !! k = Some inv
  /\ inv_closed inv = false /\ inv_sub_closed inv = false
  /\ inv_join inv = None
  /\ exists src, inv_sources inv !! 0%nat = Some src /\ src_stopped src = false.

Lemma deliver_next_awaiting k inv w v :
  awaiting k inv w ->
  deliver rev options k 0 w (NNext v) = on_next options k v w.
Proof.
  intros (Hl & Hc & Hs & Hj & src & Hsrc & Hst).
  unfold deliver, source_live, sub_next. rewrite Hl. simpl.
  rewrite Hs, Hsrc, Hst, Hj. simpl.
  unfold sub_next, sub_closed. by rewrite Hl, Hs.
Qed.

Lemma deliver_error_awaiting k inv w e :
  awaiting k inv w ->
  deliver rev options k 0 w (NError e)
  = upd_inv k close_sub_of
      (on_error rev options k e (stop_source k 0 w)).
Proof.
  intros (Hl & Hc & Hs & Hj & src & Hsrc & Hst).
  unfold deliver, source_live. rewrite Hl. simpl.
  rewrite Hs, Hsrc, Hst, Hj. simpl.
  unfold sub_error, sub_closed, stop_source, upd_inv. simpl.
  rewrite list_lookup_alter_eq, Hl. simpl. by rewrite Hs.
Qed.

Lemma on_next_status k v w inv :
  invocations w !! k = Some inv ->
  status (on_next options k v w) = Success
  /\ error (on_next options k v w) = error w.
Proof.
  intros Hl. unfold on_next, complete_exec. rewrite Hl.
  destruct (tracked options); cbn; rewrite Hl;
    destruct (inv_closed inv), (inv_downstream inv); split; reflexivity.
Qed.

Lemma on_error_status k e w inv :
  invocations w !! k = Some inv ->
  status (on_error rev options k e w) = Error
  /\ error (on_error rev options k e w) = Some (normalised rev e).
Proof.
  intros Hl. unfold on_error, normalise, normalised, complete_exec.
  rewrite Hl.
  destruct rev, (tracked options); cbn; rewrite Hl;
    destruct (inv_closed inv), (inv_downstream inv); split; reflexivity.
Qed.


End Settle.

(** ** Status transitions and stale invocations *)

(** Some event of [tes] is a settling event of invocation [k]. *)
Definition settles_in (k : nat) (tes : list (Z * Event)) : bool :=
  existsb (fun te => is_settle te.2 && bool_decide (mark te.2 = Some k)) tes.

(** The producer of invocation [k] was subscribed in [tes]. *)
Definition subscribed_in (k : nat) (tes : list (Z * Event)) : bool :=
  existsb (fun te => match te.2 with
                     | EvProducer j _ => Nat.eqb j k
                     | _ => false
                     end) tes.



(** C3, amended.  Once an invocation [k'] has been dispatched, no earlier
    invocation [k] settles: none of its success, error or finally callbacks
    runs and it writes neither [status] nor [error] any more. *)
Theorem C3_no_stale_after_dispatch
    (a : Action) (tr : Tracker.GlobalHttpTracker JsVal) (sc : Scenario)
    (fuel : nat) (pre post : list (Z * Event)) (t : Z) (k k' : nat)
    (args : list JsVal) :
  trace (play a tr sc fuel) = pre ++ (t, EvDispatch k' args) :: post ->
  (k < k')%nat ->
  settles_in k post = false.
Proof.
  intros Htr Hk.
  pose proof (g_sorted _ _ (play_good a tr sc fuel)) as Hs.
  unfold events in Hs. rewrite Htr, fmap_app, omap_app in Hs. simpl in Hs.
  apply StronglySorted_app_1_r in Hs.
  apply StronglySorted_inv in Hs as [_ Hs].
  rewrite Forall_forall in Hs.
  unfold settles_in. apply not_true_is_false. intros He.
  apply existsb_exists in He as ([t' e] & Hin & Hb).
  apply andb_prop in Hb as [_ Hm]. apply bool_decide_eq_true in Hm.
  simpl in Hm.
  assert (k' <= k)%nat; [|lia].
  apply Hs. apply list_elem_of_omap. exists e. split; [|done].
  apply list_elem_of_fmap. exists (t', e). split; [done|].
  by apply list_elem_of_In.
Qed.

(** ** Worked scenarios *)

Module Scenarios.
(** A producer that answers after 50 ms. *)
Definition fetch (args : list JsVal) : ObservableExpr :=
  Source (responds 50 (JStr "data")).

Definition store_options (debounceMs : option Z) : ActionOptions :=
  mkOptions None debounceMs (Some "store.onLoading")
    (Some "store.onSuccess") (Some "store.onError").

(** [run(1).onSuccess(f1).finally(fin1)] at [t1], then
    [run(2).onSuccess(f2)] at [t2]. *)
Definition two_runs (t1 t2 : Z) : Scenario :=
  [(t1, [URun [JNum 1]; UOnSuccess 0 "f1"; UFinally 0 "fin1"]);
   (t2, [URun [JNum 2]; UOnSuccess 1 "f2"])].
End Scenarios.


Lemma C3_no_stale_after_dispatch_witness :
  let a := createSignalAction Part000 Scenarios.fetch
             (Scenarios.store_options None) in
  let tr := trace (play a Tracker.init (Scenarios.two_runs 0 10) 10) in
  tr = take 7 tr ++ (10, EvDispatch 1 [JNum 2]) :: drop 8 tr
  /\ settles_in 0 (drop 8 tr) = false.
Proof.
  assert (H : let a := createSignalAction Part000 Scenarios.fetch
                         (Scenarios.store_options None) in
              let tr := trace (play a Tracker.init (Scenarios.two_runs 0 10) 10) in
              tr = take 7 tr ++ (10, EvDispatch 1 [JNum 2]) :: drop 8 tr).
  { vm_compute. reflexivity. }
  split; [exact H|].
  exact (C3_no_stale_after_dispatch _ _ _ _ _ _ _ 0%nat 1%nat _ H (Nat.lt_0_succ 0)).
Defined.

(** C3 as the spec states it: a [run] call made while invocation [k] is
    outstanding (subscribed, not settled) prevents [k] from ever settling. *)
Definition C3_as_stated (tr : list (Z * Event)) : Prop :=
  forall pre post t args k,
    tr = pre ++ (t, EvRun args) :: post ->
    subscribed_in k pre = true -> settles_in k pre = false ->
    settles_in k post = false.

(** With [debounceMs = 300], [run(1)] at 0 is dispatched at 300 and its
    producer answers at 350; [run(2)] at 320 only restarts the debounce
    window, so invocation 0 still settles at 350 (and, in Part000, calls the
    first chain's [onSuccess] and [finally]).  In Part000 without debounce,
    the same happens when the answer arrives between the [run] call and
    its zero-delay timer. *)
Lemma C3_counterexample :
  ~ C3_as_stated
      (trace (play (createSignalAction Part001 Scenarios.fetch
                      (Scenarios.store_options (Some 300)))
                Tracker.init (Scenarios.two_runs 0 320) 20))
  /\ ~ C3_as_stated
         (trace (play (createSignalAction Part000 Scenarios.fetch
                         (Scenarios.store_options (Some 300)))
                   Tracker.init (Scenarios.two_runs 0 320) 20))
  /\ ~ C3_as_stated
         (trace (play (createSignalAction Part000 Scenarios.fetch
                         (Scenarios.store_options None))
                   Tracker.init (Scenarios.two_runs 0 50) 20)).
Proof.
  split; [|split]; intros H.
  - set (tr := trace _) in H.
    specialize (H (take 6 tr) (drop 7 tr) 320 [JNum 2] 0%nat).
    vm_compute in H. specialize (H eq_refl eq_refl eq_refl). discriminate.
  - set (tr := trace _) in H.
    specialize (H (take 6 tr) (drop 7 tr) 320 [JNum 2] 0%nat).
    vm_compute in H. specialize (H eq_refl eq_refl eq_refl). discriminate.
  - set (tr := trace _) in H.
    specialize (H (take 6 tr) (drop 7 tr) 50 [JNum 2] 0%nat).
    vm_compute in H. specialize (H eq_refl eq_refl eq_refl). discriminate.
Qed.

(** ** [debounceMs: 0] *)

Section ZeroDebounce.
Variable rev : Revision.
Variable getObservable : list JsVal -> ObservableExpr.
Variables (tk : option bool) (ol os oe : option string).



End ZeroDebounce.


(** ** What a producer's task can do

    While only producers are waiting, nothing is dispatched: the trace grows
    by settling events and loading notifications, stamped with the current
    time. *)

Definition quiet (e : Event) : Prop :=
  match e with
  | EvRun _ | EvDispatch _ _ | EvProducer _ _ => False
  | _ => True
  end.

Definition grows (w w' : World) : Prop :=
  now w' = now w
  /\ length (invocations w') = length (invocations w)
  /\ exists es, trace w' = trace w ++ (pair (now w) <$> es) /\ Forall quiet es.

Lemma grows_refl w : grows w w.
Proof.
  split; [done|]. split; [done|]. exists []. split; [|constructor].
  simpl. by rewrite app_nil_r.
Qed.

Lemma grows_trans w1 w2 w3 : grows w1 w2 -> grows w2 w3 -> grows w1 w3.
Proof.
  intros (N1 & L1 & es1 & T1 & Q1) (N2 & L2 & es2 & T2 & Q2).
  split; [congruence|]. split; [congruence|].
  exists (es1 ++ es2). split; [|by apply Forall_app].
  rewrite T2, T1, N1, fmap_app. by rewrite app_assoc.
Qed.

Lemma grows_same w w' :
  now w' = now w -> invocations w' = invocations w -> trace w' = trace w ->
  grows w w'.
Proof.
  intros N I T. split; [done|]. split; [by rewrite I|].
  exists []. split; [|constructor]. simpl. by rewrite T, app_nil_r.
Qed.

Lemma grows_upd_inv k f w : grows w (upd_inv k f w).
Proof.
  split; [done|]. split; [apply length_alter|].
  exists []. split; [|constructor]. simpl. by rewrite app_nil_r.
Qed.

Section Grows.
Variable rev : Revision.
Variable options : ActionOptions.

Lemma calls_quiet k lvl kind calls :
  Forall quiet (map (fun c => EvCall k lvl kind c.1 c.2) calls).
Proof.
  apply Forall_forall. intros e He.
  by apply list_elem_of_fmap in He as (c & -> & _).
Qed.

Lemma grows_log_calls k lvl kind calls w :
  grows w (log_calls k lvl kind calls w).
Proof.
  split; [done|]. split; [done|].
  exists (map (fun c => EvCall k lvl kind c.1 c.2) calls).
  split; [|apply calls_quiet].
  unfold log_calls. simpl. f_equal. by rewrite <- list_fmap_compose.
Qed.

Lemma on_next_now k v w : now (on_next options k v w) = now w.
Proof.
  unfold on_next, complete_exec.
  destruct (invocations w !! k) as [inv|] eqn:Hl; [|done].
  destruct (tracked options); cbn; rewrite Hl;
    destruct (inv_closed inv), (inv_downstream inv); reflexivity.
Qed.

Lemma on_next_length k v w :
  length (invocations (on_next options k v w)) = length (invocations w).
Proof.
  unfold on_next, complete_exec.
  destruct (invocations w !! k) as [inv|] eqn:Hl; [|done].
  destruct (tracked options); cbn; rewrite Hl;
    destruct (inv_closed inv), (inv_downstream inv); cbn;
    rewrite ?length_alter; reflexivity.
Qed.

Lemma on_next_timers k v w : timers (on_next options k v w) = timers w.
Proof.
  unfold on_next, complete_exec.
  destruct (invocations w !! k) as [inv|] eqn:Hl; [|done].
  destruct (tracked options); cbn; rewrite Hl;
    destruct (inv_closed inv), (inv_downstream inv); reflexivity.
Qed.

Lemma on_error_now k e w : now (on_error rev options k e w) = now w.
Proof.
  unfold on_error, normalise, complete_exec.
  destruct (invocations w !! k) as [inv|] eqn:Hl; [|done].
  destruct rev, (tracked options); cbn; rewrite Hl;
    destruct (inv_closed inv), (inv_downstream inv); reflexivity.
Qed.

Lemma on_error_length k e w :
  length (invocations (on_error rev options k e w)) = length (invocations w).
Proof.
  unfold on_error, normalise, complete_exec.
  destruct (invocations w !! k) as [inv|] eqn:Hl; [|done].
  destruct rev, (tracked options); cbn; rewrite Hl;
    destruct (inv_closed inv), (inv_downstream inv); cbn;
    rewrite ?length_alter; reflexivity.
Qed.

Lemma on_error_timers k e w : timers (on_error rev options k e w) = timers w.
Proof.
  unfold on_error, normalise, complete_exec.
  destruct (invocations w !! k) as [inv|] eqn:Hl; [|done].
  destruct rev, (tracked options); cbn; rewrite Hl;
    destruct (inv_closed inv), (inv_downstream inv); reflexivity.
Qed.

Lemma success_events_quiet k inv v w :
  Forall quiet (success_events options k inv v w).
Proof.
  unfold success_events. constructor; [done|].
  rewrite !Forall_app. repeat split; apply calls_quiet.
Qed.

Lemma error_events_quiet k inv e w :
  Forall quiet (error_events rev options k inv e w).
Proof.
  unfold error_events. apply Forall_app. split.
  - destruct rev; repeat constructor.
  - do 2 (constructor; [done|]).
    rewrite !Forall_app. repeat split; apply calls_quiet.
Qed.

Lemma grows_on_next k v w : grows w (on_next options k v w).
Proof.
  destruct (invocations w !! k) as [inv|] eqn:Hl.
  - split; [apply on_next_now|]. split; [apply on_next_length|].
    exists (success_events options k inv v w).
    split; [by apply on_next_trace|apply success_events_quiet].
  - unfold on_next. rewrite Hl. apply grows_refl.
Qed.

Lemma grows_on_error k e w : grows w (on_error rev options k e w).
Proof.
  destruct (invocations w !! k) as [inv|] eqn:Hl.
  - split; [apply on_error_now|]. split; [apply on_error_length|].
    exists (error_events rev options k inv e w).
    split; [by apply on_error_trace|apply error_events_quiet].
  - unfold on_error. rewrite Hl. apply grows_refl.
Qed.

(** The delivery of a notification leaves the timers alone. *)
Definition settles (w w' : World) : Prop :=
  grows w w' /\ timers w' = timers w.

Lemma settles_refl w : settles w w.
Proof. split; [apply grows_refl|done]. Qed.

Lemma settles_trans w1 w2 w3 : settles w1 w2 -> settles w2 w3 -> settles w1 w3.
Proof.
  intros [G1 T1] [G2 T2]. split; [by eapply grows_trans|congruence].
Qed.

Lemma settles_upd_inv k f w : settles w (upd_inv k f w).
Proof. split; [apply grows_upd_inv|done]. Qed.

Lemma settles_sub_next k v w : settles w (sub_next options k v w).
Proof.
  unfold sub_next. destruct (sub_closed k w); [apply settles_refl|].
  split; [apply grows_on_next|apply on_next_timers].
Qed.

Lemma settles_sub_error k e w : settles w (sub_error rev options k e w).
Proof.
  unfold sub_error. destruct (sub_closed k w); [apply settles_refl|].
  eapply settles_trans; [|apply settles_upd_inv].
  split; [apply grows_on_error|apply on_error_timers].
Qed.

Lemma settles_sub_complete k w : settles w (sub_complete k w).
Proof.
  unfold sub_complete. destruct (sub_closed k w); [apply settles_refl|].
  apply settles_upd_inv.
Qed.

Lemma settles_deliver k i w n : settles w (deliver rev options k i w n).
Proof.
  unfold deliver. destruct (source_live k i w); [|apply settles_refl].
  destruct (invocations w !! k ≫= inv_join) as [j|].
  - unfold join_notify. destruct n as [v|e|].
    + apply settles_upd_inv.
    + eapply settles_trans; [apply settles_upd_inv|apply settles_sub_error].
    + assert (S1 : settles w (stop_source k i
                                (upd_inv k (with_join (join_complete j)) w))).
      { eapply settles_trans; apply settles_upd_inv. }
      match goal with
      | |- settles _ (if ?c then _ else _) => destruct c
      end; [|exact S1].
      eapply settles_trans; [|apply settles_sub_complete].
      match goal with
      | |- settles _ (if ?c then _ else _) => destruct c
      end; [|exact S1].
      eapply settles_trans; [exact S1|apply settles_sub_next].
  - unfold source_notify. destruct n as [v|e|].
    + apply settles_sub_next.
    + eapply settles_trans; [apply settles_upd_inv|apply settles_sub_error].
    + eapply settles_trans; [apply settles_upd_inv|apply settles_sub_complete].
Qed.

Lemma settles_foldl_deliver k i burst w :
  settles w (foldl (deliver rev options k i) w burst).
Proof.
  revert w. induction burst as [|n burst IH]; intros w; [apply settles_refl|].
  simpl. eapply settles_trans; [apply settles_deliver|apply IH].
Qed.

(** A producer's task: the trace grows, and at most one timer is set, for
    the same producer and not before now. *)
Lemma fire_source_grows k i w :
  let w' := fire_source rev options k i w in
  grows w w'
  /\ (timers w' = timers w
      \/ exists d, timers w'
                   = insert_timer (now w + Z.max 0 d) (TSource k i) (timers w)).
Proof.
  simpl. unfold fire_source.
  destruct (source_live k i w); [|split; [apply grows_refl|by left]].
  destruct (remaining_script k i w) as [|[d burst] rest];
    [split; [apply grows_refl|by left]|].
  set (w1 := upd_inv k _ w).
  destruct (settles_foldl_deliver k i burst w1) as [G T].
  assert (G' : grows w (foldl (deliver rev options k i) w1 burst)).
  { eapply grows_trans; [apply grows_upd_inv|exact G]. }
  destruct (source_live k i _); [|split; [done|left; by rewrite T]].
  destruct rest as [|[d' b'] rest']; simpl; [split; [done|left; by rewrite T]|].
  split.
  - eapply grows_trans; [exact G'|]. by apply grows_same.
  - right. exists d'. unfold schedule. simpl. rewrite T.
    destruct G' as (-> & _). reflexivity.
Qed.

Lemma grows_drain w :
  grows w (drain options w) /\ timers (drain options w) = timers w.
Proof.
  unfold drain.
  assert (H : settles w (set_microtasks [] w)).
  { split; [by apply grows_same|done]. }
  revert H. generalize (set_microtasks [] w).
  induction (microtasks w) as [|m ms IH]; intros w' H; [exact H|].
  simpl. apply IH. eapply settles_trans; [exact H|].
  destruct m as [k args h]. simpl. split; [|done].
  eapply grows_trans; apply grows_log_calls.
Qed.
End Grows.

Lemma Forall_insert_timer (P : Z * Task -> Prop) due t q :
  P (due, t) -> Forall P q -> Forall P (insert_timer due t q).
Proof.
  intros Hp Hq. induction Hq as [|[d' t'] q Hx Hq IH]; simpl.
  - by constructor.
  - destruct (due <? d'); repeat constructor; done.
Qed.

(** From time [T] on, only producers are waiting. *)
Definition producers_only (T : Z) (w : World) : Prop :=
  T <= now w
  /\ Forall (fun dt => T <= dt.1 /\ exists k i, dt.2 = TSource k i) (timers w).

(** [w'] comes after [w] without any dispatch: the trace grew by quiet
    events stamped [T] or later. *)
Definition later (T : Z) (w w' : World) : Prop :=
  length (invocations w') = length (invocations w)
  /\ exists tes, trace w' = trace w ++ tes
                 /\ Forall (fun te => T <= te.1 /\ quiet te.2) tes.

Lemma later_refl T w : later T w w.
Proof.
  split; [done|]. exists []. split; [by rewrite app_nil_r|constructor].
Qed.

Lemma later_trans T w1 w2 w3 : later T w1 w2 -> later T w2 w3 -> later T w1 w3.
Proof.
  intros (L1 & t1 & E1 & F1) (L2 & t2 & E2 & F2).
  split; [congruence|]. exists (t1 ++ t2).
  split; [by rewrite E2, E1, app_assoc|by apply Forall_app].
Qed.

Lemma grows_later T w w' : T <= now w -> grows w w' -> later T w w'.
Proof.
  intros HT (_ & L & es & E & Q). split; [done|].
  exists (pair (now w) <$> es). split; [done|].
  apply Forall_fmap. eapply Forall_impl; [exact Q|]. simpl. auto.
Qed.

Section ProducersOnly.
Variable rev : Revision.
Variable options : ActionOptions.
Variable getObservable : list JsVal -> ObservableExpr.

Lemma step_producers_only T w w' :
  producers_only T w -> step rev options getObservable w = Some w' ->
  producers_only T w' /\ later T w w'.
Proof.
  intros [Hnow Hq]. unfold step.
  destruct (timers w) as [|[due t] q] eqn:Ht; [done|].
  intros [= <-]. inversion Hq as [|? ? [Hdue (k & i & Hsrc)] Hq']; subst.
  simpl in Hdue, Hsrc. subst t. simpl.
  set (w0 := set_now due (set_timers q w)).
  destruct (fire_source_grows rev options k i w0) as [G1 T1].
  destruct (grows_drain options (fire_source rev options k i w0)) as [G2 T2].
  assert (G : grows w0 (drain options (fire_source rev options k i w0))).
  { by eapply grows_trans. }
  split.
  - split.
    + destruct G as (-> & _). done.
    + rewrite T2. destruct T1 as [->|[d ->]]; [done|].
      apply Forall_insert_timer; [|done]. simpl. split; [|eauto].
      change (now w0) with due. lia.
  - eapply (later_trans _ _ w0).
    + split; [done|]. exists []. split; [by rewrite app_nil_r|constructor].
    + by apply grows_later.
Qed.

Lemma turns_producers_only T fuel w :
  producers_only T w ->
  producers_only T (turns rev options getObservable fuel w)
  /\ later T w (turns rev options getObservable fuel w).
Proof.
  revert w. induction fuel as [|fuel IH]; intros w Hp.
  - split; [done|apply later_refl].
  - simpl. destruct (step rev options getObservable w) as [w'|] eqn:E.
    + destruct (step_producers_only T w w' Hp E) as [Hp' L].
      destruct (IH w' Hp') as [Hp'' L'].
      split; [done|]. by eapply later_trans.
    + split; [done|apply later_refl].
Qed.

Lemma turns_add n m w :
  turns rev options getObservable (n + m) w
  = turns rev options getObservable m (turns rev options getObservable n w).
Proof.
  revert w. induction n as [|n IH]; intros w; [done|].
  simpl. destruct (step rev options getObservable w) as [w'|] eqn:E.
  - apply IH.
  - destruct m; [done|]. simpl. by rewrite E.
Qed.

Lemma turns_quiescent fuel w :
  quiescent w = true -> turns rev options getObservable fuel w = w.
Proof.
  unfold quiescent. destruct fuel; [done|]. simpl. unfold step.
  by destruct (timers w).
Qed.
End ProducersOnly.

(** ** Dispatch, seen from outside *)

Section DispatchFacts.
Variable rev : Revision.
Variable options : ActionOptions.
Variable getObservable : list JsVal -> ObservableExpr.

Definition dispatch_events (k : nat) (args : list JsVal) : list Event :=
  [EvDispatch k args; EvStatus k Loading; EvError k None; EvProducer k args].

(** A property of timers that holds of every timer a producer of
    invocation [k] can set at time [t]. *)
Definition admits (P : Z * Task -> Prop) (t : Z) (k : nat) : Prop :=
  forall i d, P (t + Z.max 0 d, TSource k i).

Lemma start_source_timers P k i s w :
  admits P (now w) k -> Forall P (timers w) ->
  Forall P (timers (start_source k i s w)).
Proof.
  intros Ha Hq. destruct s as [|[d b] s]; [done|].
  simpl. apply Forall_insert_timer; [apply Ha|done].
Qed.

Lemma start_sources_timers P k i ss w :
  admits P (now w) k -> Forall P (timers w) ->
  Forall P (timers (start_sources k i ss w)).
Proof.
  revert i w. induction ss as [|s ss IH]; intros i w Ha Hq; [done|].
  simpl. apply IH.
  - destruct (start_source_view k i s w) as (_ & _ & _ & _ & ->). done.
  - by apply start_source_timers.
Qed.

Lemma executeObservable_trace args w :
  let n := length (invocations w) in
  let w' := (executeObservable rev options args w).2 in
  now w' = now w /\ timers w' = timers w
  /\ invocations w' = invocations w
  /\ pipeline w' = pipeline w
  /\ trace w'
     = trace w ++ [(now w, EvDispatch n args); (now w, EvStatus n Loading);
                   (now w, EvError n None)]
  /\ status w' = Loading /\ error w' = None
  /\ eo_args (executeObservable rev options args w).1 = args.
Proof.
  unfold executeObservable.
  destruct rev, (tracked options); cbn;
    rewrite <- ?app_assoc; repeat split; reflexivity.
Qed.

Lemma subscribe_exec_trace P ds eo w :
  let n := length (invocations w) in
  let r := subscribe_exec getObservable ds eo w in
  r.1 = n /\ now r.2 = now w
  /\ length (invocations r.2) = S n
  /\ pipeline r.2 = pipeline w
  /\ trace r.2 = trace w ++ [(now w, EvProducer n (eo_args eo))]
  /\ (admits P (now w) n -> Forall P (timers w) -> Forall P (timers r.2)).
Proof.
  unfold subscribe_exec. simpl.
  set (inv := mkInvocation _ _ _ _ _ _ _ _).
  set (w1 := log _ _).
  assert (Hlen : length (invocations w1) = S (length (invocations w))).
  { simpl. rewrite length_app. simpl. lia. }
  split; [done|].
  destruct (getObservable (eo_args eo)) as [s|[|src srcs]].
  - destruct (start_source_view (length (invocations w)) 0 s w1)
      as (E1 & E2 & E3 & E4 & E5).
    rewrite E1, E3, E4, E5. split_and!; try done.
    intros Ha Hq. by apply start_source_timers.
  - unfold sub_complete. destruct (sub_closed _ w1); [by split_and!|].
    simpl. rewrite length_alter. by split_and!.
  - destruct (start_sources_view (length (invocations w)) 0
                (map snd (src :: srcs)) w1) as (E1 & E2 & E3 & E4 & E5).
    rewrite E1, E3, E4, E5. split_and!; try done.
    intros Ha Hq. by apply start_sources_timers.
Qed.

(** [switchMap] receives [args] while it has no inner subscription. *)
Lemma switchMap_next_trace P args w :
  innerSubscriber (pipeline w) = None ->
  let n := length (invocations w) in
  let w' := switchMap_next rev options getObservable args w in
  now w' = now w
  /\ length (invocations w') = S n
  /\ trace w' = trace w ++ (pair (now w) <$> dispatch_events n args)
  /\ (admits P (now w) n -> Forall P (timers w) -> Forall P (timers w')).
Proof.
  intros Hi. unfold switchMap_next. rewrite Hi.
  pose proof (executeObservable_trace args w)
    as (E1 & E2 & E3 & E4 & E5 & E6 & E7 & E8).
  destruct (executeObservable rev options args w) as [eo w1].
  cbn [fst snd] in *.
  pose proof (subscribe_exec_trace P SwitchMapInner eo w1)
    as (S1 & S2 & S3 & S4 & S7 & S8).
  destruct (subscribe_exec getObservable SwitchMapInner eo w1) as [k w2].
  cbn [fst snd] in *. simpl.
  rewrite S2, S3, S7, E1, E3, E5, E8.
  split_and!; try done.
  - by rewrite <- app_assoc.
  - intros Ha Hq. apply S8; rewrite ?E1, ?E2, ?E3; done.
Qed.
End DispatchFacts.

(** ** Debounce *)

(** The calls of [getObservable], with their time. *)
Definition producer_calls (tes : list (Z * Event)) : list (Z * list JsVal) :=
  omap (fun te => match te.2 with
                  | EvProducer _ args => Some (te.1, args)
                  | _ => None
                  end) tes.

Lemma producer_calls_quiet T tes :
  Forall (fun te => T <= te.1 /\ quiet te.2) tes -> producer_calls tes = [].
Proof.
  induction 1 as [|[t e] tes [_ Hq] _ IH]; [done|].
  unfold producer_calls in *. destruct e; simpl in *; done.
Qed.

Section Debounce.
Variable rev : Revision.
Variable options : ActionOptions.
Variable getObservable : list JsVal -> ObservableExpr.

(** The debounce window closes: the last value goes to [switchMap]. *)
Lemma debounce_fires w due q args :
  timers w = (due, TDebounce) :: q ->
  activeTask (pipeline w) = true ->
  lastValue (pipeline w) = Some args ->
  lastTime (pipeline w) + dueTime options <= due ->
  step rev options getObservable w
  = Some (drain options
            (switchMap_next rev options getObservable args
               (set_pipeline
                  (mkPipeline false None (lastTime (pipeline w))
                     (innerSubscriber (pipeline w)))
                  (set_now due (set_timers q w))))).
Proof.
  intros Ht Ha Hv Hd. unfold step. rewrite Ht. simpl.
  unfold emitWhenIdle, emit. simpl.
  destruct (Z.ltb_spec due (lastTime (pipeline w) + dueTime options)); [lia|].
  by rewrite Ha, Hv.
Qed.
End Debounce.

Section DebounceScenario.
Variable rev : Revision.
Variable getObservable : list JsVal -> ObservableExpr.
Variables (tk : option bool) (ol os oe : option string).
Variable tr : Tracker.GlobalHttpTracker JsVal.
Variables a0 a1 a2 : list JsVal.

Let options := mkOptions tk (Some 300) ol os oe.
Let a := mkAction rev options getObservable.
Let sc : Scenario := [(0, [URun a0]); (100, [URun a1]); (150, [URun a2])].
Let runs : list (Z * Event) :=
  [(0, EvRun a0); (100, EvRun a1); (150, EvRun a2)].

(** Turns until the debounce window closes at 450. *)
Definition turns_before (r : Revision) : nat :=
  match r with Part000 => 7%nat | Part001 => 4%nat end.

Lemma coalesced_before :
  let w := play a tr sc (turns_before rev) in
  timers w = [(450, TDebounce)]
  /\ pipeline w = mkPipeline true (Some a2) 150 None
  /\ trace w = runs /\ invocations w = [] /\ now w = 300.
Proof. unfold a, options. destruct rev; vm_compute; by split_and!. Qed.

Definition at_or_after (T : Z) (tes : list (Z * Event)) : Prop :=
  Forall (fun te => T <= te.1 /\ quiet te.2) tes.

Lemma coalesced_dispatch :
  let w := play a tr sc (S (turns_before rev)) in
  producers_only 450 w
  /\ length (invocations w) = 1%nat
  /\ exists rest,
       trace w = runs ++ (pair 450 <$> dispatch_events 0 a2) ++ rest
       /\ at_or_after 450 rest.
Proof.
  simpl. destruct coalesced_before as (Ht & Hp & Htr & Hi & Hn).
  unfold play in *. cbn [a_rev a_options a_getObservable a] in *.
  replace (S (turns_before rev)) with (turns_before rev + 1)%nat by lia.
  rewrite turns_add.
  set (w := turns rev options getObservable (turns_before rev) _) in *.
  simpl.
  rewrite (debounce_fires rev options getObservable w 450 [] a2)
    by (rewrite ?Hp; try done).
  rewrite Hp. simpl.
  set (w0 := set_pipeline _ _).
  pose proof (switchMap_next_trace rev options getObservable
                (fun dt => 450 <= dt.1 /\ exists k i, dt.2 = TSource k i)
                a2 w0 eq_refl) as (S1 & S2 & S3 & S4).
  destruct (grows_drain options
              (switchMap_next rev options getObservable a2 w0))
    as [(G1 & G2 & es & G3 & G4) G5].
  change (now w0) with 450 in *. change (trace w0) with (trace w) in *.
  change (length (invocations w0)) with (length (invocations w)) in *.
  rewrite Hi in *. simpl in S2, S3.
  split_and!.
  - split; [rewrite G1, S1; lia|]. rewrite G5. apply S4.
    + intros i d. simpl. split; [lia|eauto].
    + constructor.
  - by rewrite G2.
  - exists (pair 450 <$> es). split.
    + rewrite G3, S3, S1, Htr. by rewrite <- app_assoc.
    + apply Forall_fmap. eapply Forall_impl; [exact G4|]. simpl. auto with lia.
Qed.

Lemma coalesced_after fuel :
  let w := play a tr sc (S (turns_before rev) + fuel) in
  length (invocations w) = 1%nat
  /\ exists rest,
       trace w = runs ++ (pair 450 <$> dispatch_events 0 a2) ++ rest
       /\ at_or_after 450 rest.
Proof.
  cbv zeta. destruct coalesced_dispatch as (Hp & Hl & rest & Htr & Hr).
  unfold play in *. rewrite turns_add.
  destruct (turns_producers_only (a_rev a) (a_options a) (a_getObservable a)
              450 fuel _ Hp) as [_ (L1 & tes & L2 & L3)].
  split; [congruence|].
  exists (rest ++ tes). split.
  - rewrite L2, Htr. by rewrite <- !app_assoc.
  - by apply Forall_app.
Qed.
End DebounceScenario.

(** C2.  With [debounceMs = 300] and [run] called at 0, 100 and 150, in
    either revision and whatever the other options, the producer and the
    tracker: before the window closes nothing has been dispatched -- the
    trace holds the three [run] calls at most, [status] is still idle and
    [error] null; at 450 [executeObservable] runs once, with the arguments
    of the call made at 150, and [getObservable] is called with them; after
    that only events of this one invocation follow, none before 450.  So
    the producer is called exactly once, at 450, with the last arguments. *)
Theorem C2_debounce_coalesces
    (rev : Revision) (getObservable : list JsVal -> ObservableExpr)
    (tk : option bool) (ol os oe : option string)
    (tr : Tracker.GlobalHttpTracker JsVal) (a0 a1 a2 : list JsVal)
    (fuel : nat) :
  let a := mkAction rev (mkOptions tk (Some 300) ol os oe) getObservable in
  let sc := [(0, [URun a0]); (100, [URun a1]); (150, [URun a2])] in
  let runs := [(0, EvRun a0); (100, EvRun a1); (150, EvRun a2)] in
  let dispatched := runs ++ (pair 450 <$> dispatch_events 0 a2) in
  let w := play a tr sc fuel in
  let w' := play a tr sc (8 + fuel) in
  ((trace w `prefix_of` runs /\ status w = Idle /\ error w = None)
   \/ (length (invocations w) = 1%nat
       /\ exists rest, trace w = dispatched ++ rest /\ at_or_after 450 rest))
  /\ (length (invocations w') = 1%nat
      /\ exists rest, trace w' = dispatched ++ rest /\ at_or_after 450 rest)
  /\ producer_calls (trace w') = [(450, a2)].
Proof.
  cbv zeta.
  assert (Hlate : forall m,
    let w := play (mkAction rev (mkOptions tk (Some 300) ol os oe) getObservable)
               tr [(0, [URun a0]); (100, [URun a1]); (150, [URun a2])]
               (S (turns_before rev) + m) in
    length (invocations w) = 1%nat
    /\ exists rest,
         trace w = ([(0, EvRun a0); (100, EvRun a1); (150, EvRun a2)]
                    ++ (pair 450 <$> dispatch_events 0 a2)) ++ rest
         /\ at_or_after 450 rest).
  { intros m. cbv zeta.
    destruct (coalesced_after rev getObservable tk ol os oe tr a0 a1 a2 m)
      as (Hl & rest & Ht & Hr).
    split; [done|]. exists rest. by rewrite <- app_assoc. }
  assert (Hlate8 :
    let w := play (mkAction rev (mkOptions tk (Some 300) ol os oe) getObservable)
               tr [(0, [URun a0]); (100, [URun a1]); (150, [URun a2])]
               (8 + fuel) in
    length (invocations w) = 1%nat
    /\ exists rest,
         trace w = ([(0, EvRun a0); (100, EvRun a1); (150, EvRun a2)]
                    ++ (pair 450 <$> dispatch_events 0 a2)) ++ rest
         /\ at_or_after 450 rest).
  { destruct rev.
    - exact (Hlate fuel).
    - exact (Hlate (3 + fuel)%nat). }
  split; [|split].
  - destruct rev.
    + do 8 (destruct fuel as [|fuel];
            [left; vm_compute; split_and!; try done; by eexists|]).
      right. exact (Hlate fuel).
    + do 5 (destruct fuel as [|fuel];
            [left; vm_compute; split_and!; try done; by eexists|]).
      right. exact (Hlate fuel).
  - exact Hlate8.
  - destruct Hlate8 as (_ & rest & -> & Hr).
    unfold producer_calls. rewrite !omap_app.
    fold (producer_calls rest). by rewrite (producer_calls_quiet 450 rest Hr).
Qed.

(** ** Failure normalisation *)

(** The normal form as the spec words it: a nested structured error-body
    string field first, else a top-level error string field, else a
    fallback message. *)
Definition three_tier (fallback : string) (err : JsVal) : string :=
  match get_prop (get_prop err "error") "error" with
  | JStr s => s
  | _ =>
      match get_prop err "error" with
      | JStr s => s
      | _ => fallback
      end
  end.

(** C5 as the spec states it, for [extractErrorMessage]. *)
Definition C5_as_stated : Prop :=
  exists fallback, fallback <> ""
    /\ forall err, extractErrorMessage err = three_tier fallback err.

(** [extractErrorMessage(null)] is the empty string, so the fallback is not
    a non-empty message; and a failure that is not named
    ['HttpErrorResponse'] is given the empty string whatever its fields. *)
Lemma C5_counterexample :
  ~ C5_as_stated
  /\ extractErrorMessage JNull = ""
  /\ extractErrorMessage (JObj [("error", JStr "boom")]) = "".
Proof.
  split; [|split; reflexivity].
  intros (fallback & Hne & H). specialize (H JNull).
  vm_compute in H. congruence.
Qed.

Lemma extractErrorMessage_tiers err :
  extractErrorMessage err
  = if is_HttpErrorResponse (get_prop err "name")
    then three_tier "" err
    else "".
Proof.
  unfold extractErrorMessage, three_tier.
  destruct (is_HttpErrorResponse (get_prop err "name")); [|done]. simpl.
  destruct (get_prop err "error") as [| | | |s|props] eqn:E; simpl; try done.
  destruct (lookup_prop "error" props); done.
Qed.

Lemma on_error_tracker rev options k e w inv :
  invocations w !! k = Some inv ->
  tracker (on_error rev options k e w)
  = if tracked options
    then Tracker.error (inv_id inv) (normalised rev e) (tracker w)
    else tracker w.
Proof.
  intros Hl. unfold on_error, normalise, normalised, complete_exec.
  rewrite Hl.
  destruct rev, (tracked options); cbn; rewrite Hl;
    destruct (inv_closed inv), (inv_downstream inv); reflexivity.
Qed.

(** C5, amended.  [extractErrorMessage] gives, for a failure named
    ['HttpErrorResponse'], its [error.error] field when that is a string,
    else its [error] field when that is a string, and the empty string in
    every other case.  In the revision that calls it, the resulting message
    is what the error handler stores in the [error] signal, hands to the
    tracker (when the action is tracked) and passes to the error callbacks,
    before it closes the invocation. *)
Theorem C5_failure_normalisation :
  (forall err,
     extractErrorMessage err
     = if is_HttpErrorResponse (get_prop err "name")
       then three_tier "" err
       else "")
  /\ (forall options k inv err w,
        invocations w !! k = Some inv -> inv_closed inv = false ->
        let msg := JStr (extractErrorMessage err) in
        let w' := on_error Part001 options k err w in
        let handlers := read_handlers (inv_handlers inv) w in
        error w' = Some msg /\ status w' = Error
        /\ tracker w'
           = (if tracked options
              then Tracker.error (inv_id inv) msg (tracker w)
              else tracker w)
        /\ events w'
           = events w
             ++ [EvConsoleError (extractErrorMessage err);
                 EvError k (Some msg); EvStatus k Error]
             ++ map (fun c => EvCall k Store KError c.1 c.2)
                  (call_opt (CbUser <$> onError options) (msg :: inv_args inv))
             ++ map (fun c => EvCall k Handle KError c.1 c.2)
                  (call_opt (h_error handlers) (msg :: inv_args inv))
             ++ map (fun c => EvCall k Handle KFinally c.1 c.2)
                  (call_opt (h_finally handlers) [])
        /\ invocations w' !! k = Some (close_inv inv)).
Proof.
  split; [apply extractErrorMessage_tiers|].
  intros options k inv err w Hl Hc. cbv zeta.
  destruct (on_error_status Part001 options k err w inv Hl) as [H1 H2].
  split_and!.
  - exact H2.
  - exact H1.
  - by apply on_error_tracker.
  - by rewrite (on_error_events Part001 options k err w inv Hl).
  - rewrite (on_error_invocations Part001 options k err w inv Hl Hc).
    by rewrite list_lookup_alter_eq, Hl.
Qed.

Lemma C5_failure_normalisation_witness :
  let a := createSignalAction Part001 (fun _ => Source (fails 50 JNull))
             no_options in
  let w := play a Tracker.init [(0, [URun [JNum 1]])] 1 in
  let err := JObj [("name", JStr "HttpErrorResponse");
                   ("error", JObj [("error", JStr "not found")])] in
  error (on_error Part001 no_options 0 err w) = Some (JStr "not found").
Proof.
  cbv zeta.
  refine (proj1 (proj2 C5_failure_normalisation no_options 0%nat
                   (mkInvocation [JNum 1] 1 (uuid 0) Direct false false
                      [mkSourceSub (fails 50 JNull) false] None)
                   _ _ _ _)); reflexivity.
Defined.

(** ** Defects, at concrete inputs *)

(** Once no timer is left, a scenario has reached its final state. *)
Lemma play_settled a tr sc n m :
  quiescent (play a tr sc n) = true -> play a tr sc (n + m) = play a tr sc n.
Proof.
  intros Hq. unfold play in *. rewrite turns_add. by apply turns_quiescent.
Qed.

(** C4, at a failing input.  Two tracked invocations, the second started
    while the first is outstanding (in either revision, without debounce).
    At the end no timer is left and no invocation is subscribed any more,
    yet the identifier of the first invocation is still pending:
    [pendingCount] stays at 1 instead of returning to 0.  The teardown of a
    superseded invocation unsubscribes the producer and tells the tracker
    nothing. *)
Theorem C4_superseded_id_stays_pending (rev : Revision) (fuel : nat) :
  let a := createSignalAction rev Scenarios.fetch no_options in
  let sc := [(0, [URun [JNum 1]]); (10, [URun [JNum 2]])] in
  let w := play a Tracker.init sc (10 + fuel) in
  Tracker.pendingCount (@Tracker.init JsVal) = 0%nat
  /\ quiescent w = true
  /\ forallb inv_sub_closed (invocations w) = true
  /\ Tracker._pending (tracker w) = {[ uuid 0 ]}
  /\ Tracker.pendingCount (tracker w) = 1%nat.
Proof.
  cbv zeta.
  destruct rev; rewrite play_settled by (by vm_compute);
    vm_compute; repeat split.
Qed.

(** C6, at a failing input.  [run(1).onLoading(cb)] with a controller-level
    [onLoading]: in Part001 the loading notification is deferred (it runs
    after the block that called [run]) and calls the controller-level
    callback, but [cb] is never called: [executeObservable] reads a handler
    record of its own, not the one the chain writes.  Part000 calls both. *)
Theorem C6_loading_callback_part001 (fuel : nat) :
  let sc := [(0, [URun [JNum 1]; UOnLoading 0 "cb"])] in
  let options := Scenarios.store_options None in
  trace (play (createSignalAction Part001 Scenarios.fetch options)
           Tracker.init sc (2 + fuel))
  = [(0, EvRun [JNum 1]); (0, EvDispatch 0 [JNum 1]);
     (0, EvStatus 0 Loading); (0, EvError 0 None);
     (0, EvProducer 0 [JNum 1]);
     (0, EvCall 0 Store KLoading "store.onLoading" [JNum 1]);
     (50, EvStatus 0 Success);
     (50, EvCall 0 Store KSuccess "store.onSuccess" [JStr "data"; JNum 1])]
  /\ trace (play (createSignalAction Part000 Scenarios.fetch options)
              Tracker.init sc (3 + fuel))
     = [(0, EvRun [JNum 1]); (0, EvDispatch 0 [JNum 1]);
        (0, EvStatus 0 Loading); (0, EvError 0 None);
        (0, EvProducer 0 [JNum 1]);
        (0, EvCall 0 Store KLoading "store.onLoading" [JNum 1]);
        (0, EvCall 0 Handle KLoading "cb" [JNum 1]);
        (50, EvStatus 0 Success);
        (50, EvCall 0 Store KSuccess "store.onSuccess" [JStr "data"; JNum 1])].
Proof.
  cbv zeta. rewrite !play_settled; by vm_compute.
Qed.

(** C7, at a failing input.
    [run(1).onSuccess(mine).continueWith(next)]: in Part001 only the
    controller-level [onSuccess] runs when the producer succeeds; neither
    [mine] nor [next] is called.  Part000 calls the controller-level
    callback, then [mine], then [next], each with the result. *)
Theorem C7_continueWith_part001 (fuel : nat) :
  let sc := [(0, [URun [JNum 1]; UOnSuccess 0 "mine";
                  UContinueWith 0 "next"])] in
  let options := Scenarios.store_options None in
  trace (play (createSignalAction Part001 Scenarios.fetch options)
           Tracker.init sc (2 + fuel))
  = [(0, EvRun [JNum 1]); (0, EvDispatch 0 [JNum 1]);
     (0, EvStatus 0 Loading); (0, EvError 0 None);
     (0, EvProducer 0 [JNum 1]);
     (0, EvCall 0 Store KLoading "store.onLoading" [JNum 1]);
     (50, EvStatus 0 Success);
     (50, EvCall 0 Store KSuccess "store.onSuccess" [JStr "data"; JNum 1])]
  /\ trace (play (createSignalAction Part000 Scenarios.fetch options)
              Tracker.init sc (3 + fuel))
     = [(0, EvRun [JNum 1]); (0, EvDispatch 0 [JNum 1]);
        (0, EvStatus 0 Loading); (0, EvError 0 None);
        (0, EvProducer 0 [JNum 1]);
        (0, EvCall 0 Store KLoading "store.onLoading" [JNum 1]);
        (50, EvStatus 0 Success);
        (50, EvCall 0 Store KSuccess "store.onSuccess" [JStr "data"; JNum 1]);
        (50, EvCall 0 Handle KSuccess "mine" [JStr "data"; JNum 1]);
        (50, EvCall 0 Handle KSuccess "next" [JStr "data"; JNum 1])].
Proof.
  cbv zeta. rewrite !play_settled; by vm_compute.
Qed.

(** ** Parallel results: [forkJoin] of named sub-producers *)

(** A sub-producer that gives exactly one outcome. *)
Inductive Outcome : Type :=
| Responds (v : JsVal)
| Fails (e : JsVal).

Record SubProducer : Type := mkSub {
  sp_name : string;
  sp_delay : Z;
  sp_outcome : Outcome;
}.

Definition script_of (p : SubProducer) : Script :=
  match sp_outcome p with
  | Responds v => responds (sp_delay p) v
  | Fails e => fails (sp_delay p) e
  end.

(** The dictionary handed to [forkJoin]. *)
Definition named (ps : list SubProducer) : list (string * Script) :=
  map (fun p => (sp_name p, script_of p)) ps.

Definition value_of (p : SubProducer) : JsVal :=
  match sp_outcome p with
  | Responds v => v
  | Fails _ => JUndefined
  end.

Definition responds_all (ps : list SubProducer) : Prop :=
  Forall (fun p => exists v, sp_outcome p = Responds v) ps.

(** [{name1: value1, name2: value2, ...}] *)
Definition aggregate (ps : list SubProducer) : JsVal :=
  JObj (map (fun p => (sp_name p, value_of p)) ps).

(** The timers set when the sub-producers are subscribed at time [t],
    in subscription order. *)
Fixpoint entries (t : Z) (i : nat) (ps : list SubProducer)
  : list (Z * Task) :=
  match ps with
  | [] => []
  | p :: ps' => (t + Z.max 0 (sp_delay p), TSource 0 i) :: entries t (S i) ps'
  end.

Lemma entries_elem t i ps dt :
  dt ∈ entries t i ps ->
  exists j p, ps !! j = Some p /\ dt = (t + Z.max 0 (sp_delay p), TSource 0 (i + j)).
Proof.
  revert i. induction ps as [|p ps IH]; intros i Hin; simpl in Hin.
  - by apply not_elem_of_nil in Hin.
  - apply elem_of_cons in Hin as [->|Hin].
    + exists 0%nat, p. split; [done|]. by rewrite Nat.add_0_r.
    + destruct (IH _ Hin) as (j & p' & Hl & ->).
      exists (S j), p'. split; [done|]. do 2 f_equal. lia.
Qed.

Lemma entries_nodup t i ps : NoDup (entries t i ps).*2.
Proof.
  revert i. induction ps as [|p ps IH]; intros i; simpl; constructor.
  - intros Hin. apply list_elem_of_fmap in Hin as (dt & Hd & Hin).
    apply entries_elem in Hin as (j & p' & _ & ->).
    simpl in Hd. injection Hd. lia.
  - apply IH.
Qed.

Lemma entries_length t i ps : length (entries t i ps) = length ps.
Proof. revert i. induction ps as [|p ps IH]; intros i; simpl; auto. Qed.

Lemma insert_timer_perm due t q : insert_timer due t q ≡ₚ (due, t) :: q.
Proof.
  induction q as [|[d' t'] q IH]; simpl; [done|].
  destruct (due <? d'); [done|]. rewrite IH. apply Permutation_swap.
Qed.

Definition by_due (a b : Z * Task) : Prop := a.1 <= b.1.

Lemma insert_timer_sorted due t q :
  StronglySorted by_due q -> StronglySorted by_due (insert_timer due t q).
Proof.
  induction 1 as [|[d' t'] q Hs IH Hx]; simpl.
  - repeat constructor.
  - destruct (Z.ltb_spec due d').
    + constructor; [by constructor|].
      constructor; [unfold by_due; simpl; lia|].
      eapply Forall_impl; [exact Hx|]. unfold by_due. simpl. intros; lia.
    + constructor; [done|].
      rewrite insert_timer_perm. constructor; [|done].
      unfold by_due. simpl. lia.
Qed.

Lemma start_sources_queue i ps w :
  let q := timers (start_sources 0 i (script_of <$> ps) w) in
  q ≡ₚ entries (now w) i ps ++ timers w
  /\ (StronglySorted by_due (timers w) -> StronglySorted by_due q).
Proof.
  revert i w. induction ps as [|p ps IH]; intros i w; simpl; [done|].
  destruct (IH (S i) (start_source 0 i (script_of p) w)) as [Hp Hs].
  assert (Hnow : now (start_source 0 i (script_of p) w) = now w).
  { by destruct (start_source_view 0 i (script_of p) w) as (_ & _ & _ & _ & ?). }
  assert (Ht : timers (start_source 0 i (script_of p) w)
               = insert_timer (now w + Z.max 0 (sp_delay p)) (TSource 0 i)
                   (timers w)).
  { unfold script_of. by destruct (sp_outcome p). }
  rewrite Hnow, Ht in Hp. rewrite Ht in Hs. split.
  - rewrite Hp, insert_timer_perm. by rewrite Permutation_middle.
  - intros Hq. by apply Hs, insert_timer_sorted.
Qed.

Section JoinSteps.
Variable rev : Revision.
Variable options : ActionOptions.

(** Invocation 0 after sub-producer [i] has sent its burst: its script is
    used up and its subscriber stopped. *)
Definition source_done (i : nat) (srcs : list SourceSub) : list SourceSub :=
  alter (fun s => mkSourceSub (src_script s) true) i
    (alter (fun s => mkSourceSub [] (src_stopped s)) i srcs).

Definition completed (i : nat) (v : JsVal) (j : JoinState) (inv : Invocation)
  : Invocation :=
  mkInvocation (inv_args inv) (inv_handlers inv) (inv_id inv)
    (inv_downstream inv) (inv_closed inv) (inv_sub_closed inv)
    (source_done i (inv_sources inv))
    (Some (join_complete (join_next i v j))).

Definition failed (i : nat) (inv : Invocation) : Invocation :=
  mkInvocation (inv_args inv) (inv_handlers inv) (inv_id inv)
    (inv_downstream inv) (inv_closed inv) (inv_sub_closed inv)
    (source_done i (inv_sources inv)) (inv_join inv).

Lemma fire_dead w inv i :
  invocations w = [inv] -> inv_sub_closed inv = true ->
  fire_source rev options 0 i w = w.
Proof.
  intros Hi Hc. unfold fire_source, source_live. rewrite Hi. simpl.
  by rewrite Hc.
Qed.

Section Deliver.
Variables (w : World) (inv : Invocation) (j : JoinState) (i : nat)
  (src : SourceSub).
Hypothesis Hw : invocations w = [inv].
Hypothesis Hopen : inv_sub_closed inv = false.
Hypothesis Hjoin : inv_join inv = Some j.
Hypothesis Hsrc : inv_sources inv !! i = Some src.
Hypothesis Hrun : src_stopped src = false.

Lemma join_source_live : source_live 0 i w = true.
Proof. unfold source_live. rewrite Hw. simpl. by rewrite Hopen, Hsrc, Hrun. Qed.

Lemma deliver_join_next v :
  deliver rev options 0 i w (NNext v)
  = set_invocations [with_join (join_next i v j) inv] w.
Proof.
  unfold deliver. rewrite join_source_live, Hw. simpl. rewrite Hjoin.
  unfold join_notify, upd_inv. by rewrite Hw.
Qed.

Definition join_stopped : Invocation :=
  with_sources (alter (fun s => mkSourceSub (src_script s) true) i)
    (with_join (join_complete j) inv).

Lemma deliver_join_complete_more m :
  j_remainingCompletions j = S (S m) -> j_hasValue j !! i = Some true ->
  deliver rev options 0 i w NComplete = set_invocations [join_stopped] w.
Proof.
  intros Hr Hv. unfold deliver. rewrite join_source_live, Hw. simpl.
  rewrite Hjoin. unfold join_notify. simpl. rewrite Hr, Hv. simpl.
  unfold stop_source, upd_inv. simpl. by rewrite Hw.
Qed.

Lemma deliver_join_complete_last :
  inv_closed inv = false ->
  j_remainingCompletions j = 1%nat -> j_remainingEmissions j = 0%nat ->
  deliver rev options 0 i w NComplete
  = on_next options 0 (createObject (j_keys j) (j_values j))
      (set_invocations [join_stopped] w).
Proof.
  intros Hc Hr He. unfold deliver. rewrite join_source_live, Hw. simpl.
  rewrite Hjoin. unfold join_notify. simpl. rewrite Hr, He. simpl.
  unfold stop_source, upd_inv. simpl. rewrite Hw. simpl.
  fold join_stopped.
  change (set_invocations [join_stopped] (set_invocations _ w))
    with (set_invocations [join_stopped] w).
  set (w1 := set_invocations [join_stopped] w).
  assert (Hw1 : invocations w1 !! 0%nat = Some join_stopped) by done.
  unfold sub_next, sub_closed. rewrite Hw1. simpl. rewrite Hopen.
  unfold sub_complete, sub_closed.
  rewrite (on_next_invocations options 0 _ w1 join_stopped Hw1 Hc).
  reflexivity.
Qed.

Lemma deliver_join_error e :
  deliver rev options 0 i w (NError e)
  = upd_inv 0 close_sub_of
      (on_error rev options 0 e
         (set_invocations
            [with_sources (alter (fun s => mkSourceSub (src_script s) true) i)
               inv] w)).
Proof.
  unfold deliver. rewrite join_source_live, Hw. simpl. rewrite Hjoin.
  unfold join_notify, stop_source, upd_inv. simpl. rewrite Hw. simpl.
  unfold sub_error, sub_closed. simpl. by rewrite Hopen.
Qed.
End Deliver.

Lemma fire_source_burst w inv i d burst :
  invocations w = [inv] -> inv_sub_closed inv = false ->
  inv_sources inv !! i = Some (mkSourceSub [(d, burst)] false) ->
  fire_source rev options 0 i w
  = foldl (deliver rev options 0 i)
      (set_invocations
         [with_sources (alter (fun s => mkSourceSub [] (src_stopped s)) i) inv]
         w) burst.
Proof.
  intros Hw Hopen Hsrc. unfold fire_source, source_live, remaining_script.
  rewrite Hw. simpl. rewrite Hopen, Hsrc. simpl.
  unfold upd_inv. rewrite Hw. simpl.
  by destruct (match invocations _ !! 0%nat with Some _ => _ | None => _ end).
Qed.

Lemma burst_next w inv j i d v :
  invocations w = [inv] -> inv_sub_closed inv = false ->
  inv_join inv = Some j ->
  inv_sources inv !! i = Some (mkSourceSub (responds d v) false) ->
  let inv1 := with_join (join_next i v j)
                (with_sources
                   (alter (fun s => mkSourceSub [] (src_stopped s)) i) inv) in
  fire_source rev options 0 i w
  = deliver rev options 0 i (set_invocations [inv1] w) NComplete
  /\ inv_sources inv1 !! i = Some (mkSourceSub [] false).
Proof.
  intros Hw Hopen Hj Hs inv1.
  assert (Hs1 : inv_sources inv1 !! i = Some (mkSourceSub [] false)).
  { simpl. by rewrite list_lookup_alter_eq, Hs. }
  split; [|done].
  rewrite (fire_source_burst w inv i d [NNext v; NComplete]) by done.
  simpl.
  set (inv0 := with_sources _ inv).
  rewrite (deliver_join_next (set_invocations [inv0] w) inv0 j i
             (mkSourceSub [] false)); done.
Qed.

Lemma fire_responder_more w inv j i d v m :
  invocations w = [inv] -> inv_sub_closed inv = false ->
  inv_join inv = Some j ->
  inv_sources inv !! i = Some (mkSourceSub (responds d v) false) ->
  j_remainingCompletions j = S (S m) ->
  (i < length (j_hasValue j))%nat ->
  fire_source rev options 0 i w = set_invocations [completed i v j inv] w.
Proof.
  intros Hw Hopen Hj Hs Hr Hi.
  destruct (burst_next w inv j i d v Hw Hopen Hj Hs) as [-> Hs1].
  set (inv1 := with_join _ _) in *.
  rewrite (deliver_join_complete_more (set_invocations [inv1] w) inv1
             (join_next i v j) i (mkSourceSub [] false)
             eq_refl Hopen eq_refl Hs1 eq_refl m Hr).
  - reflexivity.
  - simpl. by apply list_lookup_insert_eq.
Qed.

Lemma fire_responder_last w inv j i d v :
  invocations w = [inv] -> inv_closed inv = false ->
  inv_sub_closed inv = false ->
  inv_join inv = Some j ->
  inv_sources inv !! i = Some (mkSourceSub (responds d v) false) ->
  j_remainingCompletions j = 1%nat -> j_remainingEmissions j = 1%nat ->
  j_hasValue j !! i = Some false ->
  fire_source rev options 0 i w
  = on_next options 0 (createObject (j_keys j) (<[i:=v]> (j_values j)))
      (set_invocations [completed i v j inv] w).
Proof.
  intros Hw Hc Hopen Hj Hs Hr He Hv.
  destruct (burst_next w inv j i d v Hw Hopen Hj Hs) as [-> Hs1].
  set (inv1 := with_join _ _) in *.
  rewrite (deliver_join_complete_last (set_invocations [inv1] w) inv1
             (join_next i v j) i (mkSourceSub [] false)
             eq_refl Hopen eq_refl Hs1 eq_refl Hc Hr).
  - reflexivity.
  - simpl. by rewrite Hv, He.
Qed.

Lemma fire_failing w inv j i d e :
  invocations w = [inv] -> inv_sub_closed inv = false ->
  inv_join inv = Some j ->
  inv_sources inv !! i = Some (mkSourceSub (fails d e) false) ->
  fire_source rev options 0 i w
  = upd_inv 0 close_sub_of
      (on_error rev options 0 e (set_invocations [failed i inv] w)).
Proof.
  intros Hw Hopen Hj Hs.
  rewrite (fire_source_burst w inv i d [NError e]) by done.
  simpl.
  set (inv0 := with_sources _ inv).
  assert (Hs0 : inv_sources inv0 !! i = Some (mkSourceSub [] false)).
  { simpl. by rewrite list_lookup_alter_eq, Hs. }
  rewrite (deliver_join_error (set_invocations [inv0] w) inv0 j i
             (mkSourceSub [] false) eq_refl Hopen Hj Hs0 eq_refl e).
  reflexivity.
Qed.
End JoinSteps.

Section JoinLoop.
Variable rev : Revision.
Variable options : ActionOptions.
Variable getObservable : list JsVal -> ObservableExpr.
Variable ps : list SubProducer.

(** Sub-producer [i] has not sent anything yet: its timer is in [q]. *)
Definition pending (q : list (Z * Task)) (i : nat) : Prop :=
  TSource 0 i ∈ q.*2.

(** Invocation 0 is a [forkJoin] over [ps], and exactly the sub-producers
    with a timer in [q] have yet to send their outcome. *)
Record Joining (inv : Invocation) (q : list (Z * Task)) : Prop := mkJoining {
  jn_closed : inv_closed inv = false;
  jn_open : inv_sub_closed inv = false;
  jn_tasks :
    Forall (fun dt => exists i p,
              dt.2 = TSource 0 i /\ ps !! i = Some p
              /\ inv_sources inv !! i = Some (mkSourceSub (script_of p) false))
      q;
  jn_nodup : NoDup q.*2;
  jn_join : exists j,
    inv_join inv = Some j
    /\ j_keys j = sp_name <$> ps
    /\ length (j_values j) = length ps
    /\ length (j_hasValue j) = length ps
    /\ j_remainingCompletions j = length q
    /\ j_remainingEmissions j = length q
    /\ (forall i, pending q i -> j_hasValue j !! i = Some false)
    /\ (forall i p, ps !! i = Some p -> ~ pending q i ->
          j_values j !! i = Some (value_of p));
}.

Lemma source_done_ne i i' srcs :
  i <> i' -> source_done i srcs !! i' = srcs !! i'.
Proof.
  intros Hne. unfold source_done. by rewrite !list_lookup_alter_ne.
Qed.

(** A sub-producer answers while others are still pending. *)
Lemma Joining_completed inv due i q p v j :
  Joining inv ((due, TSource 0 i) :: q) ->
  ps !! i = Some p -> sp_outcome p = Responds v ->
  inv_join inv = Some j ->
  Joining (completed i v j inv) q.
Proof.
  intros [Hc Ho Ht Hn (j' & Hj & Hk & Hlv & Hlh & Hrc & Hre & Hh & Hv)] Hp Hout Hj0.
  assert (j' = j) as -> by congruence.
  simpl in Hn. apply NoDup_cons in Hn as [Hni Hn].
  apply Forall_cons in Ht as [_ Ht].
  assert (Hi : (i < length ps)%nat) by (by eapply lookup_lt_Some).
  split; simpl; try done.
  - apply Forall_forall. intros dt Hin.
    rewrite Forall_forall in Ht.
    destruct (Ht dt Hin) as (i' & p' & Hd & Hp' & Hs').
    exists i', p'. split_and!; try done.
    rewrite source_done_ne; [done|]. intros ->.
    apply Hni. rewrite <- Hd. apply list_elem_of_fmap. eauto.
  - eexists. split; [reflexivity|]. simpl.
    rewrite !length_insert.
    assert (Hfalse : j_hasValue j !! i = Some false).
    { apply Hh. unfold pending. simpl. left. }
    rewrite Hfalse. simpl. rewrite Hrc, Hre. simpl.
    split_and!; try done.
    + intros i' Hpend.
      assert (i <> i') by (intros ->; by apply Hni).
      rewrite list_lookup_insert_ne by done.
      apply Hh. unfold pending. simpl. by right.
    + intros i' p' Hp' Hnp. destruct (decide (i = i')) as [<-|Hne].
      * rewrite list_lookup_insert_eq by lia.
        assert (p' = p) as -> by congruence.
        unfold value_of. by rewrite Hout.
      * rewrite list_lookup_insert_ne by done.
        apply Hv; [done|]. unfold pending. simpl.
        intros Hin. apply elem_of_cons in Hin as [Heq|Hin]; [|done].
        congruence.
Qed.

(** One turn when the earliest timer is a sub-producer's and no microtask
    is queued. *)
Lemma step_source w due i q :
  timers w = (due, TSource 0 i) :: q ->
  step rev options getObservable w
  = Some (drain options
            (fire_source rev options 0 i (set_now due (set_timers q w)))).
Proof. intros Ht. unfold step. by rewrite Ht. Qed.

Lemma drain_idle w : microtasks w = [] -> drain options w = set_microtasks [] w.
Proof. intros Hm. unfold drain. by rewrite Hm. Qed.

Lemma on_next_microtasks k v w :
  microtasks (on_next options k v w) = microtasks w.
Proof.
  unfold on_next, complete_exec.
  destruct (invocations w !! k) as [inv|] eqn:Hl; [|done].
  destruct (tracked options); cbn; rewrite Hl;
    destruct (inv_closed inv), (inv_downstream inv); reflexivity.
Qed.

Lemma on_error_microtasks k e w :
  microtasks (on_error rev options k e w) = microtasks w.
Proof.
  unfold on_error, normalise, complete_exec.
  destruct (invocations w !! k) as [inv|] eqn:Hl; [|done].
  destruct rev, (tracked options); cbn; rewrite Hl;
    destruct (inv_closed inv), (inv_downstream inv); reflexivity.
Qed.

(** Nothing observable changed. *)
Definition calm (w w' : World) : Prop :=
  status w' = status w /\ error w' = error w /\ trace w' = trace w
  /\ heap w' = heap w /\ tracker w' = tracker w.

Lemma calm_refl w : calm w w.
Proof. by repeat split. Qed.

Lemma calm_trans w1 w2 w3 : calm w1 w2 -> calm w2 w3 -> calm w1 w3.
Proof.
  intros (A1 & A2 & A3 & A4 & A5) (B1 & B2 & B3 & B4 & B5).
  repeat split; congruence.
Qed.

(** After the invocation has settled, the timers that are left find their
    subscriber closed. *)
Lemma dead_loop q w inv :
  invocations w = [inv] -> inv_sub_closed inv = true ->
  timers w = q -> microtasks w = [] ->
  Forall (fun dt => exists i, dt.2 = TSource 0 i) q ->
  let w' := turns rev options getObservable (length q) w in
  timers w' = [] /\ calm w w'.
Proof.
  revert w. induction q as [|[due t] q IH]; intros w Hw Hc Ht Hm Hq; simpl.
  - split; [done|apply calm_refl].
  - apply Forall_cons in Hq as [[i Hi] Hq]. simpl in Hi. subst t.
    rewrite (step_source w due i q Ht).
    rewrite (fire_dead rev options _ inv i) by done.
    rewrite drain_idle by done.
    destruct (IH (set_microtasks [] (set_now due (set_timers q w))))
      as [H1 H2]; [done..|].
    split; [done|]. eapply calm_trans; [|exact H2]. by repeat split.
Qed.

Lemma success_events_ext k inv inv' data w w' :
  inv_args inv' = inv_args inv -> inv_handlers inv' = inv_handlers inv ->
  heap w' = heap w ->
  success_events options k inv' data w' = success_events options k inv data w.
Proof.
  intros Ha Hh Hheap. unfold success_events, read_handlers.
  by rewrite Ha, Hh, Hheap.
Qed.

Lemma error_events_ext k inv inv' e w w' :
  inv_args inv' = inv_args inv -> inv_handlers inv' = inv_handlers inv ->
  heap w' = heap w ->
  error_events rev options k inv' e w' = error_events rev options k inv e w.
Proof.
  intros Ha Hh Hheap. unfold error_events, read_handlers.
  by rewrite Ha, Hh, Hheap.
Qed.

Lemma Joining_values inv j :
  Joining inv [] -> inv_join inv = Some j ->
  j_values j = value_of <$> ps.
Proof.
  intros [_ _ _ _ (j' & Hj & _ & Hlv & _ & _ & _ & _ & Hv)] Hj0.
  assert (j' = j) as -> by congruence.
  apply list_eq. intros i. rewrite list_lookup_fmap.
  destruct (ps !! i) as [p|] eqn:Hp; simpl.
  - apply Hv; [done|]. unfold pending. simpl. apply not_elem_of_nil.
  - apply lookup_ge_None. rewrite Hlv. by apply lookup_ge_None.
Qed.

Lemma createObject_aggregate :
  createObject (sp_name <$> ps) (value_of <$> ps) = aggregate ps.
Proof.
  unfold createObject, aggregate. f_equal.
  induction ps as [|p l IH]; simpl; [done|]. by f_equal.
Qed.

Lemma on_next_tracker k v w inv :
  invocations w !! k = Some inv ->
  tracker (on_next options k v w)
  = if tracked options
    then Tracker.success (inv_id inv) (tracker w)
    else tracker w.
Proof.
  intros Hl. unfold on_next, complete_exec. rewrite Hl.
  destruct (tracked options); cbn; rewrite Hl;
    destruct (inv_closed inv), (inv_downstream inv); reflexivity.
Qed.

(** The timer [dt] belongs to a sub-producer that fails. *)
Definition is_failing (dt : Z * Task) : bool :=
  match dt.2 with
  | TSource _ i =>
      match sp_outcome <$> ps !! i with
      | Some (Fails _) => true
      | _ => false
      end
  | _ => false
  end.

Lemma first_failing (q : list (Z * Task)) :
  Forall (fun dt => is_failing dt = false) q
  \/ exists pre dt post,
       q = pre ++ dt :: post
       /\ Forall (fun dt => is_failing dt = false) pre
       /\ is_failing dt = true.
Proof.
  induction q as [|dt q IH]; [by left|].
  destruct (is_failing dt) eqn:E.
  - right. exists [], dt, q. by repeat split.
  - destruct IH as [IH|(pre & dt' & post & -> & Hpre & Hf)].
    + left. by constructor.
    + right. exists (dt :: pre), dt', post. repeat split; [|done].
      by constructor.
Qed.

(** What the tracker holds once the invocation has settled. *)
Definition tracker_after (ok : bool) (inv : Invocation) (msg : JsVal)
    (t : Tracker.GlobalHttpTracker JsVal) : Tracker.GlobalHttpTracker JsVal :=
  if tracked options
  then if ok then Tracker.success (inv_id inv) t
       else Tracker.error (inv_id inv) msg t
  else t.

(** Every sub-producer answers: the last answer delivers the aggregate. *)
Lemma respond_loop q w inv :
  q <> [] -> invocations w = [inv] -> timers w = q -> microtasks w = [] ->
  Joining inv q -> Forall (fun dt => is_failing dt = false) q ->
  let w' := turns rev options getObservable (length q) w in
  timers w' = [] /\ status w' = Success /\ error w' = error w
  /\ events w' = events w ++ success_events options 0 inv (aggregate ps) w
  /\ tracker w' = tracker_after true inv JUndefined (tracker w).
Proof.
  revert w inv. induction q as [|[due t] q IH]; intros w inv Hne Hw Ht Hm HJ Hok;
    [done|].
  pose proof HJ as [Hc Ho Htasks Hnd (j & Hj & Hk & Hlv & Hlh & Hrc & Hre & Hh & Hv)].
  apply Forall_cons in Htasks as [(i & p & Hi & Hp & Hs) Htasks].
  simpl in Hi. subst t.
  apply Forall_cons in Hok as [Hoki Hok].
  unfold is_failing in Hoki. simpl in Hoki. rewrite Hp in Hoki. simpl in Hoki.
  destruct (sp_outcome p) as [v|e] eqn:Hout; [|done].
  assert (Hscript : script_of p = responds (sp_delay p) v).
  { unfold script_of. by rewrite Hout. }
  rewrite Hscript in Hs.
  pose proof (Joining_completed inv due i q p v j HJ Hp Hout Hj) as HJ'.
  cbv zeta. simpl turns. rewrite (step_source w due i q Ht).
  set (w0 := set_now due (set_timers q w)).
  destruct q as [|dt q'].
  - (* the last answer *)
    assert (Hfalse : j_hasValue j !! i = Some false).
    { apply Hh. unfold pending. simpl. left. }
    rewrite (fire_responder_last rev options w0 inv j i (sp_delay p) v);
      try done.
    set (w1 := set_invocations [completed i v j inv] w0).
    rewrite drain_idle by (by rewrite on_next_microtasks).
    assert (Hl1 : invocations w1 !! 0%nat = Some (completed i v j inv)) by done.
    destruct (on_next_status options 0
                (createObject (j_keys j) (<[i:=v]> (j_values j))) w1 _ Hl1)
      as [S1 S2].
    assert (Hagg : createObject (j_keys j) (<[i:=v]> (j_values j))
                   = aggregate ps).
    { rewrite Hk, <- createObject_aggregate. f_equal.
      apply (Joining_values (completed i v j inv)
               (join_complete (join_next i v j)) HJ' eq_refl). }
    simpl. split_and!.
    + by rewrite on_next_timers.
    + done.
    + by rewrite S2.
    + unfold events. simpl.
      fold (events (on_next options 0
                      (createObject (j_keys j) (<[i:=v]> (j_values j))) w1)).
      rewrite (on_next_events options 0 _ w1 _ Hl1), Hagg.
      by rewrite (success_events_ext 0 inv (completed i v j inv) _ w w1).
    + rewrite (on_next_tracker 0 _ w1 _ Hl1). done.
  - (* more answers are awaited *)
    rewrite (fire_responder_more rev options w0 inv j i (sp_delay p) v
               (length q')); try done; [|rewrite Hlh; by eapply lookup_lt_Some].
    rewrite drain_idle by done.
    set (w1 := set_microtasks [] (set_invocations [completed i v j inv] w0)).
    destruct (IH w1 (completed i v j inv)) as (R1 & R2 & R3 & R4 & R5);
      [done..|].
    by split_and!.
Qed.

(** A sub-producer fails before every one has answered: the failure goes to
    the error handler, and whatever comes later is dropped. *)
Lemma fail_loop pre w inv due i post p e :
  invocations w = [inv] -> timers w = pre ++ (due, TSource 0 i) :: post ->
  microtasks w = [] ->
  Joining inv (pre ++ (due, TSource 0 i) :: post) ->
  Forall (fun dt => is_failing dt = false) pre ->
  ps !! i = Some p -> sp_outcome p = Fails e ->
  let w' := turns rev options getObservable
              (length (pre ++ (due, TSource 0 i) :: post)) w in
  timers w' = [] /\ status w' = Error
  /\ error w' = Some (normalised rev e)
  /\ events w' = events w ++ error_events rev options 0 inv e w
  /\ tracker w' = tracker_after false inv (normalised rev e) (tracker w).
Proof.
  revert w inv. induction pre as [|[due' t'] pre IH];
    intros w inv Hw Ht Hm HJ Hok Hp Hout;
    pose proof HJ as [Hc Ho Htasks Hnd (j & Hj & Hk & Hlv & Hlh & Hrc & Hre & Hh & Hv)].
  - (* the failure is next *)
    simpl in *.
    apply Forall_cons in Htasks as [(i' & p' & Hi' & Hp' & Hs) Htasks].
    simpl in Hi'. injection Hi' as <-.
    assert (p' = p) as -> by congruence.
    assert (Hscript : script_of p = fails (sp_delay p) e).
    { unfold script_of. by rewrite Hout. }
    rewrite Hscript in Hs.
    rewrite (step_source w due i post Ht).
    set (w0 := set_now due (set_timers post w)).
    rewrite (fire_failing rev options w0 inv j i (sp_delay p) e); try done.
    set (w1 := set_invocations [failed i inv] w0).
    assert (Hl1 : invocations w1 !! 0%nat = Some (failed i inv)) by done.
    set (w2 := upd_inv 0 close_sub_of (on_error rev options 0 e w1)).
    assert (Hi2 : invocations w2
                  = [close_sub_of (close_inv (failed i inv))]).
    { unfold w2, upd_inv. simpl.
      by rewrite (on_error_invocations rev options 0 e w1 _ Hl1 Hc). }
    rewrite drain_idle by (unfold w2; simpl; by rewrite on_error_microtasks).
    destruct (dead_loop post (set_microtasks [] w2)
                (close_sub_of (close_inv (failed i inv))))
      as [D1 (D2 & D3 & D4 & D5 & D6)]; try done.
    { simpl. by rewrite on_error_timers. }
    { eapply Forall_impl; [exact Htasks|]. simpl.
      intros dt (i' & _ & Hd & _). eauto. }
    destruct (on_error_status rev options 0 e w1 _ Hl1) as [S1 S2].
    split_and!.
    + exact D1.
    + by rewrite D2.
    + by rewrite D3.
    + unfold events. rewrite D4. simpl.
      fold (events (on_error rev options 0 e w1)).
      by rewrite (on_error_events rev options 0 e w1 _ Hl1).
    + rewrite D6. simpl.
      by rewrite (on_error_tracker rev options 0 e w1 _ Hl1).
  - (* an answer comes first *)
    simpl in Ht, HJ, Htasks, Hnd, Hrc, Hre.
    apply Forall_cons in Htasks as [(i' & p' & Hi' & Hp' & Hs) Htasks].
    simpl in Hi'. subst t'.
    apply Forall_cons in Hok as [Hoki Hok].
    unfold is_failing in Hoki. simpl in Hoki. rewrite Hp' in Hoki.
    simpl in Hoki.
    destruct (sp_outcome p') as [v|e'] eqn:Hout'; [|done].
    assert (Hscript : script_of p' = responds (sp_delay p') v).
    { unfold script_of. by rewrite Hout'. }
    rewrite Hscript in Hs.
    pose proof (Joining_completed inv due' i' _ p' v j HJ Hp' Hout' Hj) as HJ'.
    cbv zeta. simpl length. simpl turns.
    rewrite (step_source w due' i' _ Ht).
    set (w0 := set_now due' (set_timers _ w)).
    rewrite (fire_responder_more rev options w0 inv j i' (sp_delay p') v
               (length pre + length post));
      try done;
      [|rewrite Hrc, length_app; simpl; lia
       |rewrite Hlh; by eapply lookup_lt_Some].
    rewrite drain_idle by done.
    set (w1 := set_microtasks [] (set_invocations [completed i' v j inv] w0)).
    destruct (IH w1 (completed i' v j inv)) as (R1 & R2 & R3 & R4 & R5);
      [done..|].
    by split_and!.
Qed.
End JoinLoop.

Lemma named_snd ps : map snd (named ps) = script_of <$> ps.
Proof. unfold named. rewrite map_map. done. Qed.

Lemma named_fst ps : map fst (named ps) = sp_name <$> ps.
Proof. unfold named. rewrite map_map. done. Qed.

Lemma entries_lookup_elem t i ps j p :
  ps !! j = Some p ->
  (t + Z.max 0 (sp_delay p), TSource 0 (i + j)) ∈ entries t i ps.
Proof.
  revert i j. induction ps as [|p' ps IH]; intros i j Hl; [done|].
  destruct j as [|j]; simpl in *.
  - injection Hl as ->. rewrite Nat.add_0_r. left.
  - right. replace (i + S j)%nat with (S i + j)%nat by lia. by apply IH.
Qed.

Lemma start_source_frame k i s w :
  start_source k i s w = set_timers (timers (start_source k i s w)) w.
Proof. destruct w, s as [|[d b] s]; reflexivity. Qed.

Lemma start_sources_frame k i ss w :
  start_sources k i ss w = set_timers (timers (start_sources k i ss w)) w.
Proof.
  revert i w. induction ss as [|s ss IH]; intros i w; simpl.
  - by destruct w.
  - rewrite IH. rewrite (start_source_frame k i s w) at 2. reflexivity.
Qed.

(** The state in which a fork-join invocation starts. *)
Lemma Joining_start ps args h id ds q t :
  q ≡ₚ entries t 0 ps ->
  Joining ps
    (mkInvocation args h id ds false false
       (sources_of (ForkJoin (named ps))) (join_of (ForkJoin (named ps)))) q.
Proof.
  intros Hq.
  assert (Hpend : forall i p, ps !! i = Some p -> pending q i).
  { intros i p Hp. unfold pending. apply list_elem_of_fmap.
    exists (t + Z.max 0 (sp_delay p), TSource 0 i). split; [done|].
    rewrite Hq. by apply (entries_lookup_elem t 0 ps i p). }
  assert (Hlen : length (named ps) = length ps).
  { unfold named. by rewrite length_map. }
  split; simpl; try done.
  - apply Forall_forall. intros dt Hin. rewrite Hq in Hin.
    apply entries_elem in Hin as (j & p & Hl & ->). simpl.
    exists j, p. split_and!; try done.
    unfold named. rewrite map_map. change (map ?f ps) with (f <$> ps).
    by rewrite list_lookup_fmap, Hl.
  - rewrite Hq. apply entries_nodup.
  - eexists. split; [reflexivity|]. simpl.
    rewrite !length_replicate, Hlen, Hq, entries_length, named_fst.
    split_and!; try done.
    + intros i Hi. apply lookup_replicate. split; [done|].
      unfold pending in Hi. rewrite Hq in Hi.
      apply list_elem_of_fmap in Hi as (dt & Hd & Hin).
      apply entries_elem in Hin as (j & p & Hl & ->). simpl in Hd.
      injection Hd as ->. by eapply lookup_lt_Some.
    + intros i p Hp Hnp. destruct Hnp. by eapply Hpend.
Qed.

(** Timers due together fire in the order the sub-producers were
    subscribed. *)
Definition src_index (t : Task) : nat :=
  match t with
  | TSource _ i => i
  | _ => 0
  end.

Definition fifo (a b : Z * Task) : Prop :=
  a.1 < b.1 \/ (a.1 = b.1 /\ (src_index a.2 <= src_index b.2)%nat).

Lemma insert_timer_fifo due k i q :
  StronglySorted fifo q ->
  Forall (fun dt => (src_index dt.2 <= i)%nat) q ->
  StronglySorted fifo (insert_timer due (TSource k i) q).
Proof.
  induction 1 as [|[d' t'] q Hs IH Hx]; intros Hidx; simpl.
  - repeat constructor.
  - apply Forall_cons in Hidx as [Hi Hidx]. simpl in Hi.
    destruct (Z.ltb_spec due d').
    + constructor; [by constructor|].
      constructor; [left; simpl; lia|].
      eapply Forall_impl; [exact Hx|]. unfold fifo. simpl. intros; lia.
    + constructor; [by apply IH|].
      rewrite insert_timer_perm. constructor; [|done].
      unfold fifo. simpl. lia.
Qed.

Lemma start_sources_fifo i ps w :
  StronglySorted fifo (timers w) ->
  Forall (fun dt => (src_index dt.2 < i)%nat) (timers w) ->
  StronglySorted fifo (timers (start_sources 0 i (script_of <$> ps) w)).
Proof.
  revert i w. induction ps as [|p ps IH]; intros i w Hs Hidx; simpl; [done|].
  assert (Ht : timers (start_source 0 i (script_of p) w)
               = insert_timer (now w + Z.max 0 (sp_delay p)) (TSource 0 i)
                   (timers w)).
  { unfold script_of. by destruct (sp_outcome p). }
  apply IH; rewrite Ht.
  - apply insert_timer_fifo; [done|].
    eapply Forall_impl; [exact Hidx|]. simpl. intros; lia.
  - rewrite insert_timer_perm. constructor; [simpl; lia|].
    eapply Forall_impl; [exact Hidx|]. simpl. intros; lia.
Qed.

Section ForkJoinDispatch.
Variable rev : Revision.
Variable options : ActionOptions.
Variable getObservable : list JsVal -> ObservableExpr.
Variable ps : list SubProducer.
Variable args : list JsVal.
Hypothesis Hobs : getObservable args = ForkJoin (named ps).
Hypothesis Hne : ps <> [].

(** The invocation record of the first dispatch. *)
Definition started (ds : Downstream) (w0 : World) : Invocation :=
  mkInvocation args (executeObservable rev options args w0).1.(eo_handlers)
    (uuid 0) ds false false
    (sources_of (ForkJoin (named ps))) (join_of (ForkJoin (named ps))).

(** The first dispatch, before the sub-producers set their timers. *)
Definition dispatched (ds : Downstream) (w0 : World) : World :=
  log (EvProducer 0 args)
    (set_invocations [started ds w0]
       (executeObservable rev options args w0).2).

Lemma forkjoin_subscribe ds w0 :
  invocations w0 = [] -> timers w0 = [] ->
  let r := subscribe_exec getObservable ds
             (executeObservable rev options args w0).1
             (executeObservable rev options args w0).2 in
  r.1 = 0%nat
  /\ r.2 = set_timers (timers r.2) (dispatched ds w0)
  /\ timers r.2 ≡ₚ entries (now w0) 0 ps
  /\ StronglySorted fifo (timers r.2).
Proof.
  intros Hi Ht. cbv zeta.
  set (e := executeObservable rev options args w0).
  assert (He : eo_args e.1 = args /\ eo_id e.1 = uuid 0
               /\ invocations e.2 = [] /\ timers e.2 = []
               /\ now e.2 = now w0).
  { unfold e, executeObservable. rewrite Hi.
    destruct rev, (tracked options); simpl; rewrite ?Ht, ?Hi; done. }
  destruct He as (Ha & Hid & Hi2 & Ht2 & Hn2).
  unfold subscribe_exec. rewrite Hi2, Ha, Hid, Hobs. simpl length.
  destruct ps as [|p ps'] eqn:Eps; [done|]. rewrite <- Eps in *.
  assert (En : exists x xs, named ps = x :: xs).
  { rewrite Eps. simpl. eauto. }
  destruct En as (x & xs & En). rewrite En, <- En. cbn [fst snd].
  rewrite named_snd.
  set (W := log _ _).
  assert (HW : W = dispatched ds w0) by reflexivity.
  assert (HtW : timers W = []) by (unfold W; simpl; done).
  assert (HnW : now W = now w0) by (unfold W; simpl; done).
  split; [done|]. split; [|split].
  - rewrite <- HW. apply start_sources_frame.
  - destruct (start_sources_queue 0 ps W) as [Hp _].
    rewrite Hp, HtW, HnW. by rewrite app_nil_r.
  - apply start_sources_fifo; rewrite HtW; constructor.
Qed.
(** [currentSub = executeObservable(...args).subscribe()], nothing
    subscribed before. *)
Lemma execute_now_forkjoin w0 :
  currentSub w0 = None -> invocations w0 = [] -> timers w0 = [] ->
  exists q,
    execute_now rev options getObservable args w0
    = set_currentSub (Some (SubExec 0)) (set_timers q (dispatched Direct w0))
    /\ q ≡ₚ entries (now w0) 0 ps /\ StronglySorted fifo q.
Proof.
  intros Hc Hi Ht.
  destruct (forkjoin_subscribe Direct w0 Hi Ht) as (Hk & Hw & Hp & Hs).
  unfold execute_now. rewrite Hc.
  destruct (executeObservable rev options args w0) as [eo wa] eqn:Ee.
  cbn [fst snd] in *.
  destruct (subscribe_exec getObservable Direct eo wa) as [k wb].
  cbn [fst snd] in *. subst k.
  exists (timers wb). by rewrite Hw at 1.
Qed.

(** The same through [switchMap], with no inner subscription yet. *)
Lemma switchMap_next_forkjoin w0 :
  innerSubscriber (pipeline w0) = None ->
  invocations w0 = [] -> timers w0 = [] ->
  exists q,
    switchMap_next rev options getObservable args w0
    = set_innerSubscriber (Some 0%nat)
        (set_timers q (dispatched SwitchMapInner w0))
    /\ q ≡ₚ entries (now w0) 0 ps /\ StronglySorted fifo q.
Proof.
  intros Hc Hi Ht.
  destruct (forkjoin_subscribe SwitchMapInner w0 Hi Ht) as (Hk & Hw & Hp & Hs).
  unfold switchMap_next. rewrite Hc.
  destruct (executeObservable rev options args w0) as [eo wa] eqn:Ee.
  cbn [fst snd] in *.
  destruct (subscribe_exec getObservable SwitchMapInner eo wa) as [k wb].
  cbn [fst snd] in *. subst k.
  exists (timers wb). by rewrite Hw at 1.
Qed.
End ForkJoinDispatch.

Lemma turns_step rev options getObservable n w w' :
  step rev options getObservable w = Some w' ->
  turns rev options getObservable (S n) w
  = turns rev options getObservable n w'.
Proof. intros E. simpl. by rewrite E. Qed.

(** Sub-producer [j] fails no later than sub-producer [i]: at an earlier
    time, or at the same time and subscribed before it. *)
Definition fails_first (j : nat) (pj : SubProducer) (i : nat)
    (p : SubProducer) : Prop :=
  Z.max 0 (sp_delay pj) < Z.max 0 (sp_delay p)
  \/ (Z.max 0 (sp_delay pj) = Z.max 0 (sp_delay p) /\ (j <= i)%nat).

Section ForkJoinRun.
Variable observablesFn : JsVal -> list (string * Script).
Variables (tk : option bool) (ol os oe : option string).
Variable tr : Tracker.GlobalHttpTracker JsVal.
Variable t0 : Z.
Variable request : JsVal.
Variable ps : list SubProducer.
Variables f g : string.
Hypothesis Hobs : observablesFn request = named ps.
Hypothesis Hne : ps <> [].

Let options (db : option Z) := mkOptions tk db ol os oe.
Let a (rev : Revision) (db : option Z) :=
  createSignalForkJoinAction rev observablesFn (options db).

(** [setTimeout(() => action.run(request).onSuccess(f).onError(g), t0)] *)
Definition one_run : Scenario :=
  [(t0, [URun [request]; UOnSuccess 0 f; UOnError 0 g])].

(** The handler record the dispatched invocation reads. *)
Definition own_handlers (rev : Revision) : Handlers :=
  match rev with
  | Part000 => mkHandlers None (Some (CbUser f)) (Some (CbUser g)) None
  | Part001 => no_handlers
  end.

Definition before_settling : list Event :=
  EvRun [request] :: dispatch_events 0 [request]
  ++ map (fun c => EvCall 0 Store KLoading c.1 c.2)
       (call_opt (CbUser <$> ol) [request]).

(** The sub-producers are subscribed and none has answered. *)
Record Dispatched (rev : Revision) (w1 : World) : Prop := {
  d_inv : exists h ds,
    invocations w1
    = [mkInvocation [request] h (uuid 0) ds false false
         (sources_of (ForkJoin (named ps))) (join_of (ForkJoin (named ps)))]
    /\ read_handlers h w1 = own_handlers rev;
  d_perm : timers w1 ≡ₚ entries (now w1) 0 ps;
  d_fifo : StronglySorted fifo (timers w1);
  d_micro : microtasks w1 = [];
  d_status : status w1 = Loading;
  d_error : error w1 = None;
  d_events : events w1 = before_settling;
}.

Definition joined (args : list JsVal) : ObservableExpr :=
  ForkJoin (observablesFn (default JUndefined (head args))).

Lemma joined_request : joined [request] = ForkJoin (named ps).
Proof. unfold joined. simpl. by rewrite Hobs. Qed.

Lemma dispatch_now_part001 db :
  debounced (options db) = false ->
  Dispatched Part001 (play (a Part001 db) tr one_run 1).
Proof.
  intros Hd. unfold play, a, options in *.
  destruct db as [[|p|p]|]; cbn in Hd; try discriminate Hd.
  all: clear Hd.
  all: cbn [a_rev a_options a_getObservable createSignalForkJoinAction turns]
         in *.
  all: unfold step; cbn -[execute_now drain register].
  all: match goal with |- context [execute_now _ ?o _ _ ?w] =>
    destruct (execute_now_forkjoin Part001 o joined ps [request]
                joined_request Hne w eq_refl eq_refl eq_refl)
      as (q & Hq & Hp & Hs) end.
  all: unfold joined in Hq at 1; rewrite Hq; clear Hq.
  all: cbn in Hp.
  all: destruct tk as [[]|];
    lazy -[Z.add uuid sources_of join_of named entries Tracker.begin].
  all: split; [do 2 eexists; split; reflexivity | try done ..
         | unfold before_settling; destruct ol; reflexivity].
Qed.

Lemma dispatch_now_part000 db :
  debounced (options db) = false ->
  Dispatched Part000 (play (a Part000 db) tr one_run 2).
Proof.
  intros Hd. unfold play, a, options in *.
  destruct db as [[|p|p]|]; cbn in Hd; try discriminate Hd.
  all: clear Hd.
  all: cbn [a_rev a_options a_getObservable createSignalForkJoinAction] in *.
  all: erewrite turns_step by (lazy -[Z.add]; reflexivity).
  all: erewrite turns_step by (unfold step; cbn [timers]; reflexivity).
  all: cbn [turns run_task]; unfold trigger.
  all: change (debounced _) with false; cbv iota.
  all: match goal with |- context [execute_now _ ?o _ _ ?w] =>
    destruct (execute_now_forkjoin Part000 o joined ps [request]
                joined_request Hne w eq_refl eq_refl eq_refl)
      as (q & Hq & Hp & Hs) end.
  all: unfold joined in Hq at 1; rewrite Hq; clear Hq.
  all: cbn -[Z.add] in Hp.
  all: destruct tk as [[]|];
    lazy -[Z.add uuid sources_of join_of named entries Tracker.begin].
  all: split; [do 2 eexists; split; reflexivity | try done ..
         | unfold before_settling; destruct ol; reflexivity].
Qed.

Lemma dispatch_debounced_part001 db :
  debounced (options db) = true ->
  Dispatched Part001 (play (a Part001 db) tr one_run 2).
Proof.
  intros Hd. unfold play, a, options in *.
  destruct db as [[|p|p]|]; cbn in Hd; try discriminate Hd.
  all: clear Hd.
  all: cbn [a_rev a_options a_getObservable createSignalForkJoinAction] in *.
  all: erewrite turns_step by (lazy -[Z.add]; reflexivity).
  all: erewrite turns_step
         by (apply debounce_fires; [reflexivity..|cbn -[Z.add]; lia]).
  all: cbn [turns].
  all: match goal with |- context [switchMap_next _ ?o _ _ ?w] =>
    destruct (switchMap_next_forkjoin Part001 o joined ps [request]
                joined_request Hne w eq_refl eq_refl eq_refl)
      as (q & Hq & Hp & Hs) end.
  all: unfold joined in Hq at 1; rewrite Hq; clear Hq.
  all: cbn -[Z.add] in Hp.
  all: destruct tk as [[]|];
    lazy -[Z.add uuid sources_of join_of named entries Tracker.begin].
  all: split; [do 2 eexists; split; reflexivity | try done ..
         | unfold before_settling; destruct ol; reflexivity].
Qed.

Lemma dispatch_debounced_part000 db :
  debounced (options db) = true ->
  Dispatched Part000 (play (a Part000 db) tr one_run 3).
Proof.
  intros Hd. unfold play, a, options in *.
  destruct db as [[|p|p]|]; cbn in Hd; try discriminate Hd.
  all: clear Hd.
  all: cbn [a_rev a_options a_getObservable createSignalForkJoinAction] in *.
  all: erewrite turns_step by (lazy -[Z.add]; reflexivity).
  all: erewrite turns_step by (lazy -[Z.add]; reflexivity).
  all: erewrite turns_step
         by (apply debounce_fires; [reflexivity..|cbn -[Z.add]; lia]).
  all: cbn [turns].
  all: match goal with |- context [switchMap_next _ ?o _ _ ?w] =>
    destruct (switchMap_next_forkjoin Part000 o joined ps [request]
                joined_request Hne w eq_refl eq_refl eq_refl)
      as (q & Hq & Hp & Hs) end.
  all: unfold joined in Hq at 1; rewrite Hq; clear Hq.
  all: cbn -[Z.add] in Hp.
  all: destruct tk as [[]|];
    lazy -[Z.add uuid sources_of join_of named entries Tracker.begin].
  all: split; [do 2 eexists; split; reflexivity | try done ..
         | unfold before_settling; destruct ol; reflexivity].
Qed.

(** The whole history when every sub-producer answers, and when [e] is the
    first failure. *)
Definition success_trace (rev : Revision) : list Event :=
  before_settling
  ++ EvStatus 0 Success
  :: match os with
     | Some s => [EvCall 0 Store KSuccess s [aggregate ps; request]]
     | None => []
     end
  ++ match rev with
     | Part000 => [EvCall 0 Handle KSuccess f [aggregate ps; request]]
     | Part001 => []
     end.

Definition failure_trace (rev : Revision) (e : JsVal) : list Event :=
  before_settling
  ++ match rev with
     | Part000 => []
     | Part001 => [EvConsoleError (extractErrorMessage e)]
     end
  ++ EvError 0 (Some (normalised rev e))
  :: EvStatus 0 Error
  :: match oe with
     | Some s => [EvCall 0 Store KError s [normalised rev e; request]]
     | None => []
     end
  ++ match rev with
     | Part000 => [EvCall 0 Handle KError g [e; request]]
     | Part001 => []
     end.

Lemma forkjoin_outcome rev db w1 :
  Dispatched rev w1 ->
  let w := turns rev (options db) joined (length ps) w1 in
  timers w = []
  /\ (responds_all ps ->
      status w = Success /\ error w = None /\ events w = success_trace rev)
  /\ (forall i p e, ps !! i = Some p -> sp_outcome p = Fails e ->
      exists j pj ej,
        ps !! j = Some pj /\ sp_outcome pj = Fails ej
        /\ (forall i' p' e', ps !! i' = Some p' -> sp_outcome p' = Fails e' ->
            fails_first j pj i' p')
        /\ status w = Error /\ error w = Some (normalised rev ej)
        /\ events w = failure_trace rev ej).
Proof.
  intros [(h & ds & Hinv & Hread) Hperm Hfifo Hmicro Hst Herr Hev]. cbv zeta.
  set (inv := mkInvocation _ _ _ _ _ _ _ _) in *.
  assert (HJ : Joining ps inv (timers w1)).
  { eapply Joining_start. exact Hperm. }
  assert (Hlen : length (timers w1) = length ps).
  { by rewrite Hperm, entries_length. }
  assert (Hentry : forall i p, ps !! i = Some p ->
            (now w1 + Z.max 0 (sp_delay p), TSource 0 i) ∈ timers w1).
  { intros i p Hp. rewrite Hperm.
    exact (entries_lookup_elem (now w1) 0 ps i p Hp). }
  rewrite <- Hlen.
  destruct (first_failing ps (timers w1))
    as [Hok | (pre & dt & post & Hq & Hpre & Hf)].
  - assert (Hq : timers w1 <> []).
    { intros E. rewrite E in Hlen. by destruct ps. }
    destruct (respond_loop rev (options db) joined ps (timers w1) w1 inv
                Hq Hinv eq_refl Hmicro HJ Hok) as (HT & HS & HE & HEv & _).
    split; [done|]. split.
    + intros _. split_and!; [done|congruence|].
      rewrite HEv, Hev. unfold success_trace, success_events.
      subst inv. cbn [inv_handlers inv_args]. rewrite Hread. destruct rev, os; reflexivity.
    + intros i p e Hp Hout. exfalso.
      pose proof (proj1 (Forall_forall _ _) Hok _ (Hentry i p Hp)) as Hnf.
      unfold is_failing in Hnf. simpl in Hnf. rewrite Hp in Hnf.
      simpl in Hnf. by rewrite Hout in Hnf.
  - assert (Hin : dt ∈ timers w1).
    { rewrite Hq. apply elem_of_app. right. left. }
    rewrite Hperm in Hin.
    apply entries_elem in Hin as (i0 & p0 & Hp0 & ->).
    cbn [Nat.add] in *.
    unfold is_failing in Hf. simpl in Hf. rewrite Hp0 in Hf. simpl in Hf.
    destruct (sp_outcome p0) as [v|e0] eqn:Ho0; [done|].
    rewrite Hq in HJ.
    destruct (fail_loop rev (options db) joined ps pre w1 inv _ i0 post p0 e0
                Hinv Hq Hmicro HJ Hpre Hp0 Ho0) as (HT & HS & HE & HEv & _).
    rewrite <- Hq in HT, HS, HE, HEv.
    split; [done|]. split.
    + intros Hall. exfalso.
      destruct (proj1 (Forall_lookup _ _) Hall _ _ Hp0) as [v Hv]. congruence.
    + intros i p e Hp Hout. exists i0, p0, e0. split_and!; try done.
      * intros i' p' e' Hp' Ho'.
        pose proof (Hentry i' p' Hp') as Hin'. rewrite Hq in Hin'.
        apply elem_of_app in Hin' as [Hin'|Hin'].
        { pose proof (proj1 (Forall_forall _ _) Hpre _ Hin') as Hnf.
          unfold is_failing in Hnf. simpl in Hnf. rewrite Hp' in Hnf.
          simpl in Hnf. by rewrite Ho' in Hnf. }
        apply elem_of_cons in Hin' as [Heq|Hin'].
        { injection Heq as Hd Hi. subst i'.
          rewrite Hp0 in Hp'. injection Hp' as <-.
          right. split; [done|lia]. }
        rewrite Hq in Hfifo. apply StronglySorted_app_1_r in Hfifo.
        apply StronglySorted_inv in Hfifo as [_ Hall].
        pose proof (proj1 (Forall_forall _ _) Hall _ Hin') as Hff.
        unfold fifo in Hff. simpl in Hff. unfold fails_first. lia.
      * rewrite HEv, Hev. unfold failure_trace, error_events.
        subst inv. cbn [inv_handlers inv_args]. rewrite Hread. destruct rev, oe; reflexivity.
Qed.

(** Turns until the invocation is dispatched. *)
Definition turns_to_dispatch (rev : Revision) (db : option Z) : nat :=
  match rev, debounced (options db) with
  | Part001, false => 1
  | Part000, false | Part001, true => 2
  | Part000, true => 3
  end.

Lemma first_dispatch rev db :
  Dispatched rev (play (a rev db) tr one_run (turns_to_dispatch rev db)).
Proof.
  unfold turns_to_dispatch.
  destruct rev, (debounced (options db)) eqn:Hd.
  - by apply dispatch_debounced_part000.
  - by apply dispatch_now_part000.
  - by apply dispatch_debounced_part001.
  - by apply dispatch_now_part001.
Qed.

Lemma forkjoin_run rev db fuel :
  let w := play (a rev db) tr one_run (3 + length ps + fuel) in
  timers w = []
  /\ (responds_all ps ->
      status w = Success /\ error w = None /\ events w = success_trace rev)
  /\ (forall i p e, ps !! i = Some p -> sp_outcome p = Fails e ->
      exists j pj ej,
        ps !! j = Some pj /\ sp_outcome pj = Fails ej
        /\ (forall i' p' e', ps !! i' = Some p' -> sp_outcome p' = Fails e' ->
            fails_first j pj i' p')
        /\ status w = Error /\ error w = Some (normalised rev ej)
        /\ events w = failure_trace rev ej).
Proof.
  cbv zeta.
  pose proof (forkjoin_outcome rev db _ (first_dispatch rev db)) as H.
  cbv zeta in H.
  set (n := turns_to_dispatch rev db) in *.
  assert (Hn : (n <= 3)%nat).
  { unfold n, turns_to_dispatch.
    destruct rev, (debounced (options db)); lia. }
  replace (3 + length ps + fuel)%nat
    with (n + (length ps + (3 - n + fuel)))%nat by lia.
  unfold play in *. rewrite 2!turns_add.
  change (a_rev (a rev db)) with rev in *.
  change (a_options (a rev db)) with (options db) in *.
  change (a_getObservable (a rev db)) with joined in *.
  rewrite (turns_quiescent rev (options db) joined (3 - n + fuel)).
  - exact H.
  - unfold quiescent. by rewrite (proj1 H).
Qed.
End ForkJoinRun.

(** The success, error and finally calls made at level [lvl], in order. *)
Definition settled_calls (lvl : Level) (evs : list Event)
  : list (Kind * string * list JsVal) :=
  omap (fun ev =>
          match ev with
          | EvCall _ l kind fn actuals =>
              match l, lvl, kind with
              | _, _, KLoading => None
              | Store, Store, _ | Handle, Handle, _ =>
                  Some (kind, fn, actuals)
              | _, _, _ => None
              end
          | _ => None
          end) evs.

Definition is_success_call (ev : Event) : bool :=
  match ev with
  | EvCall _ _ KSuccess _ _ => true
  | _ => false
  end.

(** [cb?.(...actuals)] as a call of kind [kind]. *)
Definition one_call (kind : Kind) (cb : option string) (actuals : list JsVal)
  : list (Kind * string * list JsVal) :=
  match cb with
  | Some fn => [(kind, fn, actuals)]
  | None => []
  end.

(** C1, amended.  A controller built with [createSignalForkJoinAction], in
    either revision and with any options, is run once as
    [run(request).onSuccess(f).onError(g)] on a non-empty dictionary of
    sub-producers, each of which answers once or fails.  The run comes to an
    end, and:
    - if every sub-producer answers, [status] ends as [success] and the
      controller-level [onSuccess] is called once with the aggregate
      [{name: value, ...}] and the request (and so is [f], in the revision
      whose [run] shares its handler record with [executeObservable]);
    - if some sub-producer fails, the one that fails first (earliest, and
      first subscribed among those failing together) decides: [status] ends
      as [error], [error] holds its error (as a message, in the revision
      that normalises), the controller-level [onError] is called once with
      it (and so is [g], as above), and no success callback is called at
      all.  The errors of sub-producers failing later reach no callback. *)
Theorem C1_forkjoin_first_failure_wins
    (rev : Revision) (observablesFn : JsVal -> list (string * Script))
    (tk : option bool) (db : option Z) (ol os oe : option string)
    (tr : Tracker.GlobalHttpTracker JsVal) (t0 : Z) (request : JsVal)
    (ps : list SubProducer) (f g : string) (fuel : nat) :
  observablesFn request = named ps -> ps <> [] ->
  let action := createSignalForkJoinAction rev observablesFn
                  (mkOptions tk db ol os oe) in
  let w := play action tr (one_run t0 request f g)
             (3 + length ps + fuel) in
  quiescent w = true
  /\ (responds_all ps ->
      status w = Success
      /\ settled_calls Store (events w)
         = one_call KSuccess os [aggregate ps; request]
      /\ (rev = Part000 ->
          settled_calls Handle (events w)
          = [(KSuccess, f, [aggregate ps; request])]))
  /\ (forall i p e, ps !! i = Some p -> sp_outcome p = Fails e ->
      exists j pj ej,
        ps !! j = Some pj /\ sp_outcome pj = Fails ej
        /\ (forall i' p' e', ps !! i' = Some p' -> sp_outcome p' = Fails e' ->
            fails_first j pj i' p')
        /\ status w = Error /\ error w = Some (normalised rev ej)
        /\ settled_calls Store (events w)
           = one_call KError oe [normalised rev ej; request]
        /\ (rev = Part000 ->
            settled_calls Handle (events w) = [(KError, g, [ej; request])])
        /\ Forall (fun ev => is_success_call ev = false) (events w)).
Proof.
  intros Hobs Hne. cbv zeta.
  destruct (forkjoin_run observablesFn tk ol os oe tr t0 request ps f g
              Hobs Hne rev db fuel) as (Ht & Hok & Hfail).
  split; [unfold quiescent; by rewrite Ht|]. split.
  - intros Hall. destruct (Hok Hall) as (Hs & _ & Hev).
    rewrite Hev. unfold success_trace, before_settling.
    split; [done|]. split.
    + destruct rev, ol, os; reflexivity.
    + intros ->. destruct ol, os; reflexivity.
  - intros i p e Hp Ho.
    destruct (Hfail i p e Hp Ho) as (j & pj & ej & Hj & Hoj & Hfirst & Hs & He & Hev).
    exists j, pj, ej. rewrite Hev. unfold failure_trace, before_settling.
    split_and!; try done.
    + destruct rev, ol, oe; reflexivity.
    + intros ->. destruct ol, oe; reflexivity.
    + destruct rev, ol, oe; simpl; repeat constructor.
Qed.

Module Joined.
(** [a] answers at 10 and [b] fails at 20. *)
Definition one_fails : list SubProducer :=
  [mkSub "a" 10 (Responds (JStr "A")); mkSub "b" 20 (Fails (JStr "errB"))].

(** [a] fails at 10 and [b] fails at 20. *)
Definition both_fail : list SubProducer :=
  [mkSub "a" 10 (Fails (JStr "errA")); mkSub "b" 20 (Fails (JStr "errB"))].

(** [action.run(null).onSuccess("f").onError("g")] at time 0 on the
    controller [createSignalForkJoinAction(() => ps, options)] with the three
    controller-level callbacks set; the events of the whole run. *)
Definition history (rev : Revision) (ps : list SubProducer) : list Event :=
  events (play (createSignalForkJoinAction rev (fun _ => named ps)
                  (Scenarios.store_options None))
            Tracker.init (one_run 0 JNull "f" "g") 10).
End Joined.

Lemma C1_forkjoin_first_failure_wins_witness :
  (fun _ : JsVal => named Joined.one_fails) JNull = named Joined.one_fails
  /\ Joined.one_fails <> []
  /\ settled_calls Store (Joined.history Part000 Joined.one_fails)
     = [(KError, "store.onError", [JStr "errB"; JNull])]
  /\ settled_calls Handle (Joined.history Part000 Joined.one_fails)
     = [(KError, "g", [JStr "errB"; JNull])].
Proof.
  assert (Hne : Joined.one_fails <> []) by discriminate.
  split; [reflexivity|]. split; [exact Hne|].
  destruct (C1_forkjoin_first_failure_wins Part000
              (fun _ => named Joined.one_fails) None None
              (Some "store.onLoading") (Some "store.onSuccess")
              (Some "store.onError") Tracker.init 0 JNull Joined.one_fails
              "f" "g" 5 eq_refl Hne) as (_ & _ & H).
  destruct (H 1%nat _ _ eq_refl eq_refl)
    as (j & pj & ej & Hj & Hoj & _ & _ & _ & Hstore & Hown & _).
  destruct j as [|[|j]]; simpl in Hj; try discriminate Hj.
  - injection Hj as <-. discriminate Hoj.
  - injection Hj as <-. injection Hoj as <-.
    split; [exact Hstore|exact (Hown eq_refl)].
Defined.

(** C1 as the spec states it, on the events of a run over [ps]: when all
    answer, a success callback receives the aggregate; when any sub-producer
    fails, an error callback receives that sub-producer's error and no
    success callback is called. *)
Definition C1_as_stated (ps : list SubProducer) (request : JsVal)
    (evs : list Event) : Prop :=
  (responds_all ps ->
     exists k lvl fn, In (EvCall k lvl KSuccess fn [aggregate ps; request]) evs)
  /\ (forall p e, In p ps -> sp_outcome p = Fails e ->
        (exists k lvl fn, In (EvCall k lvl KError fn [e; request]) evs)
        /\ Forall (fun ev => is_success_call ev = false) evs).

(** When [a] fails at 10 and [b] at 20, [forkJoin] fails with the error of
    [a] and unsubscribes [b]: no callback ever receives the error of [b].
    An empty dictionary completes without a value: every sub-producer has
    answered, and no callback is called at all ([status] stays [loading]).
    And the revision that normalises failures hands the callbacks the
    extracted message, here the empty string, not the error. *)
Lemma C1_counterexample :
  ~ C1_as_stated Joined.both_fail JNull
      (Joined.history Part000 Joined.both_fail)
  /\ Joined.history Part000 Joined.both_fail
     = [EvRun [JNull]; EvDispatch 0 [JNull]; EvStatus 0 Loading;
        EvError 0 None; EvProducer 0 [JNull];
        EvCall 0 Store KLoading "store.onLoading" [JNull];
        EvError 0 (Some (JStr "errA")); EvStatus 0 Error;
        EvCall 0 Store KError "store.onError" [JStr "errA"; JNull];
        EvCall 0 Handle KError "g" [JStr "errA"; JNull]]
  /\ ~ C1_as_stated [] JNull (Joined.history Part000 [])
  /\ Joined.history Part000 []
     = [EvRun [JNull]; EvDispatch 0 [JNull]; EvStatus 0 Loading;
        EvError 0 None; EvProducer 0 [JNull];
        EvCall 0 Store KLoading "store.onLoading" [JNull]]
  /\ ~ C1_as_stated Joined.one_fails JNull
        (Joined.history Part001 Joined.one_fails)
  /\ settled_calls Store (Joined.history Part001 Joined.one_fails)
     = [(KError, "store.onError", [JStr ""; JNull])].
Proof.
  split_and!; try (vm_compute; reflexivity).
  - intros [_ H].
    destruct (H (mkSub "b" 20 (Fails (JStr "errB"))) (JStr "errB"))
      as [(k & lvl & fn & Hin) _]; [simpl; tauto|reflexivity|].
    vm_compute in Hin. intuition congruence.
  - intros [H _].
    destruct H as (k & lvl & fn & Hin); [constructor|].
    vm_compute in Hin. intuition congruence.
  - intros [_ H].
    destruct (H (mkSub "b" 20 (Fails (JStr "errB"))) (JStr "errB"))
      as [(k & lvl & fn & Hin) _]; [simpl; tauto|reflexivity|].
    vm_compute in Hin. intuition congruence.
Qed.

(** * Further properties *)

(** [clearError()] after a recorded failure empties [lastError()] and leaves
    the pending set, hence [pendingCount()], as it was. *)
Theorem clearError_round_trip
    (t : Tracker.GlobalHttpTracker string) (id msg : string) :
  let t' := Tracker.error id msg t in
  Tracker.lastError t' = Some msg
  /\ Tracker.lastError (Tracker.clearError t') = None
  /\ Tracker._pending (Tracker.clearError t') = Tracker._pending t'
  /\ Tracker.pendingCount (Tracker.clearError t') = Tracker.pendingCount t'.
Proof. by destruct t. Qed.

(** [isLoading], [isSuccess] and [isError] are computed from [status]: each
    is true exactly for its own value, so no two of them are true together
    and none is when the status is idle. *)
Theorem derived_views_exclusive (w : World) :
  (isLoading w = true <-> status w = Loading)
  /\ (isSuccess w = true <-> status w = Success)
  /\ (isError w = true <-> status w = Error)
  /\ isLoading w && isSuccess w = false
  /\ isLoading w && isError w = false
  /\ isSuccess w && isError w = false
  /\ (status w = Idle -> isLoading w || isSuccess w || isError w = false).
Proof.
  unfold isLoading, isSuccess, isError.
  split_and!; try apply bool_decide_eq_true; destruct (status w); done.
Qed.

Lemma derived_views_exclusive_witness :
  let w := createBaseAction Part001 no_options Tracker.init in
  status w = Idle /\ isLoading w || isSuccess w || isError w = false.
Proof.
  split; [reflexivity|].
  exact (proj2 (proj2 (proj2 (proj2 (proj2 (proj2
           (derived_views_exclusive
              (createBaseAction Part001 no_options Tracker.init)))))))
           eq_refl).
Defined.

(** X4.  The single slot: in every reachable state, every invocation but the
    one dispatched last has its producer unsubscribed. *)
Theorem single_open_subscription
    (a : Action) (tr : Tracker.GlobalHttpTracker JsVal) (sc : Scenario)
    (fuel : nat) :
  let w := play a tr sc fuel in
  forallb inv_sub_closed
    (take (length (invocations w) - 1) (invocations w)) = true.
Proof.
  cbv zeta. pose proof (g_last _ _ (play_good a tr sc fuel)) as H.
  apply forallb_forall. intros inv Hin.
  apply list_elem_of_In, list_elem_of_lookup in Hin as [k Hk].
  destruct (inv_sub_closed inv) eqn:E; [done|]. exfalso.
  pose proof (lookup_lt_Some _ _ _ Hk) as Hlt.
  rewrite length_take in Hlt.
  rewrite lookup_take_lt in Hk by lia.
  assert (Hl : live k (play a tr sc fuel)).
  { unfold live, sub_closed. by rewrite Hk. }
  apply H in Hl. lia.
Qed.

(** ** The handler record of [executeObservable] in Part001

    [executeObservable] declares [const handlers = {}] (lines 63-68) and
    reads the callbacks from it; the chain that [run] returns writes to the
    record declared in [run] (lines 108-113).  No chain method ever reaches
    the record that is read. *)

Definition no_handle (e : Event) : Prop :=
  match e with
  | EvCall _ Handle _ _ _ => False
  | _ => True
  end.

(** Record [r] is empty and no chain writes to it. *)
Definition unshared (w : World) (r : nat) : Prop :=
  heap w !! r = Some no_handlers /\ r ∉ chains w.

Definition unshared_task (w : World) (m : Microtask) : Prop :=
  match m with
  | MLoading _ _ h => unshared w h
  end.

Record Dead (w : World) : Prop := mkDead {
  dead_inv : Forall (fun inv => unshared w (inv_handlers inv)) (invocations w);
  dead_micro : Forall (unshared_task w) (microtasks w);
  dead_chains : Forall (fun r => (r < length (heap w))%nat) (chains w);
  dead_trace : Forall no_handle (events w);
}.

(** Steps that leave the handler records alone. *)
Definition keeps (w w' : World) : Prop :=
  heap w' = heap w /\ chains w' = chains w /\ microtasks w' = microtasks w
  /\ inv_handlers <$> invocations w' = inv_handlers <$> invocations w
  /\ exists es, events w' = events w ++ es /\ Forall no_handle es.

Lemma keeps_refl w : keeps w w.
Proof.
  split_and!; try done. exists []. by rewrite app_nil_r.
Qed.

Lemma keeps_trans w1 w2 w3 : keeps w1 w2 -> keeps w2 w3 -> keeps w1 w3.
Proof.
  intros (H1 & C1 & M1 & I1 & es1 & E1 & F1) (H2 & C2 & M2 & I2 & es2 & E2 & F2).
  split_and!; try congruence.
  exists (es1 ++ es2). split; [|by apply Forall_app].
  by rewrite E2, E1, app_assoc.
Qed.

Lemma Dead_keeps w w' : Dead w -> keeps w w' -> Dead w'.
Proof.
  intros [Di Dm Dc Dt] (Hh & Hc & Hm & Hi & es & He & Hes).
  split.
  - assert (Hf : Forall (unshared w) (inv_handlers <$> invocations w')).
    { rewrite Hi. apply Forall_fmap. exact Di. }
    rewrite Forall_fmap in Hf. eapply Forall_impl; [exact Hf|].
    intros inv. unfold unshared. simpl. by rewrite Hh, Hc.
  - rewrite Hm. eapply Forall_impl; [exact Dm|].
    intros [k args h]. unfold unshared_task, unshared. by rewrite Hh, Hc.
  - by rewrite Hc, Hh.
  - rewrite He. by apply Forall_app.
Qed.

(** [f] leaves the handler records alone in every state where the record
    read is not shared. *)
Definition Keeps (f : World -> World) : Prop :=
  forall w, Dead w -> keeps w (f w).

Lemma Keeps_compose f g : Keeps f -> Keeps g -> Keeps (fun w => g (f w)).
Proof.
  intros Hf Hg w D. eapply keeps_trans; [by apply Hf|].
  apply Hg. eapply Dead_keeps; [exact D|by apply Hf].
Qed.

Lemma keeps_same w w' :
  heap w' = heap w -> chains w' = chains w -> microtasks w' = microtasks w ->
  invocations w' = invocations w -> trace w' = trace w -> keeps w w'.
Proof.
  intros Hh Hc Hm Hi Ht. split_and!; try done.
  - by f_equal.
  - exists []. unfold events. by rewrite Ht, app_nil_r.
Qed.

Lemma keeps_upd_inv k f w :
  (forall inv, inv_handlers (f inv) = inv_handlers inv) ->
  keeps w (upd_inv k f w).
Proof.
  intros Hf. split_and!; try done.
  - unfold upd_inv. simpl.
    rewrite (list_fmap_alter inv_handlers f id).
    + apply list_eq. intros i. destruct (decide (i = k)) as [->|Hne].
      * rewrite list_lookup_alter_eq. by destruct (_ !! k).
      * by rewrite list_lookup_alter_ne.
    + apply Forall_forall. intros inv _. apply Hf.
  - exists []. by rewrite app_nil_r.
Qed.

Lemma keeps_log e w : no_handle e -> keeps w (log e w).
Proof.
  intros He. split_and!; try done. exists [e]. split; [|by constructor].
  unfold events, log. simpl. by rewrite fmap_app.
Qed.

Lemma keeps_log_calls k lvl kind calls w :
  lvl = Store \/ calls = [] -> keeps w (log_calls k lvl kind calls w).
Proof.
  intros H. split_and!; try done.
  exists (map (fun c => EvCall k lvl kind c.1 c.2) calls). split.
  - unfold events, log_calls. simpl. rewrite fmap_app. f_equal.
    by rewrite <- list_fmap_compose.
  - destruct H as [->| ->]; [|constructor].
    apply Forall_forall. intros e He.
    by apply list_elem_of_fmap in He as (c & -> & _).
Qed.

Section DeadHandlers.
Variable options : ActionOptions.
Variable getObservable : list JsVal -> ObservableExpr.

Lemma Dead_lookup w k inv :
  Dead w -> invocations w !! k = Some inv ->
  heap w !! inv_handlers inv = Some no_handlers.
Proof.
  intros D Hl. pose proof (dead_inv w D) as Hi.
  rewrite Forall_lookup in Hi. by destruct (Hi k inv Hl).
Qed.

Lemma keeps_complete_exec k w : keeps w (complete_exec k w).
Proof.
  unfold complete_exec. destruct (invocations w !! k) as [inv|]; [|apply keeps_refl].
  destruct (inv_closed inv); [apply keeps_refl|].
  eapply keeps_trans; [|by apply keeps_upd_inv].
  destruct (inv_downstream inv); [apply keeps_refl|by apply keeps_same].
Qed.

Lemma Keeps_on_next k v : Keeps (on_next options k v).
Proof.
  intros w D. unfold on_next.
  destruct (invocations w !! k) as [inv|] eqn:Hl; [|apply keeps_refl].
  pose proof (Dead_lookup w k inv D Hl) as Hh.
  eapply keeps_trans; [|apply keeps_complete_exec].
  unfold read_handlers.
  destruct (tracked options); cbn [heap set_status set_tracker log log_calls set_trace];
    rewrite Hh; cbn [default h_success h_finally no_handlers call_opt].
  all: eapply keeps_trans; [|by apply keeps_log_calls; right].
  all: eapply keeps_trans; [|by apply keeps_log_calls; right].
  all: eapply keeps_trans; [|by apply keeps_log_calls; left].
  all: try (eapply keeps_trans; [|by apply keeps_same]).
  all: eapply keeps_trans; [|by apply keeps_log].
  all: by apply keeps_same.
Qed.

Lemma Keeps_on_error k e : Keeps (on_error Part001 options k e).
Proof.
  intros w D. unfold on_error, normalise.
  destruct (invocations w !! k) as [inv|] eqn:Hl; [|apply keeps_refl].
  pose proof (Dead_lookup w k inv D Hl) as Hh.
  eapply keeps_trans; [|apply keeps_complete_exec].
  unfold read_handlers.
  destruct (tracked options);
    cbn [heap set_status set_error set_tracker log log_calls set_trace];
    rewrite Hh; cbn [default h_error h_finally no_handlers call_opt].
  all: eapply keeps_trans; [|by apply keeps_log_calls; right].
  all: eapply keeps_trans; [|by apply keeps_log_calls; right].
  all: eapply keeps_trans; [|by apply keeps_log_calls; left].
  all: try (eapply keeps_trans; [|by apply keeps_same]).
  all: eapply keeps_trans; [|by apply keeps_log].
  all: eapply keeps_trans; [|by apply keeps_same].
  all: eapply keeps_trans; [|by apply keeps_log].
  all: eapply keeps_trans; [|by apply keeps_same].
  all: by apply keeps_log.
Qed.

Lemma Keeps_id : Keeps (fun w => w).
Proof. intros w _. apply keeps_refl. Qed.

Lemma Keeps_keeps f : (forall w, keeps w (f w)) -> Keeps f.
Proof. intros H w _. apply H. Qed.

Lemma Keeps_upd_inv k f :
  (forall inv, inv_handlers (f inv) = inv_handlers inv) -> Keeps (upd_inv k f).
Proof. intros Hf. apply Keeps_keeps. intros w. by apply keeps_upd_inv. Qed.

Lemma Keeps_sub_next k v : Keeps (sub_next options k v).
Proof.
  intros w D. unfold sub_next.
  destruct (sub_closed k w); [apply keeps_refl|by apply Keeps_on_next].
Qed.

Lemma Keeps_sub_error k e : Keeps (sub_error Part001 options k e).
Proof.
  intros w D. unfold sub_error.
  destruct (sub_closed k w); [apply keeps_refl|].
  eapply keeps_trans; [by apply Keeps_on_error|by apply keeps_upd_inv].
Qed.

Lemma Keeps_sub_complete k : Keeps (sub_complete k).
Proof.
  intros w D. unfold sub_complete.
  destruct (sub_closed k w); [apply keeps_refl|by apply keeps_upd_inv].
Qed.

Lemma Keeps_stop_source k i : Keeps (stop_source k i).
Proof. by apply Keeps_upd_inv. Qed.

Lemma Keeps_join_notify k i n j :
  Keeps (join_notify Part001 options k i n j).
Proof.
  destruct n as [v|e|]; unfold join_notify.
  - by apply Keeps_upd_inv.
  - apply (Keeps_compose (stop_source k i) (sub_error Part001 options k e)).
    + apply Keeps_stop_source.
    + apply Keeps_sub_error.
  - intros w D. cbv zeta.
    set (w1 := stop_source k i _).
    assert (K1 : keeps w w1).
    { eapply keeps_trans; [|by apply keeps_upd_inv]. by apply keeps_upd_inv. }
    pose proof (Dead_keeps _ _ D K1) as D1.
    destruct (_ || _); [|done].
    destruct (Nat.eqb _ 0).
    + eapply keeps_trans; [exact K1|].
      eapply keeps_trans; [by apply Keeps_sub_next|].
      apply Keeps_sub_complete.
      eapply Dead_keeps; [exact D1|by apply Keeps_sub_next].
    + eapply keeps_trans; [exact K1|]. by apply Keeps_sub_complete.
Qed.

Lemma Keeps_source_notify k i n :
  Keeps (source_notify Part001 options k i n).
Proof.
  destruct n as [v|e|]; simpl.
  - apply Keeps_sub_next.
  - apply (Keeps_compose (stop_source k i) (sub_error Part001 options k e)).
    + apply Keeps_stop_source.
    + apply Keeps_sub_error.
  - apply (Keeps_compose (stop_source k i) (sub_complete k)).
    + apply Keeps_stop_source.
    + apply Keeps_sub_complete.
Qed.

Lemma Keeps_deliver k i n :
  Keeps (fun w => deliver Part001 options k i w n).
Proof.
  intros w D. unfold deliver.
  destruct (source_live k i w); [|apply keeps_refl].
  destruct (_ ≫= _) as [j|].
  - by apply Keeps_join_notify.
  - by apply Keeps_source_notify.
Qed.

Lemma Keeps_burst k i burst :
  Keeps (fun w => foldl (deliver Part001 options k i) w burst).
Proof.
  induction burst as [|n burst IH]; simpl; [apply Keeps_id|].
  apply (Keeps_compose (fun w => deliver Part001 options k i w n)
           (fun w => foldl (deliver Part001 options k i) w burst)).
  - apply Keeps_deliver.
  - apply IH.
Qed.

Lemma keeps_start_source k i s w : keeps w (start_source k i s w).
Proof. destruct s as [|[d b] s]; [apply keeps_refl|by apply keeps_same]. Qed.

Lemma keeps_start_sources k i ss w : keeps w (start_sources k i ss w).
Proof.
  revert i w. induction ss as [|s ss IH]; intros i w; [apply keeps_refl|].
  simpl. eapply keeps_trans; [apply keeps_start_source|apply IH].
Qed.

Lemma Keeps_fire_source k i : Keeps (fire_source Part001 options k i).
Proof.
  intros w D. unfold fire_source.
  destruct (source_live k i w); [|apply keeps_refl].
  destruct (remaining_script k i w) as [|[d burst] rest]; [apply keeps_refl|].
  set (w1 := upd_inv k _ w).
  assert (K1 : keeps w w1) by (by apply keeps_upd_inv).
  pose proof (Dead_keeps _ _ D K1) as D1.
  eapply keeps_trans; [exact K1|].
  pose proof (Keeps_burst k i burst w1 D1) as K2.
  destruct (source_live k i _); [|exact K2].
  eapply keeps_trans; [exact K2|apply keeps_start_source].
Qed.

(** *** Dispatch: a fresh record each time *)

Lemma unshared_alloc w w' r :
  unshared w r ->
  heap w' = heap w ++ [no_handlers] ->
  chains w' = chains w \/ chains w' = chains w ++ [length (heap w)] ->
  unshared w' r.
Proof.
  intros [Hh Hc] Eh Ec. pose proof (lookup_lt_Some _ _ _ Hh) as Hlt.
  split.
  - rewrite Eh. by rewrite lookup_app_l.
  - destruct Ec as [->| ->]; [done|].
    rewrite elem_of_app, list_elem_of_singleton. intros [? | ->]; [done|lia].
Qed.

Lemma Dead_subscribe ds args w :
  Dead w ->
  Dead (subscribe_exec getObservable ds
          (executeObservable Part001 options args w).1
          (executeObservable Part001 options args w).2).2.
Proof.
  intros D. pose proof D as [Di Dm Dc Dt].
  unfold subscribe_exec. cbn [snd].
  set (e := executeObservable Part001 options args w).
  set (inv := mkInvocation _ _ _ _ _ _ _ _).
  set (W := log _ _).
  assert (He : eo_handlers e.1 = length (heap w)
               /\ heap e.2 = heap w ++ [no_handlers]
               /\ chains e.2 = chains w
               /\ invocations e.2 = invocations w
               /\ microtasks e.2
                  = microtasks w
                    ++ [MLoading (length (invocations w)) args (length (heap w))]
               /\ exists es, events e.2 = events w ++ es /\ Forall no_handle es).
  { unfold e, executeObservable, events.
    destruct (tracked options); cbn; split_and!; try done.
    all: eexists; rewrite !fmap_app, <- !app_assoc; split; [reflexivity|].
    all: by repeat constructor. }
  destruct He as (Eh & Hh & Hc & Hi & Hm & es & Hes & Fes).
  clearbody e.
  assert (DW : Dead W).
  { assert (Hnew : unshared W (length (heap w))).
    { split.
      - unfold W. cbn. rewrite Hh.
        rewrite lookup_app_r by lia. by rewrite Nat.sub_diag.
      - unfold W. cbn. rewrite Hc. intros Hin.
        rewrite Forall_forall in Dc. apply Dc in Hin. lia. }
    assert (Hold : forall r, unshared w r -> unshared W r).
    { intros r Hr. eapply unshared_alloc; [exact Hr|..].
      - unfold W. cbn. exact Hh.
      - left. unfold W. cbn. exact Hc. }
    split.
    - unfold W at 2. cbn. rewrite Hi. apply Forall_app. split.
      + eapply Forall_impl; [exact Di|]. intros inv' ?. by apply Hold.
      + constructor; [|constructor]. unfold inv. cbn. by rewrite Eh.
    - unfold W at 2. cbn. rewrite Hm. apply Forall_app. split.
      + eapply Forall_impl; [exact Dm|]. intros [k' a' h'] ?. by apply Hold.
      + constructor; [|constructor]. exact Hnew.
    - unfold W. cbn. rewrite Hh, Hc, length_app. simpl.
      eapply Forall_impl; [exact Dc|]. simpl. intros; lia.
    - unfold W, events, log. cbn. rewrite fmap_app.
      fold (events e.2). rewrite Hes. simpl.
      repeat (apply Forall_app; split); try done. by repeat constructor. }
  destruct (getObservable (eo_args e.1)) as [s|[|x xs]].
  - eapply Dead_keeps; [exact DW|apply keeps_start_source].
  - eapply Dead_keeps; [exact DW|by apply Keeps_sub_complete].
  - eapply Dead_keeps; [exact DW|apply keeps_start_sources].
Qed.

Lemma Dead_execute_now args w :
  Dead w -> Dead (execute_now Part001 options getObservable args w).
Proof.
  intros D. unfold execute_now.
  set (w1 := match currentSub w with Some s => _ | None => w end).
  assert (D1 : Dead w1).
  { unfold w1. destruct (currentSub w) as [[|k]|]; try done.
    eapply Dead_keeps; [exact D|by apply keeps_upd_inv]. }
  pose proof (Dead_subscribe Direct args w1 D1) as D2.
  destruct (executeObservable Part001 options args w1) as [eo wa].
  cbn [fst snd] in D2.
  destruct (subscribe_exec getObservable Direct eo wa) as [k wb].
  cbn [snd] in D2. eapply Dead_keeps; [exact D2|by apply keeps_same].
Qed.

Lemma Dead_switchMap_next args w :
  Dead w -> Dead (switchMap_next Part001 options getObservable args w).
Proof.
  intros D. unfold switchMap_next.
  set (w1 := match innerSubscriber (pipeline w) with Some k => _ | None => w end).
  assert (D1 : Dead w1).
  { unfold w1. destruct (innerSubscriber (pipeline w)) as [k|]; try done.
    eapply Dead_keeps; [exact D|by apply keeps_upd_inv]. }
  pose proof (Dead_subscribe SwitchMapInner args w1 D1) as D2.
  destruct (executeObservable Part001 options args w1) as [eo wa].
  cbn [fst snd] in D2.
  destruct (subscribe_exec getObservable SwitchMapInner eo wa) as [k wb].
  cbn [snd] in D2. eapply Dead_keeps; [exact D2|by apply keeps_same].
Qed.

Lemma keeps_runSubject_next args w : keeps w (runSubject_next options args w).
Proof.
  unfold runSubject_next. destruct (activeTask (pipeline w)); by apply keeps_same.
Qed.

Lemma Dead_emit w :
  Dead w -> Dead (emit Part001 options getObservable w).
Proof.
  intros D. unfold emit. destruct (activeTask (pipeline w)); [|done].
  destruct (lastValue (pipeline w)) as [args|].
  - apply Dead_switchMap_next. eapply Dead_keeps; [exact D|by apply keeps_same].
  - eapply Dead_keeps; [exact D|by apply keeps_same].
Qed.

Lemma Dead_emitWhenIdle w :
  Dead w -> Dead (emitWhenIdle Part001 options getObservable w).
Proof.
  intros D. unfold emitWhenIdle. destruct (_ <? _).
  - eapply Dead_keeps; [exact D|by apply keeps_same].
  - by apply Dead_emit.
Qed.

Lemma Dead_trigger args w :
  Dead w -> Dead (trigger Part001 options getObservable args w).
Proof.
  intros D. unfold trigger. destruct (debounced options).
  - eapply Dead_keeps; [exact D|apply keeps_runSubject_next].
  - by apply Dead_execute_now.
Qed.

(** [run] declares the record the chain writes to. *)
Lemma Dead_run args w :
  Dead w -> Dead (run Part001 options getObservable args w).
Proof.
  intros [Di Dm Dc Dt]. unfold run. cbn [alloc_handlers].
  apply Dead_trigger.
  set (W := set_chains _ _).
  assert (Hold : forall r, unshared w r -> unshared W r).
  { intros r Hr. eapply unshared_alloc; [exact Hr|done|by right]. }
  split.
  - eapply Forall_impl; [exact Di|]. intros inv ?. by apply Hold.
  - eapply Forall_impl; [exact Dm|]. intros [k a h] ?. by apply Hold.
  - unfold W. cbn. rewrite length_app. simpl. apply Forall_app. split.
    + eapply Forall_impl; [exact Dc|]. simpl. intros; lia.
    + constructor; [lia|constructor].
  - unfold W, events. cbn. rewrite fmap_app. apply Forall_app. split; [done|].
    by repeat constructor.
Qed.

(** A chain method writes to a record of [chains]. *)
Lemma Dead_register c f w :
  Dead w -> Dead (register Part001 c f w).
Proof.
  intros [Di Dm Dc Dt]. unfold register, chain_target.
  destruct (chains w !! c) as [r|] eqn:Hc; [|done].
  assert (Hr : r ∈ chains w) by (by eapply list_elem_of_lookup_2).
  assert (Hold : forall r', unshared w r' ->
            unshared (write_handlers r f w) r').
  { intros r' [Hh Hn]. split; [|done]. unfold write_handlers. cbn.
    rewrite list_lookup_alter_ne; [done|]. intros ->. done. }
  split.
  - eapply Forall_impl; [exact Di|]. intros inv ?. by apply Hold.
  - eapply Forall_impl; [exact Dm|]. intros [k a h] ?. by apply Hold.
  - unfold write_handlers. cbn. by rewrite length_alter.
  - done.
Qed.

Lemma Dead_user_op w op :
  Dead w -> Dead (user_op Part001 options getObservable w op).
Proof.
  intros D. destruct op; simpl; auto using Dead_run, Dead_register.
Qed.

Lemma Dead_run_task t w :
  Dead w -> Dead (run_task Part001 options getObservable t w).
Proof.
  intros D. destruct t as [ops|args| |k i]; simpl.
  - revert w D. induction ops as [|op ops IH]; intros w D; [done|].
    simpl. by apply IH, Dead_user_op.
  - by apply Dead_trigger.
  - by apply Dead_emitWhenIdle.
  - eapply Dead_keeps; [exact D|by apply Keeps_fire_source].
Qed.

(** The loading notification reads the record of [executeObservable]. *)
Lemma keeps_run_microtask w m :
  unshared_task w m -> keeps w (run_microtask options w m).
Proof.
  destruct m as [k args h]. intros [Hh _]. unfold run_microtask, read_handlers.
  cbn [heap log_calls set_trace]. rewrite Hh.
  cbn [default h_loading no_handlers call_opt].
  eapply keeps_trans; [|by apply keeps_log_calls; right].
  by apply keeps_log_calls; left.
Qed.

Lemma Dead_drain w : Dead w -> Dead (drain options w).
Proof.
  intros D. unfold drain.
  assert (D0 : Dead (set_microtasks [] w)).
  { destruct D as [Di Dm Dc Dt]. by split. }
  assert (Hms : Forall (unshared_task (set_microtasks [] w)) (microtasks w)).
  { exact (dead_micro w D). }
  revert Hms D0. generalize (set_microtasks [] w).
  induction (microtasks w) as [|m ms IH]; intros w' Hms D0; [done|].
  apply Forall_cons in Hms as [Hm Hms]. simpl.
  pose proof (keeps_run_microtask w' m Hm) as K.
  apply IH.
  - eapply Forall_impl; [exact Hms|]. intros [k a h].
    destruct K as (Hh & Hc & _). unfold unshared_task, unshared.
    by rewrite Hh, Hc.
  - by eapply Dead_keeps.
Qed.

Lemma Dead_step w w' :
  Dead w -> step Part001 options getObservable w = Some w' -> Dead w'.
Proof.
  intros D. unfold step. destruct (timers w) as [|[due t] q]; [done|].
  intros [= <-]. apply Dead_drain, Dead_run_task.
  eapply Dead_keeps; [exact D|by apply keeps_same].
Qed.

Lemma Dead_turns fuel w :
  Dead w -> Dead (turns Part001 options getObservable fuel w).
Proof.
  revert w. induction fuel as [|fuel IH]; intros w D; [done|]. simpl.
  destruct (step Part001 options getObservable w) as [w'|] eqn:E; [|done].
  apply IH. by eapply Dead_step.
Qed.

Lemma Dead_boot tr sc : Dead (boot Part001 options tr sc).
Proof.
  unfold boot.
  assert (D0 : Dead (createBaseAction Part001 options tr)).
  { split; constructor. }
  revert D0. generalize (createBaseAction Part001 options tr).
  induction sc as [|b sc IH]; intros w D; [done|].
  simpl. apply IH. eapply Dead_keeps; [exact D|by apply keeps_same].
Qed.
End DeadHandlers.

(** X5.  In Part001 no per-invocation callback is ever called: whatever the
    options, the producers and the caller's scenario, and whatever is
    registered on the chains that [run] returns, the history holds no call
    of a per-invocation [onLoading], [onSuccess], [onError], [finally] or
    [continueWith] callback. *)
Theorem part001_chain_callbacks_never_called
    (options : ActionOptions) (getObservable : list JsVal -> ObservableExpr)
    (tr : Tracker.GlobalHttpTracker JsVal) (sc : Scenario) (fuel : nat) :
  Forall no_handle
    (events (play (mkAction Part001 options getObservable) tr sc fuel)).
Proof.
  apply dead_trace. unfold play. simpl.
  apply Dead_turns, Dead_boot.
Qed.

(** ** The tracker, read off the history

    The controller tells the tracker in three places: [tracker.begin(id)]
    in [executeObservable], next to [status.set('loading')];
    [tracker.success(id)] in the [next] handler, next to
    [status.set('success')]; [tracker.error(id, msg)] in the [error]
    handler, next to [error.set(msg)]. *)

Definition tracker_step (t : Tracker.GlobalHttpTracker JsVal) (e : Event)
  : Tracker.GlobalHttpTracker JsVal :=
  match e with
  | EvStatus k Loading => Tracker.begin (uuid k) t
  | EvStatus k Success => Tracker.success (uuid k) t
  | EvError k (Some msg) => Tracker.error (uuid k) msg t
  | _ => t
  end.

Definition tracker_of (tr : Tracker.GlobalHttpTracker JsVal)
    (evs : list Event) : Tracker.GlobalHttpTracker JsVal :=
  foldl tracker_step tr evs.

(** Events the tracker is not told of. *)
Definition silent (e : Event) : Prop :=
  match e with
  | EvStatus _ Loading | EvStatus _ Success | EvError _ (Some _) => False
  | _ => True
  end.

Lemma tracker_of_silent tr evs es :
  Forall silent es -> tracker_of tr (evs ++ es) = tracker_of tr evs.
Proof.
  intros H. unfold tracker_of. rewrite foldl_app.
  generalize (foldl tracker_step tr evs).
  induction H as [|e es He _ IH]; intros t; [done|].
  simpl. rewrite <- IH. f_equal.
  destruct e as [| | |k s|k [m|]| |]; try done; destruct s; done.
Qed.

(** Steps that do not tell the tracker. *)
Definition tkeeps (w w' : World) : Prop :=
  tracker w' = tracker w
  /\ inv_id <$> invocations w' = inv_id <$> invocations w
  /\ exists es, events w' = events w ++ es /\ Forall silent es.

Lemma tkeeps_refl w : tkeeps w w.
Proof. split_and!; try done. exists []. by rewrite app_nil_r. Qed.

Lemma tkeeps_trans w1 w2 w3 : tkeeps w1 w2 -> tkeeps w2 w3 -> tkeeps w1 w3.
Proof.
  intros (T1 & I1 & es1 & E1 & F1) (T2 & I2 & es2 & E2 & F2).
  split_and!; try congruence.
  exists (es1 ++ es2). split; [|by apply Forall_app].
  by rewrite E2, E1, app_assoc.
Qed.

Lemma ids_fmap w :
  (forall k inv, invocations w !! k = Some inv -> inv_id inv = uuid k)
  <-> (forall k id, (inv_id <$> invocations w) !! k = Some id -> id = uuid k).
Proof.
  split.
  - intros H k id Hl. rewrite list_lookup_fmap in Hl.
    destruct (invocations w !! k) as [inv|] eqn:E; [|done].
    injection Hl as <-. by eapply H.
  - intros H k inv Hl. apply H. by rewrite list_lookup_fmap, Hl.
Qed.

Lemma tkeeps_same w w' :
  tracker w' = tracker w -> invocations w' = invocations w ->
  trace w' = trace w -> tkeeps w w'.
Proof.
  intros Ht Hi Hr. split_and!; [done|by f_equal|].
  exists []. unfold events. by rewrite Hr, app_nil_r.
Qed.

Lemma tkeeps_upd_inv k f w :
  (forall inv, inv_id (f inv) = inv_id inv) -> tkeeps w (upd_inv k f w).
Proof.
  intros Hf. split_and!; try done.
  - unfold upd_inv. simpl. rewrite (list_fmap_alter inv_id f id).
    + apply list_eq. intros i. destruct (decide (i = k)) as [->|Hne].
      * rewrite list_lookup_alter_eq. by destruct (_ !! k).
      * by rewrite list_lookup_alter_ne.
    + apply Forall_forall. intros inv _. apply Hf.
  - exists []. by rewrite app_nil_r.
Qed.

Lemma tkeeps_log e w : silent e -> tkeeps w (log e w).
Proof.
  intros He. split_and!; try done. exists [e]. split; [|by constructor].
  apply events_log.
Qed.

Lemma tkeeps_log_calls k lvl kind calls w :
  tkeeps w (log_calls k lvl kind calls w).
Proof.
  split_and!; try done. eexists. split; [apply events_log_calls|].
  apply Forall_forall. intros e He.
  by apply list_elem_of_fmap in He as (c & -> & _).
Qed.

Lemma tkeeps_complete_exec k w : tkeeps w (complete_exec k w).
Proof.
  unfold complete_exec. destruct (invocations w !! k) as [inv|]; [|apply tkeeps_refl].
  destruct (inv_closed inv); [apply tkeeps_refl|].
  eapply tkeeps_trans; [|by apply tkeeps_upd_inv].
  destruct (inv_downstream inv); [apply tkeeps_refl|by apply tkeeps_same].
Qed.

Lemma calls_silent k lvl kind calls :
  Forall silent (map (fun c => EvCall k lvl kind c.1 c.2) calls).
Proof.
  apply Forall_forall. intros e He.
  by apply list_elem_of_fmap in He as (c & -> & _).
Qed.

Lemma on_next_ids options k v w :
  inv_id <$> invocations (on_next options k v w) = inv_id <$> invocations w.
Proof.
  unfold on_next. destruct (invocations w !! k) as [inv|]; [|done].
  match goal with |- context [complete_exec k ?W] =>
    destruct (tkeeps_complete_exec k W) as (_ & -> & _) end.
  by destruct (tracked options).
Qed.

Lemma on_error_ids rev options k e w :
  inv_id <$> invocations (on_error rev options k e w)
  = inv_id <$> invocations w.
Proof.
  unfold on_error, normalise.
  destruct (invocations w !! k) as [inv|]; [|done].
  destruct rev.
  all: match goal with |- context [complete_exec ?K ?W] =>
    destruct (tkeeps_complete_exec K W) as (_ & -> & _) end.
  all: by destruct (tracked options).
Qed.

Lemma executeObservable_book rev options args w :
  tracked options = true ->
  let e := executeObservable rev options args w in
  eo_id e.1 = uuid (length (invocations w))
  /\ invocations e.2 = invocations w
  /\ tracker e.2
     = Tracker.begin (uuid (length (invocations w))) (tracker w)
  /\ exists h,
       events e.2
       = events w ++ [EvDispatch (length (invocations w)) h;
                      EvStatus (length (invocations w)) Loading;
                      EvError (length (invocations w)) None].
Proof.
  intros Ht. unfold executeObservable, events. rewrite Ht.
  destruct rev; cbn; split_and!; try done.
  all: eexists; rewrite !fmap_app, <- !app_assoc; reflexivity.
Qed.

Lemma by_revision (P : World -> Prop) (r : Revision) (x y : World) :
  P x -> P y -> P (match r with Part000 => x | Part001 => y end).
Proof. by destruct r. Qed.

Section Bookkeeping.
Variable rev : Revision.
Variable options : ActionOptions.
Variable getObservable : list JsVal -> ObservableExpr.
Variable tr : Tracker.GlobalHttpTracker JsVal.
Hypothesis Htracked : tracked options = true.

Record Book (w : World) : Prop := mkBook {
  book_ids : forall k inv, invocations w !! k = Some inv -> inv_id inv = uuid k;
  book_tracker : tracker w = tracker_of tr (events w);
}.

Lemma Book_tkeeps w w' : Book w -> tkeeps w w' -> Book w'.
Proof.
  intros [Bi Bt] (Ht & Hi & es & He & Hes). split.
  - apply ids_fmap. rewrite Hi. by apply ids_fmap.
  - rewrite Ht, He, Bt. by rewrite tracker_of_silent.
Qed.

Lemma tracker_of_snoc evs e :
  tracker_of tr (evs ++ [e]) = tracker_step (tracker_of tr evs) e.
Proof. unfold tracker_of. by rewrite foldl_app. Qed.

Lemma Book_on_next k v w : Book w -> Book (on_next options k v w).
Proof.
  intros [Bi Bt].
  destruct (invocations w !! k) as [inv|] eqn:Hl.
  - split.
    + apply ids_fmap. rewrite on_next_ids. by apply ids_fmap.
    + rewrite (on_next_tracker options k v w inv Hl), Htracked.
      rewrite (on_next_events options k v w inv Hl).
      unfold success_events.
      change (?a :: ?l) with ([a] ++ l). rewrite app_assoc.
      rewrite tracker_of_silent.
      * rewrite tracker_of_snoc, <- Bt. simpl. by rewrite (Bi k inv Hl).
      * repeat (apply Forall_app; split); apply calls_silent.
  - unfold on_next. rewrite Hl. by split.
Qed.

Lemma Book_on_error k e w : Book w -> Book (on_error rev options k e w).
Proof.
  intros [Bi Bt].
  destruct (invocations w !! k) as [inv|] eqn:Hl.
  - split.
    + apply ids_fmap. rewrite on_error_ids. by apply ids_fmap.
    + rewrite (on_error_tracker rev options k e w inv Hl), Htracked.
      rewrite (on_error_events rev options k e w inv Hl).
      unfold error_events.
      assert (Hsplit : forall pre calls,
                Forall silent pre -> Forall silent calls ->
                tracker_of tr
                  (events w ++ pre
                   ++ EvError k (Some (normalised rev e))
                   :: EvStatus k Error :: calls)
                = Tracker.error (uuid k) (normalised rev e) (tracker w)).
      { intros pre calls Hp Hc.
        change (?a :: ?b :: ?l) with ([a] ++ (b :: l)).
        rewrite !app_assoc. rewrite tracker_of_silent.
        - rewrite tracker_of_snoc, tracker_of_silent by done.
          by rewrite <- Bt.
        - constructor; [done|exact Hc]. }
      rewrite (Bi k inv Hl). symmetry. apply Hsplit.
      * destruct rev; by repeat constructor.
      * repeat (apply Forall_app; split); apply calls_silent.
  - unfold on_error. rewrite Hl. by split.
Qed.

Lemma Book_upd_inv k f w :
  (forall inv, inv_id (f inv) = inv_id inv) -> Book w -> Book (upd_inv k f w).
Proof. intros Hf B. eapply Book_tkeeps; [exact B|by apply tkeeps_upd_inv]. Qed.

Lemma Book_sub_next k v w : Book w -> Book (sub_next options k v w).
Proof.
  intros B. unfold sub_next.
  destruct (sub_closed k w); [done|by apply Book_on_next].
Qed.

Lemma Book_sub_error k e w : Book w -> Book (sub_error rev options k e w).
Proof.
  intros B. unfold sub_error. destruct (sub_closed k w); [done|].
  by apply Book_upd_inv, Book_on_error.
Qed.

Lemma Book_sub_complete k w : Book w -> Book (sub_complete k w).
Proof.
  intros B. unfold sub_complete. destruct (sub_closed k w); [done|].
  by apply Book_upd_inv.
Qed.

Lemma Book_stop_source k i w : Book w -> Book (stop_source k i w).
Proof. intros B. by apply Book_upd_inv. Qed.

Lemma Book_join_notify k i n j w :
  Book w -> Book (join_notify rev options k i n j w).
Proof.
  intros B. destruct n as [v|e|]; unfold join_notify.
  - by apply Book_upd_inv.
  - by apply Book_sub_error, Book_stop_source.
  - cbv zeta. set (w1 := stop_source k i _).
    assert (B1 : Book w1) by (by apply Book_stop_source, Book_upd_inv).
    destruct (_ || _); [|done]. apply Book_sub_complete.
    destruct (Nat.eqb _ 0); [by apply Book_sub_next|done].
Qed.

Lemma Book_source_notify k i n w :
  Book w -> Book (source_notify rev options k i n w).
Proof.
  intros B. destruct n as [v|e|]; simpl.
  - by apply Book_sub_next.
  - by apply Book_sub_error, Book_stop_source.
  - by apply Book_sub_complete, Book_stop_source.
Qed.

Lemma Book_deliver k i w n : Book w -> Book (deliver rev options k i w n).
Proof.
  intros B. unfold deliver. destruct (source_live k i w); [|done].
  destruct (_ ≫= _) as [j|].
  - by apply Book_join_notify.
  - by apply Book_source_notify.
Qed.

Lemma Book_burst k i burst w :
  Book w -> Book (foldl (deliver rev options k i) w burst).
Proof.
  revert w. induction burst as [|n burst IH]; intros w B; [done|].
  simpl. by apply IH, Book_deliver.
Qed.

Lemma Book_start_source k i s w : Book w -> Book (start_source k i s w).
Proof.
  intros B. destruct s as [|[d b] s]; [done|].
  eapply Book_tkeeps; [exact B|by apply tkeeps_same].
Qed.

Lemma Book_start_sources k i ss w : Book w -> Book (start_sources k i ss w).
Proof.
  revert i w. induction ss as [|s ss IH]; intros i w B; [done|].
  simpl. by apply IH, Book_start_source.
Qed.

Lemma Book_fire_source k i w : Book w -> Book (fire_source rev options k i w).
Proof.
  intros B. unfold fire_source. destruct (source_live k i w); [|done].
  destruct (remaining_script k i w) as [|[d burst] rest]; [done|].
  set (w1 := upd_inv k _ w).
  assert (B1 : Book w1) by (by apply Book_upd_inv).
  pose proof (Book_burst k i burst w1 B1) as B2.
  destruct (source_live k i _); [|exact B2].
  by apply Book_start_source.
Qed.

(** Dispatch: [tracker.begin(id)] with the fresh id. *)
Lemma Book_subscribe ds args w :
  Book w ->
  Book (subscribe_exec getObservable ds
          (executeObservable rev options args w).1
          (executeObservable rev options args w).2).2.
Proof.
  intros [Bi Bt].
  unfold subscribe_exec. cbn [snd].
  set (e := executeObservable rev options args w).
  set (inv := mkInvocation _ _ _ _ _ _ _ _).
  set (W := log _ _).
  assert (He : eo_id e.1 = uuid (length (invocations w))
               /\ invocations e.2 = invocations w
               /\ tracker e.2
                  = Tracker.begin (uuid (length (invocations w))) (tracker w)
               /\ exists h,
                    events e.2
                    = events w ++ [EvDispatch (length (invocations w)) h;
                                   EvStatus (length (invocations w)) Loading;
                                   EvError (length (invocations w)) None]).
  { unfold e. apply executeObservable_book. exact Htracked. }
  destruct He as (Eid & Hi & Ht & h & Hes).
  clearbody e.
  assert (BW : Book W).
  { split.
    - unfold W. cbn. rewrite Hi. intros k inv' Hl.
      apply lookup_app_Some in Hl as [Hl|[Hlen Hl]]; [by eapply Bi|].
      apply list_lookup_singleton_Some in Hl as [Hk <-].
      unfold inv. cbn. rewrite Eid. f_equal. lia.
    - unfold W. rewrite events_log. cbn [tracker log set_trace set_invocations].
      rewrite Ht. change (events (set_invocations _ e.2)) with (events e.2).
      rewrite Hes, Bt. unfold tracker_of. rewrite !foldl_app. reflexivity. }
  destruct (getObservable (eo_args e.1)) as [s|[|x xs]].
  - by apply Book_start_source.
  - by apply Book_sub_complete.
  - by apply Book_start_sources.
Qed.

Lemma Book_execute_now args w :
  Book w -> Book (execute_now rev options getObservable args w).
Proof.
  intros B. unfold execute_now.
  set (w1 := match currentSub w with Some s => _ | None => w end).
  assert (B1 : Book w1).
  { unfold w1. destruct (currentSub w) as [[|k]|]; try done.
    by apply Book_upd_inv. }
  pose proof (Book_subscribe Direct args w1 B1) as B2.
  destruct (executeObservable rev options args w1) as [eo wa].
  cbn [fst snd] in B2.
  destruct (subscribe_exec getObservable Direct eo wa) as [k wb].
  cbn [snd] in B2. eapply Book_tkeeps; [exact B2|by apply tkeeps_same].
Qed.

Lemma Book_switchMap_next args w :
  Book w -> Book (switchMap_next rev options getObservable args w).
Proof.
  intros B. unfold switchMap_next.
  set (w1 := match innerSubscriber (pipeline w) with Some k => _ | None => w end).
  assert (B1 : Book w1).
  { unfold w1. destruct (innerSubscriber (pipeline w)) as [k|]; try done.
    by apply Book_upd_inv. }
  pose proof (Book_subscribe SwitchMapInner args w1 B1) as B2.
  destruct (executeObservable rev options args w1) as [eo wa].
  cbn [fst snd] in B2.
  destruct (subscribe_exec getObservable SwitchMapInner eo wa) as [k wb].
  cbn [snd] in B2. eapply Book_tkeeps; [exact B2|by apply tkeeps_same].
Qed.

Lemma Book_emit w : Book w -> Book (emit rev options getObservable w).
Proof.
  intros B. unfold emit. destruct (activeTask (pipeline w)); [|done].
  destruct (lastValue (pipeline w)) as [args|].
  - apply Book_switchMap_next. eapply Book_tkeeps; [exact B|by apply tkeeps_same].
  - eapply Book_tkeeps; [exact B|by apply tkeeps_same].
Qed.

Lemma Book_emitWhenIdle w :
  Book w -> Book (emitWhenIdle rev options getObservable w).
Proof.
  intros B. unfold emitWhenIdle. destruct (_ <? _).
  - eapply Book_tkeeps; [exact B|by apply tkeeps_same].
  - by apply Book_emit.
Qed.

Lemma Book_trigger args w :
  Book w -> Book (trigger rev options getObservable args w).
Proof.
  intros B. unfold trigger. destruct (debounced options).
  - unfold runSubject_next. eapply Book_tkeeps; [exact B|].
    destruct (activeTask (pipeline w)); by apply tkeeps_same.
  - by apply Book_execute_now.
Qed.

Lemma Book_user_op w op :
  Book w -> Book (user_op rev options getObservable w op).
Proof.
  intros B.
  assert (Hreg : forall c f, Book (register rev c f w)).
  { intros c f. unfold register. destruct (chain_target rev c w); [|done].
    eapply Book_tkeeps; [exact B|by apply tkeeps_same]. }
  destruct op; simpl; try apply Hreg.
  unfold run. cbn [alloc_handlers].
  set (W := set_chains _ _).
  assert (BW : Book W).
  { eapply Book_tkeeps; [exact B|].
    split_and!; try done. exists [EvRun args]. split; [|by repeat constructor].
    unfold W, events. cbn. by rewrite fmap_app. }
  apply by_revision.
  - eapply Book_tkeeps; [exact BW|by apply tkeeps_same].
  - by apply Book_trigger.
Qed.

Lemma Book_run_task t w :
  Book w -> Book (run_task rev options getObservable t w).
Proof.
  intros B. destruct t as [ops|args| |k i]; simpl.
  - revert w B. induction ops as [|op ops IH]; intros w B; [done|].
    simpl. by apply IH, Book_user_op.
  - by apply Book_trigger.
  - by apply Book_emitWhenIdle.
  - by apply Book_fire_source.
Qed.

Lemma Book_drain w : Book w -> Book (drain options w).
Proof.
  intros B. unfold drain.
  assert (B0 : Book (set_microtasks [] w)).
  { eapply Book_tkeeps; [exact B|by apply tkeeps_same]. }
  revert B0. generalize (set_microtasks [] w).
  induction (microtasks w) as [|m ms IH]; intros w' B'; [done|].
  simpl. apply IH. destruct m as [k args h]. unfold run_microtask.
  eapply Book_tkeeps; [exact B'|].
  eapply tkeeps_trans; apply tkeeps_log_calls.
Qed.

Lemma Book_turns fuel w :
  Book w -> Book (turns rev options getObservable fuel w).
Proof.
  revert w. induction fuel as [|fuel IH]; intros w B; [done|]. simpl.
  unfold step. destruct (timers w) as [|[due t] q]; [done|].
  apply IH, Book_drain, Book_run_task.
  eapply Book_tkeeps; [exact B|by apply tkeeps_same].
Qed.

Lemma Book_boot sc : Book (boot rev options tr sc).
Proof.
  unfold boot.
  assert (B0 : Book (createBaseAction rev options tr)) by (by split).
  revert B0. generalize (createBaseAction rev options tr).
  induction sc as [|b sc IH]; intros w B; [done|].
  simpl. apply IH. eapply Book_tkeeps; [exact B|by apply tkeeps_same].
Qed.
End Bookkeeping.

Lemma uuid_inj k j : uuid k = uuid j -> k = j.
Proof.
  unfold uuid. intros H. apply (inj (String.app "uuid-")) in H.
  by apply (inj pretty) in H.
Qed.

(** Whether [uuid k] is pending is decided by the writes of invocation
    [k] alone. *)
Lemma pending_congruence k evs t t' :
  (uuid k ∈ Tracker._pending t <-> uuid k ∈ Tracker._pending t') ->
  (uuid k ∈ Tracker._pending (foldl tracker_step t evs)
   <-> uuid k ∈ Tracker._pending (foldl tracker_step t' evs)).
Proof.
  revert t t'. induction evs as [|e evs IH]; intros t t' H; [done|].
  simpl. apply IH.
  destruct e as [| | |j s|j [m|]| |]; try done; try destruct s; try done;
    simpl; set_solver.
Qed.

Lemma pending_local k evs t :
  uuid k ∈ Tracker._pending (foldl tracker_step t evs)
  <-> uuid k ∈ Tracker._pending (foldl tracker_step t (lifecycle k evs)).
Proof.
  revert t. induction evs as [|e evs IH]; intros t; [done|].
  rewrite lifecycle_cons. destruct (lifecycle_ev k e) eqn:El; simpl.
  - apply IH.
  - rewrite <- IH. apply pending_congruence.
    destruct e as [| | |j s|j [m|]| |]; try done; try destruct s; try done;
      simpl in *; apply Nat.eqb_neq in El;
      assert (uuid k <> uuid j) by (intros ?%uuid_inj; done); set_solver.
Qed.

Lemma pending_named evs t id :
  id ∈ Tracker._pending (foldl tracker_step t evs) ->
  id ∈ Tracker._pending t \/ exists k, id = uuid k.
Proof.
  revert t. induction evs as [|e evs IH]; intros t H; [by left|].
  simpl in H. apply IH in H as [H|H]; [|by right].
  destruct e as [| | |j s|j [m|]| |]; try (by left); try destruct s;
    try (by left); simpl in H.
  - apply elem_of_union in H as [H|H]; [right|by left].
    exists j. set_solver.
  - left. set_solver.
  - left. set_solver.
Qed.

Lemma play_book (a : Action) (tr : Tracker.GlobalHttpTracker JsVal)
    (sc : Scenario) (fuel : nat) :
  tracked (a_options a) = true -> Book tr (play a tr sc fuel).
Proof. intros Ht. unfold play. by apply Book_turns, Book_boot. Qed.

(** X6.  A tracked controller keeps the tracker in step with its history:
    in every reachable state the tracker is what the [begin], [success] and
    [error] calls made at the loading, success and error writes leave of the
    tracker that was injected. *)
Theorem tracker_follows_history
    (a : Action) (tr : Tracker.GlobalHttpTracker JsVal) (sc : Scenario)
    (fuel : nat) :
  tracked (a_options a) = true ->
  tracker (play a tr sc fuel) = tracker_of tr (events (play a tr sc fuel)).
Proof. intros Ht. by apply book_tracker, play_book. Qed.

Lemma tracker_follows_history_witness :
  let a := createSignalAction Part000 Scenarios.fetch no_options in
  let w := play a Tracker.init (Scenarios.two_runs 0 10) 10 in
  tracked (a_options a) = true
  /\ tracker w = tracker_of Tracker.init (events w).
Proof.
  split; [reflexivity|].
  exact (tracker_follows_history
           (createSignalAction Part000 Scenarios.fetch no_options)
           Tracker.init (Scenarios.two_runs 0 10) 10 eq_refl).
Defined.

(** X7.  On a tracked controller given an empty tracker, the pending ids
    are exactly the ids of the invocations that were dispatched and have
    not settled -- whether their producer is still subscribed or not. *)
Theorem pending_ids_are_unsettled
    (a : Action) (sc : Scenario) (fuel : nat) (id : string) :
  tracked (a_options a) = true ->
  let w := play a Tracker.init sc fuel in
  id ∈ Tracker._pending (tracker w)
  <-> exists k args,
        id = uuid k /\ lifecycle k (events w) = outstanding_shape k args.
Proof.
  intros Ht. cbv zeta.
  pose proof (play_good a Tracker.init sc fuel) as G.
  rewrite (book_tracker _ _ (play_book a Tracker.init sc fuel Ht)).
  unfold tracker_of. set (evs := events _) in *. split.
  - intros Hin.
    destruct (pending_named _ _ _ Hin) as [H|[k ->]]; [set_solver|].
    apply pending_local in Hin.
    destruct (decide (k < length (invocations (play a Tracker.init sc fuel)))%nat)
      as [Hk|Hk].
    + pose proof (g_life _ _ G k Hk) as Hl. fold evs in Hl.
      inversion Hl as [args E|args E|args msg E]; rewrite <- E in Hin.
      * by exists k, args.
      * exfalso. simpl in Hin. set_solver.
      * exfalso. simpl in Hin. set_solver.
    + exfalso.
      rewrite (lifecycle_unbound _ k evs (g_bound _ _ G)) in Hin by lia.
      simpl in Hin. set_solver.
  - intros (k & args & -> & Hl). apply pending_local. rewrite Hl.
    simpl. set_solver.
Qed.

Lemma pending_ids_are_unsettled_witness :
  let a := createSignalAction Part000 Scenarios.fetch no_options in
  let w := play a Tracker.init (Scenarios.two_runs 0 10) 10 in
  tracked (a_options a) = true
  /\ (uuid 0 ∈ Tracker._pending (tracker w)
      <-> exists k args,
            uuid 0 = uuid k
            /\ lifecycle k (events w) = outstanding_shape k args).
Proof.
  split; [reflexivity|].
  exact (pending_ids_are_unsettled
           (createSignalAction Part000 Scenarios.fetch no_options)
           (Scenarios.two_runs 0 10) 10 (uuid 0) eq_refl).
Defined.

(** X8.  The id of a superseded invocation is never removed: if invocation
    [k] had not settled when a later invocation was dispatched, its id is
    pending in every state from then on. *)
Theorem superseded_id_is_never_removed
    (a : Action) (sc : Scenario) (fuel : nat)
    (pre post : list (Z * Event)) (t : Z) (k k' : nat)
    (args args' : list JsVal) :
  tracked (a_options a) = true ->
  let w := play a Tracker.init sc fuel in
  trace w = pre ++ (t, EvDispatch k' args') :: post ->
  (k < k')%nat ->
  lifecycle k (pre.*2) = outstanding_shape k args ->
  uuid k ∈ Tracker._pending (tracker w).
Proof.
  intros Ht w Htr Hk Hpre.
  unfold w in *. clear w.
  rewrite (book_tracker _ _ (play_book a Tracker.init sc fuel Ht)).
  apply pending_local.
  assert (Hl : lifecycle k (events (play a Tracker.init sc fuel))
               = outstanding_shape k args).
  { pose proof (g_sorted _ _ (play_good a Tracker.init sc fuel)) as Hs.
    unfold events in *.
    rewrite Htr, fmap_app in Hs |- *. rewrite fmap_cons in Hs |- *.
    rewrite lifecycle_app, Hpre, lifecycle_cons. simpl.
    rewrite omap_app in Hs. simpl in Hs.
    apply StronglySorted_app_1_r in Hs.
    apply StronglySorted_inv in Hs as [_ Hs].
    rewrite lifecycle_other; [done|].
    apply Forall_forall. intros e He Hm.
    rewrite Forall_forall in Hs.
    assert (k' <= k)%nat; [|lia].
    apply Hs. apply list_elem_of_omap. eauto. }
  rewrite Hl. simpl. set_solver.
Qed.

Lemma superseded_id_is_never_removed_witness :
  let a := createSignalAction Part001 Scenarios.fetch no_options in
  let w := play a Tracker.init [(0, [URun [JNum 1]]); (10, [URun [JNum 2]])] 10 in
  tracked (a_options a) = true
  /\ trace w = take 6 (trace w) ++ (10, EvDispatch 1 [JNum 2]) :: drop 7 (trace w)
  /\ (0 < 1)%nat
  /\ lifecycle 0 ((take 6 (trace w)).*2) = outstanding_shape 0 [JNum 1]
  /\ uuid 0 ∈ Tracker._pending (tracker w).
Proof.
  assert (H1 : trace (play (createSignalAction Part001 Scenarios.fetch no_options)
                        Tracker.init
                        [(0, [URun [JNum 1]]); (10, [URun [JNum 2]])] 10)
               = take 6 (trace (play (createSignalAction Part001 Scenarios.fetch no_options)
                        Tracker.init
                        [(0, [URun [JNum 1]]); (10, [URun [JNum 2]])] 10))
                 ++ (10, EvDispatch 1 [JNum 2])
                 :: drop 7 (trace (play (createSignalAction Part001 Scenarios.fetch no_options)
                        Tracker.init
                        [(0, [URun [JNum 1]]); (10, [URun [JNum 2]])] 10)))
    by (vm_compute; reflexivity).
  assert (H2 : lifecycle 0 ((take 6 (trace (play (createSignalAction Part001 Scenarios.fetch no_options)
                        Tracker.init
                        [(0, [URun [JNum 1]]); (10, [URun [JNum 2]])] 10))).*2)
               = outstanding_shape 0 [JNum 1])
    by (vm_compute; reflexivity).
  split; [reflexivity|]. split; [exact H1|]. split; [lia|]. split; [exact H2|].
  exact (superseded_id_is_never_removed
           (createSignalAction Part001 Scenarios.fetch no_options)
           [(0, [URun [JNum 1]]); (10, [URun [JNum 2]])] 10
           _ _ 10 0%nat 1%nat [JNum 1] [JNum 2] eq_refl H1 (Nat.lt_0_succ 0) H2).
Defined.

(** ** The shape of a history

    Whatever the caller and the producers do, the history of a controller
    is a sequence of blocks: a [run] call; a dispatch; a loading
    notification; a success; a failure.  Inside a block the order is that of
    the source text: the controller-level callback, then the per-invocation
    one, then [finally]. *)

Section Grammar.
Variable rev : Revision.
Variable options : ActionOptions.

(** [options.onX?.(...actuals)] and [handlers.x?.(...actuals)] *)
Definition store_calls (k : nat) (kind : Kind) (cb : option string)
    (actuals : list JsVal) : list Event :=
  map (fun c => EvCall k Store kind c.1 c.2)
    (call_opt (CbUser <$> cb) actuals).

Definition own_calls (k : nat) (kind : Kind) (cb : option Callback)
    (actuals : list JsVal) : list Event :=
  map (fun c => EvCall k Handle kind c.1 c.2) (call_opt cb actuals).

Inductive Block : list Event -> Prop :=
| blk_run args :
    Block [EvRun args]
| blk_dispatch k args :
    Block (dispatch_events k args)
| blk_loading k args hs :
    Block (store_calls k KLoading (onLoading options) args
           ++ own_calls k KLoading (h_loading hs) args)
| blk_success k data args hs :
    Block (EvStatus k Success
           :: store_calls k KSuccess (onSuccess options) (data :: args)
           ++ own_calls k KSuccess (h_success hs) (data :: args)
           ++ own_calls k KFinally (h_finally hs) [])
| blk_error k err args hs :
    Block (match rev with
           | Part000 => []
           | Part001 => [EvConsoleError (extractErrorMessage err)]
           end
           ++ EvError k (Some (normalised rev err))
           :: EvStatus k Error
           :: store_calls k KError (onError options)
                (normalised rev err :: args)
           ++ own_calls k KError (h_error hs) (normalised rev err :: args)
           ++ own_calls k KFinally (h_finally hs) []).

Inductive History : list Event -> Prop :=
| hist_nil : History []
| hist_block evs b : History evs -> Block b -> History (evs ++ b).

Lemma History_app evs1 evs2 :
  History evs1 -> History evs2 -> History (evs1 ++ evs2).
Proof.
  intros H1 H2. induction H2 as [|evs b _ IH Hb].
  - by rewrite app_nil_r.
  - rewrite app_assoc. by constructor.
Qed.

Lemma History_one b : Block b -> History b.
Proof. intros Hb. apply (hist_block [] b hist_nil Hb). Qed.

(** [w'] continues the history of [w] by whole blocks. *)
Definition extends (w w' : World) : Prop :=
  exists bs, events w' = events w ++ bs /\ History bs.

Lemma extends_refl w : extends w w.
Proof. exists []. split; [by rewrite app_nil_r|constructor]. Qed.

Lemma extends_trans w1 w2 w3 : extends w1 w2 -> extends w2 w3 -> extends w1 w3.
Proof.
  intros (b1 & E1 & H1) (b2 & E2 & H2). exists (b1 ++ b2).
  split; [by rewrite E2, E1, app_assoc|by apply History_app].
Qed.

Lemma extends_same w w' : trace w' = trace w -> extends w w'.
Proof.
  intros Ht. exists []. unfold events. rewrite Ht, app_nil_r.
  split; [done|constructor].
Qed.

Lemma extends_block w w' b :
  events w' = events w ++ b -> Block b -> extends w w'.
Proof. intros He Hb. exists b. split; [done|by apply History_one]. Qed.

Lemma extends_on_next k v w : extends w (on_next options k v w).
Proof.
  destruct (invocations w !! k) as [inv|] eqn:Hl.
  - eapply extends_block; [by apply on_next_events|].
    apply (blk_success k v (inv_args inv)
             (read_handlers (inv_handlers inv) w)).
  - unfold on_next. rewrite Hl. apply extends_refl.
Qed.

Lemma extends_on_error k e w : extends w (on_error rev options k e w).
Proof.
  destruct (invocations w !! k) as [inv|] eqn:Hl.
  - eapply extends_block; [by apply on_error_events|].
    apply (blk_error k e (inv_args inv)
             (read_handlers (inv_handlers inv) w)).
  - unfold on_error. rewrite Hl. apply extends_refl.
Qed.

Lemma extends_upd_inv k f w : extends w (upd_inv k f w).
Proof. by apply extends_same. Qed.

Lemma extends_sub_next k v w : extends w (sub_next options k v w).
Proof.
  unfold sub_next. destruct (sub_closed k w);
    [apply extends_refl|apply extends_on_next].
Qed.

Lemma extends_sub_error k e w : extends w (sub_error rev options k e w).
Proof.
  unfold sub_error. destruct (sub_closed k w); [apply extends_refl|].
  eapply extends_trans; [apply extends_on_error|apply extends_upd_inv].
Qed.

Lemma extends_sub_complete k w : extends w (sub_complete k w).
Proof.
  unfold sub_complete. destruct (sub_closed k w);
    [apply extends_refl|apply extends_upd_inv].
Qed.

Lemma extends_join_notify k i n j w :
  extends w (join_notify rev options k i n j w).
Proof.
  destruct n as [v|e|]; unfold join_notify.
  - apply extends_upd_inv.
  - eapply extends_trans; [apply extends_upd_inv|apply extends_sub_error].
  - cbv zeta. set (w1 := stop_source k i _).
    assert (E1 : extends w w1).
    { eapply extends_trans; apply extends_upd_inv. }
    destruct (_ || _); [|done].
    eapply extends_trans; [exact E1|].
    eapply extends_trans; [|apply extends_sub_complete].
    destruct (Nat.eqb _ 0); [apply extends_sub_next|apply extends_refl].
Qed.

Lemma extends_source_notify k i n w :
  extends w (source_notify rev options k i n w).
Proof.
  destruct n as [v|e|]; simpl.
  - apply extends_sub_next.
  - eapply extends_trans; [apply extends_upd_inv|apply extends_sub_error].
  - eapply extends_trans; [apply extends_upd_inv|apply extends_sub_complete].
Qed.

Lemma extends_deliver k i w n : extends w (deliver rev options k i w n).
Proof.
  unfold deliver. destruct (source_live k i w); [|apply extends_refl].
  destruct (_ ≫= _) as [j|].
  - apply extends_join_notify.
  - apply extends_source_notify.
Qed.

Lemma extends_burst k i burst w :
  extends w (foldl (deliver rev options k i) w burst).
Proof.
  revert w. induction burst as [|n burst IH]; intros w; [apply extends_refl|].
  simpl. eapply extends_trans; [apply extends_deliver|apply IH].
Qed.

Lemma extends_start_source k i s w : extends w (start_source k i s w).
Proof. destruct s as [|[d b] s]; by apply extends_same. Qed.

Lemma extends_start_sources k i ss w : extends w (start_sources k i ss w).
Proof.
  revert i w. induction ss as [|s ss IH]; intros i w; [apply extends_refl|].
  simpl. eapply extends_trans; [apply extends_start_source|apply IH].
Qed.

Lemma extends_fire_source k i w : extends w (fire_source rev options k i w).
Proof.
  unfold fire_source. destruct (source_live k i w); [|apply extends_refl].
  destruct (remaining_script k i w) as [|[d burst] rest]; [apply extends_refl|].
  eapply extends_trans; [apply extends_upd_inv|].
  destruct (source_live k i _).
  - eapply extends_trans; [apply extends_burst|apply extends_start_source].
  - apply extends_burst.
Qed.

Section Dispatch.
Variable getObservable : list JsVal -> ObservableExpr.

Lemma extends_subscribe ds args w :
  extends w (subscribe_exec getObservable ds
               (executeObservable rev options args w).1
               (executeObservable rev options args w).2).2.
Proof.
  pose proof (executeObservable_trace rev options args w)
    as (E1 & _ & E3 & _ & E5 & _ & _ & E8).
  cbv zeta in *.
  set (e := executeObservable rev options args w) in *. clearbody e.
  unfold subscribe_exec. cbn [snd].
  set (inv := mkInvocation _ _ _ _ _ _ _ _).
  set (W := log _ _).
  assert (EW : extends w W).
  { eapply extends_block; [|apply (blk_dispatch (length (invocations w)) args)].
    unfold W, events, log. cbn. rewrite E5, E3, E8, !fmap_app.
    by rewrite <- app_assoc. }
  eapply extends_trans; [exact EW|].
  destruct (getObservable (eo_args e.1)) as [s|[|x xs]].
  - apply extends_start_source.
  - apply extends_sub_complete.
  - apply extends_start_sources.
Qed.

Lemma extends_execute_now args w :
  extends w (execute_now rev options getObservable args w).
Proof.
  unfold execute_now.
  set (w1 := match currentSub w with Some s => _ | None => w end).
  assert (E1 : extends w w1).
  { unfold w1. destruct (currentSub w) as [[|k]|]; try apply extends_refl.
    apply extends_upd_inv. }
  pose proof (extends_subscribe Direct args w1) as E2.
  destruct (executeObservable rev options args w1) as [eo wa].
  cbn [fst snd] in E2.
  destruct (subscribe_exec getObservable Direct eo wa) as [k wb].
  cbn [snd] in E2.
  eapply extends_trans; [exact E1|].
  eapply extends_trans; [exact E2|by apply extends_same].
Qed.

Lemma extends_switchMap_next args w :
  extends w (switchMap_next rev options getObservable args w).
Proof.
  unfold switchMap_next.
  set (w1 := match innerSubscriber (pipeline w) with Some k => _ | None => w end).
  assert (E1 : extends w w1).
  { unfold w1. destruct (innerSubscriber (pipeline w)) as [k|];
      [apply extends_upd_inv|apply extends_refl]. }
  pose proof (extends_subscribe SwitchMapInner args w1) as E2.
  destruct (executeObservable rev options args w1) as [eo wa].
  cbn [fst snd] in E2.
  destruct (subscribe_exec getObservable SwitchMapInner eo wa) as [k wb].
  cbn [snd] in E2.
  eapply extends_trans; [exact E1|].
  eapply extends_trans; [exact E2|by apply extends_same].
Qed.

Lemma extends_emit w : extends w (emit rev options getObservable w).
Proof.
  unfold emit. destruct (activeTask (pipeline w)); [|apply extends_refl].
  destruct (lastValue (pipeline w)) as [args|]; [|by apply extends_same].
  eapply extends_trans; [|apply extends_switchMap_next]. by apply extends_same.
Qed.

Lemma extends_emitWhenIdle w :
  extends w (emitWhenIdle rev options getObservable w).
Proof.
  unfold emitWhenIdle. destruct (_ <? _);
    [by apply extends_same|apply extends_emit].
Qed.

Lemma extends_trigger args w :
  extends w (trigger rev options getObservable args w).
Proof.
  unfold trigger. destruct (debounced options).
  - unfold runSubject_next.
    destruct (activeTask (pipeline w)); by apply extends_same.
  - apply extends_execute_now.
Qed.

Lemma extends_user_op w op :
  extends w (user_op rev options getObservable w op).
Proof.
  assert (Hreg : forall c f, extends w (register rev c f w)).
  { intros c f. unfold register.
    destruct (chain_target rev c w); [by apply extends_same|apply extends_refl]. }
  destruct op; simpl; try apply Hreg.
  unfold run. cbn [alloc_handlers].
  set (W := set_chains _ _).
  assert (EW : extends w W).
  { eapply extends_block; [|apply (blk_run args)].
    unfold W, events. cbn. by rewrite fmap_app. }
  eapply extends_trans; [exact EW|].
  apply (by_revision (extends W)).
  - by apply extends_same.
  - apply extends_trigger.
Qed.

Lemma extends_run_task t w :
  extends w (run_task rev options getObservable t w).
Proof.
  destruct t as [ops|args| |k i]; simpl.
  - revert w. induction ops as [|op ops IH]; intros w; [apply extends_refl|].
    simpl. eapply extends_trans; [apply extends_user_op|apply IH].
  - apply extends_trigger.
  - apply extends_emitWhenIdle.
  - apply extends_fire_source.
Qed.

Lemma extends_run_microtask w m : extends w (run_microtask options w m).
Proof.
  destruct m as [k args h]. unfold run_microtask.
  eapply extends_block;
    [|apply (blk_loading k args (read_handlers h w))].
  rewrite !events_log_calls. by rewrite <- app_assoc.
Qed.

Lemma extends_drain w : extends w (drain options w).
Proof.
  unfold drain.
  assert (E0 : extends w (set_microtasks [] w)) by (by apply extends_same).
  revert E0. generalize (set_microtasks [] w).
  induction (microtasks w) as [|m ms IH]; intros w' E'; [done|].
  simpl. apply IH.
  eapply extends_trans; [exact E'|apply extends_run_microtask].
Qed.

Lemma extends_turns fuel w :
  extends w (turns rev options getObservable fuel w).
Proof.
  revert w. induction fuel as [|fuel IH]; intros w; [apply extends_refl|].
  simpl. unfold step. destruct (timers w) as [|[due t] q]; [apply extends_refl|].
  eapply extends_trans; [|apply IH].
  eapply extends_trans; [|apply extends_drain].
  eapply extends_trans; [|apply extends_run_task].
  by apply extends_same.
Qed.

Lemma boot_events tr sc : events (boot rev options tr sc) = [].
Proof.
  unfold boot.
  assert (E0 : events (createBaseAction rev options tr) = []) by done.
  revert E0. generalize (createBaseAction rev options tr).
  induction sc as [|b sc IH]; intros w E; [done|].
  simpl. by apply IH.
Qed.
End Dispatch.
End Grammar.

(** X10.  The history of a controller, in either revision and on every
    scenario, is a sequence of whole blocks: [run] calls, dispatches,
    loading notifications, successes and failures.  So for one event the
    controller-level callback always comes before the per-invocation one, a
    success or failure is written to the signals before any of its callbacks
    runs, and [finally] comes last. *)
Theorem history_is_made_of_blocks
    (a : Action) (tr : Tracker.GlobalHttpTracker JsVal) (sc : Scenario)
    (fuel : nat) :
  History (a_rev a) (a_options a) (events (play a tr sc fuel)).
Proof.
  unfold play.
  destruct (extends_turns (a_rev a) (a_options a) (a_getObservable a) fuel
              (boot (a_rev a) (a_options a) tr sc)) as (bs & E & H).
  rewrite E, boot_events. exact H.
Qed.

(** ** Each invocation settles at most once *)

(** The settling events of invocation [k]: the writes of a success or a
    failure to the signals and the success, error and finally callbacks. *)
Definition of_settle (k : nat) (e : Event) : bool :=
  is_settle e && bool_decide (mark e = Some k).

Definition settle_part (k : nat) (evs : list Event) : list Event :=
  filter (fun e => of_settle k e = true) evs.

Section Settled.
Variable rev : Revision.
Variable options : ActionOptions.

(** Nothing, one success, or one failure, in the order of the source. *)
Inductive Settled (k : nat) : list Event -> Prop :=
| st_none : Settled k []
| st_success data args hs :
    Settled k
      (EvStatus k Success
       :: store_calls k KSuccess (onSuccess options) (data :: args)
       ++ own_calls k KSuccess (h_success hs) (data :: args)
       ++ own_calls k KFinally (h_finally hs) [])
| st_error err args hs :
    Settled k
      (EvError k (Some (normalised rev err))
       :: EvStatus k Error
       :: store_calls k KError (onError options) (normalised rev err :: args)
       ++ own_calls k KError (h_error hs) (normalised rev err :: args)
       ++ own_calls k KFinally (h_finally hs) []).

Lemma settle_part_app k l1 l2 :
  settle_part k (l1 ++ l2) = settle_part k l1 ++ settle_part k l2.
Proof. apply filter_app. Qed.

Lemma settle_part_all k es :
  Forall (fun e => of_settle k e = true) es -> settle_part k es = es.
Proof.
  induction 1 as [|e es He _ IH]; [done|].
  unfold settle_part in *. rewrite filter_cons. by rewrite decide_True, IH.
Qed.

Lemma settle_part_none k es :
  Forall (fun e => of_settle k e = false) es -> settle_part k es = [].
Proof.
  induction 1 as [|e es He _ IH]; [done|].
  unfold settle_part in *. rewrite filter_cons.
  rewrite decide_False by (by rewrite He). exact IH.
Qed.

Lemma calls_of_settle k k' lvl kind calls b :
  (forall f acts, of_settle k (EvCall k' lvl kind f acts) = b) ->
  Forall (fun e => of_settle k e = b)
    (map (fun c => EvCall k' lvl kind c.1 c.2) calls).
Proof.
  intros H. apply Forall_forall. intros e He.
  apply list_elem_of_fmap in He as (c & -> & _). apply H.
Qed.

Lemma of_settle_call k k' lvl kind f acts :
  of_settle k (EvCall k' lvl kind f acts)
  = match kind with
    | KLoading => false
    | _ => bool_decide (k' = k)
    end.
Proof.
  unfold of_settle. simpl.
  destruct kind; simpl; try done;
    destruct (decide (k' = k)) as [->|Hne];
    rewrite ?bool_decide_eq_true_2, ?bool_decide_eq_false_2 by congruence;
    done.
Qed.

(** The settling events of [k] in one block. *)
Lemma settle_part_block k b :
  Block rev options b ->
  settle_part k b = []
  \/ (settle_part k b <> [] /\ Settled k (settle_part k b)
      /\ exists s, (s = Success \/ s = Error) /\ EvStatus k s ∈ b).
Proof.
  intros [args|k' args|k' args hs|k' data args hs|k' err args hs].
  - left. done.
  - left. apply settle_part_none. unfold dispatch_events, of_settle.
    repeat constructor.
  - left. apply settle_part_none. apply Forall_app. split;
      apply calls_of_settle; intros; by rewrite of_settle_call.
  - destruct (decide (k' = k)) as [->|Hne].
    + right. rewrite settle_part_all.
      * split; [done|]. split; [constructor|].
        exists Success. split; [by left|]. left.
      * constructor.
        { unfold of_settle. simpl. by rewrite bool_decide_eq_true_2. }
        repeat (apply Forall_app; split); apply calls_of_settle; intros;
          rewrite of_settle_call; by rewrite bool_decide_eq_true_2.
    + left. apply settle_part_none. constructor.
      { unfold of_settle. simpl. rewrite bool_decide_eq_false_2; [done|].
        congruence. }
      repeat (apply Forall_app; split); apply calls_of_settle; intros;
        rewrite of_settle_call; rewrite bool_decide_eq_false_2; done.
  - assert (Hc : settle_part k
                   match rev with
                   | Part000 => []
                   | Part001 => [EvConsoleError (extractErrorMessage err)]
                   end = []) by (by destruct rev).
    rewrite settle_part_app, Hc. simpl.
    destruct (decide (k' = k)) as [->|Hne].
    + right. rewrite settle_part_all.
      * split; [done|]. split; [constructor|].
        exists Error. split; [by right|].
        apply elem_of_app. right. right. left.
      * constructor.
        { unfold of_settle. simpl. by rewrite bool_decide_eq_true_2. }
        constructor.
        { unfold of_settle. simpl. by rewrite bool_decide_eq_true_2. }
        repeat (apply Forall_app; split); apply calls_of_settle; intros;
          rewrite of_settle_call; by rewrite bool_decide_eq_true_2.
    + left. apply settle_part_none. constructor.
      { unfold of_settle. simpl. rewrite bool_decide_eq_false_2; [done|].
        congruence. }
      constructor.
      { unfold of_settle. simpl. rewrite bool_decide_eq_false_2; [done|].
        congruence. }
      repeat (apply Forall_app; split); apply calls_of_settle; intros;
        rewrite of_settle_call; rewrite bool_decide_eq_false_2; done.
Qed.
End Settled.

Definition settled_status (k : nat) (e : Event) : bool :=
  match e with
  | EvStatus j Success | EvStatus j Error => Nat.eqb j k
  | _ => false
  end.

(** How many times invocation [k] wrote a terminal status. *)
Definition settlings (k : nat) (evs : list Event) : nat :=
  length (filter (fun e => settled_status k e = true) evs).

Lemma settlings_app k l1 l2 :
  settlings k (l1 ++ l2) = (settlings k l1 + settlings k l2)%nat.
Proof. unfold settlings. by rewrite filter_app, length_app. Qed.

Lemma settlings_elem k s evs :
  s = Success \/ s = Error -> EvStatus k s ∈ evs ->
  (1 <= settlings k evs)%nat.
Proof.
  intros Hs Hin. apply list_elem_of_split in Hin as (l1 & l2 & ->).
  rewrite settlings_app. unfold settlings at 2. rewrite filter_cons.
  rewrite decide_True; [simpl; lia|].
  destruct Hs as [-> | ->]; simpl; apply Nat.eqb_refl.
Qed.

Lemma settlings_lifecycle k evs :
  settlings k (lifecycle k evs) = settlings k evs.
Proof.
  induction evs as [|e evs IH]; [done|].
  rewrite lifecycle_cons, settlings_app, IH.
  change (e :: evs) with ([e] ++ evs). rewrite settlings_app. f_equal.
  destruct (lifecycle_ev k e) eqn:El; [done|].
  unfold settlings. simpl. rewrite filter_cons.
  rewrite decide_False; [done|].
  destruct e as [| | |j s|j m| |]; simpl in *; try done.
  destruct s; simpl; try done; by rewrite El.
Qed.

Section SettledOnce.
Variable rev : Revision.
Variable options : ActionOptions.

Lemma unsettled_history k evs :
  History rev options evs -> settlings k evs = 0%nat ->
  settle_part k evs = [].
Proof.
  induction 1 as [|evs b _ IH Hb]; intros Hc; [done|].
  rewrite settlings_app in Hc. rewrite settle_part_app, IH by lia.
  destruct (settle_part_block rev options k b Hb)
    as [->|(_ & _ & s & Hs & Hin)]; [done|].
  pose proof (settlings_elem k s b Hs Hin). lia.
Qed.

Lemma settled_history k evs :
  History rev options evs -> (settlings k evs <= 1)%nat ->
  Settled rev options k (settle_part k evs).
Proof.
  induction 1 as [|evs b Hh IH Hb]; intros Hc; [constructor|].
  rewrite settlings_app in Hc. rewrite settle_part_app.
  destruct (settle_part_block rev options k b Hb)
    as [->|(_ & Hset & s & Hs & Hin)].
  - rewrite app_nil_r. apply IH. lia.
  - pose proof (settlings_elem k s b Hs Hin).
    rewrite (unsettled_history k evs Hh) by lia. exact Hset.
Qed.
End SettledOnce.

(** Each invocation settles at most once, and in the order of the
    source text: its settling events are none, or the success write followed
    by the controller-level [onSuccess], the per-invocation [onSuccess] and
    [finally], or the failure written to [error] and [status] followed by the
    controller-level [onError], the per-invocation [onError] and [finally]
    -- never a success and a failure, and no callback twice. *)
Theorem each_invocation_settles_once
    (a : Action) (tr : Tracker.GlobalHttpTracker JsVal) (sc : Scenario)
    (fuel : nat) (k : nat) :
  Settled (a_rev a) (a_options a) k
    (settle_part k (events (play a tr sc fuel))).
Proof.
  apply settled_history.
  - unfold play.
    destruct (extends_turns (a_rev a) (a_options a) (a_getObservable a) fuel
                (boot (a_rev a) (a_options a) tr sc)) as (bs & E & H).
    rewrite E, boot_events. exact H.
  - pose proof (play_good a tr sc fuel) as G.
    rewrite <- settlings_lifecycle.
    destruct (decide (k < length (invocations (play a tr sc fuel)))%nat)
      as [Hk|Hk].
    + pose proof (g_life _ _ G k Hk) as Hl.
      inversion Hl as [args E|args E|args msg E];
        unfold settlings, outstanding_shape;
        rewrite ?filter_app, ?filter_cons, ?filter_nil; simpl;
        rewrite ?Nat.eqb_refl; repeat case_decide; simpl; try done.
      all: lia.
    + rewrite (lifecycle_unbound _ k _ (g_bound _ _ G)) by lia.
      unfold settlings. simpl. lia.
Qed.

(** In Part000 the chains share one variable, [currentHandlers]:
    every chain method writes to the record current when it is called, and
    [executeObservable] reads the record current at dispatch.  After
    [run(1).onLoading(l1).onSuccess(s1); run(2).onLoading(l2).onSuccess(s2)]
    in one block, both dispatches read the record of the second call:
    [l2] is called for the first invocation, with its arguments, and neither
    [l1] nor [s1] is ever called. *)
Theorem part000_chains_share_the_current_record (fuel : nat) :
  let sc := [(0, [URun [JNum 1]; UOnLoading 0 "l1"; UOnSuccess 0 "s1";
                  URun [JNum 2]; UOnLoading 1 "l2"; UOnSuccess 1 "s2"])] in
  trace (play (createSignalAction Part000 Scenarios.fetch
                 (Scenarios.store_options None))
           Tracker.init sc (5 + fuel))
  = [(0, EvRun [JNum 1]); (0, EvRun [JNum 2]);
     (0, EvDispatch 0 [JNum 1]); (0, EvStatus 0 Loading);
     (0, EvError 0 None); (0, EvProducer 0 [JNum 1]);
     (0, EvCall 0 Store KLoading "store.onLoading" [JNum 1]);
     (0, EvCall 0 Handle KLoading "l2" [JNum 1]);
     (0, EvDispatch 1 [JNum 2]); (0, EvStatus 1 Loading);
     (0, EvError 1 None); (0, EvProducer 1 [JNum 2]);
     (0, EvCall 1 Store KLoading "store.onLoading" [JNum 2]);
     (0, EvCall 1 Handle KLoading "l2" [JNum 2]);
     (50, EvStatus 1 Success);
     (50, EvCall 1 Store KSuccess "store.onSuccess" [JStr "data"; JNum 2]);
     (50, EvCall 1 Handle KSuccess "s2" [JStr "data"; JNum 2])].
Proof.
  cbv zeta. rewrite play_settled; by vm_compute.
Qed.

(** ** The tracker as a set of ids *)

Section TrackerLaws.
Context {Msg : Type}.
Implicit Types (t : Tracker.GlobalHttpTracker Msg) (id : string).

(** X1.  [pendingCount] goes up by one for an id that was not pending and down
    by one for an id that was, and stays as it is otherwise;
    [isAnyLoading] says whether some id is pending; only [error] and
    [clearError] touch [lastError], and [clearError] nothing else. *)
Theorem tracker_counts t id msg :
  Tracker.pendingCount (Tracker.begin id t)
  = (if decide (id ∈ Tracker._pending t) then Tracker.pendingCount t
     else S (Tracker.pendingCount t))
  /\ Tracker.pendingCount (Tracker.success id t)
     = (if decide (id ∈ Tracker._pending t) then pred (Tracker.pendingCount t)
        else Tracker.pendingCount t)
  /\ Tracker.pendingCount (Tracker.error id msg t)
     = Tracker.pendingCount (Tracker.success id t)
  /\ (Tracker.isAnyLoading t = true <-> exists id', id' ∈ Tracker._pending t)
  /\ Tracker.isAnyLoading (Tracker.begin id t) = true
  /\ Tracker.lastError (Tracker.begin id t) = Tracker.lastError t
  /\ Tracker.lastError (Tracker.success id t) = Tracker.lastError t
  /\ Tracker.lastError (Tracker.clearError (Tracker.error id msg t)) = None
  /\ Tracker._pending (Tracker.clearError t) = Tracker._pending t.
Proof.
  destruct t as [p e]. unfold Tracker.pendingCount, Tracker.isAnyLoading.
  simpl. split_and!; try done.
  - case_decide.
    + f_equal. set_solver.
    + rewrite size_union by set_solver. by rewrite size_singleton.
  - case_decide.
    + rewrite size_difference by set_solver. rewrite size_singleton. lia.
    + f_equal. set_solver.
  - rewrite bool_decide_eq_true. split.
    + intros H. apply size_pos_elem_of in H as [x Hx]. by exists x.
    + intros [x Hx]. change (0 < size p)%nat. destruct (decide (size p = 0%nat)) as [E|E]; [|lia].
      apply size_empty_inv in E. set_solver.
  - apply bool_decide_eq_true. change (0 < size ({[id]} ∪ p))%nat.
    destruct (decide (size ({[id]} ∪ p) = 0%nat)) as [E|E]; [|lia].
    apply size_empty_inv in E. set_solver.
Qed.

(** X2.  [begin] and [success] of different ids can be swapped; of the same id
    they cannot: the later call decides whether the id is pending. *)
Theorem tracker_calls_commute_iff_ids_differ t a b :
  Tracker.begin a (Tracker.success b t) = Tracker.success b (Tracker.begin a t)
  <-> a <> b.
Proof.
  destruct t as [p e]. unfold Tracker.begin, Tracker.success. simpl. split.
  - intros H Heq. subst b. injection H as H.
    assert (Ha : a ∈ ({[a]} ∪ p ∖ {[a]} : gset string)) by set_solver.
    rewrite H in Ha. set_solver.
  - intros Hne. f_equal. set_solver.
Qed.
End TrackerLaws.

(** ** The handler chain *)

(** X3.  [continueWith] wraps the success slot and leaves the others alone: after
    any number of [continueWith] calls a success runs the [onSuccess]
    callback registered before them, then each continuation once, in the
    order they were registered, all with the same actuals.  An [onSuccess]
    registered after them replaces the whole slot, continuations
    included. *)
Theorem continueWith_chains
    (h : Handlers) (nexts : list string) (actuals : list JsVal)
    (cb : string) :
  let h' := foldl (fun h n => chain_continueWith n h) h nexts in
  call_opt (h_success h') actuals
  = call_opt (h_success h) actuals ++ map (fun n => (n, actuals)) nexts
  /\ h_loading h' = h_loading h /\ h_error h' = h_error h
  /\ h_finally h' = h_finally h
  /\ call_opt (h_success (chain_onSuccess cb h')) actuals = [(cb, actuals)].
Proof.
  cbv zeta. split; [|split_and!; try done].
  - revert h. induction nexts as [|n nexts IH]; intros h; simpl.
    + by rewrite app_nil_r.
    + rewrite IH. simpl. by rewrite <- app_assoc.
  - revert h. induction nexts as [|n nexts IH]; intros h; simpl; [done|].
    by rewrite IH.
  - revert h. induction nexts as [|n nexts IH]; intros h; simpl; [done|].
    by rewrite IH.
  - revert h. induction nexts as [|n nexts IH]; intros h; simpl; [done|].
    by rewrite IH.
Qed.

(** ** One run of a single producer *)

(** The first notification a producer sends, if it ever sends one. *)
Definition first_notification (s : Script) : option Notif :=
  head (concat (map snd s)).

(** The one invocation of the run, waiting for its producer. *)
Definition waiting_inv (args : list JsVal) (h : nat) (ds : Downstream)
    (s : Script) : Invocation :=
  mkInvocation args h (uuid 0) ds false false [mkSourceSub s false] None.

Section SingleSteps.
Variable rev : Revision.
Variable options : ActionOptions.
Variable getObservable : list JsVal -> ObservableExpr.

(** [getObservable] is applied to the arguments of the run and to nothing
    else. *)
Lemma execute_now_at args w :
  execute_now rev options getObservable args w
  = execute_now rev options (fun _ => getObservable args) args w.
Proof.
  unfold execute_now, subscribe_exec.
  destruct (executeObservable rev options args _) as [eo w1] eqn:E.
  assert (Ha : eo_args eo = args).
  { unfold executeObservable in E.
    destruct rev, (tracked options); injection E as <- _; reflexivity. }
  by rewrite Ha.
Qed.

Lemma switchMap_next_at args w :
  switchMap_next rev options getObservable args w
  = switchMap_next rev options (fun _ => getObservable args) args w.
Proof.
  unfold switchMap_next, subscribe_exec.
  destruct (executeObservable rev options args _) as [eo w1] eqn:E.
  assert (Ha : eo_args eo = args).
  { unfold executeObservable in E.
    destruct rev, (tracked options); injection E as <- _; reflexivity. }
  by rewrite Ha.
Qed.

(** A closed subscriber drops the rest of a burst. *)
Lemma closed_burst k i w burst :
  sub_closed k w = true ->
  foldl (deliver rev options k i) w burst = w.
Proof.
  intros Hc. induction burst as [|n burst IH]; simpl; [done|].
  assert (Hd : deliver rev options k i w n = w).
  { unfold deliver, source_live. unfold sub_closed in Hc.
    destruct (invocations w !! k); [by rewrite Hc|done]. }
  by rewrite Hd.
Qed.

(** The task of the producer: an empty burst sets the next timer, the first
    notification of a burst settles the invocation and the rest of the
    burst is dropped. *)
Lemma single_fire w args h ds d burst rest :
  invocations w = [waiting_inv args h ds ((d, burst) :: rest)] ->
  fire_source rev options 0 0 w
  = let w0 := set_invocations [waiting_inv args h ds rest] w in
    match burst with
    | [] => start_source 0 0 rest w0
    | NNext v :: _ => on_next options 0 v w0
    | NError e :: _ =>
        upd_inv 0 close_sub_of (on_error rev options 0 e (stop_source 0 0 w0))
    | NComplete :: _ => upd_inv 0 close_sub_of (stop_source 0 0 w0)
    end.
Proof.
  intros Hw. cbv zeta.
  match goal with |- _ = ?r => set (R := r) end.
  unfold fire_source, source_live, remaining_script.
  rewrite Hw. simpl.
  unfold upd_inv. rewrite Hw. simpl alter.
  change (with_sources _ (waiting_inv args h ds ((d, burst) :: rest)))
    with (waiting_inv args h ds rest).
  subst R.
  set (w0 := set_invocations _ w).
  assert (Hl0 : invocations w0 !! 0%nat = Some (waiting_inv args h ds rest))
    by done.
  assert (Ha : awaiting 0 (waiting_inv args h ds rest) w0).
  { split; [done|]. repeat split; try done. by eexists. }
  destruct burst as [|[v|e|] burst]; cbn [foldl].
  - reflexivity.
  - rewrite (deliver_next_awaiting rev options 0 _ w0 v Ha).
    assert (Hi : invocations (on_next options 0 v w0)
                 = [close_inv (waiting_inv args h ds rest)]).
    { by rewrite (on_next_invocations options 0 v w0 _ Hl0). }
    rewrite closed_burst by (unfold sub_closed; by rewrite Hi).
    unfold source_live. by rewrite Hi.
  - rewrite (deliver_error_awaiting rev options 0 _ w0 e Ha).
    set (w1 := stop_source 0 0 w0).
    assert (Hl1 : exists inv1, invocations w1 = [inv1]
                  /\ inv_closed inv1 = false) by (by eexists).
    destruct Hl1 as (inv1 & Hl1 & Hc1).
    assert (Hi : invocations (upd_inv 0 close_sub_of
                                (on_error rev options 0 e w1))
                 = [close_sub_of (close_inv inv1)]).
    { unfold upd_inv. cbn [invocations set_invocations].
      rewrite (on_error_invocations rev options 0 e w1 inv1);
        [|by rewrite Hl1|done].
      by rewrite Hl1. }
    rewrite closed_burst by (unfold sub_closed; by rewrite Hi).
    unfold source_live. by rewrite Hi.
  - assert (Hd : deliver rev options 0 0 w0 NComplete
                 = upd_inv 0 close_sub_of (stop_source 0 0 w0)) by done.
    rewrite Hd.
    rewrite closed_burst by done.
    reflexivity.
Qed.
End SingleSteps.

Section SingleRun.
Variable getObservable : list JsVal -> ObservableExpr.
Variables (tk : option bool) (ol os oe : option string).
Variable tr : Tracker.GlobalHttpTracker JsVal.
Variable t0 : Z.
Variable args : list JsVal.
Variable s : Script.
Variables f g : string.
Hypothesis Hobs : getObservable args = Source s.

Let options (db : option Z) := mkOptions tk db ol os oe.
Let a (rev : Revision) (db : option Z) :=
  createSignalAction rev getObservable (options db).

(** [setTimeout(() => action.run(...args).onSuccess(f).onError(g), t0)] *)
Definition single_run : Scenario :=
  [(t0, [URun args; UOnSuccess 0 f; UOnError 0 g])].

(** The history up to the loading notification. *)
Definition before_notification : list Event :=
  EvRun args :: dispatch_events 0 args ++ store_calls 0 KLoading ol args.

(** The tracker once the invocation is dispatched; [t] is
    [options.track !== false]. *)
Definition begun (t : bool) : Tracker.GlobalHttpTracker JsVal :=
  if t then Tracker.begin (uuid 0) tr else tr.

(** The invocation is dispatched and its producer has [s'] left to send. *)
Record Waiting (rev : Revision) (t : bool) (s' : Script) (w1 : World)
  : Prop := {
  w_inv : exists h ds,
    invocations w1 = [waiting_inv args h ds s']
    /\ read_handlers h w1 = own_handlers f g rev;
  w_timers : exists due,
    timers w1 = match s' with
                | [] => []
                | _ :: _ => [(due, TSource 0 0)]
                end;
  w_micro : microtasks w1 = [];
  w_status : status w1 = Loading;
  w_error : error w1 = None;
  w_tracker : tracker w1 = begun t;
  w_events : events w1 = before_notification;
}.

Lemma single_now_part001 db :
  debounced (options db) = false ->
  Waiting Part001 (tracked (options db)) s
    (play (a Part001 db) tr single_run 1).
Proof.
  intros Hd. unfold play, a, options in *.
  destruct db as [[|p|p]|]; cbn in Hd; try discriminate Hd.
  all: clear Hd.
  all: cbn [a_rev a_options a_getObservable createSignalAction turns] in *.
  all: unfold step; cbn -[execute_now drain register].
  all: rewrite execute_now_at, Hobs.
  all: destruct s as [|[d b] rest], tk as [[]|];
    lazy -[Z.add Z.max uuid Tracker.begin].
  all: split; unfold begun, before_notification;
    [do 2 eexists; split; reflexivity | by eexists | try done ..
    | destruct ol; reflexivity].
Qed.

Lemma single_now_part000 db :
  debounced (options db) = false ->
  Waiting Part000 (tracked (options db)) s
    (play (a Part000 db) tr single_run 2).
Proof.
  intros Hd. unfold play, a, options in *.
  destruct db as [[|p|p]|]; cbn in Hd; try discriminate Hd.
  all: clear Hd.
  all: cbn [a_rev a_options a_getObservable createSignalAction] in *.
  all: erewrite turns_step by (lazy -[Z.add]; reflexivity).
  all: erewrite turns_step by (unfold step; cbn [timers]; reflexivity).
  all: cbn [turns run_task]; unfold trigger.
  all: change (debounced _) with false; cbv iota.
  all: rewrite execute_now_at, Hobs.
  all: destruct s as [|[d b] rest], tk as [[]|];
    lazy -[Z.add Z.max uuid Tracker.begin].
  all: split; unfold begun, before_notification;
    [do 2 eexists; split; reflexivity | by eexists | try done ..
    | destruct ol; reflexivity].
Qed.

Lemma single_debounced_part001 db :
  debounced (options db) = true ->
  Waiting Part001 (tracked (options db)) s
    (play (a Part001 db) tr single_run 2).
Proof.
  intros Hd. unfold play, a, options in *.
  destruct db as [[|p|p]|]; cbn in Hd; try discriminate Hd.
  all: clear Hd.
  all: cbn [a_rev a_options a_getObservable createSignalAction] in *.
  all: erewrite turns_step by (lazy -[Z.add]; reflexivity).
  all: erewrite turns_step
         by (apply debounce_fires; [reflexivity..|cbn -[Z.add]; lia]).
  all: cbn [turns].
  all: rewrite switchMap_next_at, Hobs.
  all: destruct s as [|[d b] rest], tk as [[]|];
    lazy -[Z.add Z.max uuid Tracker.begin].
  all: split; unfold begun, before_notification;
    [do 2 eexists; split; reflexivity | by eexists | try done ..
    | destruct ol; reflexivity].
Qed.

Lemma single_debounced_part000 db :
  debounced (options db) = true ->
  Waiting Part000 (tracked (options db)) s
    (play (a Part000 db) tr single_run 3).
Proof.
  intros Hd. unfold play, a, options in *.
  destruct db as [[|p|p]|]; cbn in Hd; try discriminate Hd.
  all: clear Hd.
  all: cbn [a_rev a_options a_getObservable createSignalAction] in *.
  all: erewrite turns_step by (lazy -[Z.add]; reflexivity).
  all: erewrite turns_step by (lazy -[Z.add]; reflexivity).
  all: erewrite turns_step
         by (apply debounce_fires; [reflexivity..|cbn -[Z.add]; lia]).
  all: cbn [turns].
  all: rewrite switchMap_next_at, Hobs.
  all: destruct s as [|[d b] rest], tk as [[]|];
    lazy -[Z.add Z.max uuid Tracker.begin].
  all: split; unfold begun, before_notification;
    [do 2 eexists; split; reflexivity | by eexists | try done ..
    | destruct ol; reflexivity].
Qed.

(** What the run has come to, by the first notification of the producer. *)
Definition settled_by (rev : Revision) (t : bool) (n : option Notif)
    (w : World) : Prop :=
  match n with
  | Some (NNext v) =>
      status w = Success /\ error w = None
      /\ events w
         = before_notification
           ++ EvStatus 0 Success
           :: store_calls 0 KSuccess os (v :: args)
           ++ match rev with
              | Part000 => [EvCall 0 Handle KSuccess f (v :: args)]
              | Part001 => []
              end
      /\ tracker w = if t then Tracker.success (uuid 0) (begun t) else tr
  | Some (NError e) =>
      status w = Error /\ error w = Some (normalised rev e)
      /\ events w
         = before_notification
           ++ match rev with
              | Part000 => []
              | Part001 => [EvConsoleError (extractErrorMessage e)]
              end
           ++ EvError 0 (Some (normalised rev e))
           :: EvStatus 0 Error
           :: store_calls 0 KError oe (normalised rev e :: args)
           ++ match rev with
              | Part000 => [EvCall 0 Handle KError g (e :: args)]
              | Part001 => []
              end
      /\ tracker w
         = if t then Tracker.error (uuid 0) (normalised rev e) (begun t)
           else tr
  | Some NComplete | None =>
      status w = Loading /\ error w = None
      /\ events w = before_notification
      /\ tracker w = begun t
  end.

Lemma single_outcome rev db s' w1 :
  Waiting rev (tracked (options db)) s' w1 ->
  let w := turns rev (options db) getObservable (length s') w1 in
  timers w = []
  /\ settled_by rev (tracked (options db)) (first_notification s') w.
Proof.
  revert w1. induction s' as [|[d burst] rest IH]; intros w1 HW; cbv zeta.
  - destruct HW as [_ [due Ht] _ Hst Her Htr Hev]. simpl. by split.
  - destruct HW as [(h & ds & Hinv & Hread) [due Ht] Hmi Hst Her Htr Hev].
    simpl turns.
    rewrite (step_source rev (options db) getObservable w1 due 0 [] Ht).
    set (w0 := set_now due (set_timers [] w1)).
    rewrite (single_fire rev (options db) w0 args h ds d burst rest Hinv).
    cbv zeta.
    set (W := set_invocations [waiting_inv args h ds rest] w0).
    assert (HlW : invocations W !! 0%nat
                  = Some (waiting_inv args h ds rest)) by done.
    destruct burst as [|[v|e|] burst].
    + (* an empty burst *)
      rewrite drain_idle by (by destruct rest as [|[] ?]).
      change (first_notification ((d, []) :: rest))
        with (first_notification rest).
      apply IH. split; try done.
      * exists h, ds. split; [by destruct rest as [|[] ?]|].
        destruct rest as [|[] ?]; exact Hread.
      * exists (due + Z.max 0 (default 0 (fst <$> head rest))).
        by destruct rest as [|[] ?].
      * by destruct rest as [|[] ?].
      * by destruct rest as [|[] ?].
      * by destruct rest as [|[] ?].
      * by destruct rest as [|[] ?].
    + (* a value *)
      rewrite drain_idle by (by rewrite on_next_microtasks).
      rewrite turns_quiescent
        by (unfold quiescent; cbn [timers set_microtasks];
            by rewrite on_next_timers).
      split; [cbn [timers set_microtasks]; by rewrite on_next_timers|].
      change (first_notification _) with (Some (NNext v)).
      cbn [settled_by].
      destruct (on_next_status (options db) 0 v W _ HlW) as [HS HE].
      split_and!.
      * exact HS.
      * cbn [error set_microtasks]. by rewrite HE.
      * change (events (set_microtasks [] ?x)) with (events x).
        rewrite (on_next_events (options db) 0 v W _ HlW).
        change (events W) with (events w1). rewrite Hev.
        unfold success_events. cbn [inv_handlers waiting_inv inv_args].
        change (read_handlers h W) with (read_handlers h w1).
        rewrite Hread. by destruct rev.
      * cbn [tracker set_microtasks].
        rewrite (on_next_tracker (options db) 0 v W _ HlW).
        change (tracker W) with (tracker w1). rewrite Htr.
        unfold begun. by destruct (tracked (options db)).
    + (* a failure *)
      set (W1 := stop_source 0 0 W).
      set (inv1 := with_sources
                     (alter (fun s => mkSourceSub (src_script s) true) 0%nat)
                     (waiting_inv args h ds rest)).
      assert (HlW1 : invocations W1 !! 0%nat = Some inv1) by done.
      rewrite drain_idle
        by (cbn [microtasks upd_inv set_invocations];
            by rewrite on_error_microtasks).
      rewrite turns_quiescent
        by (unfold quiescent; cbn [timers set_microtasks upd_inv set_invocations];
            by rewrite on_error_timers).
      split; [cbn [timers set_microtasks upd_inv set_invocations];
              by rewrite on_error_timers|].
      change (first_notification _) with (Some (NError e)).
      cbn [settled_by].
      destruct (on_error_status rev (options db) 0 e W1 _ HlW1) as [HS HE].
      split_and!.
      * exact HS.
      * exact HE.
      * change (events (set_microtasks [] (upd_inv ?k ?f ?x)))
          with (events x).
        rewrite (on_error_events rev (options db) 0 e W1 _ HlW1).
        change (events W1) with (events w1). rewrite Hev.
        unfold error_events. cbn [inv_handlers inv1 waiting_inv inv_args
          with_sources].
        change (read_handlers h W1) with (read_handlers h w1).
        rewrite Hread. by destruct rev.
      * cbn [tracker set_microtasks upd_inv set_invocations].
        rewrite (on_error_tracker rev (options db) 0 e W1 _ HlW1).
        change (tracker W1) with (tracker w1). rewrite Htr.
        unfold begun. by destruct (tracked (options db)).
    + (* completion without a value *)
      rewrite drain_idle by done.
      rewrite turns_quiescent by done.
      split; [done|].
      change (first_notification _) with (Some NComplete).
      cbn [settled_by]. by split_and!.
Qed.
End SingleRun.

Lemma single_dispatch getObservable tk ol os oe tr t0 args s f g rev db :
  getObservable args = Source s ->
  exists n, (n <= 3)%nat
    /\ Waiting ol tr args f g rev (tracked (mkOptions tk db ol os oe)) s
         (play (createSignalAction rev getObservable (mkOptions tk db ol os oe))
            tr (single_run t0 args f g) n).
Proof.
  intros Hobs.
  destruct rev, (debounced (mkOptions tk db ol os oe)) eqn:Hd.
  - exists 3%nat. split; [lia|]. by apply single_debounced_part000.
  - exists 2%nat. split; [lia|]. by apply single_now_part000.
  - exists 2%nat. split; [lia|]. by apply single_debounced_part001.
  - exists 1%nat. split; [lia|]. by apply single_now_part001.
Qed.

(** X13.  One run of a controller made by [createSignalAction], with
    [onSuccess(f)] and [onError(g)] chained to it: the first notification the
    producer ever sends decides the run.  A value makes it a success, a
    failure an error (with the effects listed), and everything the producer
    sends afterwards is dropped.  When the producer completes without a
    value, or never sends anything, nothing more happens: the status stays
    loading and the id stays pending in the tracker. *)
Theorem first_notification_decides
    (rev : Revision) (getObservable : list JsVal -> ObservableExpr)
    (tk : option bool) (db : option Z) (ol os oe : option string)
    (tr : Tracker.GlobalHttpTracker JsVal) (t0 : Z) (args : list JsVal)
    (s : Script) (f g : string) (fuel : nat) :
  getObservable args = Source s ->
  let options := mkOptions tk db ol os oe in
  let w := play (createSignalAction rev getObservable options) tr
             (single_run t0 args f g) (3 + length s + fuel) in
  quiescent w = true
  /\ settled_by ol os oe tr args f g rev (tracked options)
       (first_notification s) w.
Proof.
  intros Hobs. cbv zeta.
  destruct (single_dispatch getObservable tk ol os oe tr t0 args s f g rev db
              Hobs) as (n & Hn & HW).
  pose proof (single_outcome getObservable tk ol os oe tr args f g rev db s _
                HW) as H.
  cbv zeta in H.
  replace (3 + length s + fuel)%nat
    with (n + (length s + (3 - n + fuel)))%nat by lia.
  unfold play in *. rewrite 2!turns_add.
  cbn [a_rev a_options a_getObservable createSignalAction] in *.
  rewrite (turns_quiescent rev _ getObservable (3 - n + fuel)).
  - split; [|exact (proj2 H)]. unfold quiescent. by rewrite (proj1 H).
  - unfold quiescent. by rewrite (proj1 H).
Qed.

Lemma first_notification_decides_witness :
  let s := [(5, []); (3, [NComplete; NNext (JStr "late")])] in
  let w := play (createSignalAction Part001 (fun _ => Source s) no_options)
             Tracker.init (single_run 0 [JStr "q"] "f" "g") 5 in
  quiescent w = true
  /\ settled_by None None None Tracker.init [JStr "q"] "f" "g" Part001 true
       (Some NComplete) w.
Proof.
  exact (first_notification_decides Part001
           (fun _ => Source [(5, []); (3, [NComplete; NNext (JStr "late")])])
           None None None None None Tracker.init 0 [JStr "q"] _ "f" "g" 0
           eq_refl).
Defined.

(** ** A fork-join of nothing *)

Section EmptyJoin.
Variable observablesFn : JsVal -> list (string * Script).
Variables (tk : option bool) (ol os oe : option string).
Variable tr : Tracker.GlobalHttpTracker JsVal.
Variable t0 : Z.
Variable request : JsVal.
Variables f g : string.
Hypothesis Hobs : observablesFn request = [].

Let options (db : option Z) := mkOptions tk db ol os oe.
Let a (rev : Revision) (db : option Z) :=
  createSignalForkJoinAction rev observablesFn (options db).

(** The run is dispatched, and that is all. *)
Definition stuck (t : bool) (w : World) : Prop :=
  timers w = [] /\ status w = Loading /\ error w = None
  /\ events w = before_settling ol request
  /\ tracker w = begun tr t
  /\ Forall (fun inv => inv_sub_closed inv = true /\ inv_closed inv = false)
       (invocations w).

Lemma empty_obs :
  (fun _ : list JsVal =>
     ForkJoin (observablesFn (default JUndefined (head [request]))))
  = (fun _ => ForkJoin []).
Proof. simpl. by rewrite Hobs. Qed.

Lemma empty_now_part001 db :
  debounced (options db) = false ->
  stuck (tracked (options db)) (play (a Part001 db) tr (one_run t0 request f g) 1).
Proof.
  intros Hd. unfold play, a, options in *.
  destruct db as [[|p|p]|]; cbn in Hd; try discriminate Hd.
  all: clear Hd.
  all: cbn [a_rev a_options a_getObservable createSignalForkJoinAction turns]
         in *.
  all: unfold step; cbn -[execute_now drain register].
  all: rewrite execute_now_at, empty_obs.
  all: destruct tk as [[]|];
    lazy -[Z.add Z.max uuid Tracker.begin].
  all: unfold begun, before_settling; split_and!; try done;
    try (destruct ol; reflexivity); repeat constructor.
Qed.

Lemma empty_now_part000 db :
  debounced (options db) = false ->
  stuck (tracked (options db)) (play (a Part000 db) tr (one_run t0 request f g) 2).
Proof.
  intros Hd. unfold play, a, options in *.
  destruct db as [[|p|p]|]; cbn in Hd; try discriminate Hd.
  all: clear Hd.
  all: cbn [a_rev a_options a_getObservable createSignalForkJoinAction] in *.
  all: erewrite turns_step by (lazy -[Z.add]; reflexivity).
  all: erewrite turns_step by (unfold step; cbn [timers]; reflexivity).
  all: cbn [turns run_task]; unfold trigger.
  all: change (debounced _) with false; cbv iota.
  all: rewrite execute_now_at, empty_obs.
  all: destruct tk as [[]|];
    lazy -[Z.add Z.max uuid Tracker.begin].
  all: unfold begun, before_settling; split_and!; try done;
    try (destruct ol; reflexivity); repeat constructor.
Qed.

Lemma empty_debounced_part001 db :
  debounced (options db) = true ->
  stuck (tracked (options db)) (play (a Part001 db) tr (one_run t0 request f g) 2).
Proof.
  intros Hd. unfold play, a, options in *.
  destruct db as [[|p|p]|]; cbn in Hd; try discriminate Hd.
  all: clear Hd.
  all: cbn [a_rev a_options a_getObservable createSignalForkJoinAction] in *.
  all: erewrite turns_step by (lazy -[Z.add]; reflexivity).
  all: erewrite turns_step
         by (apply debounce_fires; [reflexivity..|cbn -[Z.add]; lia]).
  all: cbn [turns].
  all: rewrite switchMap_next_at, empty_obs.
  all: destruct tk as [[]|];
    lazy -[Z.add Z.max uuid Tracker.begin].
  all: unfold begun, before_settling; split_and!; try done;
    try (destruct ol; reflexivity); repeat constructor.
Qed.

Lemma empty_debounced_part000 db :
  debounced (options db) = true ->
  stuck (tracked (options db)) (play (a Part000 db) tr (one_run t0 request f g) 3).
Proof.
  intros Hd. unfold play, a, options in *.
  destruct db as [[|p|p]|]; cbn in Hd; try discriminate Hd.
  all: clear Hd.
  all: cbn [a_rev a_options a_getObservable createSignalForkJoinAction] in *.
  all: erewrite turns_step by (lazy -[Z.add]; reflexivity).
  all: erewrite turns_step by (lazy -[Z.add]; reflexivity).
  all: erewrite turns_step
         by (apply debounce_fires; [reflexivity..|cbn -[Z.add]; lia]).
  all: cbn [turns].
  all: rewrite switchMap_next_at, empty_obs.
  all: destruct tk as [[]|];
    lazy -[Z.add Z.max uuid Tracker.begin].
  all: unfold begun, before_settling; split_and!; try done;
    try (destruct ol; reflexivity); repeat constructor.
Qed.

Lemma empty_dispatch rev db :
  exists n, (n <= 3)%nat
    /\ stuck (tracked (options db))
         (play (a rev db) tr (one_run t0 request f g) n).
Proof.
  destruct rev, (debounced (options db)) eqn:Hd.
  - exists 3%nat. split; [lia|]. by apply empty_debounced_part000.
  - exists 2%nat. split; [lia|]. by apply empty_now_part000.
  - exists 2%nat. split; [lia|]. by apply empty_debounced_part001.
  - exists 1%nat. split; [lia|]. by apply empty_now_part001.
Qed.
End EmptyJoin.

(** X14.  One run of a controller made by [createSignalForkJoinAction]
    whose dictionary of sub-producers is empty for the request: rxjs's
    [forkJoin] completes at once without a value, so the run is dispatched
    and nothing else ever happens -- no success, no error, no callback
    after the loading notification; the status stays loading and, when the
    controller is tracked, the id stays pending. *)
Theorem empty_forkjoin_never_settles
    (rev : Revision) (observablesFn : JsVal -> list (string * Script))
    (tk : option bool) (db : option Z) (ol os oe : option string)
    (tr : Tracker.GlobalHttpTracker JsVal) (t0 : Z) (request : JsVal)
    (f g : string) (fuel : nat) :
  observablesFn request = [] ->
  let options := mkOptions tk db ol os oe in
  let w := play (createSignalForkJoinAction rev observablesFn options) tr
             (one_run t0 request f g) (3 + fuel) in
  quiescent w = true
  /\ status w = Loading /\ error w = None
  /\ events w = before_settling ol request
  /\ tracker w = begun tr (tracked options)
  /\ (tracked options = true -> uuid 0 ∈ Tracker._pending (tracker w)).
Proof.
  intros Hobs. cbv zeta.
  destruct (empty_dispatch observablesFn tk ol os oe tr t0 request f g Hobs
              rev db) as (n & Hn & Ht & Hs & He & Hev & Htr & _).
  replace (3 + fuel)%nat with (n + (3 - n + fuel))%nat by lia.
  unfold play in *. rewrite turns_add.
  cbn [a_rev a_options a_getObservable createSignalForkJoinAction] in *.
  rewrite turns_quiescent by (unfold quiescent; by rewrite Ht).
  split_and!; try done.
  - unfold quiescent. by rewrite Ht.
  - intros Hk. rewrite Htr, Hk. simpl. set_solver.
Qed.

Lemma empty_forkjoin_never_settles_witness :
  let w := play (createSignalForkJoinAction Part000 (fun _ => []) no_options)
             Tracker.init (one_run 0 (JNum 1) "f" "g") 3 in
  status w = Loading /\ uuid 0 ∈ Tracker._pending (tracker w).
Proof.
  destruct (empty_forkjoin_never_settles Part000 (fun _ => []) None None None
              None None Tracker.init 0 (JNum 1) "f" "g" 0 eq_refl)
    as (_ & HS & _ & _ & _ & HP).
  split; [exact HS|]. by apply HP.
Defined.

(** * The controller, action by action

    Everything the controller does is one of a few actions: a [run] call
    that declares a handler record, a chain method that writes to one, a
    dispatch ([executeObservable] and the subscription to its result), a
    success or a failure handled by the observer, the microtasks run at the
    end of a task -- and bookkeeping between them (timers, the debounce
    state, subscriptions closing).  A property kept by each of these holds
    in every state a controller can reach. *)

(** What an invocation is created with. *)
Definition static (inv : Invocation)
  : list JsVal * nat * string * Downstream :=
  (inv_args inv, inv_handlers inv, inv_id inv, inv_downstream inv).

(** Flags of an invocation only ever close. *)
Definition closes (inv inv' : Invocation) : Prop :=
  (inv_sub_closed inv = true -> inv_sub_closed inv' = true)
  /\ (inv_closed inv' = true ->
      inv_sub_closed inv' = true \/ inv_closed inv = true).

(** Bookkeeping: the signals, the tracker, the handler records, the
    microtasks and the history are left alone, invocations are neither
    created nor given other arguments, and none is opened again. *)
Record inert (w w' : World) : Prop := mkInert {
  nt_heap : heap w' = heap w;
  nt_chains : chains w' = chains w;
  nt_current : currentHandlers w' = currentHandlers w;
  nt_micro : microtasks w' = microtasks w;
  nt_tracker : tracker w' = tracker w;
  nt_status : status w' = status w;
  nt_error : error w' = error w;
  nt_trace : trace w' = trace w;
  nt_static : static <$> invocations w' = static <$> invocations w;
  nt_closes : forall k inv inv',
    invocations w !! k = Some inv -> invocations w' !! k = Some inv' ->
    closes inv inv';
}.

Lemma inert_same w w' :
  heap w' = heap w -> chains w' = chains w ->
  currentHandlers w' = currentHandlers w -> microtasks w' = microtasks w ->
  tracker w' = tracker w -> status w' = status w -> error w' = error w ->
  trace w' = trace w -> invocations w' = invocations w -> inert w w'.
Proof.
  intros E1 E2 E3 E4 E5 E6 E7 E8 Hi. split; try done; [by f_equal|].
  intros k inv inv' H1 H2. rewrite Hi, H1 in H2. injection H2 as <-.
  split; auto.
Qed.

Lemma inert_upd_inv k f w :
  (forall inv, static (f inv) = static inv) -> Closing f ->
  inert w (upd_inv k f w).
Proof.
  intros Hf Hc. split; try done.
  - unfold upd_inv. simpl. rewrite (list_fmap_alter static f id).
    + apply list_eq. intros i. destruct (decide (i = k)) as [->|Hne].
      * rewrite list_lookup_alter_eq. by destruct (_ !! k).
      * by rewrite list_lookup_alter_ne.
    + apply Forall_forall. intros inv _. apply Hf.
  - intros i inv inv' H1. unfold upd_inv. simpl.
    destruct (decide (i = k)) as [->|Hne].
    + rewrite list_lookup_alter_eq, H1. simpl. intros [= <-]. apply Hc.
    + rewrite list_lookup_alter_ne by done. rewrite H1. intros [= <-].
      split; auto.
Qed.

Lemma by_revision2 (R : World -> World -> Prop) (r : Revision)
    (x y x' y' : World) :
  R x x' -> R y y' ->
  R (match r with Part000 => x | Part001 => y end)
    (match r with Part000 => x' | Part001 => y' end).
Proof. by destruct r. Qed.

Section Parts.
Variable rev : Revision.
Variable options : ActionOptions.
Variable getObservable : list JsVal -> ObservableExpr.

(** [run], up to its trigger: the call is noted and a record declared for
    the chain; Part000 makes it the current record. *)
Definition called (args : list JsVal) (w : World) : World :=
  let w := log (EvRun args) w in
  let '(r, w) := alloc_handlers w in
  let w := set_chains (chains w ++ [r]) w in
  match rev with
  | Part000 => set_currentHandlers r w
  | Part001 => w
  end.

(** A dispatch, up to the producers' timers: [executeObservable] and the
    subscription to [getObservable(...args)]. *)
Definition announced (ds : Downstream) (args : list JsVal) (w : World)
  : World :=
  let e := executeObservable rev options args w in
  let obs := getObservable (eo_args e.1) in
  log (EvProducer (length (invocations e.2)) (eo_args e.1))
    (set_invocations
       (invocations e.2
        ++ [mkInvocation (eo_args e.1) (eo_handlers e.1) (eo_id e.1) ds
              false false (sources_of obs) (join_of obs)])
       e.2).
End Parts.

(** ** What each action does *)

Section Effects.
Variable rev : Revision.
Variable options : ActionOptions.
Variable getObservable : list JsVal -> ObservableExpr.

Lemma called_effect args w :
  let w' := called rev args w in
  events w' = events w ++ [EvRun args]
  /\ heap w' = heap w ++ [no_handlers]
  /\ chains w' = chains w ++ [length (heap w)]
  /\ microtasks w' = microtasks w /\ invocations w' = invocations w
  /\ tracker w' = tracker w /\ status w' = status w /\ error w' = error w
  /\ timers w' = timers w /\ now w' = now w /\ pipeline w' = pipeline w
  /\ currentSub w' = currentSub w.
Proof.
  unfold called, events. destruct rev; cbn; rewrite fmap_app; by split_and!.
Qed.

(** The loading notification of a microtask, with the handler records as
    they are in [w]. *)
Definition loading_block (w : World) (m : Microtask) : list Event :=
  match m with
  | MLoading k args h =>
      store_calls k KLoading (onLoading options) args
      ++ own_calls k KLoading (h_loading (read_handlers h w)) args
  end.

Lemma drain_effect w :
  drain options w
  = set_trace
      (trace w
       ++ (pair (now w) <$> flat_map (loading_block w) (microtasks w)))
      (set_microtasks [] w).
Proof.
  unfold drain.
  assert (H : forall ms w',
            heap w' = heap w -> now w' = now w ->
            foldl (run_microtask options) w' ms
            = set_trace
                (trace w' ++ (pair (now w) <$> flat_map (loading_block w) ms))
                w').
  { induction ms as [|m ms IH]; intros w' Hh Hn.
    - simpl. rewrite app_nil_r. by destruct w'.
    - simpl. rewrite IH by (by destruct m).
      destruct m as [k args h]. unfold run_microtask, loading_block,
        store_calls, own_calls, log_calls, read_handlers.
      cbn. rewrite Hh, Hn, !fmap_app, <- !app_assoc.
      rewrite <- !list_fmap_compose. reflexivity. }
  rewrite H by done. reflexivity.
Qed.

Lemma drain_fields w :
  let w' := drain options w in
  events w' = events w ++ flat_map (loading_block w) (microtasks w)
  /\ microtasks w' = [] /\ heap w' = heap w /\ chains w' = chains w
  /\ currentHandlers w' = currentHandlers w
  /\ invocations w' = invocations w /\ tracker w' = tracker w
  /\ status w' = status w /\ error w' = error w /\ timers w' = timers w
  /\ now w' = now w /\ pipeline w' = pipeline w
  /\ currentSub w' = currentSub w.
Proof.
  cbv zeta. rewrite drain_effect. split_and!; try done.
  unfold events. cbn. rewrite fmap_app. f_equal.
  rewrite <- list_fmap_compose. apply list_fmap_id.
Qed.

Lemma announced_effect ds args w :
  let k := length (invocations w) in
  let w' := announced rev options getObservable ds args w in
  events w' = events w ++ dispatch_events k args
  /\ status w' = Loading /\ error w' = None
  /\ tracker w'
     = (if tracked options then Tracker.begin (uuid k) (tracker w)
        else tracker w)
  /\ chains w' = chains w /\ currentHandlers w' = currentHandlers w
  /\ now w' = now w /\ timers w' = timers w /\ pipeline w' = pipeline w
  /\ currentSub w' = currentSub w
  /\ exists h,
       invocations w'
       = invocations w
         ++ [mkInvocation args h (uuid k) ds false false
               (sources_of (getObservable args))
               (join_of (getObservable args))]
       /\ microtasks w' = microtasks w ++ [MLoading k args h]
       /\ match rev with
          | Part000 => h = currentHandlers w /\ heap w' = heap w
          | Part001 =>
              h = length (heap w) /\ heap w' = heap w ++ [no_handlers]
          end.
Proof.
  unfold announced, executeObservable, events, dispatch_events.
  destruct rev, (tracked options); cbn;
    rewrite !fmap_app, <- !app_assoc; split_and!; try done;
    eexists; split_and!; reflexivity.
Qed.
End Effects.


(** ** The observer's part

    What a producer's notification can lead to: a success or a failure
    handled by the observer of a subscription that is still open, and
    bookkeeping. *)

Section Observer.
Variable rev : Revision.
Variable options : ActionOptions.

Inductive Observe : World -> World -> Prop :=
| ob_inert w w' :
    inert w w' -> pipeline w' = pipeline w -> Observe w w'
| ob_next w k inv v :
    invocations w !! k = Some inv -> inv_sub_closed inv = false ->
    Observe w (on_next options k v w)
| ob_error w k inv e :
    invocations w !! k = Some inv -> inv_sub_closed inv = false ->
    Observe w (on_error rev options k e w).

Definition Observes : World -> World -> Prop := rtc Observe.

Lemma Observes_refl w : Observes w w.
Proof. apply rtc_refl. Qed.

Lemma Observes_trans w1 w2 w3 : Observes w1 w2 -> Observes w2 w3 -> Observes w1 w3.
Proof. intros H1 H2. unfold Observes in *. by etrans. Qed.

Lemma Observes_same w w' :
  heap w' = heap w -> chains w' = chains w ->
  currentHandlers w' = currentHandlers w -> microtasks w' = microtasks w ->
  tracker w' = tracker w -> status w' = status w -> error w' = error w ->
  trace w' = trace w -> invocations w' = invocations w ->
  pipeline w' = pipeline w -> Observes w w'.
Proof. intros. apply rtc_once, ob_inert; [by apply inert_same|done]. Qed.

Lemma Observes_upd_inv k f w :
  (forall inv, static (f inv) = static inv) -> Closing f ->
  Observes w (upd_inv k f w).
Proof.
  intros Hf Hc. apply rtc_once, ob_inert; [by apply inert_upd_inv|done].
Qed.

Lemma sub_open k w :
  sub_closed k w = false ->
  exists inv, invocations w !! k = Some inv /\ inv_sub_closed inv = false.
Proof.
  unfold sub_closed. destruct (invocations w !! k) as [inv|]; [eauto|done].
Qed.

Lemma Observes_sub_next k v w : Observes w (sub_next options k v w).
Proof.
  unfold sub_next. destruct (sub_closed k w) eqn:E; [apply Observes_refl|].
  destruct (sub_open k w E) as (inv & Hl & Hs).
  by eapply rtc_once, ob_next.
Qed.

Lemma Observes_close_sub k w : Observes w (upd_inv k close_sub_of w).
Proof. apply Observes_upd_inv; [done|apply Closing_close_sub_of]. Qed.

Lemma Observes_sub_error k e w : Observes w (sub_error rev options k e w).
Proof.
  unfold sub_error. destruct (sub_closed k w) eqn:E; [apply Observes_refl|].
  destruct (sub_open k w E) as (inv & Hl & Hs).
  eapply Observes_trans; [by eapply rtc_once, ob_error|].
  apply Observes_close_sub.
Qed.

Lemma Observes_sub_complete k w : Observes w (sub_complete k w).
Proof.
  unfold sub_complete. destruct (sub_closed k w); [apply Observes_refl|].
  apply Observes_close_sub.
Qed.

Lemma Observes_sources k f w : Observes w (upd_inv k (with_sources f) w).
Proof. apply Observes_upd_inv; [done|apply Closing_with_sources]. Qed.

Lemma Observes_join k j w : Observes w (upd_inv k (with_join j) w).
Proof. apply Observes_upd_inv; [done|apply Closing_with_join]. Qed.

Lemma Observes_stop_source k i w : Observes w (stop_source k i w).
Proof. apply Observes_sources. Qed.

Lemma Observes_join_notify k i n j w :
  Observes w (join_notify rev options k i n j w).
Proof.
  destruct n as [v|e|]; unfold join_notify.
  - apply Observes_join.
  - eapply Observes_trans; [apply Observes_stop_source|apply Observes_sub_error].
  - cbv zeta. set (w1 := stop_source k i _).
    assert (E1 : Observes w w1).
    { eapply Observes_trans; [|apply Observes_stop_source].
      apply Observes_join. }
    destruct (_ || _); [|done].
    eapply Observes_trans; [exact E1|].
    eapply Observes_trans; [|apply Observes_sub_complete].
    destruct (Nat.eqb _ 0); [apply Observes_sub_next|apply Observes_refl].
Qed.

Lemma Observes_source_notify k i n w :
  Observes w (source_notify rev options k i n w).
Proof.
  destruct n as [v|e|]; simpl.
  - apply Observes_sub_next.
  - eapply Observes_trans; [apply Observes_stop_source|apply Observes_sub_error].
  - eapply Observes_trans; [apply Observes_stop_source|apply Observes_sub_complete].
Qed.

Lemma Observes_deliver k i w n : Observes w (deliver rev options k i w n).
Proof.
  unfold deliver. destruct (source_live k i w); [|apply Observes_refl].
  destruct (_ ≫= _) as [j|].
  - apply Observes_join_notify.
  - apply Observes_source_notify.
Qed.

Lemma Observes_burst k i burst w :
  Observes w (foldl (deliver rev options k i) w burst).
Proof.
  revert w. induction burst as [|n burst IH]; intros w; [apply Observes_refl|].
  simpl. eapply Observes_trans; [apply Observes_deliver|apply IH].
Qed.

Lemma Observes_start_source k i s w : Observes w (start_source k i s w).
Proof. destruct s as [|[d b] s]; [apply Observes_refl|by apply Observes_same]. Qed.

Lemma Observes_start_sources k i ss w : Observes w (start_sources k i ss w).
Proof.
  revert i w. induction ss as [|s ss IH]; intros i w; [apply Observes_refl|].
  simpl. eapply Observes_trans; [apply Observes_start_source|apply IH].
Qed.

Lemma Observes_fire_source k i w : Observes w (fire_source rev options k i w).
Proof.
  unfold fire_source. destruct (source_live k i w); [|apply Observes_refl].
  destruct (remaining_script k i w) as [|[d burst] rest]; [apply Observes_refl|].
  set (w1 := upd_inv k _ w).
  assert (E1 : Observes w w1) by apply Observes_sources.
  eapply Observes_trans; [exact E1|].
  destruct (source_live k i _).
  - eapply Observes_trans; [apply Observes_burst|apply Observes_start_source].
  - apply Observes_burst.
Qed.

(** What the debounce operator holds. *)
Definition debounce_state (w : World) : bool * option (list JsVal) * Z :=
  (activeTask (pipeline w), lastValue (pipeline w), lastTime (pipeline w)).

(** The observer leaves the microtasks, the handler records, the [run]
    calls and the debounce operator alone. *)
Lemma Observe_frame w w' :
  Observe w w' ->
  microtasks w' = microtasks w /\ heap w' = heap w /\ chains w' = chains w
  /\ currentHandlers w' = currentHandlers w
  /\ static <$> invocations w' = static <$> invocations w
  /\ debounce_state w' = debounce_state w.
Proof.
  intros [w1 w2 H Hp|w1 k inv v Hl Hs|w1 k inv e Hl Hs].
  - unfold debounce_state. rewrite Hp. by destruct H.
  - unfold on_next, complete_exec. rewrite Hl.
    destruct (tracked options); cbn; rewrite Hl;
      destruct (inv_closed inv), (inv_downstream inv); cbn;
      split_and!; try done;
      apply (nt_static _ _ (inert_upd_inv k close_inv w1 (fun _ => eq_refl)
                              Closing_close_inv)).
  - unfold on_error, normalise, complete_exec. rewrite Hl.
    destruct rev, (tracked options); cbn; rewrite Hl;
      destruct (inv_closed inv), (inv_downstream inv); cbn;
      split_and!; try done;
      apply (nt_static _ _ (inert_upd_inv k close_inv w1 (fun _ => eq_refl)
                              Closing_close_inv)).
Qed.

Lemma Observes_frame w w' :
  Observes w w' ->
  microtasks w' = microtasks w /\ heap w' = heap w /\ chains w' = chains w
  /\ currentHandlers w' = currentHandlers w
  /\ static <$> invocations w' = static <$> invocations w
  /\ debounce_state w' = debounce_state w.
Proof.
  induction 1 as [|w1 w2 w3 H12 _ IH]; [done|].
  destruct (Observe_frame _ _ H12) as (? & ? & ? & ? & ? & ?).
  destruct IH as (? & ? & ? & ? & ? & ?). split_and!; congruence.
Qed.
End Observer.

(** ** The actions *)

Section Actions.
Variable rev : Revision.
Variable options : ActionOptions.
Variable getObservable : list JsVal -> ObservableExpr.

Inductive Move : World -> World -> Prop :=
| act_inert w w' :
    inert w w' -> Move w w'
| act_run w args :
    Move w (called rev args w)
| act_register w chain f r :
    chain_target rev chain w = Some r ->
    Move w (write_handlers r f w)
| act_dispatch w ds args :
    Move w (announced rev options getObservable ds args w)
| act_next w k inv v :
    microtasks w = [] ->
    invocations w !! k = Some inv -> inv_sub_closed inv = false ->
    Move w (on_next options k v w)
| act_error w k inv e :
    microtasks w = [] ->
    invocations w !! k = Some inv -> inv_sub_closed inv = false ->
    Move w (on_error rev options k e w)
| act_drain w :
    Move w (drain options w).

Definition Moves : World -> World -> Prop := rtc Move.

Lemma Moves_refl w : Moves w w.
Proof. apply rtc_refl. Qed.

Lemma Moves_trans w1 w2 w3 : Moves w1 w2 -> Moves w2 w3 -> Moves w1 w3.
Proof. intros H1 H2. unfold Moves in *. by etrans. Qed.

Lemma Moves_inert w w' : inert w w' -> Moves w w'.
Proof. intros H. by apply rtc_once, act_inert. Qed.

Lemma Moves_same w w' :
  heap w' = heap w -> chains w' = chains w ->
  currentHandlers w' = currentHandlers w -> microtasks w' = microtasks w ->
  tracker w' = tracker w -> status w' = status w -> error w' = error w ->
  trace w' = trace w -> invocations w' = invocations w -> Moves w w'.
Proof. intros. by apply Moves_inert, inert_same. Qed.

Lemma Moves_upd_inv k f w :
  (forall inv, static (f inv) = static inv) -> Closing f ->
  Moves w (upd_inv k f w).
Proof. intros Hf Hc. by apply Moves_inert, inert_upd_inv. Qed.

(** Between tasks no microtask is waiting, so the observer's part is made
    of actions. *)
Lemma Observes_Moves w w' :
  microtasks w = [] -> Observes rev options w w' -> Moves w w'.
Proof.
  intros Hm H. induction H as [|w1 w2 w3 H12 H23 IH]; [apply Moves_refl|].
  eapply Moves_trans; [|apply IH].
  - destruct H12 as [w1 w2 H Hp|w1 k inv v Hl Hs|w1 k inv e Hl Hs].
    + by apply Moves_inert.
    + by eapply rtc_once, act_next.
    + by eapply rtc_once, act_error.
  - destruct (Observe_frame rev options _ _ H12) as (-> & _). exact Hm.
Qed.

Lemma Moves_start_source k i s w : Moves w (start_source k i s w).
Proof. destruct s as [|[d b] s]; [apply Moves_refl|by apply Moves_same]. Qed.

Lemma Moves_start_sources k i ss w : Moves w (start_sources k i ss w).
Proof.
  revert i w. induction ss as [|s ss IH]; intros i w; [apply Moves_refl|].
  simpl. eapply Moves_trans; [apply Moves_start_source|apply IH].
Qed.

Lemma Moves_sub_complete k w : Moves w (sub_complete k w).
Proof.
  unfold sub_complete. destruct (sub_closed k w); [apply Moves_refl|].
  apply Moves_upd_inv; [done|apply Closing_close_sub_of].
Qed.

Lemma Moves_unsubscribe_exec k w : Moves w (unsubscribe_exec k w).
Proof. apply Moves_upd_inv; [done|apply Closing_close_inv]. Qed.

Lemma Moves_subscribe ds args w :
  Moves w (subscribe_exec getObservable ds
               (executeObservable rev options args w).1
               (executeObservable rev options args w).2).2.
Proof.
  eapply Moves_trans; [apply rtc_once, (act_dispatch w ds args)|].
  unfold subscribe_exec, announced. cbn [snd]. cbv zeta.
  set (e := executeObservable rev options args w). clearbody e.
  destruct (getObservable (eo_args e.1)) as [s|[|x xs]].
  - apply Moves_start_source.
  - apply Moves_sub_complete.
  - apply Moves_start_sources.
Qed.

Lemma Moves_execute_now args w :
  Moves w (execute_now rev options getObservable args w).
Proof.
  unfold execute_now.
  set (w1 := match currentSub w with Some s => _ | None => w end).
  assert (E1 : Moves w w1).
  { unfold w1. destruct (currentSub w) as [[|k]|]; try apply Moves_refl.
    apply Moves_unsubscribe_exec. }
  pose proof (Moves_subscribe Direct args w1) as E2.
  destruct (executeObservable rev options args w1) as [eo wa].
  cbn [fst snd] in E2.
  destruct (subscribe_exec getObservable Direct eo wa) as [k wb].
  cbn [snd] in E2.
  eapply Moves_trans; [exact E1|].
  eapply Moves_trans; [exact E2|by apply Moves_same].
Qed.

Lemma Moves_switchMap_next args w :
  Moves w (switchMap_next rev options getObservable args w).
Proof.
  unfold switchMap_next.
  set (w1 := match innerSubscriber (pipeline w) with Some k => _ | None => w end).
  assert (E1 : Moves w w1).
  { unfold w1. destruct (innerSubscriber (pipeline w)) as [k|];
      [apply Moves_unsubscribe_exec|apply Moves_refl]. }
  pose proof (Moves_subscribe SwitchMapInner args w1) as E2.
  destruct (executeObservable rev options args w1) as [eo wa].
  cbn [fst snd] in E2.
  destruct (subscribe_exec getObservable SwitchMapInner eo wa) as [k wb].
  cbn [snd] in E2.
  eapply Moves_trans; [exact E1|].
  eapply Moves_trans; [exact E2|by apply Moves_same].
Qed.

Lemma Moves_emit w : Moves w (emit rev options getObservable w).
Proof.
  unfold emit. destruct (activeTask (pipeline w)); [|apply Moves_refl].
  destruct (lastValue (pipeline w)) as [args|]; [|by apply Moves_same].
  eapply Moves_trans; [|apply Moves_switchMap_next]. by apply Moves_same.
Qed.

Lemma Moves_emitWhenIdle w :
  Moves w (emitWhenIdle rev options getObservable w).
Proof.
  unfold emitWhenIdle. destruct (_ <? _);
    [by apply Moves_same|apply Moves_emit].
Qed.

Lemma Moves_trigger args w :
  Moves w (trigger rev options getObservable args w).
Proof.
  unfold trigger. destruct (debounced options).
  - unfold runSubject_next.
    destruct (activeTask (pipeline w)); by apply Moves_same.
  - apply Moves_execute_now.
Qed.

Lemma Moves_run args w :
  Moves w (run rev options getObservable args w).
Proof.
  eapply Moves_trans; [apply rtc_once, (act_run w args)|].
  unfold run, called. cbn [alloc_handlers]. cbv zeta.
  set (W := set_chains _ _).
  apply by_revision2.
  - by apply Moves_same.
  - apply Moves_trigger.
Qed.

Lemma Moves_user_op w op :
  Moves w (user_op rev options getObservable w op).
Proof.
  assert (Hreg : forall c f, Moves w (register rev c f w)).
  { intros c f. unfold register.
    destruct (chain_target rev c w) as [r|] eqn:E; [|apply Moves_refl].
    by eapply rtc_once, act_register. }
  destruct op; simpl; try apply Hreg. apply Moves_run.
Qed.

Lemma Moves_run_task t w :
  microtasks w = [] ->
  Moves w (run_task rev options getObservable t w).
Proof.
  intros Hm. destruct t as [ops|args| |k i]; simpl.
  - clear Hm. revert w.
    induction ops as [|op ops IH]; intros w; [apply Moves_refl|].
    simpl. eapply Moves_trans; [apply Moves_user_op|apply IH].
  - apply Moves_trigger.
  - apply Moves_emitWhenIdle.
  - apply Observes_Moves; [done|apply Observes_fire_source].
Qed.

Lemma drain_microtasks w : microtasks (drain options w) = [].
Proof. by destruct (drain_fields options w) as (_ & ? & _). Qed.

Lemma Moves_turns fuel w :
  microtasks w = [] ->
  Moves w (turns rev options getObservable fuel w)
  /\ microtasks (turns rev options getObservable fuel w) = [].
Proof.
  revert w. induction fuel as [|fuel IH]; intros w Hm;
    [split; [apply Moves_refl|done]|].
  simpl. unfold step.
  destruct (timers w) as [|[due t] q]; [split; [apply Moves_refl|done]|].
  destruct (IH (drain options
                  (run_task rev options getObservable t
                     (set_now due (set_timers q w))))
              (drain_microtasks _)) as [IH1 IH2].
  split; [|exact IH2].
  eapply Moves_trans; [|exact IH1].
  eapply Moves_trans; [|apply rtc_once, act_drain].
  eapply Moves_trans; [|by apply Moves_run_task].
  by apply Moves_same.
Qed.

Lemma boot_fields tr sc :
  let w := boot rev options tr sc in
  microtasks w = [] /\ invocations w = [] /\ trace w = []
  /\ now w = 0 /\ chains w = [] /\ status w = Idle /\ error w = None
  /\ tracker w = tr
  /\ heap w = heap (createBaseAction rev options tr)
  /\ currentHandlers w = 0%nat
  /\ pipeline w = mkPipeline false None 0 None
  /\ currentSub w = currentSub (createBaseAction rev options tr).
Proof.
  cbv zeta.
  assert (H : forall w0 : World,
    let w := foldl (fun w b =>
                      set_timers (insert_timer b.1 (TUser b.2) (timers w)) w)
               w0 sc in
    microtasks w = microtasks w0 /\ invocations w = invocations w0
    /\ trace w = trace w0 /\ now w = now w0 /\ chains w = chains w0
    /\ status w = status w0 /\ error w = error w0 /\ tracker w = tracker w0
    /\ heap w = heap w0 /\ currentHandlers w = currentHandlers w0
    /\ pipeline w = pipeline w0 /\ currentSub w = currentSub w0).
  { induction sc as [|b sc' IH]; intros w0; [by split_and!|].
    simpl. destruct (IH (set_timers (insert_timer b.1 (TUser b.2) (timers w0)) w0))
      as (? & ? & ? & ? & ? & ? & ? & ? & ? & ? & ? & ?).
    by split_and!. }
  destruct (H (createBaseAction rev options tr))
    as (? & ? & ? & ? & ? & ? & ? & ? & ? & ? & ? & ?).
  unfold boot. by split_and!.
Qed.

Lemma Moves_boot tr sc :
  Moves (createBaseAction rev options tr) (boot rev options tr sc).
Proof.
  unfold boot. generalize (createBaseAction rev options tr).
  induction sc as [|b sc IH]; intros w0; [apply Moves_refl|].
  simpl. eapply Moves_trans; [|apply IH]. by apply Moves_same.
Qed.
End Actions.

(** Every state a scenario leads to is reached from the state
    [createBaseAction] sets up by actions of the controller. *)
Lemma play_Moves (a : Action) (tr : Tracker.GlobalHttpTracker JsVal)
    (sc : Scenario) (fuel : nat) :
  Moves (a_rev a) (a_options a) (a_getObservable a)
    (createBaseAction (a_rev a) (a_options a) tr) (play a tr sc fuel).
Proof.
  unfold play. eapply Moves_trans; [apply Moves_boot|].
  apply Moves_turns.
  by destruct (boot_fields (a_rev a) (a_options a) tr sc) as (? & _).
Qed.

(** No microtask outlives its task. *)
Lemma play_microtasks (a : Action) (tr : Tracker.GlobalHttpTracker JsVal)
    (sc : Scenario) (fuel : nat) :
  microtasks (play a tr sc fuel) = [].
Proof.
  unfold play. apply Moves_turns.
  by destruct (boot_fields (a_rev a) (a_options a) tr sc) as (? & _).
Qed.

(** Induction on the actions of a controller. *)
Lemma reachable_ind (a : Action) (tr : Tracker.GlobalHttpTracker JsVal)
    (P : World -> Prop) :
  P (createBaseAction (a_rev a) (a_options a) tr) ->
  (forall w w',
     P w -> Move (a_rev a) (a_options a) (a_getObservable a) w w' -> P w') ->
  forall sc fuel, P (play a tr sc fuel).
Proof.
  intros H0 Hstep sc fuel.
  pose proof (play_Moves a tr sc fuel) as H. unfold Moves in H.
  revert H. generalize (play a tr sc fuel). apply rtc_ind_r; [done|].
  intros y z _ Hyz Hy. by eapply Hstep.
Qed.

(** ** The signals show the invocation dispatched last *)

(** The value a signal holds after the writes of a history: [sel] picks
    the writes. *)
Section Latest.
Context {V : Type}.
Variable sel : Event -> option V.
Hypothesis sel_lifecycle :
  forall e v, sel e = Some v -> exists j, lifecycle_ev j e = true.

Definition latest (v0 : V) (evs : list Event) : V :=
  foldl (fun v e => default v (sel e)) v0 evs.

Lemma latest_app v0 l1 l2 : latest v0 (l1 ++ l2) = latest (latest v0 l1) l2.
Proof. apply foldl_app. Qed.

Lemma latest_cons v0 e l :
  latest v0 (e :: l) = latest (default v0 (sel e)) l.
Proof. reflexivity. Qed.

(** After a write the value before does not matter. *)
Lemma latest_written v0 v1 evs :
  Exists (fun e => is_Some (sel e)) evs -> latest v0 evs = latest v1 evs.
Proof.
  revert v0 v1. induction evs as [|e evs IH]; intros v0 v1 H.
  - by apply Exists_nil in H.
  - simpl. destruct (sel e) as [v|] eqn:E; [done|]. simpl.
    apply IH. apply Exists_cons in H as [[v Hv]|H]; [congruence|done].
Qed.

(** Among events of invocation [k] and unmarked ones, only the writes of
    [k] count. *)
Lemma latest_own k v0 evs :
  Forall (fun e => forall j, mark e = Some j -> j = k) evs ->
  latest v0 evs = latest v0 (lifecycle k evs).
Proof.
  revert v0. induction evs as [|e evs IH]; intros v0 H; [done|].
  apply Forall_cons in H as [He H]. rewrite lifecycle_cons. simpl.
  destruct (lifecycle_ev k e) eqn:El; simpl; [by apply IH|].
  rewrite <- IH by done. f_equal.
  destruct (sel e) as [v|] eqn:E; [|done].
  destruct (sel_lifecycle e v E) as [j Hj].
  pose proof (lifecycle_ev_mark j e Hj) as Hm.
  rewrite (He j Hm) in Hj. congruence.
Qed.

Lemma latest_last_invocation k v0 v1 evs :
  StronglySorted le (omap mark evs) ->
  Forall (fun j => (j <= k)%nat) (omap mark evs) ->
  Exists (fun e => is_Some (sel e)) (lifecycle k evs) ->
  latest v0 evs = latest v1 (lifecycle k evs).
Proof.
  revert v0. induction evs as [|e evs IH]; intros v0 Hs Hb Hw.
  - by apply Exists_nil in Hw.
  - destruct (decide (mark e = Some k)) as [Hk|Hk].
    + assert (Hall : Forall (fun e' => forall j, mark e' = Some j -> j = k)
                       (e :: evs)).
      { simpl in Hs, Hb. rewrite Hk in Hs, Hb.
        apply StronglySorted_inv in Hs as [_ Hge].
        apply Forall_cons in Hb as [_ Hle].
        constructor; [congruence|].
        apply Forall_forall. intros e' He' j Hj.
        rewrite Forall_forall in Hge, Hle.
        assert (j ∈ omap mark evs) by (apply list_elem_of_omap; eauto).
        specialize (Hge j H). specialize (Hle j H). lia. }
      rewrite (latest_own k v0 _ Hall). by apply latest_written.
    + rewrite lifecycle_cons in Hw |- *.
      assert (El : lifecycle_ev k e = false).
      { destruct (lifecycle_ev k e) eqn:El; [|done].
        by apply lifecycle_ev_mark in El. }
      rewrite El in Hw |- *. simpl in Hw |- *.
      apply IH; [| |done].
      * simpl in Hs. destruct (mark e); [|done].
        by apply StronglySorted_inv in Hs as [? _].
      * simpl in Hb. destruct (mark e); [|done].
        by apply Forall_cons in Hb as [_ ?].
Qed.

Lemma latest_unmarked v0 evs :
  omap mark evs = [] -> latest v0 evs = v0.
Proof.
  induction evs as [|e evs IH]; intros H; [done|].
  simpl in H. destruct (mark e) eqn:Hm; [done|]. simpl.
  destruct (sel e) as [v|] eqn:E.
  - destruct (sel_lifecycle e v E) as [j Hj].
    apply lifecycle_ev_mark in Hj. congruence.
  - by apply IH.
Qed.
End Latest.

Definition status_written (e : Event) : option AsyncStatus :=
  match e with
  | EvStatus _ s => Some s
  | _ => None
  end.

Definition error_written (e : Event) : option (option JsVal) :=
  match e with
  | EvError _ m => Some m
  | _ => None
  end.

Lemma status_written_lifecycle e v :
  status_written e = Some v -> exists j, lifecycle_ev j e = true.
Proof. destruct e; try done. intros _. eexists. apply Nat.eqb_refl. Qed.

Lemma error_written_lifecycle e v :
  error_written e = Some v -> exists j, lifecycle_ev j e = true.
Proof. destruct e; try done. intros _. eexists. apply Nat.eqb_refl. Qed.

(** The signals hold what the history wrote last. *)
Definition Signalled (w : World) : Prop :=
  status w = latest status_written Idle (events w)
  /\ error w = latest error_written None (events w).

Lemma latest_calls {V} (sel : Event -> option V) v0 k lvl kind calls :
  (forall f acts, sel (EvCall k lvl kind f acts) = None) ->
  latest sel v0 (map (fun c => EvCall k lvl kind c.1 c.2) calls) = v0.
Proof.
  intros H. induction calls as [|c calls IH]; [done|]. simpl. by rewrite H.
Qed.

Lemma Signalled_step rev options getObservable w w' :
  Signalled w -> Move rev options getObservable w w' -> Signalled w'.
Proof.
  intros [Hs He] M. unfold Signalled.
  destruct M as [w w' Q|w args|w c f r Hr|w ds args|w k inv v Hm Hl Ho
                |w k inv e Hm Hl Ho|w].
  - unfold events. by rewrite (nt_status _ _ Q), (nt_error _ _ Q), (nt_trace _ _ Q).
  - destruct (called_effect rev args w) as (E & _ & _ & _ & _ & _ & S & Er & _).
    rewrite E, S, Er, !latest_app. by split.
  - done.
  - destruct (announced_effect rev options getObservable ds args w)
      as (E & S & Er & _).
    rewrite E, S, Er, !latest_app. by split.
  - destruct (on_next_status options k v w inv Hl) as [S Er].
    rewrite (on_next_events options k v w inv Hl), S, Er.
    unfold success_events.
    rewrite !latest_app, !latest_cons, !latest_app, !latest_calls by done.
    by split.
  - destruct (on_error_status rev options k e w inv Hl) as [S Er].
    rewrite (on_error_events rev options k e w inv Hl), S, Er.
    unfold error_events.
    assert (Hc : forall {V} (sel : Event -> option V) v0,
              (forall m, sel (EvConsoleError m) = None) ->
              latest sel v0
                match rev with
                | Part000 => []
                | Part001 => [EvConsoleError (extractErrorMessage e)]
                end = v0).
    { intros V sel v0 Hsel. destruct rev; [done|].
      simpl. by rewrite Hsel. }
    rewrite !latest_app, !Hc, !latest_cons, !latest_app, !latest_calls by done.
    by split.
  - destruct (drain_fields options w)
      as (E & _ & _ & _ & _ & _ & _ & S & Er & _).
    rewrite E, S, Er, !latest_app.
    assert (Hc : forall {V} (sel : Event -> option V) v0,
              (forall k lvl f acts, sel (EvCall k lvl KLoading f acts) = None) ->
              latest sel v0 (flat_map (loading_block options w) (microtasks w))
              = v0).
    { intros V sel v0 Hsel. clear E.
      induction (microtasks w) as [|[k args h] ms IH]; [done|].
      simpl. rewrite !latest_app. unfold store_calls, own_calls.
      rewrite !latest_calls by (intros; apply Hsel). exact IH. }
    rewrite !Hc by done. by split.
Qed.

Lemma play_Signalled (a : Action) (tr : Tracker.GlobalHttpTracker JsVal)
    (sc : Scenario) (fuel : nat) :
  Signalled (play a tr sc fuel).
Proof.
  apply reachable_ind; [by split|].
  intros w w' S M. by eapply Signalled_step.
Qed.

(** The derived signals, by the status. *)
Definition views (w : World) : bool * bool * bool :=
  (isLoading w, isSuccess w, isError w).

Lemma views_of_status w :
  views w = match status w with
            | Idle => (false, false, false)
            | Loading => (true, false, false)
            | Success => (false, true, false)
            | Error => (false, false, true)
            end.
Proof.
  unfold views, isLoading, isSuccess, isError. by destruct (status w).
Qed.

(** X12.  The signals are those of the invocation dispatched last: idle and null
    before any dispatch; then loading with a null error while that
    invocation is outstanding, success with a null error once it has
    succeeded, error with its message once it has failed.  What earlier
    invocations did does not show.  The derived signals [isLoading],
    [isSuccess] and [isError] follow the status. *)
Theorem signals_show_the_latest_invocation
    (a : Action) (tr : Tracker.GlobalHttpTracker JsVal) (sc : Scenario)
    (fuel : nat) :
  let w := play a tr sc fuel in
  (invocations w = [] /\ status w = Idle /\ error w = None
   /\ views w = (false, false, false))
  \/ exists k args,
       length (invocations w) = S k
       /\ ((lifecycle k (events w) = outstanding_shape k args
            /\ status w = Loading /\ error w = None
            /\ views w = (true, false, false))
           \/ (lifecycle k (events w)
               = outstanding_shape k args ++ [EvStatus k Success]
               /\ status w = Success /\ error w = None
               /\ views w = (false, true, false))
           \/ exists msg,
                lifecycle k (events w)
                = outstanding_shape k args
                  ++ [EvError k (Some msg); EvStatus k Error]
                /\ status w = Error /\ error w = Some msg
                /\ views w = (false, false, true)).
Proof.
  cbv zeta.
  pose proof (play_good a tr sc fuel) as G.
  destruct (play_Signalled a tr sc fuel) as [Hs He].
  pose proof (g_bound _ _ G) as Hb. pose proof (g_sorted _ _ G) as Hso.
  set (w := play a tr sc fuel) in *.
  destruct (invocations w) as [|inv0 invs] eqn:Ei.
  - left. split; [done|].
    assert (Hm : omap mark (events w) = []).
    { destruct (omap mark (events w)) as [|j js]; [done|].
      apply Forall_cons in Hb as [Hj _]. simpl in Hj. lia. }
    assert (Hidle : status w = Idle).
    { rewrite Hs. eapply latest_unmarked;
        eauto using status_written_lifecycle. }
    split_and!; [done| |by rewrite views_of_status, Hidle].
    rewrite He. eapply latest_unmarked; eauto using error_written_lifecycle.
  - right. set (k := length invs).
    assert (Hlen : length (invocations w) = S k) by (by rewrite Ei).
    assert (Hle : Forall (fun j => (j <= k)%nat) (omap mark (events w))).
    { rewrite <- Ei in Hb. rewrite Hlen in Hb.
      eapply Forall_impl; [exact Hb|]. simpl. intros; lia. }
    assert (Hl : Lifecycle k (lifecycle k (events w))).
    { apply (g_life _ _ G). lia. }
    assert (Hst : forall v1,
              status w = latest status_written v1 (lifecycle k (events w))).
    { intros v1. rewrite Hs.
      apply latest_last_invocation;
        eauto using status_written_lifecycle.
      inversion Hl; apply Exists_cons_hd; by eexists. }
    assert (Her : forall v1,
              error w = latest error_written v1 (lifecycle k (events w))).
    { intros v1. rewrite He.
      apply latest_last_invocation;
        eauto using error_written_lifecycle.
      inversion Hl; apply Exists_cons_tl, Exists_cons_hd; by eexists. }
    specialize (Hst Idle). specialize (Her None).
    inversion Hl as [args E|args E|args msg E]; rewrite <- E in Hst, Her;
      exists k, args; (split; [done|]).
    + left. split_and!; try done. by rewrite views_of_status, Hst.
    + right. left. split_and!; try done. by rewrite views_of_status, Hst.
    + right. right. exists msg. split_and!; try done.
      by rewrite views_of_status, Hst.
Qed.

(** ** [track: false] *)

(** X9.  A controller built with [track: false] never tells the tracker
    anything: through every scenario the tracker stays the one that was
    injected -- its pending set, its count and its last error. *)
Theorem untracked_controller_leaves_the_tracker_alone
    (a : Action) (tr : Tracker.GlobalHttpTracker JsVal) (sc : Scenario)
    (fuel : nat) :
  tracked (a_options a) = false ->
  tracker (play a tr sc fuel) = tr.
Proof.
  intros Ht. apply (reachable_ind a tr (fun w => tracker w = tr)); [done|].
  intros w w' Hw M.
  destruct M as [w w' Q|w args|w c f r Hr|w ds args|w k inv v Hm Hl Ho
                |w k inv e Hm Hl Ho|w].
  - destruct Q. congruence.
  - by destruct (called_effect (a_rev a) args w)
      as (_ & _ & _ & _ & _ & -> & _).
  - done.
  - destruct (announced_effect (a_rev a) (a_options a) (a_getObservable a)
                ds args w) as (_ & _ & _ & -> & _).
    by rewrite Ht.
  - rewrite (on_next_tracker (a_options a) k v w inv Hl). by rewrite Ht.
  - rewrite (on_error_tracker (a_rev a) (a_options a) k e w inv Hl).
    by rewrite Ht.
  - by destruct (drain_fields (a_options a) w)
      as (_ & _ & _ & _ & _ & _ & -> & _).
Qed.

Lemma untracked_controller_leaves_the_tracker_alone_witness :
  let a := createSignalAction Part001 Scenarios.fetch
             (mkOptions (Some false) None None None None) in
  let tr := Tracker.error "x" (JStr "old") (Tracker.begin "y" Tracker.init) in
  tracked (a_options a) = false
  /\ tracker (play a tr (Scenarios.two_runs 0 10) 10) = tr.
Proof.
  split; [reflexivity|].
  exact (untracked_controller_leaves_the_tracker_alone
           (createSignalAction Part001 Scenarios.fetch
              (mkOptions (Some false) None None None None))
           (Tracker.error "x" (JStr "old") (Tracker.begin "y" Tracker.init))
           (Scenarios.two_runs 0 10) 10 eq_refl).
Defined.

(** ** The life of an invocation *)

(** The events of invocation [k]: everything but the [run] calls and the
    console. *)
Definition concerns (k : nat) (e : Event) : bool :=
  match e with
  | EvDispatch j _ | EvProducer j _ | EvStatus j _ | EvError j _
  | EvCall j _ _ _ _ => Nat.eqb j k
  | EvRun _ | EvConsoleError _ => false
  end.

Definition story (k : nat) (evs : list Event) : list Event :=
  filter (fun e => concerns k e = true) evs.

Definition micro_index (m : Microtask) : nat :=
  match m with MLoading k _ _ => k end.

Lemma story_app k l1 l2 : story k (l1 ++ l2) = story k l1 ++ story k l2.
Proof. apply filter_app. Qed.

Lemma story_all k es :
  Forall (fun e => concerns k e = true) es -> story k es = es.
Proof.
  induction 1 as [|e es He _ IH]; [done|].
  unfold story in *. rewrite filter_cons. by rewrite decide_True, IH.
Qed.

Lemma story_none k es :
  Forall (fun e => concerns k e = false) es -> story k es = [].
Proof.
  induction 1 as [|e es He _ IH]; [done|].
  unfold story in *. rewrite filter_cons.
  rewrite decide_False by (by rewrite He). exact IH.
Qed.

Lemma calls_concern k k' lvl kind calls :
  Forall (fun e => concerns k e = Nat.eqb k' k)
    (map (fun c => EvCall k' lvl kind c.1 c.2) calls).
Proof.
  apply Forall_forall. intros e He.
  by apply list_elem_of_fmap in He as (c & -> & _).
Qed.

Section Life.
Variable rev : Revision.
Variable options : ActionOptions.
Variable getObservable : list JsVal -> ObservableExpr.

(** The loading notification of invocation [k]. *)
Definition loads (k : nat) (args : list JsVal) (hs : Handlers)
  : list Event :=
  store_calls k KLoading (onLoading options) args
  ++ own_calls k KLoading (h_loading hs) args.

(** How invocation [k] ended, if it has. *)
Inductive Ending (k : nat) (args : list JsVal) : list Event -> Prop :=
| end_none : Ending k args []
| end_success data hs :
    Ending k args
      (EvStatus k Success
       :: store_calls k KSuccess (onSuccess options) (data :: args)
       ++ own_calls k KSuccess (h_success hs) (data :: args)
       ++ own_calls k KFinally (h_finally hs) [])
| end_error err hs :
    Ending k args
      (EvError k (Some (normalised rev err))
       :: EvStatus k Error
       :: store_calls k KError (onError options) (normalised rev err :: args)
       ++ own_calls k KError (h_error hs) (normalised rev err :: args)
       ++ own_calls k KFinally (h_finally hs) []).

Lemma story_loads k k' args hs :
  story k (loads k' args hs) = if decide (k' = k) then loads k' args hs else [].
Proof.
  unfold loads, store_calls, own_calls. case_decide as E.
  - subst. apply story_all, Forall_app. split;
      (eapply Forall_impl; [apply calls_concern|]);
      simpl; intros e ->; apply Nat.eqb_refl.
  - apply story_none, Forall_app. split;
      (eapply Forall_impl; [apply calls_concern|]);
      simpl; intros e ->; by apply Nat.eqb_neq.
Qed.

Lemma story_success k k' inv v w :
  story k (success_events options k' inv v w)
  = if decide (k' = k) then success_events options k' inv v w else [].
Proof.
  unfold success_events. case_decide as E.
  - subst. apply story_all. constructor; [apply Nat.eqb_refl|].
    rewrite !Forall_app. split_and!;
      (eapply Forall_impl; [apply calls_concern|]);
      simpl; intros e ->; apply Nat.eqb_refl.
  - apply story_none. constructor; [by apply Nat.eqb_neq|].
    rewrite !Forall_app. split_and!;
      (eapply Forall_impl; [apply calls_concern|]);
      simpl; intros e ->; by apply Nat.eqb_neq.
Qed.

(** The failure of [k'] as invocation [k'] sees it: the console is left
    out. *)
Definition failure_story (k' : nat) (inv : Invocation) (err : JsVal)
    (w : World) : list Event :=
  EvError k' (Some (normalised rev err))
  :: EvStatus k' Error
  :: store_calls k' KError (onError options)
       (normalised rev err :: inv_args inv)
  ++ own_calls k' KError (h_error (read_handlers (inv_handlers inv) w))
       (normalised rev err :: inv_args inv)
  ++ own_calls k' KFinally (h_finally (read_handlers (inv_handlers inv) w)) [].

Lemma story_error k k' inv e w :
  story k (error_events rev options k' inv e w)
  = if decide (k' = k) then failure_story k' inv e w else [].
Proof.
  unfold error_events. rewrite story_app.
  assert (Hc : story k match rev with
                       | Part000 => []
                       | Part001 => [EvConsoleError (extractErrorMessage e)]
                       end = []) by (by destruct rev).
  rewrite Hc. simpl app. unfold failure_story, store_calls, own_calls.
  case_decide as E.
  - subst. apply story_all. do 2 (constructor; [apply Nat.eqb_refl|]).
    rewrite !Forall_app. split_and!;
      (eapply Forall_impl; [apply calls_concern|]);
      simpl; intros x ->; apply Nat.eqb_refl.
  - apply story_none. do 2 (constructor; [by apply Nat.eqb_neq|]).
    rewrite !Forall_app. split_and!;
      (eapply Forall_impl; [apply calls_concern|]);
      simpl; intros x ->; by apply Nat.eqb_neq.
Qed.

Lemma story_dispatch k k' args :
  story k (dispatch_events k' args)
  = if decide (k' = k) then dispatch_events k' args else [].
Proof.
  unfold dispatch_events. case_decide as E.
  - subst. apply story_all. repeat constructor; apply Nat.eqb_refl.
  - apply story_none. repeat constructor; by apply Nat.eqb_neq.
Qed.

(** The loading notifications run by [drain], seen by invocation [k]. *)
Lemma story_drain k w ms :
  NoDup (micro_index <$> ms) ->
  story k (flat_map (loading_block options w) ms)
  = match list_find (fun m => micro_index m = k) ms with
    | Some (_, MLoading _ args h) => loads k args (read_handlers h w)
    | None => []
    end.
Proof.
  induction ms as [|[k' args h] ms IH]; intros Hnd; [done|].
  apply NoDup_cons in Hnd as [Hk' Hnd]. simpl in Hk'.
  cbn [flat_map loading_block]. rewrite story_app.
  fold (loads k' args (read_handlers h w)). rewrite story_loads.
  cbn [list_find]. simpl micro_index.
  case_decide as E.
  - subst k'. simpl.
    assert (Hn : list_find (fun m => micro_index m = k) ms = None).
    { apply list_find_None. apply Forall_forall. intros m Hm Heq.
      apply Hk'. apply list_elem_of_fmap. by exists m. }
    rewrite IH, Hn by done. by rewrite app_nil_r.
  - rewrite IH by done. simpl.
    destruct (list_find _ ms) as [[i [k1 a1 h1]]|]; reflexivity.
Qed.

(** What the history says about each invocation, at any moment. *)
Record Life (w : World) : Prop := mkLife {
  lf_bound :
    Forall (fun e => forall j, concerns j e = true ->
                     (j < length (invocations w))%nat) (events w);
  lf_nodup : NoDup (micro_index <$> microtasks w);
  lf_micro :
    Forall (fun m => exists inv,
              invocations w !! micro_index m = Some inv
              /\ m = MLoading (micro_index m) (inv_args inv)
                       (inv_handlers inv))
      (microtasks w);
  lf_closed :
    Forall (fun inv => inv_closed inv = true -> inv_sub_closed inv = true)
      (invocations w);
  lf_story : forall k inv,
    invocations w !! k = Some inv ->
    exists L S,
      story k (events w) = dispatch_events k (inv_args inv) ++ L ++ S
      /\ (k ∈ micro_index <$> microtasks w -> L = [] /\ S = [])
      /\ (k ∉ micro_index <$> microtasks w ->
          exists hs, L = loads k (inv_args inv) hs)
      /\ Ending k (inv_args inv) S
      /\ (S <> [] -> inv_sub_closed inv = true);
}.

Lemma static_lookup w w' k inv' :
  static <$> invocations w' = static <$> invocations w ->
  invocations w' !! k = Some inv' ->
  exists inv, invocations w !! k = Some inv /\ static inv = static inv'.
Proof.
  intros Hs Hl.
  assert (H : (static <$> invocations w) !! k = Some (static inv')).
  { rewrite <- Hs, list_lookup_fmap, Hl. done. }
  rewrite list_lookup_fmap in H.
  destruct (invocations w !! k) as [inv|]; [|done].
  exists inv. split; [done|]. simpl in H. congruence.
Qed.

Lemma static_length w w' :
  static <$> invocations w' = static <$> invocations w ->
  length (invocations w') = length (invocations w).
Proof.
  intros Hs. by rewrite <- (length_fmap static), Hs, length_fmap.
Qed.

Lemma Life_inert w w' : Life w -> inert w w' -> Life w'.
Proof.
  intros [Hb Hnd Hm Hc Hs] Q.
  pose proof (nt_static _ _ Q) as Hst.
  pose proof (nt_micro _ _ Q) as Hmi.
  assert (Hev : events w' = events w).
  { unfold events. by rewrite (nt_trace _ _ Q). }
  split.
  - rewrite Hev, (static_length w w' Hst). exact Hb.
  - by rewrite Hmi.
  - rewrite Hmi. eapply Forall_impl; [exact Hm|].
    intros m (inv & Hl & Hmm).
    assert (H : (static <$> invocations w') !! micro_index m
                = Some (static inv)).
    { by rewrite Hst, list_lookup_fmap, Hl. }
    rewrite list_lookup_fmap in H.
    destruct (invocations w' !! micro_index m) as [inv'|]; [|done].
    exists inv'. split; [done|]. injection H as H.
    unfold static in H.
    assert (Ha : inv_args inv' = inv_args inv) by congruence.
    assert (Hh : inv_handlers inv' = inv_handlers inv) by congruence.
    rewrite Hmm. simpl. by rewrite Ha, Hh.
  - apply Forall_lookup. intros k inv' Hl' Hcl.
    destruct (static_lookup w w' k inv' Hst Hl') as (inv & Hl & _).
    destruct (nt_closes _ _ Q k inv inv' Hl Hl') as [H1 H2].
    destruct (H2 Hcl) as [?|Hcl0]; [done|].
    apply H1. exact (proj1 (Forall_lookup _ _) Hc k inv Hl Hcl0).
  - intros k inv' Hl'.
    destruct (static_lookup w w' k inv' Hst Hl') as (inv & Hl & Heq).
    destruct (Hs k inv Hl) as (L & S & E & Hp & Hn & Ho & Hcl).
    assert (Ha : inv_args inv' = inv_args inv).
    { unfold static in Heq. congruence. }
    exists L, S. rewrite Hev, Hmi, Ha. split_and!; try done.
    intros HS. destruct (nt_closes _ _ Q k inv inv' Hl Hl') as [H1 _].
    auto.
Qed.

Lemma Life_same_history w w' :
  Life w -> events w' = events w -> microtasks w' = microtasks w ->
  invocations w' = invocations w -> Life w'.
Proof.
  intros [Hb Hnd Hm Hc Hs] He Hmi Hi. split.
  - by rewrite He, Hi.
  - by rewrite Hmi.
  - by rewrite Hmi, Hi.
  - by rewrite Hi.
  - intros k inv Hl. rewrite Hi in Hl. rewrite He, Hmi. by apply Hs.
Qed.

Lemma Life_called w args : Life w -> Life (called rev args w).
Proof.
  intros [Hb Hnd Hm Hc Hs].
  destruct (called_effect rev args w)
    as (He & _ & _ & Hmi & Hi & _).
  split.
  - rewrite He, Hi. apply Forall_app. split; [done|]. by constructor.
  - by rewrite Hmi.
  - by rewrite Hmi, Hi.
  - by rewrite Hi.
  - intros k inv Hl. rewrite Hi in Hl. rewrite He, Hmi, story_app.
    change (story k [EvRun args]) with (@nil Event). rewrite app_nil_r.
    by apply Hs.
Qed.

Lemma micro_bound w m :
  Life w -> m ∈ microtasks w ->
  (micro_index m < length (invocations w))%nat.
Proof.
  intros H Hin.
  destruct (proj1 (Forall_forall _ _) (lf_micro _ H) m Hin) as (inv & Hl & _).
  by apply lookup_lt_Some in Hl.
Qed.

Lemma story_fresh w k :
  Life w -> (length (invocations w) <= k)%nat -> story k (events w) = [].
Proof.
  intros H Hk. apply story_none.
  eapply Forall_impl; [exact (lf_bound _ H)|]. simpl. intros e He.
  destruct (concerns k e) eqn:E; [|done]. specialize (He k E). lia.
Qed.

Lemma Life_dispatch w ds args :
  Life w -> Life (announced rev options getObservable ds args w).
Proof.
  intros HL. pose proof HL as [Hb Hnd Hm Hc Hs].
  destruct (announced_effect rev options getObservable ds args w)
    as (He & _ & _ & _ & _ & _ & _ & _ & _ & _ & h & Hi & Hmi & _).
  cbv zeta in *. set (k0 := length (invocations w)) in *.
  set (w' := announced rev options getObservable ds args w) in *.
  set (inv0 := mkInvocation args h (uuid k0) ds false false _ _) in *.
  assert (Hfresh : k0 ∉ micro_index <$> microtasks w).
  { intros Hin. apply list_elem_of_fmap in Hin as (m & Hk & Hin).
    pose proof (micro_bound w m HL Hin). unfold k0 in Hk. lia. }
  split.
  - rewrite He, Hi, length_app. simpl. apply Forall_app. split.
    + eapply Forall_impl; [exact Hb|]. simpl. intros e H j Hj.
      specialize (H j Hj). lia.
    + unfold dispatch_events. repeat constructor; simpl; intros j Hj;
        apply Nat.eqb_eq in Hj; subst j; fold k0; lia.
  - rewrite Hmi, fmap_app. simpl. apply NoDup_app. split; [done|].
    split; [|apply NoDup_singleton].
    intros x Hx Hx'. apply list_elem_of_singleton in Hx'. by subst x.
  - rewrite Hmi, Hi. apply Forall_app. split.
    + eapply Forall_impl; [exact Hm|]. intros m (inv & Hl & Hmm).
      exists inv. split; [|done]. by apply lookup_app_l_Some.
    + constructor; [|constructor]. exists inv0. simpl. split; [|done].
      rewrite lookup_app_r by (fold k0; lia).
      fold k0. by rewrite Nat.sub_diag.
  - rewrite Hi. apply Forall_app. split; [done|]. by constructor.
  - intros k inv. rewrite Hi, He, Hmi, story_app, story_dispatch, fmap_app.
    simpl. intros Hl.
    destruct (decide (k0 = k)) as [<-|Hne].
    + rewrite lookup_app_r in Hl by (fold k0; lia).
      fold k0 in Hl. rewrite Nat.sub_diag in Hl. injection Hl as <-.
      rewrite (story_fresh w k0 HL) by (fold k0; lia). simpl.
      exists [], []. split_and!; try done.
      * intros Hn. exfalso. apply Hn. apply elem_of_app. right. left.
      * constructor.
    + assert (Hl0 : invocations w !! k = Some inv).
      { apply lookup_app_Some in Hl as [?|[Hge Hl]]; [done|].
        fold k0 in Hge, Hl.
        destruct (k - k0)%nat as [|n] eqn:En; [lia|]. done. }
      destruct (Hs k inv Hl0) as (L & S & E & Hp & Hn & Ho & Hcl).
      exists L, S. rewrite app_nil_r. split_and!; try done.
      * intros Hin. apply Hp. apply elem_of_app in Hin as [?|Hin]; [done|].
        apply list_elem_of_singleton in Hin. congruence.
      * intros Hnin. apply Hn. intros Hin. apply Hnin.
        apply elem_of_app. by left.
Qed.

Lemma calls_own k lvl kind calls :
  Forall (fun e => forall j, concerns j e = true -> j = k)
    (map (fun c => EvCall k lvl kind c.1 c.2) calls).
Proof.
  apply Forall_forall. intros e He.
  apply list_elem_of_fmap in He as (c & -> & _). simpl.
  intros j Hj. by apply Nat.eqb_eq in Hj.
Qed.

Lemma success_own k inv v w :
  Forall (fun e => forall j, concerns j e = true -> j = k)
    (success_events options k inv v w).
Proof.
  unfold success_events. constructor.
  - simpl. intros j Hj. by apply Nat.eqb_eq in Hj.
  - rewrite !Forall_app. split_and!; apply calls_own.
Qed.

Lemma error_own k inv e w :
  Forall (fun e => forall j, concerns j e = true -> j = k)
    (error_events rev options k inv e w).
Proof.
  unfold error_events. apply Forall_app. split.
  - destruct rev; repeat constructor. done.
  - do 2 (constructor; [simpl; intros j Hj; by apply Nat.eqb_eq in Hj|]).
    rewrite !Forall_app. split_and!; apply calls_own.
Qed.

Lemma loads_own k args hs :
  Forall (fun e => forall j, concerns j e = true -> j = k) (loads k args hs).
Proof. unfold loads. apply Forall_app. split; apply calls_own. Qed.

Lemma open_not_closed w k inv :
  Life w -> invocations w !! k = Some inv -> inv_sub_closed inv = false ->
  inv_closed inv = false.
Proof.
  intros H Hl Ho. destruct (inv_closed inv) eqn:E; [|done].
  pose proof (proj1 (Forall_lookup _ _) (lf_closed _ H) k inv Hl E).
  congruence.
Qed.

(** A success or a failure of an invocation that is still open: the
    common part of the two cases. *)
Lemma Life_settle w w' k inv es S' :
  Life w -> microtasks w = [] ->
  invocations w !! k = Some inv -> inv_sub_closed inv = false ->
  events w' = events w ++ es ->
  invocations w' = alter close_inv k (invocations w) ->
  microtasks w' = microtasks w ->
  Forall (fun e => forall j, concerns j e = true -> j = k) es ->
  story k es = S' -> Ending k (inv_args inv) S' ->
  Life w'.
Proof.
  intros HL Hm0 Hl Ho He Hi Hmi Hown HS' Hout.
  pose proof HL as [Hb Hnd Hm Hc Hs].
  split.
  - rewrite He, Hi, length_alter. apply Forall_app. split; [done|].
    eapply Forall_impl; [exact Hown|]. simpl. intros e H j Hj.
    rewrite (H j Hj). by apply lookup_lt_Some in Hl.
  - rewrite Hmi, Hm0. constructor.
  - rewrite Hmi, Hm0. constructor.
  - rewrite Hi. apply Forall_lookup. intros i x Hx.
    destruct (decide (i = k)) as [->|Hne].
    + rewrite list_lookup_alter_eq, Hl in Hx. by injection Hx as <-.
    + rewrite list_lookup_alter_ne in Hx by done.
      exact (proj1 (Forall_lookup _ _) Hc i x Hx).
  - intros i x. rewrite Hi, He, Hmi, Hm0, story_app. intros Hx.
    destruct (decide (i = k)) as [->|Hne].
    + rewrite list_lookup_alter_eq, Hl in Hx. injection Hx as <-.
      destruct (Hs k inv Hl) as (L & S & E & Hp & Hn & _ & Hcl).
      assert (S = []) as ->.
      { destruct S; [done|]. rewrite Hcl in Ho; done. }
      rewrite Hm0 in Hn.
      exists L, S'. rewrite E, HS', app_nil_r. simpl inv_args.
      split_and!; try done.
      intros Hin. by apply elem_of_nil in Hin.
    + rewrite list_lookup_alter_ne in Hx by done.
      destruct (Hs i x Hx) as (L & S & E & Hp & Hn & Hout' & Hcl).
      rewrite Hm0 in Hp, Hn.
      exists L, S. rewrite E. split_and!; try done.
      rewrite (story_none i es), app_nil_r; [done|].
      eapply Forall_impl; [exact Hown|]. simpl. intros e H.
      destruct (concerns i e) eqn:Ec; [|done].
      specialize (H i Ec). congruence.
Qed.

Lemma Life_next w k inv v :
  Life w -> microtasks w = [] ->
  invocations w !! k = Some inv -> inv_sub_closed inv = false ->
  Life (on_next options k v w).
Proof.
  intros HL Hm0 Hl Ho.
  pose proof (open_not_closed w k inv HL Hl Ho) as Hc.
  apply (Life_settle w _ k inv (success_events options k inv v w)
           (success_events options k inv v w) HL Hm0 Hl Ho).
  - by apply (on_next_events options k v w inv).
  - by apply (on_next_invocations options k v w inv).
  - apply on_next_microtasks.
  - apply success_own.
  - by rewrite story_success, decide_True.
  - apply (end_success k (inv_args inv) v
             (read_handlers (inv_handlers inv) w)).
Qed.

Lemma Life_error w k inv e :
  Life w -> microtasks w = [] ->
  invocations w !! k = Some inv -> inv_sub_closed inv = false ->
  Life (on_error rev options k e w).
Proof.
  intros HL Hm0 Hl Ho.
  pose proof (open_not_closed w k inv HL Hl Ho) as Hc.
  apply (Life_settle w _ k inv (error_events rev options k inv e w)
           (failure_story k inv e w) HL Hm0 Hl Ho).
  - by apply (on_error_events rev options k e w inv).
  - by apply (on_error_invocations rev options k e w inv).
  - apply on_error_microtasks.
  - apply error_own.
  - by rewrite story_error, decide_True.
  - apply (end_error k (inv_args inv) e
             (read_handlers (inv_handlers inv) w)).
Qed.

Lemma Life_drain w : Life w -> Life (drain options w).
Proof.
  intros HL. pose proof HL as [Hb Hnd Hm Hc Hs].
  destruct (drain_fields options w)
    as (He & Hmi & _ & _ & _ & Hi & _).
  split.
  - rewrite He, Hi. apply Forall_app. split; [done|].
    apply Forall_flat_map. apply Forall_forall. intros m Hin.
    pose proof (micro_bound w m HL Hin) as Hlt.
    destruct m as [k args h]. simpl in *.
    fold (loads k args (read_handlers h w)).
    eapply Forall_impl; [apply loads_own|]. simpl. intros e H j Hj.
    by rewrite (H j Hj).
  - rewrite Hmi. constructor.
  - rewrite Hmi. constructor.
  - by rewrite Hi.
  - intros k inv. rewrite Hi, He, Hmi, story_app, story_drain by done.
    intros Hl.
    destruct (Hs k inv Hl) as (L & S & E & Hp & Hn & Hout & Hcl).
    destruct (list_find _ (microtasks w)) as [[i [k1 args h]]|] eqn:Ef.
    + apply list_find_Some in Ef as (Hi1 & Hk1 & _). simpl in Hk1. subst k1.
      assert (Hin : MLoading k args h ∈ microtasks w).
      { by eapply list_elem_of_lookup_2. }
      assert (Hk : k ∈ micro_index <$> microtasks w).
      { apply list_elem_of_fmap. by exists (MLoading k args h). }
      destruct (Hp Hk) as [-> ->].
      destruct (proj1 (Forall_forall _ _) Hm _ Hin) as (inv' & Hl' & Hmm).
      simpl in Hl', Hmm. rewrite Hl in Hl'. injection Hl' as <-.
      injection Hmm as -> ->.
      exists (loads k (inv_args inv)
                (read_handlers (inv_handlers inv) w)), [].
      rewrite E.
      split_and!;
        [by rewrite !app_nil_r
        |intros Hin'; by apply elem_of_nil in Hin'
        |intros _; by eexists
        |constructor
        |done].
    + apply list_find_None in Ef.
      assert (Hnin : k ∉ micro_index <$> microtasks w).
      { intros Hin. apply list_elem_of_fmap in Hin as (m & Hk & Hin).
        by apply (proj1 (Forall_forall _ _) Ef m Hin). }
      exists L, S. rewrite E, app_nil_r.
      split_and!;
        [done
        |intros Hin'; by apply elem_of_nil in Hin'
        |intros _; by apply Hn
        |done
        |done].
Qed.

Lemma Life_step w w' :
  Life w -> Move rev options getObservable w w' -> Life w'.
Proof.
  intros HL M.
  destruct M as [w w' Q|w args|w c f r Hr|w ds args|w k inv v Hm Hl Ho
                |w k inv e Hm Hl Ho|w].
  - by eapply Life_inert.
  - by apply Life_called.
  - by eapply Life_same_history.
  - by apply Life_dispatch.
  - by eapply Life_next.
  - by eapply Life_error.
  - by apply Life_drain.
Qed.

Lemma Life_start tr : Life (createBaseAction rev options tr).
Proof.
  split; try (by constructor).
  intros k inv Hl. done.
Qed.
End Life.

Lemma play_Life (a : Action) (tr : Tracker.GlobalHttpTracker JsVal)
    (sc : Scenario) (fuel : nat) :
  Life (a_rev a) (a_options a) (play a tr sc fuel).
Proof.
  apply reachable_ind; [apply Life_start|].
  intros w w' HL M. by eapply Life_step.
Qed.

(** X11.  What the history says about one invocation, on every scenario and
    in either revision: its dispatch (the loading status, the cleared error,
    the subscription to the producer), then its loading notification -- the
    controller-level [onLoading], then the per-invocation one -- and only
    then, at most once, its success or its failure, each with the
    callbacks in the order of the source and all with the arguments the
    invocation was dispatched with.  An index that was never dispatched has
    no event. *)
Theorem life_of_an_invocation
    (a : Action) (tr : Tracker.GlobalHttpTracker JsVal) (sc : Scenario)
    (fuel : nat) (k : nat) :
  let w := play a tr sc fuel in
  match invocations w !! k with
  | Some inv =>
      exists hs S,
        story k (events w)
        = dispatch_events k (inv_args inv)
          ++ loads (a_options a) k (inv_args inv) hs ++ S
        /\ Ending (a_rev a) (a_options a) k (inv_args inv) S
  | None => story k (events w) = []
  end.
Proof.
  cbv zeta. pose proof (play_Life a tr sc fuel) as HL.
  destruct (invocations _ !! k) as [inv|] eqn:Hl.
  - destruct (lf_story _ _ _ HL k inv Hl) as (L & S & E & _ & Hn & Ho & _).
    rewrite play_microtasks in Hn.
    destruct Hn as [hs ->]; [intros Hin; by apply elem_of_nil in Hin|].
    by exists hs, S.
  - eapply story_fresh; [exact HL|]. by apply lookup_ge_None.
Qed.

(** ** Which handler record a dispatch reads *)

Definition run_of (e : Event) : option (list JsVal) :=
  match e with
  | EvRun args => Some args
  | _ => None
  end.

(** The arguments of the [run] calls of a history, in order. *)
Definition runs (evs : list Event) : list (list JsVal) := omap run_of evs.

Lemma runs_app l1 l2 : runs (l1 ++ l2) = runs l1 ++ runs l2.
Proof. apply omap_app. Qed.

Lemma runs_quiet es : Forall quiet es -> runs es = [].
Proof.
  induction 1 as [|e es He _ IH]; [done|].
  change (runs (e :: es))
    with (match run_of e with Some a => a :: runs es | None => runs es end).
  rewrite IH. by destruct e.
Qed.

Lemma runs_dispatch k args : runs (dispatch_events k args) = [].
Proof. reflexivity. Qed.

Section Quiet.
Variable rev : Revision.
Variable options : ActionOptions.

Lemma runs_loading w ms :
  runs (flat_map (loading_block options w) ms) = [].
Proof.
  apply runs_quiet. apply Forall_flat_map, Forall_forall.
  intros [k args h] _. simpl. apply Forall_app. split; apply calls_quiet.
Qed.

Lemma runs_success k inv v w : runs (success_events options k inv v w) = [].
Proof. apply runs_quiet, success_events_quiet. Qed.

Lemma runs_error k inv e w : runs (error_events rev options k inv e w) = [].
Proof. apply runs_quiet, error_events_quiet. Qed.
End Quiet.

(** The record declared by the latest of the first [n] [run] calls; before
    any call, the record [createBaseAction] starts with. *)
Definition latest_record (n : nat) (w : World) : nat :=
  default 0%nat (last (take n (chains w))).

Section Records.
Variable options : ActionOptions.
Variable getObservable : list JsVal -> ObservableExpr.

Record Recorded (w : World) : Prop := mkRecorded {
  rc_chains : length (chains w) = length (runs (events w));
  rc_current : currentHandlers w = latest_record (length (chains w)) w;
  rc_read : forall k inv,
    invocations w !! k = Some inv ->
    exists pre post,
      events w = pre ++ EvDispatch k (inv_args inv) :: post
      /\ inv_handlers inv = latest_record (length (runs pre)) w;
}.

Lemma latest_record_grow n w w' r :
  chains w' = chains w ++ [r] -> (n <= length (chains w))%nat ->
  latest_record n w' = latest_record n w.
Proof.
  intros Hc Hn. unfold latest_record. rewrite Hc.
  by rewrite take_app_le.
Qed.

Lemma runs_prefix pre x post :
  (length (runs pre) <= length (runs (pre ++ x :: post)))%nat.
Proof. rewrite runs_app, length_app. lia. Qed.

Lemma Recorded_step w w' :
  Recorded w -> Move Part000 options getObservable w w' -> Recorded w'.
Proof.
  intros [Hc Hcur Hr] M.
  destruct M as [w w' Q|w args|w c f r Hrg|w ds args|w k inv v Hm Hl Ho
                |w k inv e Hm Hl Ho|w].
  - assert (Hev : events w' = events w).
    { unfold events. by rewrite (nt_trace _ _ Q). }
    unfold latest_record in *.
    split; unfold latest_record;
      rewrite ?Hev, ?(nt_chains _ _ Q), ?(nt_current _ _ Q); [done|done|].
    intros k inv' Hl'.
    assert (H : (static <$> invocations w) !! k = Some (static inv')).
    { by rewrite <- (nt_static _ _ Q), list_lookup_fmap, Hl'. }
    rewrite list_lookup_fmap in H.
    destruct (invocations w !! k) as [inv|] eqn:Hl; [|done].
    simpl in H. unfold static in H.
    destruct (Hr k inv Hl) as (pre & post & E & Hh).
    exists pre, post.
    replace (inv_args inv') with (inv_args inv) by congruence.
    replace (inv_handlers inv') with (inv_handlers inv) by congruence.
    done.
  - destruct (called_effect Part000 args w)
      as (He & _ & Hch & _ & Hi & _).
    assert (Hcu : currentHandlers (called Part000 args w) = length (heap w))
      by reflexivity.
    split.
    + rewrite Hch, He, runs_app, !length_app. simpl. lia.
    + rewrite Hcu. unfold latest_record. rewrite Hch, length_app. simpl.
      rewrite take_ge by (rewrite length_app; simpl; lia).
      by rewrite last_snoc.
    + intros k inv. rewrite Hi. intros Hl.
      destruct (Hr k inv Hl) as (pre & post & E & Hh).
      exists pre, (post ++ [EvRun args]). split.
      * rewrite He, E. by rewrite <- app_assoc.
      * rewrite Hh. symmetry. eapply latest_record_grow; [exact Hch|].
        rewrite Hc, E. apply runs_prefix.
  - unfold latest_record in *. split; unfold latest_record; done.
  - destruct (announced_effect Part000 options getObservable ds args w)
      as (He & _ & _ & _ & Hch & Hcu & _ & _ & _ & _ & h & Hi & _ & Hh & _).
    cbv zeta in *.
    assert (Hlr : forall n,
              latest_record n (announced Part000 options getObservable ds
                                 args w) = latest_record n w).
    { intros n. unfold latest_record. by rewrite Hch. }
    split.
    + by rewrite Hch, He, runs_app, runs_dispatch, app_nil_r.
    + by rewrite Hcu, Hlr, Hch.
    + intros k inv. rewrite Hi, He. intros Hl.
      apply lookup_app_Some in Hl as [Hl|[Hge Hl]].
      * destruct (Hr k inv Hl) as (pre & post & E & Hh').
        exists pre, (post ++ dispatch_events (length (invocations w)) args).
        rewrite Hlr. split; [|done]. rewrite E. by rewrite <- app_assoc.
      * destruct (k - length (invocations w))%nat as [|n] eqn:En; [|done].
        injection Hl as <-. simpl.
        assert (k = length (invocations w)) as -> by lia.
        exists (events w), (tl (dispatch_events (length (invocations w)) args)).
        split; [done|]. by rewrite Hlr, Hh, Hcur, Hc.
  - destruct (Observe_frame Part000 options _ _ (ob_next Part000 options w k inv v Hl Ho))
      as (_ & _ & Hch & Hcu & Hst & _).
    pose proof (on_next_events options k v w inv Hl) as He.
    unfold latest_record in *.
    split; unfold latest_record.
    + by rewrite Hch, He, runs_app, runs_success, app_nil_r.
    + by rewrite Hcu, Hch.
    + intros i inv' Hl'. rewrite Hch, He.
      assert (H : (static <$> invocations w) !! i = Some (static inv')).
      { by rewrite <- Hst, list_lookup_fmap, Hl'. }
      rewrite list_lookup_fmap in H.
      destruct (invocations w !! i) as [inv0|] eqn:Hl0; [|done].
      simpl in H. unfold static in H.
      destruct (Hr i inv0 Hl0) as (pre & post & E & Hh).
      exists pre, (post ++ success_events options k inv v w).
      replace (inv_args inv') with (inv_args inv0) by congruence.
      replace (inv_handlers inv') with (inv_handlers inv0) by congruence.
      split; [|done]. rewrite E. by rewrite <- app_assoc.
  - destruct (Observe_frame Part000 options _ _ (ob_error Part000 options w k inv e Hl Ho))
      as (_ & _ & Hch & Hcu & Hst & _).
    pose proof (on_error_events Part000 options k e w inv Hl) as He.
    unfold latest_record in *.
    split; unfold latest_record.
    + by rewrite Hch, He, runs_app, runs_error, app_nil_r.
    + by rewrite Hcu, Hch.
    + intros i inv' Hl'. rewrite Hch, He.
      assert (H : (static <$> invocations w) !! i = Some (static inv')).
      { by rewrite <- Hst, list_lookup_fmap, Hl'. }
      rewrite list_lookup_fmap in H.
      destruct (invocations w !! i) as [inv0|] eqn:Hl0; [|done].
      simpl in H. unfold static in H.
      destruct (Hr i inv0 Hl0) as (pre & post & E & Hh).
      exists pre, (post ++ error_events Part000 options k inv e w).
      replace (inv_args inv') with (inv_args inv0) by congruence.
      replace (inv_handlers inv') with (inv_handlers inv0) by congruence.
      split; [|done]. rewrite E. by rewrite <- app_assoc.
  - destruct (drain_fields options w)
      as (He & _ & _ & Hch & Hcu & Hi & _).
    unfold latest_record in *.
    split; unfold latest_record.
    + by rewrite Hch, He, runs_app, runs_loading, app_nil_r.
    + by rewrite Hcu, Hch.
    + intros i inv. rewrite Hi, Hch, He. intros Hl.
      destruct (Hr i inv Hl) as (pre & post & E & Hh).
      exists pre, (post ++ flat_map (loading_block options w) (microtasks w)).
      split; [|done]. rewrite E. by rewrite <- app_assoc.
Qed.
End Records.

(** X17.  Part000: whatever the scenario, an invocation reads its
    per-invocation callbacks from the record that the latest [run] call
    before its dispatch declared -- the record all the chain methods were
    writing to at that moment -- and not from the record of the [run] call
    that asked for it. *)
Theorem part000_dispatch_reads_the_latest_record
    (options : ActionOptions) (getObservable : list JsVal -> ObservableExpr)
    (tr : Tracker.GlobalHttpTracker JsVal) (sc : Scenario) (fuel : nat)
    (k : nat) (inv : Invocation) :
  let w := play (mkAction Part000 options getObservable) tr sc fuel in
  invocations w !! k = Some inv ->
  exists pre post,
    events w = pre ++ EvDispatch k (inv_args inv) :: post
    /\ inv_handlers inv = latest_record (length (runs pre)) w
    /\ forall chain r, chain_target Part000 chain w = Some r ->
       r = latest_record (length (runs (events w))) w.
Proof.
  cbv zeta. intros Hl.
  assert (H : Recorded (play (mkAction Part000 options getObservable) tr sc fuel)).
  { apply (reachable_ind (mkAction Part000 options getObservable) tr Recorded).
    - by split.
    - intros w w' Hw M. by eapply Recorded_step. }
  destruct (rc_read _ H k inv Hl) as (pre & post & E & Hh).
  exists pre, post. split_and!; try done.
  intros chain r. unfold chain_target.
  destruct (chains _ !! chain); [|done]. intros [= <-].
  by rewrite (rc_current _ H), (rc_chains _ H).
Qed.

Lemma part000_dispatch_reads_the_latest_record_witness :
  let w := play (mkAction Part000 no_options Scenarios.fetch) Tracker.init
             (Scenarios.two_runs 0 10) 10 in
  exists inv pre post,
    invocations w !! 1%nat = Some inv
    /\ events w = pre ++ EvDispatch 1 (inv_args inv) :: post
    /\ inv_handlers inv = latest_record (length (runs pre)) w.
Proof.
  cbv zeta.
  assert (H : is_Some
                (invocations
                   (play (mkAction Part000 no_options Scenarios.fetch)
                      Tracker.init (Scenarios.two_runs 0 10) 10) !! 1%nat))
    by (vm_compute; eauto).
  destruct H as [inv H].
  destruct (part000_dispatch_reads_the_latest_record no_options
              Scenarios.fetch Tracker.init (Scenarios.two_runs 0 10) 10
              1 inv H) as (pre & post & E & Hh & _).
  exists inv, pre, post. split; [exact H|]. split; [exact E|exact Hh].
Defined.

(** ** Without debounce every [run] is dispatched, once and in order *)

Definition run_args (t : Task) : option (list JsVal) :=
  match t with
  | TRunTimeout args => Some args
  | _ => None
  end.

(** The [run] calls of Part000 whose [setTimeout(..., 0)] has not fired
    yet, in the order the timers will fire. *)
Definition pending_runs (q : list (Z * Task)) : list (list JsVal) :=
  omap (fun dt => run_args dt.2) q.

(** The arguments of the invocations, in the order of dispatch. *)
Definition dispatched_args (w : World) : list (list JsVal) :=
  inv_args <$> invocations w.

Lemma dispatched_args_static w w' :
  static <$> invocations w' = static <$> invocations w ->
  dispatched_args w' = dispatched_args w.
Proof.
  intros H. unfold dispatched_args.
  assert (E : forall l : list Invocation,
            inv_args <$> l
            = (fun s : list JsVal * nat * string * Downstream => s.1.1.1)
                <$> (static <$> l)).
  { intros l. rewrite <- list_fmap_compose. done. }
  by rewrite !E, H.
Qed.

Lemma pending_runs_cons dt q :
  pending_runs (dt :: q)
  = match run_args dt.2 with
    | Some a => a :: pending_runs q
    | None => pending_runs q
    end.
Proof. reflexivity. Qed.

(** A timer that is not a [run] timeout does not change their order. *)
Lemma pending_runs_other due t q :
  run_args t = None -> pending_runs (insert_timer due t q) = pending_runs q.
Proof.
  intros Ht. induction q as [|[d' t'] q IH]; cbn [insert_timer].
  - rewrite pending_runs_cons. cbn [snd]. by rewrite Ht.
  - destruct (due <? d').
    + rewrite pending_runs_cons. cbn [snd]. by rewrite Ht.
    + rewrite !pending_runs_cons. cbn [snd]. by rewrite IH.
Qed.

(** Timeouts set for now fire after those already due: first in, first
    out. *)
Lemma pending_runs_fifo due args q :
  StronglySorted by_due q ->
  Forall (fun dt => is_Some (run_args dt.2) -> dt.1 <= due) q ->
  pending_runs (insert_timer due (TRunTimeout args) q)
  = pending_runs q ++ [args].
Proof.
  induction 1 as [|[d' t'] q Hs IH Hx]; intros Hq; [done|].
  apply Forall_cons in Hq as [Hd Hq]. simpl in Hd. cbn [insert_timer].
  destruct (Z.ltb_spec due d').
  - assert (Hnone : pending_runs ((d', t') :: q) = []).
    { assert (Hall : Forall (fun dt => run_args dt.2 = None) ((d', t') :: q)).
      { constructor.
        - simpl. destruct (run_args t') eqn:E; [|done].
          assert (d' <= due) by (apply Hd; eauto). lia.
        - apply Forall_forall. intros dt Hin.
          destruct (run_args dt.2) eqn:E; [|done].
          pose proof (proj1 (Forall_forall _ _) Hq dt Hin) as H1.
          pose proof (proj1 (Forall_forall _ _) Hx dt Hin) as H2.
          unfold by_due in H2. simpl in H2.
          assert (dt.1 <= due) by (apply H1; eauto). lia. }
      clear -Hall. induction Hall as [|dt l Hdt _ IHl]; [done|].
      rewrite pending_runs_cons. by rewrite Hdt. }
    rewrite Hnone. rewrite pending_runs_cons. cbn [snd run_args].
    by rewrite Hnone.
  - rewrite !pending_runs_cons. cbn [snd]. rewrite IH by done.
    by destruct (run_args t').
Qed.

(** [q'] is [q] with timers of producers added, none due before [n]. *)
Inductive Sourced (n : Z) : list (Z * Task) -> list (Z * Task) -> Prop :=
| sourced_refl q : Sourced n q q
| sourced_more q q' k i d :
    Sourced n q q' ->
    Sourced n q (insert_timer (n + Z.max 0 d) (TSource k i) q').

Lemma Sourced_trans n q1 q2 q3 :
  Sourced n q1 q2 -> Sourced n q2 q3 -> Sourced n q1 q3.
Proof.
  intros H1 H2. induction H2 as [|q2 q3 k i d _ IH]; [done|].
  constructor. by apply IH.
Qed.

(** What a timer can be at time [n]: a block of the caller, a producer, in
    Part000 a [run] timeout that is due, and with debounce ([db]) the
    action of [debounceTime]. *)
Definition timer_ok (rev : Revision) (db : bool) (n : Z) (dt : Z * Task)
  : Prop :=
  match dt.2 with
  | TRunTimeout _ => rev = Part000 /\ dt.1 <= n
  | TDebounce => db = true
  | _ => True
  end.

Definition queue_ok (rev : Revision) (db : bool) (n : Z)
    (q : list (Z * Task)) : Prop :=
  StronglySorted by_due q /\ Forall (timer_ok rev db n) q
  /\ Forall (fun dt => n <= dt.1) q.

Lemma queue_ok_insert rev db n due t q :
  queue_ok rev db n q -> n <= due -> timer_ok rev db n (due, t) ->
  queue_ok rev db n (insert_timer due t q).
Proof.
  intros (Hs & Hk & Hf) Hd Ht. split_and!.
  - by apply insert_timer_sorted.
  - by apply Forall_insert_timer.
  - by apply Forall_insert_timer.
Qed.

Lemma Sourced_queue rev db n q q' :
  Sourced n q q' -> queue_ok rev db n q ->
  queue_ok rev db n q' /\ pending_runs q' = pending_runs q.
Proof.
  induction 1 as [|q q' k i d _ IH]; intros Hq; [done|].
  destruct (IH Hq) as [Hq' Hp]. split.
  - apply queue_ok_insert; [done|lia|done].
  - by rewrite pending_runs_other.
Qed.

(** The arguments [getObservable] is called with in a stretch of
    history. *)
Definition call_of (e : Event) : option (list JsVal) :=
  match e with
  | EvProducer _ args => Some args
  | _ => None
  end.

Definition calls (es : list Event) : list (list JsVal) := omap call_of es.

Lemma calls_app l1 l2 : calls (l1 ++ l2) = calls l1 ++ calls l2.
Proof. apply omap_app. Qed.

(** Events that are [quiet] carry no call of the producer. *)
Lemma calls_quiet_nil es : Forall quiet es -> calls es = [].
Proof.
  induction 1 as [|e es He _ IH]; [done|].
  change (calls (e :: es))
    with (match call_of e with Some a => a :: calls es | None => calls es end).
  rewrite IH. by destruct e.
Qed.

(** [w'] comes from [w] by dispatching [new] and by what observers do:
    no [run] call, no timer but those of producers, and the history grows
    by events of the current time. *)
Record Served (new : list (list JsVal)) (w w' : World) : Prop := mkServed {
  sv_args : dispatched_args w' = dispatched_args w ++ new;
  sv_runs : runs (events w') = runs (events w);
  sv_now : now w' = now w;
  sv_timers : Sourced (now w) (timers w) (timers w');
  sv_pipe : debounce_state w' = debounce_state w;
  sv_trace : exists es,
    trace w' = trace w ++ (pair (now w) <$> es)
    /\ runs es = [] /\ calls es = new;
}.

Lemma trace_same w w' :
  trace w' = trace w ->
  exists es, trace w' = trace w ++ (pair (now w) <$> es)
             /\ runs es = [] /\ calls es = [].
Proof. intros ->. exists []. by rewrite app_nil_r. Qed.

Lemma trace_quiet w w' :
  grows w w' ->
  exists es, trace w' = trace w ++ (pair (now w) <$> es)
             /\ runs es = [] /\ calls es = [].
Proof.
  intros (_ & _ & es & E & Q). exists es.
  split; [done|]. split; [by apply runs_quiet|by apply calls_quiet_nil].
Qed.

Lemma Served_refl w : Served [] w w.
Proof.
  split; try done; [by rewrite app_nil_r|constructor|by apply trace_same].
Qed.

Lemma Served_trans n1 n2 w1 w2 w3 :
  Served n1 w1 w2 -> Served n2 w2 w3 -> Served (n1 ++ n2) w1 w3.
Proof.
  intros [A1 R1 N1 T1 P1 (e1 & E1 & X1 & C1)]
         [A2 R2 N2 T2 P2 (e2 & E2 & X2 & C2)]. split.
  - by rewrite A2, A1, app_assoc.
  - congruence.
  - congruence.
  - rewrite N1 in T2. by eapply Sourced_trans.
  - congruence.
  - exists (e1 ++ e2). split_and!.
    + by rewrite E2, E1, N1, fmap_app, app_assoc.
    + by rewrite runs_app, X1, X2.
    + by rewrite calls_app, C1, C2.
Qed.

Lemma Served_same w w' :
  invocations w' = invocations w -> trace w' = trace w -> now w' = now w ->
  timers w' = timers w -> debounce_state w' = debounce_state w ->
  Served [] w w'.
Proof.
  intros Hi Ht Hn Hq Hp. split.
  - unfold dispatched_args. by rewrite Hi, app_nil_r.
  - unfold events. by rewrite Ht.
  - done.
  - rewrite Hq. constructor.
  - done.
  - by apply trace_same.
Qed.

Lemma Served_upd_inv k f w :
  (forall inv, static (f inv) = static inv) -> Closing f ->
  Served [] w (upd_inv k f w).
Proof.
  intros Hf Hc. split; try done; [|constructor|by apply trace_same].
  rewrite app_nil_r. apply dispatched_args_static.
  apply (nt_static _ _ (inert_upd_inv k f w Hf Hc)).
Qed.

Lemma Served_start_source k i s w : Served [] w (start_source k i s w).
Proof.
  destruct s as [|[d b] s]; [apply Served_refl|].
  split; try done; [by rewrite app_nil_r| |by apply trace_same].
  simpl. constructor. constructor.
Qed.

Lemma Served_start_sources k i ss w : Served [] w (start_sources k i ss w).
Proof.
  revert i w. induction ss as [|s ss IH]; intros i w; [apply Served_refl|].
  simpl. apply (Served_trans [] [] _ _ _ (Served_start_source k i s w)), IH.
Qed.

Section Serving.
Variable rev : Revision.
Variable options : ActionOptions.
Variable getObservable : list JsVal -> ObservableExpr.

Lemma Observe_runs w w' :
  Observe rev options w w' -> runs (events w') = runs (events w).
Proof.
  intros [w1 w2 H Hp|w1 k inv v Hl Hs|w1 k inv e Hl Hs].
  - unfold events. by rewrite (nt_trace _ _ H).
  - rewrite (on_next_events options k v w1 inv Hl), runs_app.
    by rewrite runs_success, app_nil_r.
  - rewrite (on_error_events rev options k e w1 inv Hl), runs_app.
    by rewrite runs_error, app_nil_r.
Qed.

Lemma Observes_runs w w' :
  Observes rev options w w' -> runs (events w') = runs (events w).
Proof.
  induction 1 as [|w1 w2 w3 H12 _ IH]; [done|].
  rewrite IH. by eapply Observe_runs.
Qed.

Lemma Served_fire_source k i w :
  Served [] w (fire_source rev options k i w).
Proof.
  pose proof (Observes_fire_source rev options k i w) as HO.
  destruct (fire_source_grows rev options k i w) as [HG Ht].
  pose proof HG as (Hn & _).
  split.
  - rewrite app_nil_r. apply dispatched_args_static.
    by destruct (Observes_frame rev options _ _ HO) as (_ & _ & _ & _ & ? & _).
  - by apply Observes_runs.
  - done.
  - destruct Ht as [->|[d ->]]; repeat constructor.
  - by destruct (Observes_frame rev options _ _ HO) as (_ & _ & _ & _ & _ & ?).
  - by apply trace_quiet.
Qed.

Lemma Served_drain w : Served [] w (drain options w).
Proof.
  destruct (drain_fields options w)
    as (He & _ & _ & _ & _ & Hi & _ & _ & _ & Ht & Hn & Hp & _).
  split.
  - unfold dispatched_args. by rewrite Hi, app_nil_r.
  - by rewrite He, runs_app, (runs_loading options), app_nil_r.
  - done.
  - rewrite Ht. constructor.
  - unfold debounce_state. by rewrite Hp.
  - apply trace_quiet. by destruct (grows_drain options w).
Qed.

Lemma Served_sub_complete k w : Served [] w (sub_complete k w).
Proof.
  unfold sub_complete. destruct (sub_closed k w); [apply Served_refl|].
  apply Served_upd_inv; [done|apply Closing_close_sub_of].
Qed.

Lemma Served_subscribe ds args w :
  Served [args] w
    (subscribe_exec getObservable ds
       (executeObservable rev options args w).1
       (executeObservable rev options args w).2).2.
Proof.
  assert (HA : Served [args] w (announced rev options getObservable ds args w)).
  { destruct (announced_effect rev options getObservable ds args w)
      as (He & _ & _ & _ & _ & _ & Hn & Ht & Hp & _ & h & Hi & _).
    cbv zeta in *. split.
    - unfold dispatched_args. by rewrite Hi, fmap_app.
    - by rewrite He, runs_app, runs_dispatch, app_nil_r.
    - done.
    - rewrite Ht. constructor.
    - unfold debounce_state. by rewrite Hp.
    - exists (dispatch_events (length (invocations w)) args).
      split; [|done].
      unfold announced, executeObservable.
      destruct rev, (tracked options); cbn;
        rewrite <- ?app_assoc; reflexivity. }
  apply (Served_trans [args] [] _ _ _ HA).
  unfold subscribe_exec, announced. cbn [snd]. cbv zeta.
  set (e := executeObservable rev options args w). clearbody e.
  destruct (getObservable (eo_args e.1)) as [s|[|x xs]].
  - apply Served_start_source.
  - apply Served_sub_complete.
  - apply Served_start_sources.
Qed.

Lemma Served_execute_now args w :
  Served [args] w (execute_now rev options getObservable args w).
Proof.
  unfold execute_now.
  set (w1 := match currentSub w with Some s => _ | None => w end).
  assert (E1 : Served [] w w1).
  { unfold w1. destruct (currentSub w) as [[|k]|]; try apply Served_refl.
    apply Served_upd_inv; [done|apply Closing_close_inv]. }
  pose proof (Served_subscribe Direct args w1) as E2.
  destruct (executeObservable rev options args w1) as [eo wa].
  cbn [fst snd] in E2.
  destruct (subscribe_exec getObservable Direct eo wa) as [k wb].
  cbn [snd] in E2.
  apply (Served_trans [] [args] _ _ _ E1).
  apply (Served_trans [args] [] _ _ _ E2).
  by apply Served_same.
Qed.
End Serving.

(** Inside a task: nothing is due before now, and every [run] call is an
    invocation or a timeout still to fire. *)
Definition InTask (rev : Revision) (w : World) : Prop :=
  dispatched_args w ++ pending_runs (timers w) = runs (events w)
  /\ queue_ok rev false (now w) (timers w).

(** Between tasks. *)
Definition Between (rev : Revision) (w : World) : Prop :=
  dispatched_args w ++ pending_runs (timers w) = runs (events w)
  /\ StronglySorted by_due (timers w)
  /\ Forall (timer_ok rev false (now w)) (timers w)
  /\ (pending_runs (timers w) <> [] ->
      Forall (fun dt => now w <= dt.1) (timers w)).

Lemma InTask_Between rev w : InTask rev w -> Between rev w.
Proof. intros (H & Hs & Hk & Hf). by split_and!. Qed.

Lemma pending_runs_elem d args q :
  (d, TRunTimeout args) ∈ q -> pending_runs q <> [].
Proof.
  intros Hin. apply list_elem_of_split in Hin as (l1 & l2 & ->).
  unfold pending_runs. rewrite omap_app. simpl.
  intros H. by apply app_eq_nil in H as [_ ?].
Qed.

Lemma pending_runs_part001 db n q :
  Forall (timer_ok Part001 db n) q -> pending_runs q = [].
Proof.
  induction 1 as [|[d t] q Hd _ IH]; [done|].
  rewrite pending_runs_cons, IH. unfold timer_ok in Hd. simpl in *.
  destruct t; try done. by destruct Hd.
Qed.

Lemma served_balance rev new w w' :
  dispatched_args w ++ new ++ pending_runs (timers w) = runs (events w) ->
  queue_ok rev false (now w) (timers w) ->
  Served new w w' -> InTask rev w'.
Proof.
  intros Hb Hq [HA HR HN HT _ _].
  destruct (Sourced_queue rev false _ _ _ HT Hq) as [Hq' Hp].
  split.
  - by rewrite HA, HR, Hp, <- app_assoc.
  - by rewrite HN.
Qed.

Lemma InTask_served rev w w' : InTask rev w -> Served [] w w' -> InTask rev w'.
Proof.
  intros [Hb Hq] HS. apply (served_balance rev [] w w'); try done.
Qed.

Lemma InTask_run rev options getObservable args w :
  debounced options = false ->
  InTask rev w -> InTask rev (run rev options getObservable args w).
Proof.
  intros Hdb [Hb Hq].
  destruct rev.
  - destruct (called_effect Part000 args w)
      as (He & _ & _ & _ & Hi & _ & _ & _ & Ht & Hn & _).
    change (run Part000 options getObservable args w)
      with (schedule 0 (TRunTimeout args) (called Part000 args w)).
    set (wc := called Part000 args w) in *.
    destruct Hq as (Hs & Hk & Hf).
    assert (Hd : now w + Z.max 0 0 = now w) by (simpl; lia).
    set (w' := schedule 0 (TRunTimeout args) wc).
    assert (E1 : dispatched_args w' = dispatched_args w).
    { unfold dispatched_args. change (invocations w') with (invocations wc).
      by rewrite Hi. }
    assert (E2 : events w' = events w ++ [EvRun args]).
    { change (events w') with (events wc). exact He. }
    assert (E3 : timers w'
                 = insert_timer (now w) (TRunTimeout args) (timers w)).
    { change (timers w')
        with (insert_timer (now wc + Z.max 0 0) (TRunTimeout args)
                (timers wc)).
      by rewrite Hn, Ht, Hd. }
    assert (E4 : now w' = now w) by exact Hn.
    split.
    + rewrite E1, E2, E3, runs_app, pending_runs_fifo; [| done |].
      * rewrite app_assoc. by rewrite Hb.
      * eapply Forall_impl; [exact Hk|]. intros [d t] H [a Ha].
        unfold timer_ok in H. simpl in *. destruct t; try done.
        destruct H. lia.
    + rewrite E3, E4.
      apply queue_ok_insert; [done|lia|].
      unfold timer_ok. simpl. split; [done|lia].
  - destruct (called_effect Part001 args w)
      as (He & _ & _ & _ & Hi & _ & _ & _ & Ht & Hn & _).
    change (run Part001 options getObservable args w)
      with (trigger Part001 options getObservable args
              (called Part001 args w)).
    unfold trigger. rewrite Hdb.
    set (wc := called Part001 args w) in *.
    eapply (served_balance Part001 [args] wc);
      [| |apply Served_execute_now].
    + unfold dispatched_args in *. rewrite Ht, Hi, He, runs_app.
      destruct Hq as (_ & Hk & _).
      rewrite (pending_runs_part001 _ _ _ Hk) in *.
      rewrite app_nil_r in *. by rewrite Hb.
    + by rewrite Hn, Ht.
Qed.

Lemma InTask_user_op rev options getObservable w op :
  debounced options = false ->
  InTask rev w -> InTask rev (user_op rev options getObservable w op).
Proof.
  intros Hdb H.
  assert (Hreg : forall c f, InTask rev (register rev c f w)).
  { intros c f. unfold register.
    destruct (chain_target rev c w) as [r|]; [|done].
    eapply InTask_served; [exact H|]. by apply Served_same. }
  destruct op; simpl; try apply Hreg. by apply InTask_run.
Qed.

(** The earliest timer fires. *)
Lemma Between_pop rev w due t q :
  Between rev w -> timers w = (due, t) :: q ->
  let w0 := set_now due (set_timers q w) in
  queue_ok rev false (now w0) (timers w0)
  /\ dispatched_args w0
     ++ match run_args t with Some a => [a] | None => [] end
     ++ pending_runs (timers w0)
     = runs (events w0)
  /\ t <> TDebounce.
Proof.
  intros (Hb & Hs & Hk & Hf) Ht. cbv zeta. rewrite Ht in *.
  apply StronglySorted_inv in Hs as [Hs Hle].
  apply Forall_cons in Hk as [Hkt Hk].
  split_and!.
  - cbn [now timers set_now set_timers]. split_and!; [done| |done].
    apply Forall_forall. intros [d t'] Hin.
    pose proof (proj1 (Forall_forall _ _) Hk _ Hin) as H.
    unfold timer_ok in *. simpl in *. destruct t'; try done.
    destruct H as [Hr Hd]. split; [done|].
    assert (Hne : pending_runs ((due, t) :: q) <> []).
    { eapply pending_runs_elem. right. exact Hin. }
    specialize (Hf Hne). apply Forall_cons in Hf as [Hf _]. simpl in Hf. lia.
  - change (runs (events (set_now due (set_timers q w))))
      with (runs (events w)).
    change (dispatched_args (set_now due (set_timers q w)))
      with (dispatched_args w).
    cbn [now timers set_now set_timers]. rewrite pending_runs_cons in Hb.
    cbn [snd] in Hb. rewrite <- Hb. by destruct (run_args t).
  - intros ->. unfold timer_ok in Hkt. simpl in Hkt. done.
Qed.

Lemma Between_step rev options getObservable w w' :
  debounced options = false ->
  Between rev w -> step rev options getObservable w = Some w' ->
  Between rev w'.
Proof.
  intros Hdb HB. unfold step.
  destruct (timers w) as [|[due t] q] eqn:Ht; [done|]. intros [= <-].
  destruct (Between_pop rev w due t q HB Ht) as (Hq & Hb & Hnd).
  cbv zeta in *. set (w0 := set_now due (set_timers q w)) in *.
  apply InTask_Between.
  eapply InTask_served; [|apply Served_drain].
  destruct t as [ops|args| |k i]; simpl in *.
  - assert (H0 : InTask rev w0) by (by split).
    clear -H0 Hdb. clearbody w0. revert w0 H0.
    induction ops as [|op ops IH]; intros w0 H0; [done|].
    simpl. apply IH. by apply InTask_user_op.
  - unfold trigger. rewrite Hdb.
    apply (served_balance rev [args] w0);
      [exact Hb|exact Hq|apply Served_execute_now].
  - done.
  - apply (InTask_served rev w0); [split; [exact Hb|exact Hq]|].
    apply Served_fire_source.
Qed.

Lemma Between_turns rev options getObservable fuel w :
  debounced options = false ->
  Between rev w -> Between rev (turns rev options getObservable fuel w).
Proof.
  intros Hdb. revert w. induction fuel as [|fuel IH]; intros w H; [done|].
  simpl. destruct (step rev options getObservable w) as [w'|] eqn:E; [|done].
  apply IH. by eapply Between_step.
Qed.

Lemma Between_boot rev options tr sc : Between rev (boot rev options tr sc).
Proof.
  assert (H : StronglySorted by_due (timers (boot rev options tr sc))
              /\ Forall (timer_ok rev false 0)
                   (timers (boot rev options tr sc))
              /\ pending_runs (timers (boot rev options tr sc)) = []).
  { unfold boot.
    assert (H0 : StronglySorted by_due (timers (createBaseAction rev options tr))
                 /\ Forall (timer_ok rev false 0)
                      (timers (createBaseAction rev options tr))
                 /\ pending_runs (timers (createBaseAction rev options tr))
                    = [])
      by (split; [constructor|split; [constructor|reflexivity]]).
    revert H0. generalize (createBaseAction rev options tr).
    induction sc as [|b sc IH]; intros w0 H0; [done|].
    simpl. apply IH. destruct H0 as (Hs & Hk & Hp).
    cbn [timers set_timers]. split; [|split].
    - by apply insert_timer_sorted.
    - by apply Forall_insert_timer.
    - by rewrite pending_runs_other. }
  destruct H as (Hs & Hk & Hp).
  destruct (boot_fields rev options tr sc)
    as (_ & Hi & Htr & Hn & _).
  unfold Between, dispatched_args, events. rewrite Hi, Htr, Hn, Hp.
  by split_and!.
Qed.

(** X15.  A controller without debounce dispatches every [run] call, once
    and in the order of the calls, with the arguments of the call: at any
    moment the arguments of the invocations, followed by those of the
    Part000 timeouts still to fire, are the arguments of the [run] calls
    made so far.  Part001 has no such timeout: there the invocations are the
    [run] calls as soon as [run] returns. *)
Theorem every_run_is_dispatched_in_order
    (a : Action) (tr : Tracker.GlobalHttpTracker JsVal) (sc : Scenario)
    (fuel : nat) :
  debounced (a_options a) = false ->
  let w := play a tr sc fuel in
  dispatched_args w ++ pending_runs (timers w) = runs (events w)
  /\ (a_rev a = Part001 -> pending_runs (timers w) = [])
  /\ (quiescent w = true -> dispatched_args w = runs (events w)).
Proof.
  intros Hdb. cbv zeta.
  assert (H : Between (a_rev a) (play a tr sc fuel)).
  { unfold play. apply Between_turns; [done|]. apply Between_boot. }
  destruct H as (Hb & _ & Hk & _). split_and!.
  - exact Hb.
  - intros Hr. rewrite Hr in Hk. by eapply pending_runs_part001.
  - unfold quiescent. intros Hq. rewrite <- Hb.
    destruct (timers _); [|done]. by rewrite app_nil_r.
Qed.

Lemma every_run_is_dispatched_in_order_witness :
  let a := createSignalAction Part000 Scenarios.fetch no_options in
  let w := play a Tracker.init (Scenarios.two_runs 0 10) 10 in
  debounced (a_options a) = false
  /\ dispatched_args w ++ pending_runs (timers w) = runs (events w).
Proof.
  split; [reflexivity|].
  exact (proj1 (every_run_is_dispatched_in_order
                  (createSignalAction Part000 Scenarios.fetch no_options)
                  Tracker.init (Scenarios.two_runs 0 10) 10 eq_refl)).
Defined.

(** ** With debounce the last [run] wins *)

Lemma Sourced_pending n q q' :
  Sourced n q q' -> pending_runs q' = pending_runs q.
Proof.
  induction 1 as [|q q' k i d _ IH]; [done|]. by rewrite pending_runs_other.
Qed.

Lemma Sourced_elem n q q' x : Sourced n q q' -> x ∈ q -> x ∈ q'.
Proof.
  induction 1 as [|q q' k i d _ IH]; [done|]. intros Hx.
  rewrite insert_timer_perm. right. by apply IH.
Qed.

(** The timers between two tasks. *)
Definition queue_between (rev : Revision) (db : bool) (w : World) : Prop :=
  StronglySorted by_due (timers w)
  /\ Forall (timer_ok rev db (now w)) (timers w)
  /\ (pending_runs (timers w) <> [] ->
      Forall (fun dt => now w <= dt.1) (timers w)).

Lemma queue_pop rev db w due t q :
  queue_between rev db w -> timers w = (due, t) :: q ->
  queue_ok rev db due q /\ timer_ok rev db (now w) (due, t).
Proof.
  intros (Hs & Hk & Hf) Ht. rewrite Ht in *.
  apply StronglySorted_inv in Hs as [Hs Hle].
  apply Forall_cons in Hk as [Hkt Hk].
  split; [|done]. split_and!; [done| |done].
  apply Forall_forall. intros [d t'] Hin.
  pose proof (proj1 (Forall_forall _ _) Hk _ Hin) as H.
  unfold timer_ok in *. simpl in *. destruct t'; try done.
  destruct H as [Hr Hd]. split; [done|].
  assert (Hne : pending_runs ((due, t) :: q) <> []).
  { eapply pending_runs_elem. right. exact Hin. }
  specialize (Hf Hne). apply Forall_cons in Hf as [Hf _]. simpl in Hf. lia.
Qed.

Lemma queue_boot rev db options tr sc :
  queue_between rev db (boot rev options tr sc)
  /\ pending_runs (timers (boot rev options tr sc)) = [].
Proof.
  assert (H : StronglySorted by_due (timers (boot rev options tr sc))
              /\ Forall (timer_ok rev db 0)
                   (timers (boot rev options tr sc))
              /\ pending_runs (timers (boot rev options tr sc)) = []).
  { unfold boot.
    assert (H0 : StronglySorted by_due (timers (createBaseAction rev options tr))
                 /\ Forall (timer_ok rev db 0)
                      (timers (createBaseAction rev options tr))
                 /\ pending_runs (timers (createBaseAction rev options tr))
                    = [])
      by (split; [constructor|split; [constructor|reflexivity]]).
    revert H0. generalize (createBaseAction rev options tr).
    induction sc as [|b sc IH]; intros w0 H0; [done|].
    simpl. apply IH. destruct H0 as (Hs & Hk & Hp).
    cbn [timers set_timers]. split; [|split].
    - by apply insert_timer_sorted.
    - by apply Forall_insert_timer.
    - by rewrite pending_runs_other. }
  destruct H as (Hs & Hk & Hp).
  destruct (boot_fields rev options tr sc) as (_ & _ & _ & Hn & _).
  split; [|done]. unfold queue_between. rewrite Hn, Hp. by split_and!.
Qed.

(** *** Calls with their time *)

(** The [run] calls of a history, with the time of the call. *)
Definition run_calls (tes : list (Z * Event)) : list (Z * list JsVal) :=
  omap (fun te => pair te.1 <$> run_of te.2) tes.

(** The Part000 timeouts still to fire, with the time they are due. *)
Definition pending_calls (q : list (Z * Task)) : list (Z * list JsVal) :=
  omap (fun dt => pair dt.1 <$> run_args dt.2) q.

Lemma run_calls_app l1 l2 : run_calls (l1 ++ l2) = run_calls l1 ++ run_calls l2.
Proof. apply omap_app. Qed.

Lemma producer_calls_app l1 l2 :
  producer_calls (l1 ++ l2) = producer_calls l1 ++ producer_calls l2.
Proof. apply omap_app. Qed.

Lemma run_calls_cons te tes :
  run_calls (te :: tes)
  = match run_of te.2 with
    | Some a => (te.1, a) :: run_calls tes
    | None => run_calls tes
    end.
Proof. unfold run_calls. simpl. by destruct (run_of te.2). Qed.

Lemma producer_calls_cons te tes :
  producer_calls (te :: tes)
  = match call_of te.2 with
    | Some a => (te.1, a) :: producer_calls tes
    | None => producer_calls tes
    end.
Proof. unfold producer_calls. simpl. by destruct te as [t []]. Qed.

Lemma pending_calls_cons dt q :
  pending_calls (dt :: q)
  = match run_args dt.2 with
    | Some a => (dt.1, a) :: pending_calls q
    | None => pending_calls q
    end.
Proof. unfold pending_calls. simpl. by destruct (run_args dt.2). Qed.

Lemma run_calls_stamped n es : run_calls (pair n <$> es) = pair n <$> runs es.
Proof.
  induction es as [|e es IH]; [done|].
  rewrite fmap_cons, run_calls_cons, IH. cbn [snd fst].
  change (runs (e :: es))
    with (match run_of e with Some a => a :: runs es | None => runs es end).
  by destruct (run_of e).
Qed.

Lemma producer_calls_stamped n es :
  producer_calls (pair n <$> es) = pair n <$> calls es.
Proof.
  induction es as [|e es IH]; [done|].
  rewrite fmap_cons, producer_calls_cons, IH. cbn [snd fst].
  change (calls (e :: es))
    with (match call_of e with Some a => a :: calls es | None => calls es end).
  by destruct (call_of e).
Qed.

Lemma run_calls_args tes : (run_calls tes).*2 = runs tes.*2.
Proof.
  induction tes as [|[t e] tes IH]; [done|].
  rewrite run_calls_cons. cbn [snd fst].
  change (runs ((t, e) :: tes).*2)
    with (match run_of e with
          | Some a => a :: runs tes.*2
          | None => runs tes.*2
          end).
  destruct (run_of e); [|exact IH].
  rewrite fmap_cons. cbn [snd]. by rewrite IH.
Qed.

Lemma pending_calls_args q : (pending_calls q).*2 = pending_runs q.
Proof.
  induction q as [|[d t] q IH]; [done|].
  rewrite pending_calls_cons, pending_runs_cons. cbn [snd fst].
  destruct (run_args t); [|exact IH].
  rewrite fmap_cons. cbn [snd]. by rewrite IH.
Qed.

Lemma pending_calls_other due t q :
  run_args t = None -> pending_calls (insert_timer due t q) = pending_calls q.
Proof.
  intros Ht. induction q as [|[d' t'] q IH]; cbn [insert_timer].
  - rewrite pending_calls_cons. cbn [snd]. by rewrite Ht.
  - destruct (due <? d').
    + rewrite pending_calls_cons. cbn [snd]. by rewrite Ht.
    + rewrite !pending_calls_cons. cbn [snd]. by rewrite IH.
Qed.

Lemma pending_calls_fifo due args q :
  StronglySorted by_due q ->
  Forall (fun dt => is_Some (run_args dt.2) -> dt.1 <= due) q ->
  pending_calls (insert_timer due (TRunTimeout args) q)
  = pending_calls q ++ [(due, args)].
Proof.
  induction 1 as [|[d' t'] q Hs IH Hx]; intros Hq; [done|].
  apply Forall_cons in Hq as [Hd Hq]. simpl in Hd. cbn [insert_timer].
  destruct (Z.ltb_spec due d').
  - assert (Hnone : pending_calls ((d', t') :: q) = []).
    { assert (Hall : Forall (fun dt => run_args dt.2 = None) ((d', t') :: q)).
      { constructor.
        - simpl. destruct (run_args t') eqn:E; [|done].
          assert (d' <= due) by (apply Hd; eauto). lia.
        - apply Forall_forall. intros dt Hin.
          destruct (run_args dt.2) eqn:E; [|done].
          pose proof (proj1 (Forall_forall _ _) Hq dt Hin) as H1.
          pose proof (proj1 (Forall_forall _ _) Hx dt Hin) as H2.
          unfold by_due in H2. simpl in H2.
          assert (dt.1 <= due) by (apply H1; eauto). lia. }
      clear -Hall. induction Hall as [|dt l Hdt _ IHl]; [done|].
      rewrite pending_calls_cons. by rewrite Hdt. }
    rewrite Hnone. rewrite pending_calls_cons. cbn [snd run_args fst].
    by rewrite Hnone.
  - rewrite !pending_calls_cons. cbn [snd fst]. rewrite IH by done.
    by destruct (run_args t').
Qed.

Lemma Sourced_pending_calls n q q' :
  Sourced n q q' -> pending_calls q' = pending_calls q.
Proof.
  induction 1 as [|q q' k i d _ IH]; [done|]. by rewrite pending_calls_other.
Qed.

(** [D] is a selection of the calls [R], each made at least [d] later. *)
Inductive Delayed (d : Z)
  : list (Z * list JsVal) -> list (Z * list JsVal) -> Prop :=
| delayed_nil : Delayed d [] []
| delayed_skip x D R : Delayed d D R -> Delayed d D (x :: R)
| delayed_cons tD tR a D R :
    tR + d <= tD -> Delayed d D R -> Delayed d ((tD, a) :: D) ((tR, a) :: R).

Lemma Delayed_nil_l d R : Delayed d [] R.
Proof. induction R; [apply delayed_nil|by apply delayed_skip]. Qed.

Lemma Delayed_app_r d D R R' : Delayed d D R -> Delayed d D (R ++ R').
Proof.
  induction 1; simpl;
    [apply Delayed_nil_l|by apply delayed_skip|by apply delayed_cons].
Qed.

Lemma Delayed_snoc d D R tD tR a :
  Delayed d D R -> tR + d <= tD ->
  Delayed d (D ++ [(tD, a)]) (R ++ [(tR, a)]).
Proof.
  intros H Ht. induction H; simpl.
  - apply delayed_cons; [done|apply delayed_nil].
  - by apply delayed_skip.
  - by apply delayed_cons.
Qed.

Lemma Delayed_sublist d D R : Delayed d D R -> D.*2 `sublist_of` R.*2.
Proof.
  induction 1; simpl;
    [apply sublist_nil|by apply sublist_cons|by apply sublist_skip].
Qed.

(** What [debounceTime] holds, against the [run] calls [c] that have
    reached it: a value is the latest of them and has not been dispatched;
    with no value, the latest of them was dispatched last.  The calls of
    the producer are a selection of those [run] calls, each made when the
    window [d] had passed. *)
Definition Held (d : Z) (c : list (Z * list JsVal)) (w : World) : Prop :=
  match lastValue (pipeline w) with
  | Some a =>
      activeTask (pipeline w) = true
      /\ exists r t,
           c = r ++ [(t, a)] /\ t <= lastTime (pipeline w)
           /\ Delayed d (producer_calls (trace w)) r
  | None =>
      Delayed d (producer_calls (trace w)) c
      /\ last (producer_calls (trace w)).*2 = last c.*2
  end.

Definition Coalesced (d : Z) (w : World) : Prop :=
  exists c,
    run_calls (trace w) = c ++ pending_calls (timers w)
    /\ Held d c w
    /\ dispatched_args w = (producer_calls (trace w)).*2.

(** While [debounceTime] has an action scheduled, its timer is set. *)
Definition Armed (w : World) : Prop :=
  activeTask (pipeline w) = true -> exists d, (d, TDebounce) ∈ timers w.

Lemma Held_delayed d c w : Held d c w -> Delayed d (producer_calls (trace w)) c.
Proof.
  unfold Held. destruct (lastValue (pipeline w)) as [a|].
  - intros (_ & r & t & -> & _ & H). by apply Delayed_app_r.
  - by intros [H _].
Qed.

Lemma Held_same d c w w' :
  Held d c w -> producer_calls (trace w') = producer_calls (trace w) ->
  debounce_state w' = debounce_state w -> Held d c w'.
Proof.
  unfold Held, debounce_state. intros H Hd Hp.
  injection Hp as Ha Hl Ht. by rewrite Hd, Ha, Hl, Ht.
Qed.

Lemma served_calls new w w' :
  Served new w w' ->
  run_calls (trace w') = run_calls (trace w)
  /\ producer_calls (trace w')
     = producer_calls (trace w) ++ (pair (now w) <$> new).
Proof.
  intros [_ _ _ _ _ (es & E & X & C)]. rewrite E. split.
  - by rewrite run_calls_app, run_calls_stamped, X, app_nil_r.
  - by rewrite producer_calls_app, producer_calls_stamped, C.
Qed.

Lemma Coalesced_served d w w' :
  Coalesced d w -> Served [] w w' -> Coalesced d w'.
Proof.
  intros (c & Hr & Hh & Hd) HS.
  destruct (served_calls _ _ _ HS) as [HR HP]. simpl in HP.
  rewrite app_nil_r in HP.
  destruct HS as [HA _ HN HT HPi _]. exists c. split_and!.
  - by rewrite HR, (Sourced_pending_calls _ _ _ HT).
  - by eapply Held_same.
  - by rewrite HA, app_nil_r, HP.
Qed.

Lemma Armed_served new w w' : Armed w -> Served new w w' -> Armed w'.
Proof.
  intros H [_ _ _ HT HP _] Ha. unfold debounce_state in HP.
  injection HP as HP _ _. rewrite HP in Ha.
  destruct (H Ha) as [d Hd]. exists d. by eapply Sourced_elem.
Qed.

Section Debounced.
Variable rev : Revision.
Variable options : ActionOptions.
Variable getObservable : list JsVal -> ObservableExpr.

Lemma Served_switchMap_next args w :
  Served [args] w (switchMap_next rev options getObservable args w).
Proof.
  unfold switchMap_next.
  set (w1 := match innerSubscriber (pipeline w) with Some k => _ | None => w end).
  assert (E1 : Served [] w w1).
  { unfold w1. destruct (innerSubscriber (pipeline w)) as [k|];
      [|apply Served_refl].
    apply Served_upd_inv; [done|apply Closing_close_inv]. }
  pose proof (Served_subscribe rev options getObservable SwitchMapInner args w1)
    as E2.
  destruct (executeObservable rev options args w1) as [eo wa].
  cbn [fst snd] in E2.
  destruct (subscribe_exec getObservable SwitchMapInner eo wa) as [k wb].
  cbn [snd] in E2.
  apply (Served_trans [] [args] _ _ _ E1).
  apply (Served_trans [args] [] _ _ _ E2).
  by apply Served_same.
Qed.

(** A value reaches [debounceTime]. *)
Lemma runSubject_next_effect a w :
  let w' := runSubject_next options a w in
  dispatched_args w' = dispatched_args w /\ trace w' = trace w
  /\ now w' = now w
  /\ lastValue (pipeline w') = Some a /\ activeTask (pipeline w') = true
  /\ lastTime (pipeline w') = now w
  /\ (timers w' = timers w /\ activeTask (pipeline w) = true
      \/ timers w'
         = insert_timer (now w + Z.max 0 (dueTime options)) TDebounce
             (timers w)).
Proof.
  cbv zeta. unfold runSubject_next.
  destruct (activeTask (pipeline w)) eqn:Ha; cbn; rewrite ?Ha;
    split_and!; try done; [by left|by right].
Qed.

Lemma Held_next d c a w :
  Held d c w -> Held d (c ++ [(now w, a)]) (runSubject_next options a w).
Proof.
  intros H.
  destruct (runSubject_next_effect a w)
    as (_ & Htr & _ & Hl & Ha & Ht & _).
  cbv zeta in *. unfold Held. rewrite Hl, Htr, Ht. split; [done|].
  exists c, (now w). split_and!; [done|lia|]. by apply Held_delayed.
Qed.

Lemma queue_runSubject_next a w :
  queue_ok rev true (now w) (timers w) ->
  let w' := runSubject_next options a w in
  queue_ok rev true (now w') (timers w')
  /\ pending_calls (timers w') = pending_calls (timers w)
  /\ (Armed w -> Armed w').
Proof.
  intros Hq.
  destruct (runSubject_next_effect a w)
    as (_ & _ & Hn & _ & _ & _ & [[Ht Ha]| Ht]); cbv zeta in *;
    rewrite Hn, Ht.
  - split_and!; try done. intros H _. rewrite Ht. by apply H.
  - split_and!.
    + apply queue_ok_insert; [done|lia|done].
    + by apply pending_calls_other.
    + intros _ _. eexists. rewrite Ht, insert_timer_perm. left.
Qed.

(** The action of [debounceTime] fires. *)
Lemma emitWhenIdle_coalesced w :
  queue_ok rev true (now w) (timers w) -> Coalesced (dueTime options) w ->
  let w' := emitWhenIdle rev options getObservable w in
  queue_ok rev true (now w') (timers w')
  /\ Coalesced (dueTime options) w' /\ Armed w'.
Proof.
  intros Hq (c & Hr & Hh & Hd). cbv zeta. unfold emitWhenIdle.
  destruct (Z.ltb_spec (now w) (lastTime (pipeline w) + dueTime options))
    as [Hlt|Hge].
  - (* the window was moved: wait for the rest of it *)
    unfold schedule. cbn [now timers set_timers]. split_and!.
    + apply queue_ok_insert; [done|lia|done].
    + exists c. split_and!.
      * change (trace (set_timers _ w)) with (trace w).
        cbn [timers set_timers]. by rewrite pending_calls_other.
      * eapply Held_same; [exact Hh|done..].
      * exact Hd.
    + intros _. eexists. cbn [timers set_timers].
      rewrite insert_timer_perm. left.
  - unfold emit. destruct (activeTask (pipeline w)) eqn:Ha.
    + set (w1 := set_pipeline _ w).
      assert (Hq1 : queue_ok rev true (now w1) (timers w1)) by done.
      destruct (lastValue (pipeline w)) as [a|] eqn:Hl.
      * pose proof (Served_switchMap_next a w1) as HS.
        destruct (served_calls _ _ _ HS) as [HR HP].
        pose proof HS as [HA _ HN HT HPi _].
        destruct (Sourced_queue rev true _ _ _ HT Hq1) as [Hq' _].
        change (trace w1) with (trace w) in *.
        change (now w1) with (now w) in *.
        change (dispatched_args w1) with (dispatched_args w) in *.
        split_and!.
        -- by rewrite HN.
        -- exists c. split_and!.
           ++ rewrite HR, (Sourced_pending_calls _ _ _ HT). exact Hr.
           ++ unfold Held in *. rewrite Hl in Hh.
              destruct Hh as (_ & r & t & -> & Htl & Hsub).
              unfold debounce_state in HPi. injection HPi as _ HPi _.
              rewrite HPi, HP. simpl. split.
              ** apply Delayed_snoc; [exact Hsub|lia].
              ** rewrite !fmap_app. simpl. by rewrite !last_snoc.
           ++ rewrite HA, HP, fmap_app, Hd. reflexivity.
        -- intros Hact. unfold debounce_state in HPi.
           injection HPi as HPi _ _. rewrite HPi in Hact. done.
      * split_and!; [done| |done].
        exists c. split_and!; [exact Hr| |exact Hd].
        unfold Held in *. rewrite Hl in Hh. simpl. exact Hh.
    + split_and!; [done| |].
      * by exists c.
      * intros H. congruence.
Qed.
End Debounced.

(** Inside a task and between tasks. *)
Definition DebIn (rev : Revision) (d : Z) (w : World) : Prop :=
  queue_ok rev true (now w) (timers w) /\ Coalesced d w /\ Armed w.

Definition DebBetween (rev : Revision) (d : Z) (w : World) : Prop :=
  queue_between rev true w /\ Coalesced d w /\ Armed w.

Lemma DebIn_Between rev d w : DebIn rev d w -> DebBetween rev d w.
Proof. intros ((Hs & Hk & Hf) & Hc & Ha). by split_and!. Qed.

Lemma DebIn_served rev d w w' :
  DebIn rev d w -> Served [] w w' -> DebIn rev d w'.
Proof.
  intros (Hq & Hc & Ha) HS. pose proof HS as [_ _ HN HT _ _].
  destruct (Sourced_queue rev true _ _ _ HT Hq) as [Hq' _].
  split_and!.
  - by rewrite HN.
  - by eapply Coalesced_served.
  - by eapply Armed_served.
Qed.

Lemma pending_calls_part001 db n q :
  Forall (timer_ok Part001 db n) q -> pending_calls q = [].
Proof.
  intros H. apply (pending_runs_part001 db n q) in H.
  rewrite <- pending_calls_args in H. by apply fmap_nil_inv in H.
Qed.

Lemma called_trace rev args w :
  trace (called rev args w) = trace w ++ [(now w, EvRun args)].
Proof. unfold called. by destruct rev. Qed.

Lemma DebIn_run rev options getObservable args w :
  debounced options = true ->
  DebIn rev (dueTime options) w ->
  DebIn rev (dueTime options) (run rev options getObservable args w).
Proof.
  intros Hdb (Hq & (c & Hr & Hh & Hda) & Ha).
  pose proof (called_trace rev args w) as Htr.
  destruct rev.
  - destruct (called_effect Part000 args w)
      as (He & _ & _ & _ & Hi & _ & _ & _ & Ht & Hn & Hp & _).
    change (run Part000 options getObservable args w)
      with (schedule 0 (TRunTimeout args) (called Part000 args w)).
    set (wc := called Part000 args w) in *.
    pose proof Hq as (Hs & Hk & Hf).
    assert (Hd : now w + Z.max 0 0 = now w) by (simpl; lia).
    set (w' := schedule 0 (TRunTimeout args) wc).
    assert (E1 : dispatched_args w' = dispatched_args w).
    { unfold dispatched_args. change (invocations w') with (invocations wc).
      by rewrite Hi. }
    assert (E2 : trace w' = trace w ++ [(now w, EvRun args)]) by exact Htr.
    assert (E3 : timers w'
                 = insert_timer (now w) (TRunTimeout args) (timers w)).
    { change (timers w')
        with (insert_timer (now wc + Z.max 0 0) (TRunTimeout args)
                (timers wc)).
      by rewrite Hn, Ht, Hd. }
    assert (E4 : now w' = now w) by exact Hn.
    assert (E5 : pipeline w' = pipeline w) by exact Hp.
    assert (E6 : producer_calls (trace w') = producer_calls (trace w)).
    { rewrite E2, producer_calls_app. simpl. by rewrite app_nil_r. }
    split_and!.
    + rewrite E3, E4.
      apply queue_ok_insert; [done|lia|].
      unfold timer_ok. simpl. split; [done|lia].
    + exists c. split_and!.
      * rewrite E2, E3, run_calls_app, pending_calls_fifo; [| done |].
        -- rewrite Hr, <- app_assoc. reflexivity.
        -- eapply Forall_impl; [exact Hk|]. intros [d t] H [a Hx].
           unfold timer_ok in H. simpl in *. destruct t; try done.
           destruct H. lia.
      * eapply Held_same; [exact Hh|done|].
        unfold debounce_state. by rewrite E5.
      * by rewrite E1, E6.
    + intros Hact. rewrite E5 in Hact. destruct (Ha Hact) as [d Hd'].
      exists d. rewrite E3, insert_timer_perm. by right.
  - destruct (called_effect Part001 args w)
      as (He & _ & _ & _ & Hi & _ & _ & _ & Ht & Hn & Hp & _).
    change (run Part001 options getObservable args w)
      with (trigger Part001 options getObservable args
              (called Part001 args w)).
    unfold trigger. rewrite Hdb.
    set (wc := called Part001 args w) in *.
    assert (Hqc : queue_ok Part001 true (now wc) (timers wc))
      by (by rewrite Hn, Ht).
    assert (Hpn : pending_calls (timers w) = []).
    { destruct Hq as (_ & Hk & _). by eapply pending_calls_part001. }
    assert (Hpc : producer_calls (trace wc) = producer_calls (trace w)).
    { rewrite Htr, producer_calls_app. simpl. by rewrite app_nil_r. }
    assert (Hhc : Held (dueTime options) c wc).
    { eapply Held_same; [exact Hh|done|].
      unfold debounce_state. by rewrite Hp. }
    assert (Hac : Armed wc).
    { intros Hact. rewrite Hp in Hact. rewrite Ht. by apply Ha. }
    destruct (queue_runSubject_next Part001 options args wc Hqc)
      as (Hq' & Hp' & Ha').
    destruct (runSubject_next_effect options args wc)
      as (Hd' & He' & _).
    cbv zeta in *. split_and!.
    + exact Hq'.
    + exists (c ++ [(now wc, args)]). split_and!.
      * rewrite He', Htr, run_calls_app, Hp', Ht, Hr, Hpn, Hn. simpl.
        by rewrite !app_nil_r.
      * by apply Held_next.
      * rewrite Hd', He', Hpc. unfold dispatched_args. by rewrite Hi.
    + by apply Ha'.
Qed.

Lemma DebIn_user_op rev options getObservable w op :
  debounced options = true ->
  DebIn rev (dueTime options) w ->
  DebIn rev (dueTime options) (user_op rev options getObservable w op).
Proof.
  intros Hdb H.
  assert (Hreg : forall c f, DebIn rev (dueTime options) (register rev c f w)).
  { intros c f. unfold register.
    destruct (chain_target rev c w) as [r|]; [|done].
    eapply DebIn_served; [exact H|]. by apply Served_same. }
  destruct op; simpl; try apply Hreg. by apply DebIn_run.
Qed.

Lemma DebBetween_step rev options getObservable w w' :
  debounced options = true ->
  DebBetween rev (dueTime options) w ->
  step rev options getObservable w = Some w' ->
  DebBetween rev (dueTime options) w'.
Proof.
  intros Hdb (HQ & (c & Hr & Hh & Hd) & Ha). unfold step.
  destruct (timers w) as [|[due t] q] eqn:Ht; [done|]. intros [= <-].
  destruct (queue_pop rev true w due t q HQ Ht) as (Hq & Hkt).
  set (w0 := set_now due (set_timers q w)).
  assert (Hq0 : queue_ok rev true (now w0) (timers w0)) by exact Hq.
  assert (Hh0 : Held (dueTime options) c w0) by (by eapply Held_same).
  assert (Hr0 : run_calls (trace w0)
                = c ++ match run_args t with
                       | Some a => [(due, a)]
                       | None => []
                       end
                    ++ pending_calls (timers w0)).
  { change (trace w0) with (trace w). rewrite Hr, pending_calls_cons.
    cbn [snd fst]. by destruct (run_args t). }
  assert (Ha0 : t <> TDebounce -> Armed w0).
  { intros Hne Hact. destruct (Ha Hact) as [d Hd']. rewrite Ht in Hd'.
    apply elem_of_cons in Hd' as [Hd'|Hd']; [congruence|]. by exists d. }
  apply DebIn_Between.
  eapply DebIn_served; [|apply Served_drain].
  destruct t as [ops|args| |k i]; cbn [run_task run_args] in *.
  - assert (H0 : DebIn rev (dueTime options) w0).
    { split_and!; [done| |by apply Ha0]. exists c. by rewrite Hr0. }
    clear -H0 Hdb. clearbody w0. revert w0 H0.
    induction ops as [|op ops IH]; intros w0 H0; [done|].
    simpl. apply IH. by apply DebIn_user_op.
  - unfold trigger. rewrite Hdb.
    destruct (queue_runSubject_next rev options args w0 Hq0)
      as (Hq' & Hp' & Ha').
    destruct (runSubject_next_effect options args w0)
      as (Hd' & He' & _).
    cbv zeta in *. split_and!.
    + exact Hq'.
    + exists (c ++ [(now w0, args)]). split_and!.
      * rewrite He', Hp', Hr0. by rewrite <- app_assoc.
      * by apply Held_next.
      * by rewrite Hd', He'.
    + apply Ha', Ha0. done.
  - apply emitWhenIdle_coalesced; [done|]. exists c. by rewrite Hr0.
  - apply (DebIn_served rev _ w0); [|apply Served_fire_source].
    split_and!; [done| |by apply Ha0]. exists c. by rewrite Hr0.
Qed.

Lemma DebBetween_turns rev options getObservable fuel w :
  debounced options = true ->
  DebBetween rev (dueTime options) w ->
  DebBetween rev (dueTime options) (turns rev options getObservable fuel w).
Proof.
  intros Hdb. revert w. induction fuel as [|fuel IH]; intros w H; [done|].
  simpl. destruct (step rev options getObservable w) as [w'|] eqn:E; [|done].
  apply IH. by eapply DebBetween_step.
Qed.

Lemma DebBetween_boot rev d options tr sc :
  DebBetween rev d (boot rev options tr sc).
Proof.
  destruct (queue_boot rev true options tr sc) as [HQ Hp].
  destruct (boot_fields rev options tr sc)
    as (_ & Hi & Htr & _ & _ & _ & _ & _ & _ & _ & Hpl & _).
  split_and!; [done| |].
  - exists []. unfold Held, dispatched_args.
    rewrite <- pending_calls_args in Hp. apply fmap_nil_inv in Hp.
    rewrite Htr, Hp, Hpl, Hi. simpl. split_and!; try done. constructor.
  - intros H. by rewrite Hpl in H.
Qed.

Lemma play_debounced (a : Action) (tr : Tracker.GlobalHttpTracker JsVal)
    (sc : Scenario) (fuel : nat) :
  debounced (a_options a) = true ->
  DebBetween (a_rev a) (dueTime (a_options a)) (play a tr sc fuel).
Proof.
  intros Hdb. unfold play. apply DebBetween_turns; [done|].
  apply DebBetween_boot.
Qed.

(** X16.  With debounce, what is dispatched is a selection of the [run]
    calls, in their order: every invocation has the arguments of a [run]
    call, and calls are neither repeated nor reordered.  When nothing is
    left to happen, the invocation dispatched last has the arguments of the
    last [run] call: the last call is never the one that is dropped. *)
Theorem debounce_dispatches_the_last_run
    (a : Action) (tr : Tracker.GlobalHttpTracker JsVal) (sc : Scenario)
    (fuel : nat) :
  debounced (a_options a) = true ->
  let w := play a tr sc fuel in
  dispatched_args w `sublist_of` runs (events w)
  /\ (quiescent w = true ->
      last (dispatched_args w) = last (runs (events w))).
Proof.
  intros Hdb. cbv zeta.
  destruct (play_debounced a tr sc fuel Hdb)
    as (_ & (c & Hr & Hh & Hd) & Ha).
  assert (HR : runs (events (play a tr sc fuel))
               = c.*2 ++ pending_runs (timers (play a tr sc fuel))).
  { unfold events. rewrite <- run_calls_args, Hr, fmap_app.
    by rewrite pending_calls_args. }
  split.
  - rewrite HR, Hd. apply sublist_inserts_r.
    eapply Delayed_sublist, Held_delayed, Hh.
  - unfold quiescent. intros Hq.
    destruct (timers (play a tr sc fuel)) eqn:Ht; [|done].
    rewrite HR, Hd. simpl. rewrite app_nil_r.
    unfold Held in Hh. destruct (lastValue _) as [x|].
    + destruct Hh as (Hact & _). destruct (Ha Hact) as [d Hd'].
      rewrite Ht in Hd'. by apply elem_of_nil in Hd'.
    + by destruct Hh.
Qed.

Lemma debounce_dispatches_the_last_run_witness :
  let a := createSignalAction Part001 Scenarios.fetch
             (mkOptions None (Some 300) None None None) in
  let w := play a Tracker.init (Scenarios.two_runs 0 10) 10 in
  debounced (a_options a) = true
  /\ dispatched_args w `sublist_of` runs (events w).
Proof.
  split; [reflexivity|].
  exact (proj1 (debounce_dispatches_the_last_run
                  (createSignalAction Part001 Scenarios.fetch
                     (mkOptions None (Some 300) None None None))
                  Tracker.init (Scenarios.two_runs 0 10) 10 eq_refl)).
Defined.

(** X18.  With debounce, the producer is called only for [run] calls, in
    their order, and never before the window has passed: each call of
    [getObservable] has the arguments of a [run] call of its own that was
    made at least [debounceMs] earlier. *)
Theorem debounce_waits_for_the_window
    (a : Action) (tr : Tracker.GlobalHttpTracker JsVal) (sc : Scenario)
    (fuel : nat) :
  debounced (a_options a) = true ->
  let w := play a tr sc fuel in
  Delayed (dueTime (a_options a))
    (producer_calls (trace w)) (run_calls (trace w)).
Proof.
  intros Hdb. cbv zeta.
  destruct (play_debounced a tr sc fuel Hdb)
    as (_ & (c & Hr & Hh & Hd) & Ha).
  rewrite Hr. apply Delayed_app_r. by eapply Held_delayed.
Qed.

Lemma debounce_waits_for_the_window_witness :
  let a := createSignalAction Part000 Scenarios.fetch
             (mkOptions None (Some 300) None None None) in
  let w := play a Tracker.init (Scenarios.two_runs 0 10) 10 in
  debounced (a_options a) = true
  /\ Delayed 300 (producer_calls (trace w)) (run_calls (trace w)).
Proof.
  split; [reflexivity|].
  exact (debounce_waits_for_the_window
           (createSignalAction Part000 Scenarios.fetch
              (mkOptions None (Some 300) None None None))
           Tracker.init (Scenarios.two_runs 0 10) 10 eq_refl).
Defined.
